(** * BusTub storage core: LRU-K replacer, buffer pool manager, B+Tree pages,
      B+Tree and index iterator.

    A shallow embedding of the C++ sources
      src/buffer/lru_k_replacer.cpp, src/buffer/buffer_pool_manager.cpp,
      src/storage/page/b_plus_tree_{page,internal_page,leaf_page}.cpp,
      src/storage/index/b_plus_tree.cpp, src/storage/index/index_iterator.cpp
    together with the properties of the specification that concern them.

    Conventions.  Fixed-width integers are [Z] with their wrap-around written
    out; [std::list] is [list]; [std::unordered_map] is [gmap];
    [std::shared_ptr<LRUKNode>] is an address into an explicit node store, so
    that the list and the map of the replacer alias the same node.  Calls that
    throw, or that leave the behaviour of the program undefined, end in
    [Fail]. *)

From Stdlib Require Import ZArith Lia Bool.
From stdpp Require Import base option list sorting gmap strings.

Open Scope Z_scope.

(** ** Outcomes of a call *)

Inductive error : Type :=
  | RuntimeError (msg : string)   (* throw std::runtime_error(msg), assert *)
  | Undefined                     (* out-of-bounds access, dangling pointer *)
  | OutOfFuel.                    (* a loop of the model was cut short *)

Inductive res (A : Type) : Type :=
  | Ok (a : A)
  | Fail (e : error).
Arguments Ok {A} a.
Arguments Fail {A} e.

#[global] Instance res_ret : MRet res := fun A a => Ok a.
#[global] Instance res_bind : MBind res := fun A B f m =>
  match m with
  | Ok a => f a
  | Fail e => Fail e
  end.

Definition of_option {A} (o : option A) : res A :=
  match o with
  | Some a => Ok a
  | None => Fail Undefined
  end.

(** ** Machine integers *)

Definition wrap_size_t (z : Z) : Z := z mod 2 ^ 64.
Definition to_int32 (z : Z) : Z := (z + 2 ^ 31) mod 2 ^ 32 - 2 ^ 31.

Definition INVALID_PAGE_ID : Z := -1.

(** ** src/buffer/lru_k_replacer.cpp *)

Module LRUKReplacer.

(** Modelled from the spec: class [LRUKNode] is declared in
    buffer/lru_k_replacer.h, which is not among the sources.  The spec gives
    its attributes: the frame id, a history of access timestamps bounded to
    the most recent [k], the evictable flag and the k-distance.  How
    [UpdateKDistance] computes the stored distance from the history is left
    as the parameter [kdist] of [RecordAccess]. *)
Record LRUKNode : Type := mkNode {
  history_ : list Z;
  k_ : Z;
  fid_ : Z;
  k_distance_ : Z;
  is_evictable_ : bool
}.

Definition newNode (frame_id k : Z) : LRUKNode :=
  {| history_ := []; k_ := k; fid_ := frame_id; k_distance_ := 0;
     is_evictable_ := false |}.

Definition InsertTimeStamp (ts : Z) (n : LRUKNode) : LRUKNode :=
  let h := history_ n ++ [ts] in
  let h' := if Z.of_nat (length h) >? k_ n then tail h else h in
  {| history_ := h'; k_ := k_ n; fid_ := fid_ n;
     k_distance_ := k_distance_ n; is_evictable_ := is_evictable_ n |}.

Definition GetNumOfReferences (n : LRUKNode) : Z := Z.of_nat (length (history_ n)).

Definition UpdateKDistance (kdist : list Z → Z) (n : LRUKNode) : LRUKNode :=
  {| history_ := history_ n; k_ := k_ n; fid_ := fid_ n;
     k_distance_ := wrap_size_t (kdist (history_ n));
     is_evictable_ := is_evictable_ n |}.

Definition GetKDistance (n : LRUKNode) : Z := k_distance_ n.
Definition GetEvictable (n : LRUKNode) : bool := is_evictable_ n.
Definition GetFrameId (n : LRUKNode) : Z := fid_ n.

Definition NodeSetEvictable (b : bool) (n : LRUKNode) : LRUKNode :=
  {| history_ := history_ n; k_ := k_ n; fid_ := fid_ n;
     k_distance_ := k_distance_ n; is_evictable_ := b |}.

(** Addresses of the nodes held through [std::shared_ptr]. *)
Abbreviation ptr := nat (only parsing).

Record t : Type := mk {
  store : gmap nat LRUKNode;         (* the nodes, by address *)
  default_list_ : list ptr;          (* front of the std::list first *)
  default_map_ : gmap Z ptr;
  k_list_ : list ptr;
  k_map_ : gmap Z ptr;
  current_timestamp_ : Z;            (* size_t *)
  curr_size_ : Z;                    (* size_t *)
  replacer_size_ : Z;                (* size_t *)
  rk_ : Z                            (* size_t k_ *)
}.

(** LRUKReplacer::LRUKReplacer(num_frames, k) *)
Definition init (num_frames k : Z) : t :=
  {| store := ∅; default_list_ := []; default_map_ := ∅;
     k_list_ := []; k_map_ := ∅; current_timestamp_ := 0; curr_size_ := 0;
     replacer_size_ := num_frames; rk_ := k |}.

Definition deref (s : gmap nat LRUKNode) (p : ptr) : res LRUKNode :=
  of_option (s !! p).

(** The loop of [RemoveNode], run over the reversed list ([rbegin] to
    [rend]): the nodes passed over, the first evictable one, the nodes not
    reached. *)
Fixpoint rscan (s : gmap nat LRUKNode) (rl : list ptr)
  : res (option (list ptr * LRUKNode * list ptr)) :=
  match rl with
  | [] => Ok None
  | p :: rest =>
      n ← deref s p;
      if GetEvictable n then Ok (Some ([], n, rest))
      else
        r ← rscan s rest;
        Ok (match r with
            | Some (passed, hit, unseen) => Some (p :: passed, hit, unseen)
            | None => None
            end)
  end.

(** LRUKReplacer::RemoveNode(frame_id, lst, map): the frame id written
    through [frame_id] (when the call returns true), the list, the map and
    [curr_size_] after the call. *)
Definition RemoveNode (s : gmap nat LRUKNode) (lst : list ptr) (map : gmap Z ptr)
    (curr_size : Z) : res (option Z * list ptr * gmap Z ptr * Z) :=
  r ← rscan s (rev lst);
  match r with
  | Some (passed, node, unseen) =>
      let frame_id := GetFrameId node in
      Ok (Some frame_id, rev unseen ++ rev passed, delete frame_id map,
          wrap_size_t (curr_size - 1))
  | None => Ok (None, lst, map, curr_size)
  end.

(** LRUKReplacer::Evict(frame_id) *)
Definition Evict (r : t) : res (t * option Z) :=
  if curr_size_ r =? 0 then Ok (r, None)
  else
    '(from_default, dl, dm, cs) ←
        (if bool_decide (default_list_ r ≠ [])
         then RemoveNode (store r) (default_list_ r) (default_map_ r) (curr_size_ r)
         else Ok (None, default_list_ r, default_map_ r, curr_size_ r));
    match from_default with
    | Some f =>
        Ok ({| store := store r; default_list_ := dl; default_map_ := dm;
               k_list_ := k_list_ r; k_map_ := k_map_ r;
               current_timestamp_ := current_timestamp_ r; curr_size_ := cs;
               replacer_size_ := replacer_size_ r; rk_ := rk_ r |}, Some f)
    | None =>
        '(from_k, kl, km, cs') ←
            (if bool_decide (k_list_ r ≠ [])
             then RemoveNode (store r) (k_list_ r) (k_map_ r) cs
             else Ok (None, k_list_ r, k_map_ r, cs));
        Ok ({| store := store r; default_list_ := dl; default_map_ := dm;
               k_list_ := kl; k_map_ := km;
               current_timestamp_ := current_timestamp_ r; curr_size_ := cs';
               replacer_size_ := replacer_size_ r; rk_ := rk_ r |}, from_k)
    end.

(** The loop of [InsertKNode]: the elements in front of the insertion
    point, then the rest of the list. *)
Fixpoint k_position (s : gmap nat LRUKNode) (k_dist : Z) (l : list ptr)
  : res (list ptr * list ptr) :=
  match l with
  | [] => Ok ([], [])
  | p :: rest =>
      n ← deref s p;
      if k_dist <? GetKDistance n then
        '(before, after) ← k_position s k_dist rest;
        Ok (p :: before, after)
      else Ok ([], l)
  end.

(** LRUKReplacer::InsertKNode(node) *)
Definition InsertKNode (s : gmap nat LRUKNode) (k_list : list ptr) (node : ptr)
  : res (list ptr) :=
  match k_list with
  | [] => Ok [node]
  | _ =>
      n ← deref s node;
      '(before, after) ← k_position s (GetKDistance n) k_list;
      Ok (before ++ node :: after)
  end.

(** [std::list::remove(node)]: every element equal to [node] goes. *)
Definition list_remove (node : ptr) (l : list ptr) : list ptr :=
  filter (λ p, p ≠ node) l.

(** LRUKReplacer::RecordAccess(frame_id) *)
Definition RecordAccess (kdist : list Z → Z) (r : t) (frame_id : Z) : res t :=
  if frame_id >? to_int32 (replacer_size_ r) then Ok r
  else
    r' ←
      match default_map_ r !! frame_id, k_map_ r !! frame_id with
      | None, None =>
          let p := fresh (dom (store r)) in
          let node := InsertTimeStamp (current_timestamp_ r) (newNode frame_id (rk_ r)) in
          Ok {| store := <[p := node]> (store r);
                default_list_ := p :: default_list_ r;
                default_map_ := <[frame_id := p]> (default_map_ r);
                k_list_ := k_list_ r; k_map_ := k_map_ r;
                current_timestamp_ := current_timestamp_ r;
                curr_size_ := curr_size_ r;
                replacer_size_ := replacer_size_ r; rk_ := rk_ r |}
      | Some p, _ =>
          n ← deref (store r) p;
          let node := InsertTimeStamp (current_timestamp_ r) n in
          if GetNumOfReferences node >=? rk_ r then
            let node' := UpdateKDistance kdist node in
            let s' := <[p := node']> (store r) in
            kl ← InsertKNode s' (k_list_ r) p;
            Ok {| store := s';
                  default_list_ := list_remove p (default_list_ r);
                  default_map_ := delete frame_id (default_map_ r);
                  k_list_ := kl;
                  k_map_ := <[frame_id := p]> (k_map_ r);
                  current_timestamp_ := current_timestamp_ r;
                  curr_size_ := curr_size_ r;
                  replacer_size_ := replacer_size_ r; rk_ := rk_ r |}
          else
            Ok {| store := <[p := node]> (store r);
                  default_list_ := default_list_ r;
                  default_map_ := default_map_ r;
                  k_list_ := k_list_ r; k_map_ := k_map_ r;
                  current_timestamp_ := current_timestamp_ r;
                  curr_size_ := curr_size_ r;
                  replacer_size_ := replacer_size_ r; rk_ := rk_ r |}
      | None, Some p =>
          n ← deref (store r) p;
          let node := UpdateKDistance kdist (InsertTimeStamp (current_timestamp_ r) n) in
          let s' := <[p := node]> (store r) in
          kl ← InsertKNode s' (list_remove p (k_list_ r)) p;
          Ok {| store := s';
                default_list_ := default_list_ r;
                default_map_ := default_map_ r;
                k_list_ := kl; k_map_ := k_map_ r;
                current_timestamp_ := current_timestamp_ r;
                curr_size_ := curr_size_ r;
                replacer_size_ := replacer_size_ r; rk_ := rk_ r |}
      end;
    Ok {| store := store r'; default_list_ := default_list_ r';
          default_map_ := default_map_ r'; k_list_ := k_list_ r';
          k_map_ := k_map_ r';
          current_timestamp_ := wrap_size_t (current_timestamp_ r' + 1);
          curr_size_ := curr_size_ r';
          replacer_size_ := replacer_size_ r'; rk_ := rk_ r' |}.

(** LRUKReplacer::SetEvictable(frame_id, set_evictable) *)
Definition SetEvictable (r : t) (frame_id : Z) (set_evictable : bool) : res t :=
  match default_map_ r !! frame_id, k_map_ r !! frame_id with
  | None, None => Fail (RuntimeError "Frame_id does not exist")
  | Some p, _ | None, Some p =>
      node ← deref (store r) p;
      let cs :=
        if GetEvictable node && negb set_evictable then wrap_size_t (curr_size_ r - 1)
        else if negb (GetEvictable node) && set_evictable then wrap_size_t (curr_size_ r + 1)
        else curr_size_ r in
      Ok {| store := <[p := NodeSetEvictable set_evictable node]> (store r);
            default_list_ := default_list_ r; default_map_ := default_map_ r;
            k_list_ := k_list_ r; k_map_ := k_map_ r;
            current_timestamp_ := current_timestamp_ r; curr_size_ := cs;
            replacer_size_ := replacer_size_ r; rk_ := rk_ r |}
  end.

(** LRUKReplacer::Remove(frame_id) *)
Definition Remove (r : t) (frame_id : Z) : res t :=
  match default_map_ r !! frame_id, k_map_ r !! frame_id with
  | None, None => Ok r
  | Some p, _ =>
      node ← deref (store r) p;
      if negb (GetEvictable node) then Fail (RuntimeError "Cannot remove")
      else
        Ok {| store := store r;
              default_list_ := list_remove p (default_list_ r);
              default_map_ := delete frame_id (default_map_ r);
              k_list_ := k_list_ r; k_map_ := k_map_ r;
              current_timestamp_ := current_timestamp_ r;
              curr_size_ := wrap_size_t (curr_size_ r - 1);
              replacer_size_ := replacer_size_ r; rk_ := rk_ r |}
  | None, Some p =>
      node ← deref (store r) p;
      if negb (GetEvictable node) then Fail (RuntimeError "Cannot remove")
      else
        Ok {| store := store r;
              default_list_ := default_list_ r; default_map_ := default_map_ r;
              k_list_ := list_remove p (k_list_ r);
              k_map_ := delete frame_id (k_map_ r);
              current_timestamp_ := current_timestamp_ r;
              curr_size_ := wrap_size_t (curr_size_ r - 1);
              replacer_size_ := replacer_size_ r; rk_ := rk_ r |}
  end.

(** LRUKReplacer::Size() *)
Definition Size (r : t) : Z := curr_size_ r.

(** *** Well-formed replacer states

    The two lists hold distinct live nodes; each map holds exactly the nodes
    of its list, under their frame ids; no frame is in both maps;
    [curr_size_] counts the evictable nodes of the two lists (the spec's data
    model), as a [size_t]; the k-list is ordered by stored k-distance,
    largest at the front. *)

Definition evictable_at (s : gmap nat LRUKNode) (p : ptr) : bool :=
  match s !! p with
  | Some n => GetEvictable n
  | None => false
  end.

Definition not_evictable (s : gmap nat LRUKNode) (q : ptr) : Prop :=
  ∃ m, s !! q = Some m ∧ GetEvictable m = false.

(** [victim s lst map f lst' map']: [f] is the frame of the evictable node
    of [lst] nearest to the back, and [lst'], [map'] are [lst], [map]
    without it. *)
Definition victim (s : gmap nat LRUKNode) (lst : list ptr) (map : gmap Z ptr)
    (f : Z) (lst' : list ptr) (map' : gmap Z ptr) : Prop :=
  ∃ pre p n post,
    lst = pre ++ p :: post ∧ s !! p = Some n ∧ GetEvictable n = true ∧
    Forall (not_evictable s) post ∧
    f = GetFrameId n ∧ lst' = pre ++ post ∧ map' = delete f map.

(** [f] is the frame of a node of [lst] whose stored k-distance is the
    smallest among the evictable nodes of [lst]. *)
Definition least_k_distance (s : gmap nat LRUKNode) (lst : list ptr) (f : Z) : Prop :=
  ∃ p n, p ∈ lst ∧ s !! p = Some n ∧ GetFrameId n = f ∧
    ∀ q m, q ∈ lst → s !! q = Some m → GetEvictable m = true →
           GetKDistance n ≤ GetKDistance m.

Definition evictable_count (s : gmap nat LRUKNode) (l : list ptr) : nat :=
  length (filter (λ p, evictable_at s p = true) l).

Definition kd_ge (s : gmap nat LRUKNode) (p q : ptr) : Prop :=
  ∀ np nq, s !! p = Some np → s !! q = Some nq →
           GetKDistance nq ≤ GetKDistance np.

Definition k_sorted (s : gmap nat LRUKNode) (l : list ptr) : Prop :=
  StronglySorted (kd_ge s) l.

(** [map] holds the nodes of [lst], each under its frame id. *)
Definition map_list_ok (s : gmap nat LRUKNode) (map : gmap Z ptr) (lst : list ptr) : Prop :=
  ∀ f p, map !! f = Some p ↔ p ∈ lst ∧ ∃ n, s !! p = Some n ∧ GetFrameId n = f.

(** The node the maps hold for a frame, as [RecordAccess], [SetEvictable]
    and [Remove] look it up: the default map first. *)
Definition ptr_of (r : t) (frame_id : Z) : option ptr :=
  match default_map_ r !! frame_id with
  | Some p => Some p
  | None => k_map_ r !! frame_id
  end.

Definition node_of (r : t) (frame_id : Z) : option LRUKNode :=
  p ← ptr_of r frame_id; store r !! p.

Definition tracked (r : t) : list ptr := default_list_ r ++ k_list_ r.

Record wf (r : t) : Prop := {
  wf_nodup : NoDup (tracked r);
  wf_live : ∀ p, p ∈ tracked r → is_Some (store r !! p);
  wf_default : map_list_ok (store r) (default_map_ r) (default_list_ r);
  wf_k : map_list_ok (store r) (k_map_ r) (k_list_ r);
  wf_disjoint : ∀ f, default_map_ r !! f = None ∨ k_map_ r !! f = None;
  wf_size : curr_size_ r = wrap_size_t (Z.of_nat (evictable_count (store r) (tracked r)));
  wf_sorted : k_sorted (store r) (k_list_ r)
}.

(** The states a replacer goes through: a new replacer, and what the calls
    that return leave behind. *)
Inductive reachable (kdist : list Z → Z) : t → Prop :=
  | reachable_init num_frames k : reachable kdist (init num_frames k)
  | reachable_RecordAccess r frame_id r' :
      reachable kdist r → RecordAccess kdist r frame_id = Ok r' → reachable kdist r'
  | reachable_SetEvictable r frame_id set_evictable r' :
      reachable kdist r → SetEvictable r frame_id set_evictable = Ok r' →
      reachable kdist r'
  | reachable_Remove r frame_id r' :
      reachable kdist r → Remove r frame_id = Ok r' → reachable kdist r'
  | reachable_Evict r r' out :
      reachable kdist r → Evict r = Ok (r', out) → reachable kdist r'.

(** Executable checks of the same conditions, sound for [wf]. *)
Definition kd_geb (s : gmap nat LRUKNode) (p q : ptr) : bool :=
  match s !! p, s !! q with
  | Some np, Some nq => GetKDistance nq <=? GetKDistance np
  | _, _ => true
  end.

Fixpoint k_sortedb (s : gmap nat LRUKNode) (l : list ptr) : bool :=
  match l with
  | [] => true
  | p :: rest => forallb (kd_geb s p) rest && k_sortedb s rest
  end.

Definition map_list_okb (s : gmap nat LRUKNode) (map : gmap Z ptr) (lst : list ptr) : bool :=
  forallb (λ fp : Z * ptr,
             bool_decide (fp.2 ∈ lst)
             && match s !! fp.2 with
                | Some n => GetFrameId n =? fp.1
                | None => false
                end) (map_to_list map)
  && forallb (λ p, match s !! p with
                   | Some n => bool_decide (map !! GetFrameId n = Some p)
                   | None => false
                   end) lst.

Definition wfb (r : t) : bool :=
  bool_decide (NoDup (tracked r))
  && map_list_okb (store r) (default_map_ r) (default_list_ r)
  && map_list_okb (store r) (k_map_ r) (k_list_ r)
  && forallb (λ fp : Z * ptr, bool_decide (k_map_ r !! fp.1 = None))
       (map_to_list (default_map_ r))
  && (curr_size_ r =? wrap_size_t (Z.of_nat (evictable_count (store r) (tracked r))))
  && k_sortedb (store r) (k_list_ r).

(** An instance of the parameter of [RecordAccess], after the spec's
    definition of the k-distance: the time stamp of the access being recorded
    minus that of the k-th most recent access. *)
Definition kdist_spec (h : list Z) : Z := List.last h 0 - hd 0 h.

(** A replacer of 7 frames with k = 2 after the accesses 1,2,3,4,1,2,3,1,2,
    every frame made evictable after its access. *)
Definition run_accesses (kdist : list Z → Z) (r : t) (frames : list Z) : res t :=
  foldl (λ acc f, r0 ← acc; r1 ← RecordAccess kdist r0 f; SetEvictable r1 f true)
        (Ok r) frames.

Definition example_replacer : t :=
  match run_accesses kdist_spec (init 7 2) [1; 2; 3; 4; 1; 2; 3; 1; 2] with
  | Ok r => r
  | Fail _ => init 7 2
  end.

End LRUKReplacer.

(** ** src/buffer/buffer_pool_manager.cpp *)

Module BufferPoolManager.

(** Modelled from the spec: class [Page] is declared in storage/page/page.h,
    which is not among the sources.  The spec's frame: a byte buffer of fixed
    size, the resident page id, a pin counter and a dirty flag;
    [ResetMemory] zeroes the buffer and leaves the rest. *)
Record Page : Type := mkPage {
  data_ : list Byte.byte;
  page_id_ : Z;        (* page_id_t, int32_t *)
  pin_count_ : Z;      (* int *)
  is_dirty_ : bool
}.

Definition ResetMemory (pg : Page) : Page :=
  {| data_ := replicate (length (data_ pg)) Byte.x00; page_id_ := page_id_ pg;
     pin_count_ := pin_count_ pg; is_dirty_ := is_dirty_ pg |}.

Definition IsDirty (pg : Page) : bool := is_dirty_ pg.
Definition GetPageId (pg : Page) : Z := page_id_ pg.

(** The disk manager is outside the sources: its contents and the calls made
    to it, oldest first. *)
Inductive disk_op : Type :=
  | WritePage (page_id : Z) (data : list Byte.byte)
  | ReadPage (page_id : Z)
  | DiskDeallocatePage (page_id : Z).

Record t : Type := mk {
  pool_size_ : Z;
  pages_ : list Page;
  page_table_ : gmap Z Z;
  free_list_ : list Z;
  replacer_ : LRUKReplacer.t;
  next_page_id_ : Z;                     (* std::atomic<page_id_t> *)
  disk_ : gmap Z (list Byte.byte);
  disk_log_ : list disk_op
}.

(** BufferPoolManager::BufferPoolManager(pool_size, disk_manager, replacer_k) *)
Definition init (page_size : nat) (pool_size replacer_k : Z) : t :=
  {| pool_size_ := pool_size;
     pages_ := replicate (Z.to_nat pool_size)
                 {| data_ := replicate page_size Byte.x00;
                    page_id_ := INVALID_PAGE_ID; pin_count_ := 0;
                    is_dirty_ := false |};
     page_table_ := ∅;
     free_list_ := Z.of_nat <$> seq 0 (Z.to_nat pool_size);
     replacer_ := LRUKReplacer.init pool_size replacer_k;
     next_page_id_ := 0;
     disk_ := ∅;
     disk_log_ := [] |}.

(** [pages_[frame_id]] *)
Definition frame (b : t) (frame_id : Z) : res Page :=
  if frame_id <? 0 then Fail Undefined
  else of_option (pages_ b !! Z.to_nat frame_id).

Definition set_pages (b : t) (ps : list Page) : t :=
  {| pool_size_ := pool_size_ b; pages_ := ps; page_table_ := page_table_ b;
     free_list_ := free_list_ b; replacer_ := replacer_ b;
     next_page_id_ := next_page_id_ b; disk_ := disk_ b;
     disk_log_ := disk_log_ b |}.

Definition set_frame (b : t) (frame_id : Z) (pg : Page) : t :=
  set_pages b (<[Z.to_nat frame_id := pg]> (pages_ b)).

Definition set_replacer (b : t) (r : LRUKReplacer.t) : t :=
  {| pool_size_ := pool_size_ b; pages_ := pages_ b; page_table_ := page_table_ b;
     free_list_ := free_list_ b; replacer_ := r;
     next_page_id_ := next_page_id_ b; disk_ := disk_ b;
     disk_log_ := disk_log_ b |}.

Definition set_page_table (b : t) (m : gmap Z Z) : t :=
  {| pool_size_ := pool_size_ b; pages_ := pages_ b; page_table_ := m;
     free_list_ := free_list_ b; replacer_ := replacer_ b;
     next_page_id_ := next_page_id_ b; disk_ := disk_ b;
     disk_log_ := disk_log_ b |}.

Definition set_free_list (b : t) (l : list Z) : t :=
  {| pool_size_ := pool_size_ b; pages_ := pages_ b; page_table_ := page_table_ b;
     free_list_ := l; replacer_ := replacer_ b;
     next_page_id_ := next_page_id_ b; disk_ := disk_ b;
     disk_log_ := disk_log_ b |}.

(** disk_manager_->WritePage(page_id, data) *)
Definition disk_write (b : t) (page_id : Z) (data : list Byte.byte) : t :=
  {| pool_size_ := pool_size_ b; pages_ := pages_ b; page_table_ := page_table_ b;
     free_list_ := free_list_ b; replacer_ := replacer_ b;
     next_page_id_ := next_page_id_ b;
     disk_ := <[page_id := data]> (disk_ b);
     disk_log_ := disk_log_ b ++ [WritePage page_id data] |}.

(** disk_manager_->ReadPage(page_id, data): the bytes of the page, zeroes for
    a page that was never written. *)
Definition disk_read (b : t) (page_id : Z) (len : nat) : t * list Byte.byte :=
  ({| pool_size_ := pool_size_ b; pages_ := pages_ b; page_table_ := page_table_ b;
      free_list_ := free_list_ b; replacer_ := replacer_ b;
      next_page_id_ := next_page_id_ b; disk_ := disk_ b;
      disk_log_ := disk_log_ b ++ [ReadPage page_id] |},
   default (replicate len Byte.x00) (disk_ b !! page_id)).

(** Modelled from the spec: [BufferPoolManager::DeallocatePage] is declared
    in buffer/buffer_pool_manager.h, which is not among the sources; by the
    spec it is the disk's [DeallocatePage]. *)
Definition DeallocatePage (b : t) (page_id : Z) : t :=
  {| pool_size_ := pool_size_ b; pages_ := pages_ b; page_table_ := page_table_ b;
     free_list_ := free_list_ b; replacer_ := replacer_ b;
     next_page_id_ := next_page_id_ b; disk_ := disk_ b;
     disk_log_ := disk_log_ b ++ [DiskDeallocatePage page_id] |}.

(** BufferPoolManager::AllocatePage(): [return next_page_id_++] *)
Definition AllocatePage (b : t) : t * Z :=
  ({| pool_size_ := pool_size_ b; pages_ := pages_ b; page_table_ := page_table_ b;
      free_list_ := free_list_ b; replacer_ := replacer_ b;
      next_page_id_ := to_int32 (next_page_id_ b + 1); disk_ := disk_ b;
      disk_log_ := disk_log_ b |},
   next_page_id_ b).

Section WithKDistance.
Variable kdist : list Z → Z.

(** The frame selection that [NewPage] (lines 41-57) and [FetchPage]
    (lines 89-105) share word for word: the front of the free list, else the
    frame the replacer evicts, written back when dirty, dropped from the page
    table, zeroed and deallocated on disk. *)
Definition select_frame (b : t) : res (t * Z) :=
  match free_list_ b with
  | frame_id :: rest => Ok (set_free_list b rest, frame_id)
  | [] =>
      '(r, out) ← LRUKReplacer.Evict (replacer_ b);
      let frame_id := default 0 out in
      let b := set_replacer b r in
      pg ← frame b frame_id;
      let b := if IsDirty pg then disk_write b (page_id_ pg) (data_ pg) else b in
      let b := set_page_table b (delete (page_id_ pg) (page_table_ b)) in
      let b := set_frame b frame_id (ResetMemory pg) in
      Ok (DeallocatePage b (GetPageId (ResetMemory pg)), frame_id)
  end.

(** BufferPoolManager::NewPage(page_id): the new page id and the frame of
    the returned [Page *], or none for [nullptr]. *)
Definition NewPage (b : t) : res (t * option (Z * Z)) :=
  if bool_decide (free_list_ b ≠ []) || (LRUKReplacer.Size (replacer_ b) >? 0) then
    '(b, frame_id) ← select_frame b;
    let '(b, page_new_id) := AllocatePage b in
    pg ← frame b frame_id;
    let b := set_frame b frame_id
               {| data_ := data_ pg; page_id_ := page_new_id;
                  pin_count_ := 1; is_dirty_ := false |} in
    let b := set_page_table b (<[page_new_id := frame_id]> (page_table_ b)) in
    r ← LRUKReplacer.RecordAccess kdist (replacer_ b) frame_id;
    r ← LRUKReplacer.SetEvictable r frame_id false;
    Ok (set_replacer b r, Some (page_new_id, frame_id))
  else Ok (b, None).

(** BufferPoolManager::FetchPage(page_id): the frame of the returned
    [Page *], or none for [nullptr]. *)
Definition FetchPage (b : t) (page_id : Z) : res (t * option Z) :=
  match page_table_ b !! page_id with
  | Some frame_id =>
      pg ← frame b frame_id;
      if pin_count_ pg =? 2 ^ 31 - 1 then Fail Undefined   (* signed overflow *)
      else
        let b := set_frame b frame_id
                   {| data_ := data_ pg; page_id_ := page_id_ pg;
                      pin_count_ := pin_count_ pg + 1; is_dirty_ := is_dirty_ pg |} in
        r ← LRUKReplacer.RecordAccess kdist (replacer_ b) frame_id;
        r ← LRUKReplacer.SetEvictable r frame_id false;
        Ok (set_replacer b r, Some frame_id)
  | None =>
      if bool_decide (free_list_ b ≠ []) || (LRUKReplacer.Size (replacer_ b) >? 0) then
        '(b, frame_id) ← select_frame b;
        pg ← frame b frame_id;
        let '(b, bytes) := disk_read b page_id (length (data_ pg)) in
        let b := set_frame b frame_id
                   {| data_ := bytes; page_id_ := page_id;
                      pin_count_ := 1; is_dirty_ := false |} in
        let b := set_page_table b (<[page_id := frame_id]> (page_table_ b)) in
        r ← LRUKReplacer.RecordAccess kdist (replacer_ b) frame_id;
        r ← LRUKReplacer.SetEvictable r frame_id false;
        Ok (set_replacer b r, Some frame_id)
      else Ok (b, None)
  end.

(** BufferPoolManager::UnpinPage(page_id, is_dirty) *)
Definition UnpinPage (b : t) (page_id : Z) (is_dirty : bool) : res (t * bool) :=
  match page_table_ b !! page_id with
  | None => Ok (b, false)
  | Some frame_id =>
      pg ← frame b frame_id;
      if pin_count_ pg <=? 0 then Ok (b, false)
      else
        let pg' := {| data_ := data_ pg; page_id_ := page_id_ pg;
                      pin_count_ := pin_count_ pg - 1;
                      is_dirty_ := is_dirty || is_dirty_ pg |} in
        let b := set_frame b frame_id pg' in
        if pin_count_ pg' =? 0 then
          r ← LRUKReplacer.SetEvictable (replacer_ b) frame_id true;
          Ok (set_replacer b r, true)
        else Ok (b, true)
  end.

(** BufferPoolManager::FlushPage(page_id) *)
Definition FlushPage (b : t) (page_id : Z) : res (t * bool) :=
  match page_table_ b !! page_id with
  | None => Ok (b, false)
  | Some frame_id =>
      pg ← frame b frame_id;
      let b := disk_write b page_id (data_ pg) in
      Ok (set_frame b frame_id
            {| data_ := data_ pg; page_id_ := page_id_ pg;
               pin_count_ := pin_count_ pg; is_dirty_ := false |}, true)
  end.

(** BufferPoolManager::DeletePage(page_id) *)
Definition DeletePage (b : t) (page_id : Z) : res (t * bool) :=
  match page_table_ b !! page_id with
  | None => Ok (b, true)
  | Some frame_id =>
      pg ← frame b frame_id;
      if pin_count_ pg >? 0 then Ok (b, false)
      else
        r ← LRUKReplacer.Remove (replacer_ b) frame_id;
        let b := set_replacer b r in
        let b := set_free_list b (free_list_ b ++ [frame_id]) in
        let b := set_frame b frame_id
                   {| data_ := data_ (ResetMemory pg); page_id_ := INVALID_PAGE_ID;
                      pin_count_ := 0; is_dirty_ := false |} in
        let b := set_page_table b (delete page_id (page_table_ b)) in
        Ok (DeallocatePage b page_id, true)
  end.

(** BufferPoolManager::FlushAllPages(): [FlushPage] on every page id of the
    page table.  The order in which the [std::unordered_map] is walked is
    not specified; [order] is that order, an enumeration of the page ids of
    the table. *)
Definition FlushAllPages (order : list Z) (b : t) : res t :=
  foldl (λ acc page_id, b ← acc; '(b', _) ← FlushPage b page_id; Ok b') (Ok b) order.

End WithKDistance.

(** *** Consistent pool states

    A frame is pinned when its pin count is positive.  In a consistent pool
    the replacer is well formed and tracks frames of the pool only; the
    frames of the free list are unpinned and hold no resident page; a page
    of the page table is in the frame the table gives, which the replacer
    tracks; the replacer's evictable frames are unpinned; and every unpinned
    frame is either free or evictable. *)

Definition all_pinned (b : t) : Prop := Forall (λ pg, 0 < pin_count_ pg) (pages_ b).

Definition unpinned_frame (b : t) (frame_id : Z) : Prop :=
  ∃ pg, frame b frame_id = Ok pg ∧ pin_count_ pg = 0.

Definition evictable_frame (r : LRUKReplacer.t) (frame_id : Z) : Prop :=
  ∃ n, LRUKReplacer.node_of r frame_id = Some n ∧ LRUKReplacer.GetEvictable n = true.

Record Inv (b : t) : Prop := {
  inv_replacer : LRUKReplacer.wf (replacer_ b);
  inv_replacer_size : LRUKReplacer.replacer_size_ (replacer_ b) = pool_size_ b;
  inv_pool_size : pool_size_ b = Z.of_nat (length (pages_ b));
  inv_pool_range : pool_size_ b < 2 ^ 31;
  inv_tracked : ∀ f, is_Some (LRUKReplacer.node_of (replacer_ b) f) →
                     0 ≤ f < pool_size_ b;
  inv_pins : ∀ pg, pg ∈ pages_ b → 0 ≤ pin_count_ pg;
  inv_free_nodup : NoDup (free_list_ b);
  inv_free : ∀ f, f ∈ free_list_ b →
                  unpinned_frame b f ∧ ∀ page_id, page_table_ b !! page_id ≠ Some f;
  inv_page_table : ∀ page_id f, page_table_ b !! page_id = Some f →
                   ∃ pg, frame b f = Ok pg ∧ page_id_ pg = page_id ∧
                         is_Some (LRUKReplacer.node_of (replacer_ b) f);
  inv_evictable : ∀ f, evictable_frame (replacer_ b) f → unpinned_frame b f;
  inv_unpinned : ∀ i pg, pages_ b !! i = Some pg → pin_count_ pg ≤ 0 →
                 Z.of_nat i ∈ free_list_ b ∨ evictable_frame (replacer_ b) (Z.of_nat i)
}.

(** The states a pool goes through: a new pool of fewer than 2^31 frames,
    and what the calls that return leave behind. *)
Inductive reachable (kdist : list Z → Z) : t → Prop :=
  | reachable_init page_size pool_size replacer_k :
      0 ≤ pool_size < 2 ^ 31 → reachable kdist (init page_size pool_size replacer_k)
  | reachable_NewPage b b' out :
      reachable kdist b → NewPage kdist b = Ok (b', out) → reachable kdist b'
  | reachable_FetchPage b page_id b' out :
      reachable kdist b → FetchPage kdist b page_id = Ok (b', out) → reachable kdist b'
  | reachable_UnpinPage b page_id is_dirty b' ok :
      reachable kdist b → UnpinPage b page_id is_dirty = Ok (b', ok) → reachable kdist b'
  | reachable_FlushPage b page_id b' ok :
      reachable kdist b → FlushPage b page_id = Ok (b', ok) → reachable kdist b'
  | reachable_DeletePage b page_id b' ok :
      reachable kdist b → DeletePage b page_id = Ok (b', ok) → reachable kdist b'.

(** Executable checks, sound for [Inv]. *)
Definition unpinned_frameb (b : t) (frame_id : Z) : bool :=
  match frame b frame_id with
  | Ok pg => pin_count_ pg =? 0
  | Fail _ => false
  end.

Definition evictable_frameb (r : LRUKReplacer.t) (frame_id : Z) : bool :=
  match LRUKReplacer.node_of r frame_id with
  | Some n => LRUKReplacer.GetEvictable n
  | None => false
  end.

Definition tracked_frames (r : LRUKReplacer.t) : list Z :=
  (map_to_list (LRUKReplacer.default_map_ r)).*1
  ++ (map_to_list (LRUKReplacer.k_map_ r)).*1.

Definition Invb (b : t) : bool :=
  LRUKReplacer.wfb (replacer_ b)
  && (LRUKReplacer.replacer_size_ (replacer_ b) =? pool_size_ b)
  && (pool_size_ b =? Z.of_nat (length (pages_ b)))
  && (pool_size_ b <? 2 ^ 31)
  && forallb (λ f, (0 <=? f) && (f <? pool_size_ b)) (tracked_frames (replacer_ b))
  && forallb (λ pg, 0 <=? pin_count_ pg) (pages_ b)
  && bool_decide (NoDup (free_list_ b))
  && forallb (λ f, unpinned_frameb b f
                   && forallb (λ e : Z * Z, negb (e.2 =? f)) (map_to_list (page_table_ b)))
       (free_list_ b)
  && forallb (λ e : Z * Z,
                match frame b e.2 with
                | Ok pg => (page_id_ pg =? e.1)
                           && bool_decide (is_Some (LRUKReplacer.node_of (replacer_ b) e.2))
                | Fail _ => false
                end) (map_to_list (page_table_ b))
  && forallb (λ f, negb (evictable_frameb (replacer_ b) f) || unpinned_frameb b f)
       (tracked_frames (replacer_ b))
  && forallb (λ i, match pages_ b !! i with
                   | Some pg => (0 <? pin_count_ pg)
                                || bool_decide (Z.of_nat i ∈ free_list_ b)
                                || evictable_frameb (replacer_ b) (Z.of_nat i)
                   | None => true
                   end) (seq 0 (length (pages_ b))).

(** A pool of three frames, k = 2: three pages created, then all unpinned,
    the first of them dirty. *)
Definition example_pool : t :=
  let step (acc : res t) (f : t → res t) : res t := b ← acc; f b in
  let new (b : t) : res t := '(b', _) ← NewPage LRUKReplacer.kdist_spec b; Ok b' in
  let unpin (page_id : Z) (d : bool) (b : t) : res t :=
    '(b', _) ← UnpinPage b page_id d; Ok b' in
  match foldl step (Ok (init 8 3 2))
          [new; new; new; unpin 0 true; unpin 1 false; unpin 2 false] with
  | Ok b => b
  | Fail _ => init 8 3 2
  end.

(** The same three pages with only page 1 unpinned (and dirty). *)
Definition example_mixed_pool : t :=
  let step (acc : res t) (f : t → res t) : res t := b ← acc; f b in
  let new (b : t) : res t := '(b', _) ← NewPage LRUKReplacer.kdist_spec b; Ok b' in
  let unpin (page_id : Z) (d : bool) (b : t) : res t :=
    '(b', _) ← UnpinPage b page_id d; Ok b' in
  match foldl step (Ok (init 8 3 2)) [new; new; new; unpin 1 true] with
  | Ok b => b
  | Fail _ => init 8 3 2
  end.

(** The same pool with every page still pinned. *)
Definition example_pinned_pool : t :=
  let step (acc : res t) (f : t → res t) : res t := b ← acc; f b in
  let new (b : t) : res t := '(b', _) ← NewPage LRUKReplacer.kdist_spec b; Ok b' in
  match foldl step (Ok (init 8 3 2)) [new; new; new] with
  | Ok b => b
  | Fail _ => init 8 3 2
  end.

End BufferPoolManager.

(** ** src/storage/page/b_plus_tree_page.cpp and the arrays of the pages

    Keys are integers compared by a three-way comparator; a leaf value (a
    RID) is represented by its 64-bit image, an internal value is a page id.
    [array_] is the whole slot array of the page, slots beyond [size_]
    included: they keep what was last written there (zeroes on a new page).
    An access outside the array is undefined. *)

Module BPlusTreePage.

Definition MappingType : Type := Z * Z.

(** KeyComparator: negative, zero or positive. *)
Definition comparator (a b : Z) : Z :=
  match a ?= b with
  | Lt => -1
  | Eq => 0
  | Gt => 1
  end.

Inductive IndexPageType : Type := INVALID_INDEX_PAGE | LEAF_PAGE | INTERNAL_PAGE.

(** BPlusTreePage::GetMinSize().  [max_size_ + 1] is an [int] addition: at
    [max_size_ = INT_MAX] it overflows, and the sum is taken to wrap around
    as the page-id counter does. *)
Definition GetMinSize (page_type : IndexPageType) (max_size : Z) : Z :=
  match page_type with
  | INTERNAL_PAGE => to_int32 (max_size + 1) `quot` 2
  | _ => max_size `quot` 2
  end.

(** [array_[index]] *)
Definition at_ (array : list MappingType) (index : Z) : res MappingType :=
  if index <? 0 then Fail Undefined else of_option (array !! Z.to_nat index).

(** The elements of [[first, last)]; an empty range when [last <= first]. *)
Definition range (array : list MappingType) (first last : Z) : res (list MappingType) :=
  if last <=? first then Ok []
  else if (first <? 0) || (Z.of_nat (length array) <? last) then Fail Undefined
  else Ok (take (Z.to_nat (last - first)) (drop (Z.to_nat first) array)).

(** Writing [src] into the slots from [dest] on. *)
Definition store_at (array : list MappingType) (dest : Z) (src : list MappingType)
  : res (list MappingType) :=
  match src with
  | [] => Ok array
  | _ =>
      if (dest <? 0) || (Z.of_nat (length array) <? dest + Z.of_nat (length src))
      then Fail Undefined
      else Ok (take (Z.to_nat dest) array ++ src
               ++ drop (Z.to_nat dest + length src) array)
  end.

(** [std::copy(array + first, array + last, array_ + dest)],
    [std::copy_backward] and [std::move_backward] alike: the slots from
    [dest] on receive the former content of [[first, last)] of [from]. *)
Definition copy (from : list MappingType) (first last : Z)
    (array : list MappingType) (dest : Z) : res (list MappingType) :=
  src ← range from first last;
  store_at array dest src.

(** [std::lower_bound] over the slots [[first, first + len)]: the halving
    loop of the standard library, [comp x] standing for [comp(x, value)]. *)
Fixpoint lower_bound_loop (fuel : nat) (comp : MappingType → bool)
    (array : list MappingType) (first len : nat) : nat :=
  match fuel with
  | O => first
  | S fuel =>
      if (0 <? len)%nat then
        let half := (len / 2)%nat in
        let middle := (first + half)%nat in
        match array !! middle with
        | Some x =>
            if comp x
            then lower_bound_loop fuel comp array (S middle) (len - half - 1)
            else lower_bound_loop fuel comp array first half
        | None => first
        end
      else first
  end.

(** [std::lower_bound(array_ + first, array_ + last, value, comp) - array_];
    the loop does not run when [last <= first]. *)
Definition lower_bound (comp : MappingType → bool) (array : list MappingType)
    (first last : Z) : res Z :=
  if last <=? first then Ok first
  else if (first <? 0) || (Z.of_nat (length array) <? last) then Fail Undefined
  else Ok (Z.of_nat (lower_bound_loop (Z.to_nat (last - first)) comp array
                       (Z.to_nat first) (Z.to_nat (last - first)))).

End BPlusTreePage.

(** ** src/storage/page/b_plus_tree_internal_page.cpp *)

Module InternalPage.
Import BPlusTreePage.

Record t : Type := mk {
  size_ : Z;
  max_size_ : Z;
  parent_page_id_ : Z;
  array_ : list MappingType
}.

Definition GetSize (pg : t) : Z := size_ pg.
Definition GetMaxSize (pg : t) : Z := max_size_ pg.
Definition GetMinSize (pg : t) : Z := BPlusTreePage.GetMinSize INTERNAL_PAGE (max_size_ pg).
Definition GetParentPageId (pg : t) : Z := parent_page_id_ pg.
Definition GetData (pg : t) : list MappingType := array_ pg.

Definition SetSize (pg : t) (size : Z) : t :=
  {| size_ := size; max_size_ := max_size_ pg;
     parent_page_id_ := parent_page_id_ pg; array_ := array_ pg |}.
Definition IncreaseSize (pg : t) (amount : Z) : t := SetSize pg (size_ pg + amount).
Definition SetParentPageId (pg : t) (parent_page_id : Z) : t :=
  {| size_ := size_ pg; max_size_ := max_size_ pg;
     parent_page_id_ := parent_page_id; array_ := array_ pg |}.
Definition set_array (pg : t) (a : list MappingType) : t :=
  {| size_ := size_ pg; max_size_ := max_size_ pg;
     parent_page_id_ := parent_page_id_ pg; array_ := a |}.

(** Init(parent_page_id, max_size), on the slots [array] of the page. *)
Definition Init (array : list MappingType) (parent_page_id max_size : Z) : t :=
  {| size_ := 0; max_size_ := max_size; parent_page_id_ := parent_page_id;
     array_ := array |}.

Definition KeyAt (pg : t) (index : Z) : res Z := e ← at_ (array_ pg) index; Ok e.1.
Definition ValueAt (pg : t) (index : Z) : res Z := e ← at_ (array_ pg) index; Ok e.2.

Definition SetKeyAt (pg : t) (index key : Z) : res t :=
  e ← at_ (array_ pg) index;
  a ← store_at (array_ pg) index [(key, e.2)];
  Ok (set_array pg a).
Definition SetValueAt (pg : t) (index value : Z) : res t :=
  e ← at_ (array_ pg) index;
  a ← store_at (array_ pg) index [(e.1, value)];
  Ok (set_array pg a).
Definition SetKeyValueAt (pg : t) (index key value : Z) : res t :=
  a ← store_at (array_ pg) index [(key, value)];
  Ok (set_array pg a).

(** The slot [FindValue] stores through [child_page_index]:
    [std::prev] of the lower bound over [[0, size)] under [<=]. *)
Definition FindValue_index (pg : t) (key : Z) : res Z :=
  res ← lower_bound (λ lhs, comparator lhs.1 key <=? 0) (array_ pg) 0 (GetSize pg);
  Ok (res - 1).

(** FindValue(key, comparator, child_page_index): the child and the slot. *)
Definition FindValue (pg : t) (key : Z) : res (Z * Z) :=
  index ← FindValue_index pg key;
  e ← at_ (array_ pg) index;
  Ok (e.2, index).

(** Insert(key, value, comparator); it always returns true. *)
Definition Insert (pg : t) (key value : Z) : res t :=
  let size := GetSize pg in
  e0 ← at_ (array_ pg) 0;
  if comparator key e0.1 <? 0 then
    a ← copy (array_ pg) 0 size (array_ pg) 1;
    let pg := IncreaseSize (set_array pg a) 1 in
    a ← store_at (array_ pg) 0 [(key, value)];
    Ok (set_array pg a)
  else
    index ← lower_bound (λ lhs, comparator lhs.1 key <? 0) (array_ pg) 1 size;
    a ← copy (array_ pg) index size (array_ pg) (index + 1);
    let pg := IncreaseSize (set_array pg a) 1 in
    a ← store_at (array_ pg) index [(key, value)];
    Ok (set_array pg a).

(** Delete(key, value, comparator) *)
Definition Delete (pg : t) (key value : Z) : res (t * bool) :=
  dist ← lower_bound (λ lhs, comparator lhs.1 key <? 0) (array_ pg) 0 (GetSize pg - 1);
  e ← at_ (array_ pg) dist;
  if (comparator key e.1 =? 0) && (value =? e.2) then
    a ← copy (array_ pg) (dist + 1) (GetSize pg) (array_ pg) dist;
    Ok (IncreaseSize (set_array pg a) (-1), true)
  else Ok (pg, false).

(** Merge(array, size) *)
Definition Merge (pg : t) (array : list MappingType) (size : Z) : res t :=
  a ← copy array 0 size (array_ pg) (GetSize pg);
  Ok (IncreaseSize (set_array pg a) size).

(** ShiftData(dist) *)
Definition ShiftData (pg : t) (dist : Z) : res t :=
  a ← (if dist >? 0 then copy (array_ pg) 0 (GetSize pg) (array_ pg) dist
       else if dist <? 0 then copy (array_ pg) (- dist) (GetSize pg) (array_ pg) 0
       else Ok (array_ pg));
  Ok (IncreaseSize (set_array pg a) dist).

(** CopyHalfFrom(array, min_size, size) *)
Definition CopyHalfFrom (pg : t) (array : list MappingType) (min_size size : Z) : res t :=
  a ← copy array min_size size (array_ pg) 0;
  Ok (set_array pg a).

(** The entries in use. *)
Definition entries (pg : t) : list MappingType := take (Z.to_nat (size_ pg)) (array_ pg).

(** The routing keys, at the slots 1 to [size_ - 1], increase strictly. *)
Definition routing_sorted (pg : t) : Prop :=
  ∀ i j x y, 1 ≤ i → i < j → j < size_ pg →
             array_ pg !! Z.to_nat i = Some x → array_ pg !! Z.to_nat j = Some y →
             x.1 < y.1.

End InternalPage.

(** ** src/storage/page/b_plus_tree_leaf_page.cpp *)

Module LeafPage.
Import BPlusTreePage.

Record t : Type := mk {
  size_ : Z;
  max_size_ : Z;
  parent_page_id_ : Z;
  next_page_id_ : Z;
  array_ : list MappingType
}.

Definition GetSize (pg : t) : Z := size_ pg.
Definition GetMaxSize (pg : t) : Z := max_size_ pg.
Definition GetMinSize (pg : t) : Z := BPlusTreePage.GetMinSize LEAF_PAGE (max_size_ pg).
Definition GetParentPageId (pg : t) : Z := parent_page_id_ pg.
Definition GetNextPageId (pg : t) : Z := next_page_id_ pg.
Definition GetData (pg : t) : list MappingType := array_ pg.

Definition SetSize (pg : t) (size : Z) : t :=
  {| size_ := size; max_size_ := max_size_ pg;
     parent_page_id_ := parent_page_id_ pg; next_page_id_ := next_page_id_ pg;
     array_ := array_ pg |}.
Definition IncreaseSize (pg : t) (amount : Z) : t := SetSize pg (size_ pg + amount).
Definition SetParentPageId (pg : t) (parent_page_id : Z) : t :=
  {| size_ := size_ pg; max_size_ := max_size_ pg;
     parent_page_id_ := parent_page_id; next_page_id_ := next_page_id_ pg;
     array_ := array_ pg |}.
Definition SetNextPage (pg : t) (page_id : Z) : t :=
  {| size_ := size_ pg; max_size_ := max_size_ pg;
     parent_page_id_ := parent_page_id_ pg; next_page_id_ := page_id;
     array_ := array_ pg |}.
Definition set_array (pg : t) (a : list MappingType) : t :=
  {| size_ := size_ pg; max_size_ := max_size_ pg;
     parent_page_id_ := parent_page_id_ pg; next_page_id_ := next_page_id_ pg;
     array_ := a |}.

(** Init(parent_page_id, max_size), on the slots [array] of the page. *)
Definition Init (array : list MappingType) (parent_page_id max_size : Z) : t :=
  {| size_ := 0; max_size_ := max_size; parent_page_id_ := parent_page_id;
     next_page_id_ := INVALID_PAGE_ID; array_ := array |}.

(** [assert(index < GetSize())] *)
Definition assert_index (pg : t) (index : Z) : res unit :=
  if index <? GetSize pg then Ok () else Fail (RuntimeError "assert").

Definition KeyAt (pg : t) (index : Z) : res Z :=
  _ ← assert_index pg index; e ← at_ (array_ pg) index; Ok e.1.
Definition ValueAt (pg : t) (index : Z) : res Z :=
  _ ← assert_index pg index; e ← at_ (array_ pg) index; Ok e.2.
Definition SetKeyValueAt (pg : t) (index key value : Z) : res t :=
  _ ← assert_index pg index;
  a ← store_at (array_ pg) index [(key, value)];
  Ok (set_array pg a).

(** FindValue(key, value, comparator, index): the value and the slot when
    the key is found. *)
Definition FindValue (pg : t) (key : Z) : res (option (Z * Z)) :=
  res ← lower_bound (λ lhs, comparator lhs.1 key <? 0) (array_ pg) 0 (GetSize pg - 1);
  e ← at_ (array_ pg) res;
  if comparator key e.1 =? 0 then Ok (Some (e.2, res)) else Ok None.

(** Insert(key, value, comparator) *)
Definition Insert (pg : t) (key value : Z) : res (t * bool) :=
  let size := GetSize pg in
  it ← lower_bound (λ lhs, comparator lhs.1 key <? 0) (array_ pg) 0 size;
  dup ← (if it <? size then e ← at_ (array_ pg) it; Ok (comparator key e.1 =? 0)
         else Ok false);
  if dup : bool then Ok (pg, false)
  else
    a ← copy (array_ pg) it size (array_ pg) (size + 1 - (size - it));
    a ← store_at a it [(key, value)];
    Ok (IncreaseSize (set_array pg a) 1, true).

(** Delete(key, value, comparator) *)
Definition Delete (pg : t) (key value : Z) : res (t * bool) :=
  if GetSize pg =? 0 then Ok (pg, false)
  else
    dist ← lower_bound (λ lhs, comparator lhs.1 key <? 0) (array_ pg) 0 (GetSize pg - 1);
    e ← at_ (array_ pg) dist;
    if (comparator key e.1 =? 0) && (value =? e.2) then
      a ← copy (array_ pg) (dist + 1) (GetSize pg) (array_ pg) dist;
      Ok (IncreaseSize (set_array pg a) (-1), true)
    else Ok (pg, false).

(** Merge(array, size) *)
Definition Merge (pg : t) (array : list MappingType) (size : Z) : res t :=
  a ← copy array 0 size (array_ pg) (GetSize pg);
  Ok (IncreaseSize (set_array pg a) size).

(** ShiftData(dist) *)
Definition ShiftData (pg : t) (dist : Z) : res t :=
  a ← (if dist >? 0 then copy (array_ pg) 0 (GetSize pg) (array_ pg) dist
       else if dist <? 0 then copy (array_ pg) (- dist) (GetSize pg) (array_ pg) 0
       else Ok (array_ pg));
  Ok (IncreaseSize (set_array pg a) dist).

(** CopyHalfFrom(array, min_size, size) *)
Definition CopyHalfFrom (pg : t) (array : list MappingType) (min_size size : Z) : res t :=
  a ← copy array min_size size (array_ pg) 0;
  Ok (set_array pg a).

(** The entries in use and their keys. *)
Definition entries (pg : t) : list MappingType := take (Z.to_nat (size_ pg)) (array_ pg).
Definition keys (pg : t) : list Z := fst <$> entries pg.

(** The entries in use fit the array and their keys increase strictly. *)
Definition sorted (pg : t) : Prop :=
  0 ≤ size_ pg ≤ Z.of_nat (length (array_ pg)) ∧
  ∀ i j x y, (i < j)%nat → entries pg !! i = Some x → entries pg !! j = Some y →
             x.1 < y.1.

Fixpoint increasing (l : list Z) : bool :=
  match l with
  | [] => true
  | x :: rest => forallb (λ y, x <? y) rest && increasing rest
  end.

Definition sortedb (pg : t) : bool :=
  (0 <=? size_ pg) && (size_ pg <=? Z.of_nat (length (array_ pg)))
  && increasing (keys pg).

End LeafPage.

(** ** src/storage/index/index_iterator.cpp

    The iterator reads leaves through [bpm_->FetchPageRead(page_id)] seen as
    a leaf page: the parameter [fetch_leaf]. *)

Module IndexIterator.
Import BPlusTreePage.

Record t : Type := mk {
  cur_page_id_ : Z;
  index_ : Z;
  entry_ : MappingType
}.

Section WithPool.
Variable fetch_leaf : Z → res LeafPage.t.

(** IndexIterator::IsEnd() *)
Definition IsEnd (it : t) : res bool :=
  cur_page ← fetch_leaf (cur_page_id_ it);
  Ok ((LeafPage.GetNextPageId cur_page =? INVALID_PAGE_ID)
      && (index_ it =? LeafPage.GetSize cur_page - 1)).

(** IndexIterator::operator*() *)
Definition deref (it : t) : MappingType := entry_ it.

(** IndexIterator::operator++().  The page fetched at line 53 is first read
    at line 69, after the test for the end sentinel. *)
Definition incr (it : t) : res t :=
  if cur_page_id_ it =? INVALID_PAGE_ID then Ok it
  else
    cur_page ← fetch_leaf (cur_page_id_ it);
    is_end ← IsEnd it;
    if is_end : bool then
      Ok {| cur_page_id_ := INVALID_PAGE_ID; index_ := -1; entry_ := entry_ it |}
    else if index_ it <? LeafPage.GetSize cur_page - 1 then
      let index := index_ it + 1 in
      k ← LeafPage.KeyAt cur_page index;
      v ← LeafPage.ValueAt cur_page index;
      Ok {| cur_page_id_ := cur_page_id_ it; index_ := index; entry_ := (k, v) |}
    else
      let next_page_id := LeafPage.GetNextPageId cur_page in
      next_page ← fetch_leaf next_page_id;
      k ← LeafPage.KeyAt next_page 0;
      v ← LeafPage.ValueAt next_page 0;
      Ok {| cur_page_id_ := next_page_id; index_ := 0; entry_ := (k, v) |}.

(** [n] applications of [operator++]. *)
Fixpoint advance (n : nat) (it : t) : res t :=
  match n with
  | O => Ok it
  | S n => it ← incr it; advance n it
  end.

(** The leaves reached from the page [page_id] through [next_page_id_], up
    to the one without successor, each holding at least one entry. *)
Inductive leaf_chain : Z → list LeafPage.t → Prop :=
  | leaf_chain_last page_id leaf :
      page_id ≠ INVALID_PAGE_ID → fetch_leaf page_id = Ok leaf →
      1 ≤ LeafPage.size_ leaf ≤ Z.of_nat (length (LeafPage.array_ leaf)) →
      LeafPage.next_page_id_ leaf = INVALID_PAGE_ID →
      leaf_chain page_id [leaf]
  | leaf_chain_next page_id leaf leaves :
      page_id ≠ INVALID_PAGE_ID → fetch_leaf page_id = Ok leaf →
      1 ≤ LeafPage.size_ leaf ≤ Z.of_nat (length (LeafPage.array_ leaf)) →
      LeafPage.next_page_id_ leaf ≠ INVALID_PAGE_ID →
      leaf_chain (LeafPage.next_page_id_ leaf) leaves →
      leaf_chain page_id (leaf :: leaves).

End WithPool.

(** IndexIterator::operator==(itr) *)
Definition eqb (it itr : t) : bool :=
  (cur_page_id_ it =? cur_page_id_ itr) && (index_ it =? index_ itr).

End IndexIterator.

(** ** src/storage/index/b_plus_tree.cpp

    The tree reaches its pages through the buffer pool.  Here the pool is
    the page store itself: [pages] maps the page ids in use to their content
    and [next_page_id] is the pool's counter, so that a fetch of a page in use
    always succeeds; pins and latches are not represented.  A page is seen
    through the type it was initialised with; looking at it through another
    one is undefined. *)

Module BPlusTree.
Import BPlusTreePage.

Inductive Page : Type :=
  | Blank                                   (* a new page, all zeroes *)
  | Header (root_page_id_ : Z)              (* BPlusTreeHeaderPage *)
  | Internal (pg : InternalPage.t)
  | Leaf (pg : LeafPage.t).

Record t : Type := mk {
  pages : gmap Z Page;
  next_page_id : Z;
  header_page_id_ : Z;
  leaf_max_size_ : Z;
  internal_max_size_ : Z;
  leaf_default_max_size : Z;  (* default of [max_size] in the declaration of
                                 the leaf page's [Init] *)
  leaf_slots : nat;        (* slots of [array_] in a leaf page *)
  internal_slots : nat     (* slots of [array_] in an internal page *)
}.

Definition set_page (tr : t) (page_id : Z) (pg : Page) : t :=
  {| pages := <[page_id := pg]> (pages tr); next_page_id := next_page_id tr;
     header_page_id_ := header_page_id_ tr; leaf_max_size_ := leaf_max_size_ tr;
     internal_max_size_ := internal_max_size_ tr;
     leaf_default_max_size := leaf_default_max_size tr; leaf_slots := leaf_slots tr;
     internal_slots := internal_slots tr |}.

Definition fetch (tr : t) (page_id : Z) : res Page := of_option (pages tr !! page_id).

Definition fetch_header (tr : t) : res Z :=
  pg ← fetch tr (header_page_id_ tr);
  match pg with
  | Header root => Ok root
  | _ => Fail Undefined
  end.

Definition fetch_leaf (tr : t) (page_id : Z) : res LeafPage.t :=
  pg ← fetch tr page_id;
  match pg with
  | Leaf l => Ok l
  | _ => Fail Undefined
  end.

Definition fetch_internal (tr : t) (page_id : Z) : res InternalPage.t :=
  pg ← fetch tr page_id;
  match pg with
  | Internal i => Ok i
  | _ => Fail Undefined
  end.

Definition set_root (tr : t) (root_page_id : Z) : t :=
  set_page tr (header_page_id_ tr) (Header root_page_id).

(** bpm_->NewPageGuarded(&page_id) *)
Definition NewPageGuarded (tr : t) : t * Z :=
  ({| pages := <[next_page_id tr := Blank]> (pages tr);
      next_page_id := to_int32 (next_page_id tr + 1);
      header_page_id_ := header_page_id_ tr; leaf_max_size_ := leaf_max_size_ tr;
      internal_max_size_ := internal_max_size_ tr;
      leaf_default_max_size := leaf_default_max_size tr; leaf_slots := leaf_slots tr;
      internal_slots := internal_slots tr |},
   next_page_id tr).

Definition zeroes (n : nat) : list MappingType := replicate n (0, 0).

(** [page->Init(leaf_max_size_)] (lines 126 and 172), on a page that
    [NewPage] has zeroed.  The leaf page's [Init] is defined with the
    parameters [(parent_page_id, max_size)]: the one argument of the call is
    the parent page id, and [max_size] takes the default value of the
    declaration.  The declaration is in storage/page/b_plus_tree_leaf_page.h,
    which is not among the sources: its default is the parameter
    [leaf_default_max_size]. *)
Definition new_leaf (tr : t) : LeafPage.t :=
  LeafPage.Init (zeroes (leaf_slots tr)) (leaf_max_size_ tr) (leaf_default_max_size tr).

(** [Init(parent_page_id, internal_max_size_)] (lines 226 and 269). *)
Definition new_internal (tr : t) (parent_page_id : Z) : InternalPage.t :=
  InternalPage.Init (zeroes (internal_slots tr)) parent_page_id (internal_max_size_ tr).

(** BPlusTree::BPlusTree(name, header_page_id, bpm, comparator, leaf_max_size,
    internal_max_size), on a pool whose only page is the header; the last
    three arguments are the constants of the page layout. *)
Definition init (header_page_id leaf_max_size internal_max_size : Z)
    (leaf_default_max_size : Z) (leaf_slots internal_slots : nat) : t :=
  {| pages := {[ header_page_id := Header INVALID_PAGE_ID ]};
     next_page_id := header_page_id + 1;
     header_page_id_ := header_page_id; leaf_max_size_ := leaf_max_size;
     internal_max_size_ := internal_max_size;
     leaf_default_max_size := leaf_default_max_size; leaf_slots := leaf_slots;
     internal_slots := internal_slots |}.

(** The loop [while (!page->IsLeafPage())] of [GetValue] and [Begin(key)]. *)
Fixpoint find_leaf (fuel : nat) (tr : t) (page_id key : Z) : res (Z * LeafPage.t) :=
  match fuel with
  | O => Fail OutOfFuel
  | S fuel =>
      pg ← fetch tr page_id;
      match pg with
      | Leaf l => Ok (page_id, l)
      | Internal i =>
          '(child, _) ← InternalPage.FindValue i key;
          find_leaf fuel tr child key
      | _ => Fail Undefined
      end
  end.

(** BPlusTree::GetValue(key, result): the value pushed to [result] when the
    call returns true. *)
Definition GetValue (fuel : nat) (tr : t) (key : Z) : res (option Z) :=
  root ← fetch_header tr;
  if root =? INVALID_PAGE_ID then Ok None
  else
    '(_, leaf) ← find_leaf fuel tr root key;
    r ← LeafPage.FindValue leaf key;
    Ok (match r with Some (value, _) => Some value | None => None end).

(** The same loop in [Insert] and [Remove], which keep the guards of the
    pages passed in [ctx.write_set_] (its back is the head of the list) and,
    in [Remove], the slot of each child in [page_id_to_index]. *)
Fixpoint descend (fuel : nat) (tr : t) (page_id key : Z) (write_set : list Z)
    (page_id_to_index : gmap Z Z) : res (list Z * gmap Z Z * Z * LeafPage.t) :=
  match fuel with
  | O => Fail OutOfFuel
  | S fuel =>
      pg ← fetch tr page_id;
      match pg with
      | Leaf l => Ok (write_set, page_id_to_index, page_id, l)
      | Internal i =>
          '(child, index) ← InternalPage.FindValue i key;
          descend fuel tr child key (page_id :: write_set)
                  (<[child := index]> page_id_to_index)
      | _ => Fail Undefined
      end
  end.

(** [SetParentPageId] through the type chosen by [IsLeafPage] of the first
    child (lines 229-242). *)
Definition set_parent (is_leaf_page : bool) (pg : Page) (parent : Z) : res Page :=
  match is_leaf_page, pg with
  | true, Leaf l => Ok (Leaf (LeafPage.SetParentPageId l parent))
  | false, Internal i => Ok (Internal (InternalPage.SetParentPageId i parent))
  | _, _ => Fail Undefined
  end.

(** BPlusTree::InsertInParent(key, new_page_guard, ctx) *)
Fixpoint InsertInParent (write_set : list Z) (tr : t) (root_page_id key new_page_id : Z)
  : res t :=
  match write_set with
  | [] => Fail Undefined
  | cur_page_id :: write_set' =>
      if cur_page_id =? root_page_id then
        let '(tr, new_root_id) := NewPageGuarded tr in
        let tr := set_root tr new_root_id in
        let new_root_page := new_internal tr INVALID_PAGE_ID in
        first_child ← fetch tr cur_page_id;
        second_child ← fetch tr new_page_id;
        let is_leaf_page := match first_child with Leaf _ => true | _ => false end in
        first_child ← set_parent is_leaf_page first_child new_root_id;
        second_child ← set_parent is_leaf_page second_child new_root_id;
        let tr := set_page tr cur_page_id first_child in
        let tr := set_page tr new_page_id second_child in
        new_root_page ← InternalPage.SetValueAt new_root_page 0 cur_page_id;
        new_root_page ← InternalPage.SetKeyValueAt new_root_page 1 key new_page_id;
        let new_root_page := InternalPage.IncreaseSize new_root_page 2 in
        Ok (set_page tr new_root_id (Internal new_root_page))
      else
        match write_set' with
        | [] => Fail Undefined
        | parent_id :: _ =>
            cur_page ← fetch_internal tr parent_id;
            if InternalPage.GetSize cur_page <? InternalPage.GetMaxSize cur_page then
              cur_page ← InternalPage.Insert cur_page key new_page_id;
              Ok (set_page tr parent_id (Internal cur_page))
            else
              let '(tr, new_id) := NewPageGuarded tr in
              let new_page := new_internal tr (InternalPage.GetParentPageId cur_page) in
              let min_size := InternalPage.GetMinSize cur_page in
              let cur_size := InternalPage.GetSize cur_page in
              pushed_key ← InternalPage.KeyAt cur_page min_size;
              last_key ← InternalPage.KeyAt cur_page (min_size - 1);
              let is_first_case := comparator key pushed_key >? 0 in
              let is_second_case :=
                (comparator key pushed_key <? 0) && (comparator key last_key >? 0) in
              '(cur_page, new_page, pushed_key) ←
                (if is_first_case || is_second_case then
                   new_page ← InternalPage.CopyHalfFrom new_page
                                (InternalPage.GetData cur_page) min_size cur_size;
                   let cur_page := InternalPage.SetSize cur_page min_size in
                   let new_page := InternalPage.SetSize new_page (cur_size - min_size) in
                   new_page ← InternalPage.Insert new_page key new_page_id;
                   Ok (cur_page, new_page, if is_second_case then key else pushed_key)
                 else
                   new_page ← InternalPage.CopyHalfFrom new_page
                                (InternalPage.GetData cur_page) (min_size - 1) cur_size;
                   let cur_page := InternalPage.SetSize cur_page (min_size - 1) in
                   let new_page := InternalPage.SetSize new_page (cur_size - min_size + 1) in
                   cur_page ← InternalPage.Insert cur_page key new_page_id;
                   Ok (cur_page, new_page, last_key));
              let tr := set_page tr parent_id (Internal cur_page) in
              let tr := set_page tr new_id (Internal new_page) in
              InsertInParent write_set' tr root_page_id pushed_key new_id
        end
  end.

(** The split of a full leaf in [Insert] (lines 165-186): the truncated
    leaf, its new right sibling and the key pushed to the parent. *)
Definition split_leaf (tr : t) (leaf_page : LeafPage.t) (new_page_id : Z)
  : res (LeafPage.t * LeafPage.t * Z) :=
  let min_size := LeafPage.GetMinSize leaf_page in
  let cur_size := LeafPage.GetSize leaf_page in
  let new_page := new_leaf tr in
  new_page ← LeafPage.CopyHalfFrom new_page (LeafPage.GetData leaf_page) min_size cur_size;
  pushed_key ← LeafPage.KeyAt leaf_page min_size;
  let new_page := LeafPage.SetSize new_page (cur_size - min_size) in
  let leaf_page := LeafPage.SetSize leaf_page min_size in
  let new_page := LeafPage.SetNextPage new_page (LeafPage.GetNextPageId leaf_page) in
  let leaf_page := LeafPage.SetNextPage leaf_page new_page_id in
  Ok (leaf_page, new_page, pushed_key).

(** BPlusTree::Insert(key, value) *)
Definition Insert (fuel : nat) (tr : t) (key value : Z) : res (t * bool) :=
  root_page_id ← fetch_header tr;
  if root_page_id =? INVALID_PAGE_ID then
    let '(tr, root_id) := NewPageGuarded tr in
    let tr := set_root tr root_id in
    let page := new_leaf tr in
    '(page, _) ← LeafPage.Insert page key value;
    Ok (set_page tr root_id (Leaf page), true)
  else
    '(write_set, _, cur_page_id, leaf_page) ← descend fuel tr root_page_id key [] ∅;
    let write_set := cur_page_id :: write_set in
    if LeafPage.GetSize leaf_page <? LeafPage.GetMaxSize leaf_page - 1 then
      '(leaf_page, res) ← LeafPage.Insert leaf_page key value;
      Ok (set_page tr cur_page_id (Leaf leaf_page), res)
    else
      '(leaf_page, inserted) ← LeafPage.Insert leaf_page key value;
      if inserted : bool then
        let '(tr, new_page_id) := NewPageGuarded tr in
        '(leaf_page, new_page, pushed_key) ← split_leaf tr leaf_page new_page_id;
        let tr := set_page tr cur_page_id (Leaf leaf_page) in
        let tr := set_page tr new_page_id (Leaf new_page) in
        tr ← InsertInParent write_set tr root_page_id pushed_key new_page_id;
        Ok (tr, true)
      else Ok (set_page tr cur_page_id (Leaf leaf_page), false).

(** BPlusTree::DeleteEntry(ctx, key, val, page_id_to_index).  The block
    opened at line 461, [if (cur_leaf_page_id == ctx.root_page_id_ &&
    cur_leaf_page->GetSize() == 0) {], is not closed before the last brace of
    the function at line 540: lines 468-539 stand inside it, after its
    [return], and nothing follows it. *)
Definition DeleteEntry (tr : t) (root_page_id : Z) (write_set : list Z)
    (key val : Z) (page_id_to_index : gmap Z Z) : res t :=
  match write_set with
  | [] => Fail Undefined
  | cur_leaf_page_id :: _ =>
      cur_leaf_page ← fetch_leaf tr cur_leaf_page_id;
      '(cur_leaf_page, deleted) ← LeafPage.Delete cur_leaf_page key val;
      let tr := set_page tr cur_leaf_page_id (Leaf cur_leaf_page) in
      if negb deleted then Ok tr
      else if (cur_leaf_page_id =? root_page_id) && (LeafPage.GetSize cur_leaf_page =? 0)
      then Ok (set_root tr INVALID_PAGE_ID)
      else Ok tr
  end.

Section UnreachableBlock.

(** [DeleteInternalEntry] is called at line 524 and defined nowhere in the
    sources: a parameter. *)
Variable DeleteInternalEntry : t → Z → list Z → Z → Z → gmap Z Z → res t.

(** Lines 468-539 of [DeleteEntry], the statements that the braces leave
    after the [return] of line 465: the rebalancing of the leaf
    [cur_leaf_page_id] with a sibling, [write_set] being what is left of
    [ctx.write_set_] once the leaf is popped. *)
Definition DeleteEntry_lines_468_539 (tr : t) (root_page_id : Z) (write_set : list Z)
    (cur_leaf_page_id : Z) (page_id_to_index : gmap Z Z) : res t :=
  cur_leaf_page ← fetch_leaf tr cur_leaf_page_id;
  if cur_leaf_page_id =? root_page_id then Ok tr
  else if LeafPage.GetSize cur_leaf_page >=? LeafPage.GetMaxSize cur_leaf_page then Ok tr
  else
    let index_in_parent_page := default 0 (page_id_to_index !! cur_leaf_page_id) in
    match write_set with
    | [] => Fail Undefined
    | parent_id :: _ =>
        parent_page ← fetch_internal tr parent_id;
        let is_last_entry :=
          index_in_parent_page =? InternalPage.GetSize parent_page - 1 in
        sibling_page_id ←
          InternalPage.ValueAt parent_page
            (if is_last_entry then index_in_parent_page - 1
             else index_in_parent_page + 1);
        sibling_page ← fetch_leaf tr sibling_page_id;
        let '(left_id, left_page, right_id, right_page) :=
          if is_last_entry
          then (sibling_page_id, sibling_page, cur_leaf_page_id, cur_leaf_page)
          else (cur_leaf_page_id, cur_leaf_page, sibling_page_id, sibling_page) in
        up_key ← InternalPage.KeyAt parent_page
                   (if is_last_entry then index_in_parent_page
                    else index_in_parent_page + 1);
        let up_value := if is_last_entry then cur_leaf_page_id else sibling_page_id in
        let redistribute_toward_right := is_last_entry in
        let left_page_cur_size := LeafPage.GetSize left_page in
        let right_page_cur_size := LeafPage.GetSize right_page in
        if left_page_cur_size + right_page_cur_size <? LeafPage.GetMaxSize left_page then
          left_page ← LeafPage.Merge left_page (LeafPage.GetData right_page)
                        (LeafPage.GetSize right_page);
          let left_page := LeafPage.SetNextPage left_page
                             (LeafPage.GetNextPageId right_page) in
          let tr := set_page tr left_id (Leaf left_page) in
          DeleteInternalEntry tr root_page_id write_set up_key up_value page_id_to_index
        else if redistribute_toward_right then
          right_page ← LeafPage.ShiftData right_page 1;
          k ← LeafPage.KeyAt left_page (left_page_cur_size - 1);
          v ← LeafPage.ValueAt left_page (left_page_cur_size - 1);
          right_page ← LeafPage.SetKeyValueAt right_page 0 k v;
          let left_page := LeafPage.IncreaseSize left_page (-1) in
          k0 ← LeafPage.KeyAt right_page 0;
          parent_page ← InternalPage.SetKeyAt parent_page index_in_parent_page k0;
          let tr := set_page tr left_id (Leaf left_page) in
          let tr := set_page tr right_id (Leaf right_page) in
          Ok (set_page tr parent_id (Internal parent_page))
        else
          let left_page := LeafPage.IncreaseSize left_page 1 in
          k ← LeafPage.KeyAt right_page 0;
          v ← LeafPage.ValueAt right_page 0;
          left_page ← LeafPage.SetKeyValueAt left_page left_page_cur_size k v;
          right_page ← LeafPage.ShiftData right_page (-1);
          k0 ← LeafPage.KeyAt right_page 0;
          parent_page ← InternalPage.SetKeyAt parent_page (index_in_parent_page + 1) k0;
          let tr := set_page tr left_id (Leaf left_page) in
          let tr := set_page tr right_id (Leaf right_page) in
          Ok (set_page tr parent_id (Internal parent_page))
    end.

End UnreachableBlock.

(** BPlusTree::Remove(key) *)
Definition Remove (fuel : nat) (tr : t) (key : Z) : res t :=
  root_page_id ← fetch_header tr;
  if root_page_id =? INVALID_PAGE_ID then Ok tr
  else
    '(write_set, page_id_to_index, leaf_page_id, leaf_page) ←
      descend fuel tr root_page_id key [] ∅;
    found ← LeafPage.FindValue leaf_page key;
    match found with
    | None => Ok tr
    | Some (res, _) =>
        DeleteEntry tr root_page_id (leaf_page_id :: write_set) key res page_id_to_index
    end.

(** BPlusTree::Begin() *)
Fixpoint leftmost (fuel : nat) (tr : t) (page_id : Z) : res (Z * LeafPage.t) :=
  match fuel with
  | O => Fail OutOfFuel
  | S fuel =>
      pg ← fetch tr page_id;
      match pg with
      | Leaf l => Ok (page_id, l)
      | Internal i => child ← InternalPage.ValueAt i 0; leftmost fuel tr child
      | _ => Fail Undefined
      end
  end.

Definition Begin (fuel : nat) (tr : t) : res IndexIterator.t :=
  root ← fetch_header tr;
  if root =? INVALID_PAGE_ID then Fail (RuntimeError "B+ tree is empty")
  else
    '(page_id, leaf_page) ← leftmost fuel tr root;
    k ← LeafPage.KeyAt leaf_page 0;
    v ← LeafPage.ValueAt leaf_page 0;
    Ok {| IndexIterator.cur_page_id_ := page_id; IndexIterator.index_ := 0;
          IndexIterator.entry_ := (k, v) |}.

(** BPlusTree::End() *)
Definition End : IndexIterator.t :=
  {| IndexIterator.cur_page_id_ := INVALID_PAGE_ID; IndexIterator.index_ := -1;
     IndexIterator.entry_ := (0, 0) |}.

(** BPlusTree::GetRootPageId() *)
Definition GetRootPageId (tr : t) : res Z := fetch_header tr.

(** *** The trees of the scenarios

    A tree with [leaf_max_size = 4] and [internal_max_size = 5] on a pool
    whose page 0 is the header; the pages have 8 slots.  The leaves of the
    scenarios have [max_size_ = 4]: they are the leaves of the code when the
    default of [Init] is 4, which is what these trees take it to be. *)
Definition fresh_tree : t := init 0 4 5 4 8 8.

Definition leaf_of (size parent next : Z) (array : list MappingType) : Page :=
  Leaf {| LeafPage.size_ := size; LeafPage.max_size_ := 4;
          LeafPage.parent_page_id_ := parent; LeafPage.next_page_id_ := next;
          LeafPage.array_ := array ++ zeroes (8 - length array) |}.

Definition root_of (size : Z) (array : list MappingType) : Page :=
  Internal {| InternalPage.size_ := size; InternalPage.max_size_ := 5;
              InternalPage.parent_page_id_ := INVALID_PAGE_ID;
              InternalPage.array_ := array ++ zeroes (8 - length array) |}.

Definition tree_of (ps : list (Z * Page)) (next : Z) : t :=
  {| pages := list_to_map ps; next_page_id := next; header_page_id_ := 0;
     leaf_max_size_ := 4; internal_max_size_ := 5; leaf_default_max_size := 4;
     leaf_slots := 8; internal_slots := 8 |}.

(** After the keys 1, 2, 3: one leaf, which is the root.  Its parent page
    id is the 4 that [Init(leaf_max_size_)] stored there. *)
Definition tree_123 : t :=
  tree_of [(0, Header 1);
           (1, leaf_of 3 4 INVALID_PAGE_ID [(1, 1); (2, 2); (3, 3)])] 2.

(** After the key 4: the leaf has split.  The slots 2 and 3 of the left
    leaf keep the entries that were copied to the right. *)
Definition tree_1234 : t :=
  tree_of [(0, Header 3);
           (1, leaf_of 2 3 2 [(1, 1); (2, 2); (3, 3); (4, 4)]);
           (2, leaf_of 2 3 INVALID_PAGE_ID [(3, 3); (4, 4)]);
           (3, root_of 2 [(0, 1); (3, 2)])] 4.

(** S3, after the key 5. *)
Definition S3_tree : t :=
  tree_of [(0, Header 3);
           (1, leaf_of 2 3 2 [(1, 1); (2, 2); (3, 3); (4, 4)]);
           (2, leaf_of 3 3 INVALID_PAGE_ID [(3, 3); (4, 4); (5, 5)]);
           (3, root_of 2 [(0, 1); (3, 2)])] 4.


(** S3 after the removal of 5, of 4 and of 3: the right leaf is empty and
    still linked after the left one. *)
Definition S3_without_5_4_3 : t :=
  tree_of [(0, Header 3);
           (1, leaf_of 2 3 2 [(1, 1); (2, 2); (3, 3); (4, 4)]);
           (2, leaf_of 0 3 INVALID_PAGE_ID [(3, 3); (4, 4); (5, 5)]);
           (3, root_of 2 [(0, 1); (3, 2)])] 4.

(** After the keys -1, 1, 2, 3: the key 3 has split the leaf, and the key -1
    is in the left leaf, under a root whose slot 0 has the key 0 of a zeroed
    page. *)
Definition tree_with_minus_1 : t :=
  tree_of [(0, Header 3);
           (1, leaf_of 2 3 2 [(-1, -1); (1, 1); (2, 2); (3, 3)]);
           (2, leaf_of 2 3 INVALID_PAGE_ID [(2, 2); (3, 3)]);
           (3, root_of 2 [(0, 1); (2, 2)])] 4.

(** What lines 468-539 of [DeleteEntry] make of S3 when they are run after
    the removal of 5 (an entry moves to the right leaf), and then after the
    removal of 4 (the right leaf is merged into the left one, just before
    [DeleteInternalEntry] is called). *)
Definition S3_redistributed : t :=
  tree_of [(0, Header 3);
           (1, leaf_of 1 3 2 [(1, 1); (2, 2); (3, 3); (4, 4)]);
           (2, leaf_of 3 3 INVALID_PAGE_ID [(2, 2); (3, 3); (4, 4)]);
           (3, root_of 2 [(0, 1); (2, 2)])] 4.

Definition S3_merged : t :=
  tree_of [(0, Header 3);
           (1, leaf_of 3 3 INVALID_PAGE_ID [(1, 1); (2, 2); (3, 3); (4, 4)]);
           (2, leaf_of 2 3 INVALID_PAGE_ID [(2, 2); (3, 3); (4, 4)]);
           (3, root_of 2 [(0, 1); (2, 2)])] 4.

(** A fresh tree with the same two maxima on pages of 254 slots, the
    default of [Init] being the 254 slots of a page. *)
Definition fresh_tree_254 : t := init 0 4 5 254 254 254.

(** Running a list of insertions, then of removals. *)
Definition insert_all (fuel : nat) (tr : t) (keys : list Z) : res t :=
  foldl (λ acc k, tr ← acc; '(tr, _) ← Insert fuel tr k k; Ok tr) (Ok tr) keys.

Definition remove_all (fuel : nat) (tr : t) (keys : list Z) : res t :=
  foldl (λ acc k, tr ← acc; Remove fuel tr k) (Ok tr) keys.

End BPlusTree.

(** * Properties *)

Module LRUKReplacerFacts.
Import LRUKReplacer.

(** *** Lists, counts and the node store *)

Lemma rscan_spec s rl :
  (∀ p, p ∈ rl → is_Some (s !! p)) →
  match rscan s rl with
  | Ok (Some (passed, n, unseen)) =>
      ∃ p, rl = passed ++ p :: unseen ∧ s !! p = Some n ∧
           GetEvictable n = true ∧ Forall (not_evictable s) passed
  | Ok None => Forall (not_evictable s) rl
  | Fail _ => False
  end.
Proof.
  induction rl as [|p rest IH]; intros Hlive; simpl.
  - constructor.
  - destruct (Hlive p) as [n Hn]; [left|].
    unfold deref. rewrite Hn. simpl.
    destruct (GetEvictable n) eqn:He.
    + exists p. simpl. repeat split; auto.
    + assert (Hrest : ∀ q, q ∈ rest → is_Some (s !! q)).
      { intros q Hq. apply Hlive. by right. }
      specialize (IH Hrest).
      destruct (rscan s rest) as [[[[passed hit] unseen]|]|e]; simpl.
      * destruct IH as (p' & -> & Hp' & Hev & Hpass).
        exists p'. repeat split; auto.
        constructor; [by exists n | done].
      * constructor; [by exists n | done].
      * done.
Qed.

Lemma evictable_count_app s l1 l2 :
  evictable_count s (l1 ++ l2) = (evictable_count s l1 + evictable_count s l2)%nat.
Proof. unfold evictable_count. by rewrite filter_app, length_app. Qed.

Lemma evictable_count_cons s p l :
  evictable_count s (p :: l) =
  ((if evictable_at s p then 1 else 0) + evictable_count s l)%nat.
Proof.
  unfold evictable_count. rewrite filter_cons.
  destruct (evictable_at s p); case_decide; simpl; congruence.
Qed.

Lemma evictable_count_middle s pre p post :
  evictable_count s (pre ++ p :: post) =
  (evictable_count s (pre ++ post) + (if evictable_at s p then 1 else 0))%nat.
Proof. rewrite !evictable_count_app, evictable_count_cons. lia. Qed.

Lemma evictable_count_none s l :
  Forall (not_evictable s) l → evictable_count s l = 0%nat.
Proof.
  induction 1 as [|q l (m & Hm & He) _ IH]; [done|].
  rewrite evictable_count_cons, IH. unfold evictable_at. by rewrite Hm, He.
Qed.

Lemma evictable_count_le s l : (evictable_count s l ≤ length l)%nat.
Proof. unfold evictable_count. apply length_filter. Qed.

Lemma evictable_count_pos s l :
  (0 < evictable_count s l)%nat ↔
  ∃ p n, p ∈ l ∧ s !! p = Some n ∧ GetEvictable n = true.
Proof.
  induction l as [|x l IH].
  - cbn. split; [lia|]. intros (p & n & Hp & _). by apply elem_of_nil in Hp.
  - rewrite evictable_count_cons. unfold evictable_at at 1.
    destruct (s !! x) as [nx|] eqn:Hx; [destruct (GetEvictable nx) eqn:He|].
    + split; [|lia]. intros _. exists x, nx. split; [left|done].
    + simpl. rewrite IH. split.
      * intros (p & n & Hp & Hn & Hev). exists p, n. split; [by right|done].
      * intros (p & n & Hp & Hn & Hev).
        apply elem_of_cons in Hp as [-> | Hp]; [congruence|]. by exists p, n.
    + simpl. rewrite IH. split.
      * intros (p & n & Hp & Hn & Hev). exists p, n. split; [by right|done].
      * intros (p & n & Hp & Hn & Hev).
        apply elem_of_cons in Hp as [-> | Hp]; [congruence|]. by exists p, n.
Qed.

Lemma evictable_count_ext s s' l :
  (∀ q, q ∈ l → evictable_at s' q = evictable_at s q) →
  evictable_count s' l = evictable_count s l.
Proof.
  induction l as [|x l IH]; intros H; [done|].
  rewrite !evictable_count_cons, H by left. rewrite IH; [done|].
  intros q Hq. apply H. by right.
Qed.

Lemma evictable_at_insert_ne s p n q :
  q ≠ p → evictable_at (<[p:=n]> s) q = evictable_at s q.
Proof. intros H. unfold evictable_at. by rewrite lookup_insert_ne. Qed.

Lemma evictable_at_insert_eq s p n : evictable_at (<[p:=n]> s) p = GetEvictable n.
Proof. unfold evictable_at. by rewrite lookup_insert_eq. Qed.

Lemma evictable_count_store_notin s p n l :
  p ∉ l → evictable_count (<[p:=n]> s) l = evictable_count s l.
Proof.
  intros Hp. apply evictable_count_ext. intros q Hq.
  apply evictable_at_insert_ne. intros ->. done.
Qed.

Lemma evictable_count_store_same_flag s p n n' l :
  s !! p = Some n → GetEvictable n' = GetEvictable n →
  evictable_count (<[p:=n']> s) l = evictable_count s l.
Proof.
  intros Hp He. apply evictable_count_ext. intros q _.
  destruct (decide (q = p)) as [->|Hne].
  - rewrite evictable_at_insert_eq. unfold evictable_at. by rewrite Hp.
  - by apply evictable_at_insert_ne.
Qed.

Lemma list_remove_notin p l : p ∉ l → list_remove p l = l.
Proof.
  intros Hp. unfold list_remove. induction l as [|x l IH]; [done|].
  rewrite filter_cons. apply not_elem_of_cons in Hp as [Hne Hp].
  rewrite decide_True by done. by rewrite IH.
Qed.

Lemma list_remove_middle pre p post :
  p ∉ pre → p ∉ post → list_remove p (pre ++ p :: post) = pre ++ post.
Proof.
  intros Hpre Hpost. unfold list_remove. rewrite filter_app, filter_cons.
  rewrite decide_False by (intros H; by apply H).
  fold (list_remove p pre). fold (list_remove p post).
  by rewrite !list_remove_notin.
Qed.

Lemma NoDup_middle {A} (pre : list A) p post :
  NoDup (pre ++ p :: post) ↔ (p ∉ pre) ∧ (p ∉ post) ∧ NoDup (pre ++ post).
Proof.
  rewrite !NoDup_app, NoDup_cons. split.
  - intros (Hpre & Hdis & Hp & Hpost). repeat split; auto.
    + intros Hin. apply (Hdis p Hin). left.
    + intros x Hx Hx'. apply (Hdis x Hx). by right.
  - intros (Hp1 & Hp2 & Hpre & Hdis & Hpost). repeat split; auto.
    intros x Hx Hx'. apply elem_of_cons in Hx' as [-> | Hx']; [done|].
    by apply (Hdis x).
Qed.

Lemma wrap_size_t_pred cs : 0 < cs < 2 ^ 64 → wrap_size_t (cs - 1) = cs - 1.
Proof. intros H. unfold wrap_size_t. apply Z.mod_small. lia. Qed.

Lemma wrap_size_t_small z : 0 ≤ z < 2 ^ 64 → wrap_size_t z = z.
Proof. intros H. unfold wrap_size_t. apply Z.mod_small. lia. Qed.

Lemma wrap_size_t_add z k : wrap_size_t (wrap_size_t z + k) = wrap_size_t (z + k).
Proof. unfold wrap_size_t. by rewrite Zplus_mod_idemp_l. Qed.

Lemma wrap_size_t_sub z k : wrap_size_t (wrap_size_t z - k) = wrap_size_t (z - k).
Proof. unfold wrap_size_t. by rewrite Zminus_mod_idemp_l. Qed.

(** *** The order of the k-list *)

Lemma StronglySorted_impl_in {A} (R R' : relation A) (l : list A) :
  (∀ x y, x ∈ l → y ∈ l → R x y → R' x y) →
  StronglySorted R l → StronglySorted R' l.
Proof.
  induction l as [|a l IH]; intros Himpl H; [constructor|].
  apply StronglySorted_cons in H as [Hall Hl]. apply StronglySorted_cons. split.
  - apply Forall_forall. intros y Hy. apply Himpl; [left | by right|].
    by apply (proj1 (Forall_forall _ _) Hall).
  - apply IH; [|done]. intros x y Hx Hy. apply Himpl; by right.
Qed.

Lemma k_sorted_store_notin s p n l : p ∉ l → k_sorted s l → k_sorted (<[p:=n]> s) l.
Proof.
  intros Hp. apply StronglySorted_impl_in. intros x y Hx Hy H nx ny.
  assert (p ≠ x) by (intros <-; done). assert (p ≠ y) by (intros <-; done).
  rewrite !lookup_insert_ne by done. apply H.
Qed.

Lemma k_sorted_store_same_kd s p n n' l :
  s !! p = Some n → GetKDistance n' = GetKDistance n →
  k_sorted s l → k_sorted (<[p:=n']> s) l.
Proof.
  intros Hp Hkd. apply StronglySorted_impl_in. intros x y _ _ H nx ny.
  rewrite !lookup_insert.
  destruct (decide (p = x)) as [Hpx|Hpx]; destruct (decide (p = y)) as [Hpy|Hpy];
    intros [= <-] [= <-] || intros [= <-] Hy || intros Hx [= <-] || intros Hx Hy.
  - lia.
  - rewrite Hkd. subst x. by apply (H n ny).
  - rewrite Hkd. subst y. by apply (H nx n).
  - by apply (H nx ny).
Qed.

Lemma k_sorted_remove s pre p post :
  k_sorted s (pre ++ p :: post) → k_sorted s (pre ++ post).
Proof.
  unfold k_sorted. rewrite !StronglySorted_app, StronglySorted_cons.
  intros (Hcross & Hpre & _ & Hpost). repeat split; auto.
  intros x y Hx Hy. apply Hcross; [done | by right].
Qed.

Lemma k_sortedb_sound s l : k_sortedb s l = true → k_sorted s l.
Proof.
  induction l as [|x l IH]; simpl; intros H; [constructor|].
  apply andb_prop in H as [Hall Hrest]. apply StronglySorted_cons.
  split; [|by apply IH].
  apply Forall_forall. intros y Hy np nq Hp Hq.
  pose proof (proj1 (forallb_forall _ _) Hall y (proj1 (list_elem_of_In _ _) Hy)) as Hb.
  unfold kd_geb in Hb. rewrite Hp, Hq in Hb. by apply Z.leb_le.
Qed.

(** *** A map and its list *)

Lemma map_list_ok_remove s m pre p post n :
  NoDup (pre ++ p :: post) → map_list_ok s m (pre ++ p :: post) → s !! p = Some n →
  map_list_ok s (delete (GetFrameId n) m) (pre ++ post).
Proof.
  unfold map_list_ok. intros Hnd Hok Hp f q.
  apply NoDup_middle in Hnd as (Hp1 & Hp2 & _).
  assert (Hpin : p ∈ pre ++ p :: post) by (apply elem_of_app; right; left).
  assert (Hmp : m !! GetFrameId n = Some p) by (apply Hok; eauto).
  rewrite lookup_delete_Some, Hok. split.
  - intros (Hne & Hq & nq & Hnq & Hf). split; [|eauto].
    apply elem_of_app in Hq as [Hq | Hq]; [apply elem_of_app; by left|].
    apply elem_of_cons in Hq as [-> | Hq]; [|apply elem_of_app; by right].
    congruence.
  - intros (Hq & nq & Hnq & Hf).
    assert (Hqin : q ∈ pre ++ p :: post).
    { apply elem_of_app in Hq as [Hq | Hq]; apply elem_of_app;
        [by left | right; by right]. }
    split; [|eauto]. intros Heq.
    assert (m !! f = Some q) as Hmq by (apply Hok; eauto).
    rewrite <- Heq, Hmp in Hmq. injection Hmq as <-.
    apply elem_of_app in Hq as [Hq | Hq]; done.
Qed.

Lemma map_list_ok_store_same_fid s m l p n n' :
  s !! p = Some n → GetFrameId n' = GetFrameId n →
  map_list_ok s m l → map_list_ok (<[p:=n']> s) m l.
Proof.
  unfold map_list_ok. intros Hp Hfid Hok f q. rewrite Hok.
  destruct (decide (q = p)) as [->|Hne].
  - rewrite lookup_insert_eq. split; intros (Hq & nq & Hnq & Hf); split; auto.
    + exists n'. split; [done|]. congruence.
    + exists n. split; [done|]. congruence.
  - by rewrite lookup_insert_ne.
Qed.

Lemma map_list_ok_store_fresh s m l p n :
  s !! p = None → (∀ q, q ∈ l → is_Some (s !! q)) →
  map_list_ok s m l → map_list_ok (<[p:=n]> s) m l.
Proof.
  unfold map_list_ok. intros Hp Hlive Hok f q. rewrite Hok.
  split; intros (Hq & nq & Hnq & Hf); (split; [done|]).
  - exists nq. rewrite lookup_insert_ne; [done|]. intros <-. congruence.
  - exists nq. rewrite lookup_insert_ne in Hnq; [done|].
    intros <-. destruct (Hlive p Hq). congruence.
Qed.

Lemma map_list_ok_insert s m before after p n :
  map_list_ok s m (before ++ after) → p ∉ before ++ after →
  s !! p = Some n → m !! GetFrameId n = None →
  map_list_ok s (<[GetFrameId n := p]> m) (before ++ p :: after).
Proof.
  unfold map_list_ok. intros Hok Hp Hn Hm f q. rewrite lookup_insert.
  case_decide as Hf.
  - subst f. split.
    + intros [= <-]. split; [apply elem_of_app; right; left | eauto].
    + intros (Hq & nq & Hnq & Hfid).
      apply elem_of_app in Hq as [Hq | Hq];
        [|apply elem_of_cons in Hq as [-> | Hq]; [done|]].
      * assert (m !! GetFrameId n = Some q) as Hmq.
        { apply Hok. split; [apply elem_of_app; by left | eauto]. }
        congruence.
      * assert (m !! GetFrameId n = Some q) as Hmq.
        { apply Hok. split; [apply elem_of_app; by right | eauto]. }
        congruence.
  - rewrite Hok. split; intros (Hq & nq & Hnq & Hfid).
    + split; [|eauto].
      apply elem_of_app in Hq as [Hq | Hq]; apply elem_of_app;
        [by left | right; by right].
    + split; [|eauto].
      apply elem_of_app in Hq as [Hq | Hq]; [apply elem_of_app; by left|].
      apply elem_of_cons in Hq as [-> | Hq]; [|apply elem_of_app; by right].
      congruence.
Qed.

Lemma map_list_ok_equiv s m (l l' : list ptr) :
  (∀ q, q ∈ l ↔ q ∈ l') → map_list_ok s m l → map_list_ok s m l'.
Proof. unfold map_list_ok. intros Heq Hok f q. rewrite Hok, Heq. done. Qed.

Lemma map_list_okb_sound s m l : map_list_okb s m l = true → map_list_ok s m l.
Proof.
  unfold map_list_okb. intros H. apply andb_prop in H as [Hm Hl]. intros f p. split.
  - intros Hfp. apply elem_of_map_to_list, list_elem_of_In in Hfp.
    pose proof (proj1 (forallb_forall _ _) Hm (f, p) Hfp) as Hb. simpl in Hb.
    apply andb_prop in Hb as [Hin Hnode]. apply bool_decide_eq_true in Hin.
    split; [done|]. destruct (s !! p) as [n|]; [|done].
    exists n. split; [done|]. by apply Z.eqb_eq.
  - intros (Hp & n & Hn & Hf). apply list_elem_of_In in Hp.
    pose proof (proj1 (forallb_forall _ _) Hl p Hp) as Hb. simpl in Hb.
    rewrite Hn in Hb. apply bool_decide_eq_true in Hb. congruence.
Qed.

Lemma wfb_sound r : wfb r = true → wf r.
Proof.
  unfold wfb. intros H.
  apply andb_prop in H as [H Hsorted]. apply andb_prop in H as [H Hsize].
  apply andb_prop in H as [H Hdisj]. apply andb_prop in H as [H Hk].
  apply andb_prop in H as [Hnd Hd].
  apply map_list_okb_sound in Hd as Hdok. apply map_list_okb_sound in Hk as Hkok.
  split; auto.
  - by apply bool_decide_eq_true in Hnd.
  - intros p Hp. unfold map_list_okb in Hd, Hk.
    apply andb_prop in Hd as [_ Hd]. apply andb_prop in Hk as [_ Hk].
    apply elem_of_app in Hp as [Hp | Hp]; apply list_elem_of_In in Hp.
    + pose proof (proj1 (forallb_forall _ _) Hd p Hp) as Hb. simpl in Hb.
      by destruct (store r !! p).
    + pose proof (proj1 (forallb_forall _ _) Hk p Hp) as Hb. simpl in Hb.
      by destruct (store r !! p).
  - intros f. destruct (default_map_ r !! f) as [p|] eqn:Hf; [right|by left].
    apply elem_of_map_to_list, list_elem_of_In in Hf.
    pose proof (proj1 (forallb_forall _ _) Hdisj (f, p) Hf) as Hb. simpl in Hb.
    by apply bool_decide_eq_true in Hb.
  - by apply Z.eqb_eq.
  - by apply k_sortedb_sound.
Qed.

Lemma wf_maps r f p :
  wf r → default_map_ r !! f = Some p ∨ k_map_ r !! f = Some p →
  ∃ n, store r !! p = Some n ∧ GetFrameId n = f ∧ p ∈ tracked r.
Proof.
  intros Hwf [H | H].
  - apply (wf_default _ Hwf) in H as (Hp & n & Hn & Hf).
    exists n. repeat split; auto. apply elem_of_app. by left.
  - apply (wf_k _ Hwf) in H as (Hp & n & Hn & Hf).
    exists n. repeat split; auto. apply elem_of_app. by right.
Qed.

(** *** [RemoveNode] and [InsertKNode] *)

Lemma RemoveNode_spec s lst map cs :
  (∀ p, p ∈ lst → is_Some (s !! p)) →
  (∃ f lst' map', victim s lst map f lst' map' ∧
      RemoveNode s lst map cs = Ok (Some f, lst', map', wrap_size_t (cs - 1)))
  ∨ (Forall (not_evictable s) lst ∧ RemoveNode s lst map cs = Ok (None, lst, map, cs)).
Proof.
  intros Hlive. unfold RemoveNode.
  assert (Hrev : ∀ p, p ∈ rev lst → is_Some (s !! p)).
  { intros p Hp. apply Hlive. apply list_elem_of_In, in_rev, list_elem_of_In, Hp. }
  pose proof (rscan_spec s (rev lst) Hrev) as Hscan.
  destruct (rscan s (rev lst)) as [[[[passed n] unseen]|]|e]; simpl; [| |done].
  - destruct Hscan as (p & Heq & Hp & He & Hpass). left.
    exists (GetFrameId n), (rev unseen ++ rev passed), (delete (GetFrameId n) map).
    split; [|done].
    exists (rev unseen), p, n, (rev passed). repeat split; auto.
    + rewrite <- (rev_involutive lst), Heq, rev_app_distr. simpl.
      by rewrite <- app_assoc.
    + apply Forall_forall. intros q Hq.
      apply list_elem_of_In, in_rev, list_elem_of_In in Hq.
      by apply (proj1 (Forall_forall _ _) Hpass).
  - right. split; [|done].
    apply Forall_forall. intros q Hq.
    apply (proj1 (Forall_forall _ _) Hscan).
    apply list_elem_of_In, in_rev. rewrite rev_involutive. by apply list_elem_of_In.
Qed.

Lemma victim_least s lst map f lst' map' :
  k_sorted s lst → victim s lst map f lst' map' → least_k_distance s lst f.
Proof.
  intros Hsorted (pre & p & n & post & -> & Hp & He & Hpost & -> & _ & _).
  exists p, n. repeat split; auto.
  { apply elem_of_app. right. left. }
  intros q m Hq Hm Hem.
  apply elem_of_app in Hq as [Hq | Hq].
  - apply (StronglySorted_app_1_elem_of _ _ _ q p Hsorted Hq); [left | done | done].
  - apply elem_of_cons in Hq as [-> | Hq].
    + rewrite Hp in Hm. injection Hm as ->. lia.
    + destruct (proj1 (Forall_forall _ _) Hpost q Hq) as (m' & Hm' & He').
      rewrite Hm in Hm'. injection Hm' as ->. congruence.
Qed.

Lemma k_position_spec s d l :
  (∀ p, p ∈ l → is_Some (s !! p)) →
  ∃ before after,
    k_position s d l = Ok (before, after) ∧ l = before ++ after ∧
    Forall (λ q, ∃ m, s !! q = Some m ∧ d < GetKDistance m) before ∧
    (∀ q, head after = Some q → ∃ m, s !! q = Some m ∧ GetKDistance m ≤ d).
Proof.
  induction l as [|p rest IH]; intros Hlive; simpl.
  - exists [], []. repeat split; auto. intros q [=].
  - destruct (Hlive p) as [n Hn]; [left|].
    unfold deref. rewrite Hn. simpl.
    destruct (d <? GetKDistance n) eqn:Hlt.
    + destruct IH as (before & after & -> & -> & Hb & Ha).
      { intros q Hq. apply Hlive. by right. }
      simpl. exists (p :: before), after. repeat split; auto.
      constructor; [|done]. exists n. split; [done|]. by apply Z.ltb_lt.
    + exists [], (p :: rest). repeat split; auto.
      intros q [= <-]. exists n. split; [done|]. by apply Z.ltb_ge.
Qed.

(** [InsertKNode] keeps the k-list ordered and puts the node in front of
    every node whose stored distance is not larger than its own: of two
    nodes with equal distances, the one inserted first is nearer to the
    back. *)
Lemma InsertKNode_spec s kl node n :
  (∀ p, p ∈ kl → is_Some (s !! p)) →
  s !! node = Some n →
  k_sorted s kl →
  ∃ before after,
    InsertKNode s kl node = Ok (before ++ node :: after) ∧ kl = before ++ after ∧
    (∀ q m, q ∈ before → s !! q = Some m → GetKDistance n < GetKDistance m) ∧
    (∀ q m, q ∈ after → s !! q = Some m → GetKDistance m ≤ GetKDistance n) ∧
    k_sorted s (before ++ node :: after).
Proof.
  intros Hlive Hn Hsorted.
  destruct (k_position_spec s (GetKDistance n) kl Hlive)
    as (before & after & Hpos & Hkl & Hb & Ha).
  assert (Hbefore : ∀ q m, q ∈ before → s !! q = Some m →
                           GetKDistance n < GetKDistance m).
  { intros q m Hq Hm.
    destruct (proj1 (Forall_forall _ _) Hb q Hq) as (m' & Hm' & Hlt). congruence. }
  assert (Hafter : ∀ q m, q ∈ after → s !! q = Some m →
                          GetKDistance m ≤ GetKDistance n).
  { intros q m Hq Hm. destruct after as [|a after']; [by apply elem_of_nil in Hq|].
    destruct (Ha a eq_refl) as (ma & Hma & Hle).
    apply elem_of_cons in Hq as [-> | Hq]; [congruence|].
    rewrite Hkl in Hsorted. apply StronglySorted_app_1_r in Hsorted.
    apply StronglySorted_cons in Hsorted as [Hall _].
    pose proof (proj1 (Forall_forall _ _) Hall q Hq ma m Hma Hm). lia. }
  exists before, after.
  split; [|split; [done|split; [done|split; [done|]]]].
  - unfold InsertKNode. destruct kl as [|k0 kl'].
    + symmetry in Hkl. apply app_eq_nil in Hkl as [-> ->]. done.
    + unfold deref. rewrite Hn. cbn -[k_position]. by rewrite Hpos.
  - rewrite Hkl in Hsorted. unfold k_sorted in *.
    apply StronglySorted_app in Hsorted as (Hcross & Hsb & Hsa).
    apply StronglySorted_app. split; [|split; [done|]].
    + intros x y Hx Hy. apply elem_of_cons in Hy as [-> | Hy]; [|by apply Hcross].
      intros nx ny Hnx Hny. rewrite Hn in Hny. injection Hny as <-.
      pose proof (Hbefore x nx Hx Hnx). lia.
    + apply StronglySorted_cons. split; [|done].
      apply Forall_forall. intros y Hy nx ny Hnx Hny.
      rewrite Hn in Hnx. injection Hnx as <-. by apply (Hafter y).
Qed.

Lemma InsertKNode_ok s kl node :
  (∀ p, p ∈ kl → is_Some (s !! p)) → is_Some (s !! node) →
  ∃ before after, InsertKNode s kl node = Ok (before ++ node :: after) ∧
                  kl = before ++ after.
Proof.
  intros Hlive [n Hn]. unfold InsertKNode.
  destruct (k_position_spec s (GetKDistance n) kl Hlive)
    as (before & after & Hpos & Hkl & _).
  exists before, after. split; [|done].
  destruct kl as [|k0 kl].
  - symmetry in Hkl. by apply app_eq_nil in Hkl as [-> ->].
  - unfold deref. rewrite Hn. cbn -[k_position]. by rewrite Hpos.
Qed.

(** *** The node of a frame *)

Lemma node_of_Some r f n :
  node_of r f = Some n ↔ ∃ p, ptr_of r f = Some p ∧ store r !! p = Some n.
Proof.
  unfold node_of. destruct (ptr_of r f) as [p|]; simpl; split.
  - intros H. by exists p.
  - by intros (p' & [= ->] & H).
  - done.
  - by intros (p' & [=] & _).
Qed.

Lemma ptr_of_Some r f p :
  wf r →
  ptr_of r f = Some p ↔ p ∈ tracked r ∧ ∃ n, store r !! p = Some n ∧ GetFrameId n = f.
Proof.
  intros Hwf. unfold ptr_of, tracked. rewrite elem_of_app.
  pose proof (wf_default _ Hwf f) as Hd. pose proof (wf_k _ Hwf f) as Hk.
  destruct (default_map_ r !! f) as [q|] eqn:Hq.
  - destruct (proj1 (Hd q) eq_refl) as (Hqin & nq & Hnq & Hfq). split.
    + intros [= <-]. eauto.
    + intros ([Hp | Hp] & n & Hn & Hf).
      * f_equal. symmetry. assert (Some q = Some p) as [= ->]; [|done].
        apply Hd. eauto.
      * destruct (wf_disjoint _ Hwf f) as [Hnone | Hnone]; [congruence|].
        assert (k_map_ r !! f = Some p) by (apply Hk; eauto). congruence.
  - rewrite Hk. split.
    + intros (Hp & Hn). eauto.
    + intros ([Hp | Hp] & n & Hn & Hf); [|eauto].
      assert (None = Some p) by (apply Hd; eauto). done.
Qed.

Lemma node_of_tracked r f n :
  wf r →
  node_of r f = Some n ↔
  ∃ p, p ∈ tracked r ∧ store r !! p = Some n ∧ GetFrameId n = f.
Proof.
  intros Hwf. rewrite node_of_Some. split.
  - intros (p & Hp & Hn). apply (ptr_of_Some r f p Hwf) in Hp as (Hin & n' & Hn' & Hf).
    exists p. rewrite Hn in Hn'. injection Hn' as <-. done.
  - intros (p & Hin & Hn & Hf). exists p. split; [|done].
    apply ptr_of_Some; eauto.
Qed.

Lemma ptr_of_None r f :
  ptr_of r f = None ↔ default_map_ r !! f = None ∧ k_map_ r !! f = None.
Proof.
  unfold ptr_of. destruct (default_map_ r !! f); [|tauto].
  split; [done | by intros [? _]].
Qed.

Lemma node_of_None r f : wf r → node_of r f = None ↔ ptr_of r f = None.
Proof.
  intros Hwf. unfold node_of. destruct (ptr_of r f) as [p|] eqn:Hp; simpl; [|done].
  apply (ptr_of_Some r f p Hwf) in Hp as (_ & n & Hn & _). rewrite Hn. done.
Qed.

(** A store update at the node of [f] leaves the nodes of the other frames
    as they are. *)
Lemma node_of_other r r' f g p n n' :
  wf r → ptr_of r f = Some p → store r !! p = Some n →
  store r' = <[p := n']> (store r) → ptr_of r' g = ptr_of r g → g ≠ f →
  node_of r' g = node_of r g.
Proof.
  intros Hwf Hp Hn Hs Hptr Hne. unfold node_of. rewrite Hptr, Hs.
  destruct (ptr_of r g) as [q|] eqn:Hq; simpl; [|done].
  rewrite lookup_insert_ne; [done|]. intros <-.
  apply (ptr_of_Some r f p Hwf) in Hp as (_ & n1 & Hn1 & Hf1).
  apply (ptr_of_Some r g p Hwf) in Hq as (_ & n2 & Hn2 & Hf2). congruence.
Qed.

Lemma wf_init num_frames k : wf (init num_frames k).
Proof.
  split; simpl.
  - constructor.
  - intros p Hp. by apply elem_of_nil in Hp.
  - intros f p. rewrite lookup_empty. split; [done|]. intros [Hp _].
    by apply elem_of_nil in Hp.
  - intros f p. rewrite lookup_empty. split; [done|]. intros [Hp _].
    by apply elem_of_nil in Hp.
  - intros f. left. apply lookup_empty.
  - done.
  - constructor.
Qed.

(** *** [SetEvictable] *)

Lemma SetEvictable_untracked r f b :
  ptr_of r f = None → SetEvictable r f b = Fail (RuntimeError "Frame_id does not exist").
Proof.
  intros H. apply ptr_of_None in H as [Hd Hk]. unfold SetEvictable. by rewrite Hd, Hk.
Qed.

Lemma SetEvictable_tracked r f b n :
  wf r → node_of r f = Some n →
  ∃ r', SetEvictable r f b = Ok r' ∧ wf r' ∧
        (∀ g, node_of r' g =
              if decide (g = f) then Some (NodeSetEvictable b n) else node_of r g) ∧
        curr_size_ r' =
          (if GetEvictable n && negb b then wrap_size_t (curr_size_ r - 1)
           else if negb (GetEvictable n) && b then wrap_size_t (curr_size_ r + 1)
           else curr_size_ r) ∧
        default_list_ r' = default_list_ r ∧ k_list_ r' = k_list_ r ∧
        default_map_ r' = default_map_ r ∧ k_map_ r' = k_map_ r ∧
        current_timestamp_ r' = current_timestamp_ r ∧
        replacer_size_ r' = replacer_size_ r.
Proof.
  intros Hwf Hn. pose proof Hn as Hn0.
  apply node_of_Some in Hn as (p & Hp & Hs).
  pose proof (proj1 (ptr_of_Some r f p Hwf) Hp) as (Hin & n0 & Hn0' & Hfid).
  assert (n0 = n) as -> by congruence. clear Hn0'.
  set (n' := NodeSetEvictable b n).
  set (cs := if GetEvictable n && negb b then wrap_size_t (curr_size_ r - 1)
             else if negb (GetEvictable n) && b then wrap_size_t (curr_size_ r + 1)
             else curr_size_ r).
  assert (Heq : SetEvictable r f b =
    Ok {| store := <[p := n']> (store r);
          default_list_ := default_list_ r; default_map_ := default_map_ r;
          k_list_ := k_list_ r; k_map_ := k_map_ r;
          current_timestamp_ := current_timestamp_ r; curr_size_ := cs;
          replacer_size_ := replacer_size_ r; rk_ := rk_ r |}).
  { unfold SetEvictable, ptr_of in *.
    destruct (default_map_ r !! f) as [p0|] eqn:Hd.
    - injection Hp as ->. unfold deref. by rewrite Hs.
    - rewrite Hp. unfold deref. by rewrite Hs. }
  eexists. split; [exact Heq|]. split; [|split; [|done]].
  - destruct Hwf as [Hnd Hlive Hdef Hk Hdisj Hsize Hsorted].
    split; cbn [store default_list_ default_map_ k_list_ k_map_ curr_size_ tracked].
    + done.
    + intros q Hq. rewrite lookup_insert. case_decide; [eauto | by apply Hlive].
    + by eapply map_list_ok_store_same_fid.
    + by eapply map_list_ok_store_same_fid.
    + done.
    + unfold tracked in *. cbn [default_list_ k_list_].
      apply list_elem_of_split in Hin as (pre & post & Hsplit).
      rewrite Hsplit in *. apply NoDup_middle in Hnd as (Hp1 & Hp2 & _).
      rewrite evictable_count_middle in Hsize |- *.
      rewrite evictable_count_store_notin
        by (intros [?|?]%elem_of_app; done).
      rewrite evictable_at_insert_eq. unfold evictable_at in Hsize. rewrite Hs in Hsize.
      subst cs n'. cbn [GetEvictable NodeSetEvictable is_evictable_] in *.
      rewrite Hsize.
      destruct (GetEvictable n); destruct b; cbn [andb negb];
        rewrite ?wrap_size_t_sub, ?wrap_size_t_add; f_equal; lia.
    + by eapply k_sorted_store_same_kd.
  - intros g. case_decide as Hg.
    + subst g. unfold node_of. cbn [store].
      replace (ptr_of _ f) with (Some p) by (by rewrite <- Hp).
      cbn. by rewrite lookup_insert_eq.
    + by eapply (node_of_other r _ f g p n n').
Qed.

(** *** [Evict] *)

Lemma Evict_cases r :
  wf r →
  (curr_size_ r = 0 ∧ Evict r = Ok (r, None))
  ∨
  (curr_size_ r ≠ 0 ∧ ∃ f r',
     Evict r = Ok (r', Some f) ∧
     store r' = store r ∧ current_timestamp_ r' = current_timestamp_ r ∧
     replacer_size_ r' = replacer_size_ r ∧ rk_ r' = rk_ r ∧
     curr_size_ r' = wrap_size_t (curr_size_ r - 1) ∧
     ((victim (store r) (default_list_ r) (default_map_ r) f
              (default_list_ r') (default_map_ r') ∧
       k_list_ r' = k_list_ r ∧ k_map_ r' = k_map_ r)
      ∨
      (Forall (not_evictable (store r)) (default_list_ r) ∧
       default_list_ r' = default_list_ r ∧ default_map_ r' = default_map_ r ∧
       victim (store r) (k_list_ r) (k_map_ r) f (k_list_ r') (k_map_ r')))).
Proof.
  intros Hwf. pose proof (wf_live _ Hwf) as Hlive. pose proof (wf_size _ Hwf) as Hsize.
  unfold tracked in *. unfold Evict.
  destruct (curr_size_ r =? 0) eqn:Hz.
  { apply Z.eqb_eq in Hz. by left. }
  apply Z.eqb_neq in Hz. right. split; [done|].
  assert (Hcount : (0 < evictable_count (store r) (default_list_ r ++ k_list_ r))%nat).
  { destruct (evictable_count (store r) (default_list_ r ++ k_list_ r)); [|lia].
    rewrite Hsize in Hz. done. }
  rewrite evictable_count_app in Hcount.
  assert (Hld : ∀ p, p ∈ default_list_ r → is_Some (store r !! p)).
  { intros p Hp. apply Hlive, elem_of_app. by left. }
  assert (Hlk : ∀ p, p ∈ k_list_ r → is_Some (store r !! p)).
  { intros p Hp. apply Hlive, elem_of_app. by right. }
  assert (Hdef :
    (∃ f lst' map', victim (store r) (default_list_ r) (default_map_ r) f lst' map' ∧
       (if bool_decide (default_list_ r ≠ [])
        then RemoveNode (store r) (default_list_ r) (default_map_ r) (curr_size_ r)
        else Ok (None, default_list_ r, default_map_ r, curr_size_ r))
       = Ok (Some f, lst', map', wrap_size_t (curr_size_ r - 1)))
    ∨ (Forall (not_evictable (store r)) (default_list_ r) ∧
       (if bool_decide (default_list_ r ≠ [])
        then RemoveNode (store r) (default_list_ r) (default_map_ r) (curr_size_ r)
        else Ok (None, default_list_ r, default_map_ r, curr_size_ r))
       = Ok (None, default_list_ r, default_map_ r, curr_size_ r))).
  { destruct (decide (default_list_ r = [])) as [Hnil|Hne].
    - rewrite bool_decide_false by (intros H; by apply H).
      right. split; [|done]. rewrite Hnil. constructor.
    - rewrite bool_decide_true by done.
      destruct (RemoveNode_spec (store r) (default_list_ r) (default_map_ r)
                  (curr_size_ r) Hld) as [(f & l' & m' & Hv & Heq) | [Hall Heq]].
      + left. by exists f, l', m'.
      + by right. }
  destruct Hdef as [(f & l' & m' & Hv & ->) | [Hall ->]]; simpl.
  - eexists f, _. split; [reflexivity|]. simpl. repeat split; auto.
  - rewrite (evictable_count_none _ _ Hall) in Hcount.
    assert (Hk : k_list_ r ≠ []).
    { intros Hnil. rewrite Hnil in Hcount. cbn in Hcount. lia. }
    rewrite bool_decide_true by done.
    destruct (RemoveNode_spec (store r) (k_list_ r) (k_map_ r) (curr_size_ r) Hlk)
      as [(f & l' & m' & Hv & ->) | [Hallk _]]; simpl.
    + eexists f, _. split; [reflexivity|]. simpl. repeat split; auto.
    + rewrite (evictable_count_none _ _ Hallk) in Hcount. lia.
Qed.

Lemma Evict_None r r' : wf r → Evict r = Ok (r', None) → r' = r ∧ curr_size_ r = 0.
Proof.
  intros Hwf He. destruct (Evict_cases r Hwf) as [[Hz H] | (_ & f & r0 & H & _)];
    rewrite H in He; by simplify_eq.
Qed.

(** [Evict] keeps the replacer well formed; the frame it returns had an
    evictable node and has none afterwards, the other frames keep theirs. *)
Lemma Evict_Some r r' f :
  wf r → Evict r = Ok (r', Some f) →
  wf r' ∧
  (∃ n, node_of r f = Some n ∧ GetEvictable n = true) ∧
  (∀ g, node_of r' g = if decide (g = f) then None else node_of r g) ∧
  replacer_size_ r' = replacer_size_ r ∧
  curr_size_ r' = wrap_size_t (curr_size_ r - 1).
Proof.
  intros Hwf He.
  destruct (Evict_cases r Hwf) as [[_ H] | (_ & f' & r0 & H & Hst & _ & Hrs & _ & Hcs & Hcase)];
    rewrite H in He; simplify_eq.
  pose proof Hwf as [Hnd Hlive Hdef Hk Hdisj Hsize Hsorted]. unfold tracked in *.
  destruct Hcase as [(Hv & Hkl & Hkm) | (_ & Hdl & Hdm & Hv)];
    destruct Hv as (pre & p & n & post & Hl & Hp & Hev & _ & -> & Hl' & Hm').
  - (* the victim was in the default list *)
    assert (Hnd' : NoDup (pre ++ p :: post)) by (rewrite <- Hl; by apply NoDup_app in Hnd as [? _]).
    assert (Hdmf : default_map_ r !! GetFrameId n = Some p).
    { apply Hdef. rewrite Hl. split; [apply elem_of_app; right; left | eauto]. }
    assert (Hkmf : k_map_ r !! GetFrameId n = None).
    { destruct (Hdisj (GetFrameId n)); congruence. }
    split; [|split; [|split; [|done]]].
    + split; unfold tracked; rewrite ?Hst, ?Hl', ?Hm', ?Hkl, ?Hkm, ?Hcs.
      * rewrite Hl, <- app_assoc in Hnd. cbn in Hnd.
        apply NoDup_middle in Hnd as (_ & _ & Hnd). by rewrite <- app_assoc.
      * intros q Hq. apply Hlive. rewrite Hl.
        apply elem_of_app in Hq as [Hq | Hq]; [|apply elem_of_app; by right].
        apply elem_of_app. left.
        apply elem_of_app in Hq as [Hq | Hq]; apply elem_of_app; [by left | right; by right].
      * eapply map_list_ok_remove; eauto. by rewrite <- Hl.
      * done.
      * intros g. rewrite lookup_delete. case_decide; [by left|]. apply Hdisj.
      * rewrite Hsize, Hl, <- !app_assoc. cbn.
        rewrite evictable_count_middle. unfold evictable_at. rewrite Hp, Hev.
        rewrite wrap_size_t_sub. f_equal. lia.
      * done.
    + exists n. split; [|done]. apply node_of_tracked; [done|].
      exists p. split; [|done]. unfold tracked. rewrite Hl.
      apply elem_of_app. left. apply elem_of_app. right. left.
    + intros g. unfold node_of, ptr_of. rewrite Hst, Hm', Hkm.
      rewrite lookup_delete. case_decide as Hg.
      * subst g. by rewrite decide_True, Hkmf.
      * by rewrite decide_False by (intros ->; done).
  - (* the victim was in the k-list *)
    assert (Hnd' : NoDup (pre ++ p :: post)) by (rewrite <- Hl; by apply NoDup_app in Hnd as (_ & _ & ?)).
    assert (Hkmf : k_map_ r !! GetFrameId n = Some p).
    { apply Hk. rewrite Hl. split; [apply elem_of_app; right; left | eauto]. }
    assert (Hdmf : default_map_ r !! GetFrameId n = None).
    { destruct (Hdisj (GetFrameId n)); congruence. }
    split; [|split; [|split; [|done]]].
    + split; unfold tracked; rewrite ?Hst, ?Hl', ?Hm', ?Hdl, ?Hdm, ?Hcs.
      * rewrite Hl, app_assoc in Hnd.
        apply NoDup_middle in Hnd as (_ & _ & Hnd). by rewrite app_assoc.
      * intros q Hq. apply Hlive. rewrite Hl.
        apply elem_of_app in Hq as [Hq | Hq]; [apply elem_of_app; by left|].
        apply elem_of_app. right.
        apply elem_of_app in Hq as [Hq | Hq]; apply elem_of_app; [by left | right; by right].
      * done.
      * eapply map_list_ok_remove; eauto. by rewrite <- Hl.
      * intros g. rewrite lookup_delete. case_decide; [by right|]. apply Hdisj.
      * rewrite Hsize, Hl, !app_assoc.
        rewrite evictable_count_middle. unfold evictable_at. rewrite Hp, Hev.
        rewrite wrap_size_t_sub. f_equal. lia.
      * rewrite Hl in Hsorted. by eapply k_sorted_remove.
    + exists n. split; [|done]. apply node_of_tracked; [done|].
      exists p. split; [|done]. unfold tracked. rewrite Hl.
      apply elem_of_app. right. apply elem_of_app. right. left.
    + intros g. unfold node_of, ptr_of. rewrite Hst, Hm', Hdm.
      rewrite lookup_delete. case_decide as Hg.
      * subst g. by rewrite decide_True, Hdmf.
      * by rewrite decide_False by (intros ->; done).
Qed.

(** *** [RecordAccess] *)

Lemma evictable_count_perm s l l' :
  l ≡ₚ l' → evictable_count s l = evictable_count s l'.
Proof. intros H. unfold evictable_count. by rewrite H. Qed.

Lemma wf_ext r r' :
  store r' = store r → default_list_ r' = default_list_ r →
  default_map_ r' = default_map_ r → k_list_ r' = k_list_ r →
  k_map_ r' = k_map_ r → curr_size_ r' = curr_size_ r → wf r → wf r'.
Proof.
  intros Hs Hdl Hdm Hkl Hkm Hcs [? ? ? ? ? ? ?].
  split; unfold tracked in *; rewrite ?Hs, ?Hdl, ?Hdm, ?Hkl, ?Hkm, ?Hcs; done.
Qed.

Lemma node_of_ext r r' g :
  store r' = store r → default_map_ r' = default_map_ r → k_map_ r' = k_map_ r →
  node_of r' g = node_of r g.
Proof. intros Hs Hdm Hkm. unfold node_of, ptr_of. by rewrite Hs, Hdm, Hkm. Qed.

Lemma RecordAccess_rejects_above kdist r f :
  f > to_int32 (replacer_size_ r) → RecordAccess kdist r f = Ok r.
Proof.
  intros H. unfold RecordAccess.
  by rewrite (proj2 (Z.gtb_lt _ _)) by lia.
Qed.

(** The body of [RecordAccess] for a frame that is not tracked: a new node
    at the front of the default list. *)
Lemma RecordAccess_new r f node :
  wf r → ptr_of r f = None → GetFrameId node = f → GetEvictable node = false →
  let p := fresh (dom (store r)) in
  let r' := {| store := <[p := node]> (store r);
               default_list_ := p :: default_list_ r;
               default_map_ := <[f := p]> (default_map_ r);
               k_list_ := k_list_ r; k_map_ := k_map_ r;
               current_timestamp_ := current_timestamp_ r;
               curr_size_ := curr_size_ r;
               replacer_size_ := replacer_size_ r; rk_ := rk_ r |} in
  wf r' ∧ ∀ g, node_of r' g = if decide (g = f) then Some node else node_of r g.
Proof.
  intros Hwf Hnone Hfid Hev p r'.
  pose proof Hwf as [Hnd Hlive Hdef Hk Hdisj Hsize Hsorted].
  apply ptr_of_None in Hnone as [Hdm Hkm].
  assert (Hfresh : store r !! p = None).
  { apply not_elem_of_dom. apply is_fresh. }
  assert (Hnotin : p ∉ tracked r).
  { intros Hin. destruct (Hlive p Hin). congruence. }
  assert (Hnd_ : p ∉ default_list_ r).
  { intros Hin. apply Hnotin, elem_of_app. by left. }
  assert (Hnk_ : p ∉ k_list_ r).
  { intros Hin. apply Hnotin, elem_of_app. by right. }
  split.
  - split; subst r'; unfold tracked in *;
      cbn [store default_list_ default_map_ k_list_ k_map_ curr_size_].
    + cbn. apply NoDup_cons. done.
    + intros q Hq. rewrite lookup_insert. case_decide; [eauto|].
      apply Hlive. cbn in Hq. apply elem_of_cons in Hq as [->|Hq]; done.
    + subst f. apply (map_list_ok_insert _ _ [] (default_list_ r) p node); cbn.
      * apply map_list_ok_store_fresh; auto.
        intros q Hq. apply Hlive, elem_of_app. by left.
      * done.
      * by rewrite lookup_insert_eq.
      * done.
    + apply map_list_ok_store_fresh; auto.
      intros q Hq. apply Hlive, elem_of_app. by right.
    + intros g. rewrite lookup_insert. case_decide; [subst g; by right | apply Hdisj].
    + cbn [app]. rewrite evictable_count_cons, evictable_at_insert_eq, Hev.
      by rewrite evictable_count_store_notin.
    + by apply k_sorted_store_notin.
  - intros g. subst r'. unfold node_of, ptr_of.
    cbn [store default_map_ k_map_]. rewrite lookup_insert.
    destruct (decide (f = g)) as [<-|Hne].
    + rewrite decide_True by done. cbn. by rewrite lookup_insert_eq.
    + rewrite decide_False by (intros ->; done).
      fold (ptr_of r g). destruct (ptr_of r g) as [q|] eqn:Hq; [|done]. cbn.
      rewrite lookup_insert_ne; [done|]. intros <-.
      apply (ptr_of_Some r g p Hwf) in Hq as [Hq _]. done.
Qed.

(** The same for a node of the default list that stays there. *)
Lemma RecordAccess_stays r f p n node :
  wf r → ptr_of r f = Some p → store r !! p = Some n →
  GetFrameId node = GetFrameId n → GetEvictable node = GetEvictable n →
  GetKDistance node = GetKDistance n →
  let r' := {| store := <[p := node]> (store r);
               default_list_ := default_list_ r;
               default_map_ := default_map_ r;
               k_list_ := k_list_ r; k_map_ := k_map_ r;
               current_timestamp_ := current_timestamp_ r;
               curr_size_ := curr_size_ r;
               replacer_size_ := replacer_size_ r; rk_ := rk_ r |} in
  wf r' ∧ ∀ g, node_of r' g = if decide (g = f) then Some node else node_of r g.
Proof.
  intros Hwf Hp Hn Hfid Hev Hkd r'.
  pose proof Hwf as [Hnd Hlive Hdef Hk Hdisj Hsize Hsorted].
  split.
  - split; subst r'; unfold tracked in *;
      cbn [store default_list_ default_map_ k_list_ k_map_ curr_size_].
    + done.
    + intros q Hq. rewrite lookup_insert. case_decide; [eauto | by apply Hlive].
    + by eapply map_list_ok_store_same_fid.
    + by eapply map_list_ok_store_same_fid.
    + done.
    + by rewrite (evictable_count_store_same_flag _ _ n).
    + by eapply k_sorted_store_same_kd.
  - intros g. case_decide as Hg.
    + subst g. unfold node_of. subst r'. cbn [store].
      replace (ptr_of _ f) with (Some p) by (by rewrite <- Hp).
      cbn. by rewrite lookup_insert_eq.
    + by eapply (node_of_other r _ f g p n node).
Qed.

(** The same for a node that enters the k-list, or moves within it: the
    node leaves the list [from] it was in ([true]: the default list) and is
    put in the k-list at the place [InsertKNode] finds. *)
Lemma RecordAccess_to_k_list r f p n node before after (from_default : bool) :
  wf r → ptr_of r f = Some p → store r !! p = Some n →
  GetFrameId node = GetFrameId n → GetEvictable node = GetEvictable n →
  (if from_default then is_Some (default_map_ r !! f) else default_map_ r !! f = None) →
  list_remove p (k_list_ r) = before ++ after →
  k_sorted (<[p := node]> (store r)) (before ++ p :: after) →
  let r' := {| store := <[p := node]> (store r);
               default_list_ := list_remove p (default_list_ r);
               default_map_ := delete f (default_map_ r);
               k_list_ := before ++ p :: after;
               k_map_ := <[f := p]> (k_map_ r);
               current_timestamp_ := current_timestamp_ r;
               curr_size_ := curr_size_ r;
               replacer_size_ := replacer_size_ r; rk_ := rk_ r |} in
  wf r' ∧ ∀ g, node_of r' g = if decide (g = f) then Some node else node_of r g.
Proof.
  intros Hwf Hp Hn Hfid Hev Hfrom Hkl Hsorted' r'.
  pose proof Hwf as [Hnd Hlive Hdef Hk Hdisj Hsize Hsorted].
  pose proof (proj1 (ptr_of_Some r f p Hwf) Hp) as (Hin & n0 & Hn0 & Hf).
  assert (n0 = n) as -> by congruence. clear Hn0.
  assert (Hperm : list_remove p (default_list_ r) ++ before ++ p :: after
                  ≡ₚ tracked r).
  { unfold tracked in *. destruct from_default.
    - destruct Hfrom as [p' Hp']. assert (p' = p) as ->.
      { unfold ptr_of in Hp. rewrite Hp' in Hp. congruence. }
      apply Hdef in Hp' as [Hpd _].
      apply list_elem_of_split in Hpd as (pre & post & Hsplit).
      rewrite Hsplit in *. rewrite <- app_assoc in Hnd. cbn in Hnd.
      apply NoDup_middle in Hnd as (Hp1 & Hp2 & _).
      apply not_elem_of_app in Hp2 as [Hp2 Hp3].
      rewrite list_remove_middle by done.
      rewrite list_remove_notin in Hkl by done. rewrite Hkl.
      rewrite <- !app_assoc. cbn.
      by rewrite <- !Permutation_middle.
    - assert (Hpk : p ∈ k_list_ r).
      { unfold ptr_of in Hp. rewrite Hfrom in Hp. by apply Hk in Hp as [? _]. }
      apply list_elem_of_split in Hpk as (pre & post & Hsplit).
      rewrite Hsplit in *. rewrite app_assoc in Hnd.
      apply NoDup_middle in Hnd as (Hp1 & Hp2 & _).
      apply not_elem_of_app in Hp1 as [Hp0 Hp1].
      rewrite list_remove_middle in Hkl by done.
      rewrite list_remove_notin by done.
      f_equiv. rewrite <- !Permutation_middle. by rewrite Hkl. }
  assert (Hpk' : p ∉ before ++ after).
  { rewrite <- Hkl. unfold list_remove. intros Hx.
    apply list_elem_of_filter in Hx as [Hx _]. done. }
  assert (Hpd' : p ∉ list_remove p (default_list_ r)).
  { unfold list_remove. intros Hx. apply list_elem_of_filter in Hx as [Hx _]. done. }
  assert (Hdm' : map_list_ok (store r) (delete f (default_map_ r))
                   (list_remove p (default_list_ r))).
  { destruct from_default.
    - destruct Hfrom as [p' Hp']. assert (p' = p) as ->.
      { unfold ptr_of in Hp. rewrite Hp' in Hp. congruence. }
      pose proof (proj1 (Hdef _ _) Hp') as [Hpd _].
      apply list_elem_of_split in Hpd as (pre & post & Hsplit).
      assert (Hnd' : NoDup (pre ++ p :: post)).
      { rewrite <- Hsplit. unfold tracked in Hnd. by apply NoDup_app in Hnd as [? _]. }
      rewrite Hsplit in *.
      apply NoDup_middle in Hnd' as Hnd''. destruct Hnd'' as (Hp1 & Hp2 & _).
      rewrite list_remove_middle by done. rewrite <- Hf.
      by eapply map_list_ok_remove.
    - rewrite delete_id by done. rewrite list_remove_notin; [done|].
      intros Hx. assert (default_map_ r !! f = Some p) by (apply Hdef; eauto).
      congruence. }
  assert (Hkm' : map_list_ok (store r) (delete f (k_map_ r)) (before ++ after)).
  { rewrite <- Hkl. destruct from_default.
    - destruct Hfrom as [p' Hp'].
      assert (k_map_ r !! f = None) by (destruct (Hdisj f); congruence).
      rewrite delete_id by done. rewrite list_remove_notin; [done|].
      intros Hx. assert (k_map_ r !! f = Some p) by (apply Hk; eauto). congruence.
    - assert (Hkp : k_map_ r !! f = Some p).
      { unfold ptr_of in Hp. by rewrite Hfrom in Hp. }
      pose proof (proj1 (Hk _ _) Hkp) as [Hpk _].
      apply list_elem_of_split in Hpk as (pre & post & Hsplit).
      assert (Hnd' : NoDup (pre ++ p :: post)).
      { rewrite <- Hsplit. unfold tracked in Hnd. by apply NoDup_app in Hnd as (_ & _ & ?). }
      rewrite Hsplit in *.
      apply NoDup_middle in Hnd' as Hnd''. destruct Hnd'' as (Hp1 & Hp2 & _).
      rewrite list_remove_middle by done. rewrite <- Hf.
      by eapply map_list_ok_remove. }
  split.
  - split; subst r'; unfold tracked in *;
      cbn [store default_list_ default_map_ k_list_ k_map_ curr_size_].
    + by rewrite Hperm.
    + intros q Hq. rewrite lookup_insert. case_decide; [eauto|].
      apply Hlive. by rewrite <- Hperm.
    + by eapply map_list_ok_store_same_fid.
    + rewrite <- (insert_delete_eq (k_map_ r)). rewrite <- Hf, <- Hfid.
      apply map_list_ok_insert.
      * rewrite Hfid, Hf. by eapply map_list_ok_store_same_fid.
      * done.
      * by rewrite lookup_insert_eq.
      * by rewrite lookup_delete_eq.
    + intros g. rewrite lookup_delete, lookup_insert.
      destruct (decide (f = g)); [by left|].
      destruct (Hdisj g) as [H|H]; [left | by right]. done.
    + rewrite (evictable_count_store_same_flag _ _ n) by done.
      by rewrite (evictable_count_perm _ _ _ Hperm).
    + done.
  - intros g. case_decide as Hg.
    + subst g. unfold node_of, ptr_of. subst r'. cbn [store default_map_ k_map_].
      rewrite lookup_delete_eq, lookup_insert_eq. cbn. by rewrite lookup_insert_eq.
    + eapply (node_of_other r _ f g p n node); eauto.
      unfold ptr_of. subst r'. cbn [default_map_ k_map_].
      by rewrite lookup_delete_ne, lookup_insert_ne by done.
Qed.

(** [RecordAccess] on a frame id it admits keeps the replacer well formed.
    The frame is tracked afterwards, its evictable flag is the one it had
    (false for a new node), the other frames keep their nodes, [curr_size_]
    stays and the clock advances. *)
Lemma RecordAccess_wf kdist r f :
  wf r → f ≤ to_int32 (replacer_size_ r) →
  ∃ r' n',
    RecordAccess kdist r f = Ok r' ∧ wf r' ∧
    (∀ g, node_of r' g = if decide (g = f) then Some n' else node_of r g) ∧
    GetEvictable n' = match node_of r f with
                      | Some n => GetEvictable n
                      | None => false
                      end ∧
    curr_size_ r' = curr_size_ r ∧ replacer_size_ r' = replacer_size_ r ∧
    current_timestamp_ r' = wrap_size_t (current_timestamp_ r + 1).
Proof.
  intros Hwf Hle. pose proof Hwf as [Hnd Hlive Hdef Hk Hdisj Hsize Hsorted].
  unfold RecordAccess. rewrite Z.gtb_ltb, (proj2 (Z.ltb_ge _ _)) by lia.
  assert (Hlk : ∀ q, q ∈ k_list_ r → is_Some (store r !! q)).
  { intros q Hq. apply Hlive, elem_of_app. by right. }
  destruct (default_map_ r !! f) as [p|] eqn:Hdm;
    [|destruct (k_map_ r !! f) as [p|] eqn:Hkm].
  - (* a node of the default list *)
    destruct (proj1 (Hdef f p) Hdm) as (Hpin & n & Hn & Hfid).
    assert (Hp : ptr_of r f = Some p) by (unfold ptr_of; by rewrite Hdm).
    assert (Hnode : node_of r f = Some n) by (unfold node_of; by rewrite Hp).
    assert (Hpk : p ∉ k_list_ r).
    { intros Hx. apply NoDup_app in Hnd as (_ & Hdis & _). by apply (Hdis p). }
    rewrite Hnode. unfold deref. rewrite Hn. cbn -[InsertKNode].
    destruct (GetNumOfReferences _ >=? rk_ r).
    + set (node' := UpdateKDistance kdist _).
      destruct (InsertKNode_spec (<[p:=node']> (store r)) (k_list_ r) p node')
        as (before & after & Heq & Hkl & _ & _ & Hs').
      { intros q Hq. rewrite lookup_insert. case_decide; [eauto | by apply Hlk]. }
      { by rewrite lookup_insert_eq. }
      { by apply k_sorted_store_notin. }
      rewrite Heq. cbn.
      destruct (RecordAccess_to_k_list r f p n node' before after true)
        as [Hwf' Hview]; auto.
      { by rewrite list_remove_notin. }
      eexists _, node'. split; [reflexivity|].
      split; [eapply wf_ext; [..|exact Hwf']; reflexivity|].
      split; [|done].
      intros g. rewrite <- Hview. by apply node_of_ext.
    + cbn.
      destruct (RecordAccess_stays r f p n (InsertTimeStamp (current_timestamp_ r) n))
        as [Hwf' Hview]; auto.
      eexists _, (InsertTimeStamp (current_timestamp_ r) n). split; [reflexivity|].
      split; [eapply wf_ext; [..|exact Hwf']; reflexivity|].
      split; [|done].
      intros g. rewrite <- Hview. by apply node_of_ext.
  - (* a node of the k-list *)
    destruct (proj1 (Hk f p) Hkm) as (Hpin & n & Hn & Hfid).
    assert (Hp : ptr_of r f = Some p) by (unfold ptr_of; by rewrite Hdm).
    assert (Hnode : node_of r f = Some n) by (unfold node_of; by rewrite Hp).
    assert (Hpd : p ∉ default_list_ r).
    { intros Hx. apply NoDup_app in Hnd as (_ & Hdis & _). by apply (Hdis p). }
    rewrite Hnode. unfold deref. rewrite Hn. cbn -[InsertKNode].
    set (node' := UpdateKDistance kdist _).
    assert (Hrem : p ∉ list_remove p (k_list_ r)).
    { unfold list_remove. intros Hx. by apply list_elem_of_filter in Hx as [Hx _]. }
    destruct (InsertKNode_spec (<[p:=node']> (store r)) (list_remove p (k_list_ r)) p node')
      as (before & after & Heq & Hkl & _ & _ & Hs').
    { intros q Hq. rewrite lookup_insert. case_decide; [eauto|].
      apply Hlk. unfold list_remove in Hq. by apply list_elem_of_filter in Hq as [_ Hq]. }
    { by rewrite lookup_insert_eq. }
    { apply k_sorted_store_notin; [done|].
      pose proof Hpin as Hpin'.
      apply list_elem_of_split in Hpin' as (pre & post & Hsplit).
      assert (Hnd' : NoDup (k_list_ r)) by (by apply NoDup_app in Hnd as (_ & _ & ?)).
      rewrite Hsplit in *. apply NoDup_middle in Hnd' as (Hp1 & Hp2 & _).
      rewrite list_remove_middle by done. by eapply k_sorted_remove. }
    rewrite Heq. cbn.
    destruct (RecordAccess_to_k_list r f p n node' before after false)
      as [Hwf' Hview]; auto.
    eexists _, node'. split; [reflexivity|].
    split; [|split; [|done]].
    + eapply wf_ext; [..|exact Hwf']; cbn; try reflexivity.
      * symmetry. by apply list_remove_notin.
      * symmetry. by apply delete_id.
      * symmetry. by apply insert_id.
    + intros g. rewrite <- Hview. apply node_of_ext; cbn; try reflexivity.
      * symmetry. by apply delete_id.
      * symmetry. by apply insert_id.
  - (* a frame that is not tracked *)
    assert (Hp : ptr_of r f = None) by (unfold ptr_of; by rewrite Hdm).
    assert (Hnode : node_of r f = None) by (unfold node_of; by rewrite Hp).
    rewrite Hnode. cbn.
    destruct (RecordAccess_new r f
                (InsertTimeStamp (current_timestamp_ r) (newNode f (rk_ r))))
      as [Hwf' Hview]; auto.
    eexists _, (InsertTimeStamp (current_timestamp_ r) (newNode f (rk_ r))).
    split; [reflexivity|].
    split; [eapply wf_ext; [..|exact Hwf']; reflexivity|].
    split; [|done].
    intros g. rewrite <- Hview. by apply node_of_ext.
Qed.

(** *** [Remove] *)

Lemma Remove_untracked r f : ptr_of r f = None → Remove r f = Ok r.
Proof.
  intros H. apply ptr_of_None in H as [Hd Hk]. unfold Remove. by rewrite Hd, Hk.
Qed.

Lemma Remove_not_evictable r f n :
  node_of r f = Some n → GetEvictable n = false →
  Remove r f = Fail (RuntimeError "Cannot remove").
Proof.
  intros Hn Hev. apply node_of_Some in Hn as (p & Hp & Hs).
  unfold Remove, ptr_of in *.
  destruct (default_map_ r !! f) as [p0|] eqn:Hd.
  - injection Hp as ->. unfold deref. rewrite Hs. cbn. by rewrite Hev.
  - rewrite Hp. unfold deref. rewrite Hs. cbn. by rewrite Hev.
Qed.

(** [Remove] of an evictable frame keeps the replacer well formed: the frame
    is no longer tracked, the others keep their nodes and [curr_size_] drops
    by one. *)
Lemma Remove_wf r f n :
  wf r → node_of r f = Some n → GetEvictable n = true →
  ∃ r', Remove r f = Ok r' ∧ wf r' ∧
        (∀ g, node_of r' g = if decide (g = f) then None else node_of r g) ∧
        curr_size_ r' = wrap_size_t (curr_size_ r - 1) ∧
        replacer_size_ r' = replacer_size_ r.
Proof.
  intros Hwf Hnode Hev. pose proof Hwf as [Hnd Hlive Hdef Hk Hdisj Hsize Hsorted].
  apply node_of_Some in Hnode as (p & Hp & Hn).
  pose proof (proj1 (ptr_of_Some r f p Hwf) Hp) as (Hin & n0 & Hn0 & Hf).
  assert (n0 = n) as -> by congruence. clear Hn0.
  unfold tracked in *. unfold Remove, ptr_of in *.
  destruct (default_map_ r !! f) as [p0|] eqn:Hdm.
  - injection Hp as ->. unfold deref. rewrite Hn. cbn. rewrite Hev. cbn.
    assert (Hkm : k_map_ r !! f = None) by (destruct (Hdisj f); congruence).
    pose proof (proj1 (Hdef _ _) Hdm) as [Hpd _].
    apply list_elem_of_split in Hpd as (pre & post & Hl).
    assert (Hnd' : NoDup (pre ++ p :: post)).
    { rewrite <- Hl. by apply NoDup_app in Hnd as [? _]. }
    pose proof (proj1 (NoDup_middle _ _ _) Hnd') as (Hp1 & Hp2 & _).
    eexists. split; [reflexivity|].
    split; [|split; [|done]].
    + split; unfold tracked;
        cbn [store default_list_ default_map_ k_list_ k_map_ curr_size_];
        rewrite Hl in *; rewrite ?list_remove_middle by done.
      * rewrite <- app_assoc in Hnd. cbn in Hnd.
        apply NoDup_middle in Hnd as (_ & _ & Hnd). by rewrite <- app_assoc.
      * intros q Hq. apply Hlive.
        apply elem_of_app in Hq as [Hq | Hq]; [|apply elem_of_app; by right].
        apply elem_of_app. left.
        apply elem_of_app in Hq as [Hq | Hq]; apply elem_of_app; [by left | right; by right].
      * rewrite <- Hf. by eapply map_list_ok_remove.
      * done.
      * intros g. rewrite lookup_delete. case_decide; [by left|]. apply Hdisj.
      * rewrite Hsize, <- !app_assoc. cbn.
        rewrite evictable_count_middle. unfold evictable_at. rewrite Hn, Hev.
        rewrite wrap_size_t_sub. f_equal. lia.
      * done.
    + intros g. unfold node_of, ptr_of. cbn [store default_map_ k_map_].
      rewrite lookup_delete. destruct (decide (f = g)) as [<-|Hne].
      * by rewrite decide_True, Hkm.
      * by rewrite decide_False by (intros ->; done).
  - rewrite Hp. unfold deref. rewrite Hn. cbn. rewrite Hev. cbn.
    pose proof (proj1 (Hk _ _) Hp) as [Hpk _].
    apply list_elem_of_split in Hpk as (pre & post & Hl).
    assert (Hnd' : NoDup (pre ++ p :: post)).
    { rewrite <- Hl. by apply NoDup_app in Hnd as (_ & _ & ?). }
    pose proof (proj1 (NoDup_middle _ _ _) Hnd') as (Hp1 & Hp2 & _).
    eexists. split; [reflexivity|].
    split; [|split; [|done]].
    + split; unfold tracked;
        cbn [store default_list_ default_map_ k_list_ k_map_ curr_size_];
        rewrite Hl in *; rewrite ?list_remove_middle by done.
      * rewrite app_assoc in Hnd.
        apply NoDup_middle in Hnd as (_ & _ & Hnd). by rewrite app_assoc.
      * intros q Hq. apply Hlive.
        apply elem_of_app in Hq as [Hq | Hq]; [apply elem_of_app; by left|].
        apply elem_of_app. right.
        apply elem_of_app in Hq as [Hq | Hq]; apply elem_of_app; [by left | right; by right].
      * done.
      * rewrite <- Hf. by eapply map_list_ok_remove.
      * intros g. rewrite lookup_delete. case_decide; [by right|]. apply Hdisj.
      * rewrite Hsize, !app_assoc.
        rewrite evictable_count_middle. unfold evictable_at. rewrite Hn, Hev.
        rewrite wrap_size_t_sub. f_equal. lia.
      * by eapply k_sorted_remove.
    + intros g. unfold node_of, ptr_of. cbn [store default_map_ k_map_].
      rewrite lookup_delete. destruct (decide (f = g)) as [<-|Hne].
      * by rewrite decide_True, Hdm.
      * by rewrite decide_False by (intros ->; done).
Qed.

(** *** How many nodes the replacer holds *)

(** [SetEvictable] on a tracked frame returns, whatever the rest of the
    state. *)
Lemma SetEvictable_node r f b n :
  node_of r f = Some n →
  ∃ r', SetEvictable r f b = Ok r' ∧ node_of r' f = Some (NodeSetEvictable b n).
Proof.
  intros Hn. apply node_of_Some in Hn as (p & Hp & Hs).
  unfold ptr_of in Hp. unfold SetEvictable.
  destruct (default_map_ r !! f) as [p0|] eqn:Hd.
  - injection Hp as ->. unfold deref. rewrite Hs. simpl.
    eexists. split; [reflexivity|].
    unfold node_of, ptr_of. simpl. rewrite Hd. simpl. by rewrite lookup_insert_eq.
  - rewrite Hp. unfold deref. rewrite Hs. simpl.
    eexists. split; [reflexivity|].
    unfold node_of, ptr_of. simpl. rewrite Hd, Hp. simpl. by rewrite lookup_insert_eq.
Qed.

(** The tracked nodes have distinct frame ids: a replacer whose frames are
    below [N] holds at most [N] nodes. *)
Lemma tracked_bound r N :
  wf r → (∀ f, is_Some (node_of r f) → 0 ≤ f < N) →
  Z.of_nat (length (tracked r)) ≤ Z.max 0 N.
Proof.
  intros Hwf Hrange.
  set (fid := λ p : nat, match store r !! p with
                         | Some n => GetFrameId n
                         | None => 0
                         end).
  assert (Hinj : ∀ x y, x ∈ tracked r → y ∈ tracked r → fid x = fid y → x = y).
  { intros x y Hx Hy Hxy.
    destruct (wf_live _ Hwf x Hx) as [nx Hnx], (wf_live _ Hwf y Hy) as [ny Hny].
    unfold fid in Hxy. rewrite Hnx, Hny in Hxy.
    assert (ptr_of r (GetFrameId nx) = Some x) by (apply ptr_of_Some; eauto).
    assert (ptr_of r (GetFrameId nx) = Some y) by (apply ptr_of_Some; eauto).
    congruence. }
  assert (Hnd : NoDup (fid <$> tracked r)).
  { apply NoDup_fmap_2_strong; [done | by apply wf_nodup]. }
  assert (Hsub : fid <$> tracked r ⊆+ Z.of_nat <$> seq 0 (Z.to_nat N)).
  { apply NoDup_submseteq; [done|]. intros f Hf.
    apply list_elem_of_fmap in Hf as (p & -> & Hp).
    destruct (wf_live _ Hwf p Hp) as [n Hn].
    assert (0 ≤ fid p < N).
    { apply Hrange. exists n. apply node_of_tracked; [done|].
      exists p. unfold fid. by rewrite Hn. }
    apply list_elem_of_fmap. exists (Z.to_nat (fid p)). split; [lia|].
    apply elem_of_seq. lia. }
  apply submseteq_length in Hsub. rewrite !length_fmap, length_seq in Hsub. lia.
Qed.

(** [Size()] is 0 exactly when no tracked frame is evictable. *)
Lemma Size_zero r N :
  wf r → (∀ f, is_Some (node_of r f) → 0 ≤ f < N) → N < 2 ^ 64 →
  Size r = 0 ↔ ∀ f n, node_of r f = Some n → GetEvictable n = false.
Proof.
  intros Hwf Hrange HN. unfold Size.
  pose proof (tracked_bound r N Hwf Hrange) as Hlen.
  pose proof (evictable_count_le (store r) (tracked r)) as Hle.
  pose proof (evictable_count_pos (store r) (tracked r)) as Hpos.
  rewrite (wf_size _ Hwf), wrap_size_t_small by lia. split.
  - intros Hz f n Hn. destruct (GetEvictable n) eqn:He; [|done].
    apply (node_of_tracked r f n Hwf) in Hn as (p & Hp & Hn & _).
    assert (0 < evictable_count (store r) (tracked r))%nat; [|lia].
    apply Hpos. by exists p, n.
  - intros Hnone.
    destruct (evictable_count (store r) (tracked r)) as [|c]; [done|].
    destruct Hpos as [(p & n & Hp & Hn & He) _]; [lia|].
    assert (node_of r (GetFrameId n) = Some n) as Hnode.
    { apply node_of_tracked; [done|]. by exists p. }
    apply Hnone in Hnode. congruence.
Qed.

(** [RecordAccess] followed by [SetEvictable(frame_id, false)], as the
    buffer pool calls them on the frame it hands out. *)
Lemma RecordAccess_then_pin kdist r f :
  wf r → f ≤ to_int32 (replacer_size_ r) →
  ∃ r1 r2 n,
    RecordAccess kdist r f = Ok r1 ∧ SetEvictable r1 f false = Ok r2 ∧
    wf r2 ∧
    (∀ g, node_of r2 g = if decide (g = f) then Some n else node_of r g) ∧
    GetEvictable n = false ∧
    replacer_size_ r2 = replacer_size_ r ∧
    current_timestamp_ r2 = wrap_size_t (current_timestamp_ r + 1).
Proof.
  intros Hwf Hle.
  destruct (RecordAccess_wf kdist r f Hwf Hle)
    as (r1 & n1 & Hr1 & Hwf1 & Hview1 & _ & _ & Hrs1 & Hts1).
  assert (Hn1 : node_of r1 f = Some n1) by (by rewrite Hview1, decide_True).
  destruct (SetEvictable_tracked r1 f false n1 Hwf1 Hn1)
    as (r2 & Hr2 & Hwf2 & Hview2 & _ & _ & _ & _ & _ & Hts2 & Hrs2).
  exists r1, r2, (NodeSetEvictable false n1).
  split; [done|]. split; [done|]. split; [done|].
  split; [|split; [done|split; congruence]].
  intros g. rewrite Hview2. case_decide; [done|].
  rewrite Hview1. by rewrite decide_False.
Qed.

(** Every state a replacer goes through is well formed. *)
Lemma reachable_wf kdist r : reachable kdist r → wf r.
Proof.
  induction 1 as [n k | r f r' _ IH Hop | r f b r' _ IH Hop | r f r' _ IH Hop
                  | r r' out _ IH Hop].
  - apply wf_init.
  - destruct (Z_le_gt_dec f (to_int32 (replacer_size_ r))) as [Hle | Hgt].
    + destruct (RecordAccess_wf kdist r f IH Hle) as (r1 & n1 & Hr1 & Hwf1 & _).
      congruence.
    + rewrite (RecordAccess_rejects_above kdist r f Hgt) in Hop. congruence.
  - destruct (node_of r f) as [n|] eqn:Hn.
    + destruct (SetEvictable_tracked r f b n IH Hn) as (r1 & Hr1 & Hwf1 & _).
      congruence.
    + apply node_of_None in Hn; [|done].
      rewrite (SetEvictable_untracked r f b Hn) in Hop. discriminate.
  - destruct (node_of r f) as [n|] eqn:Hn.
    + destruct (GetEvictable n) eqn:He.
      * destruct (Remove_wf r f n IH Hn He) as (r1 & Hr1 & Hwf1 & _). congruence.
      * rewrite (Remove_not_evictable r f n Hn He) in Hop. discriminate.
    + apply node_of_None in Hn; [|done].
      rewrite (Remove_untracked r f Hn) in Hop. congruence.
  - destruct out as [f|].
    + by destruct (Evict_Some r r' f IH Hop).
    + by destruct (Evict_None r r' IH Hop) as [-> _].
Qed.

(** *** The specification's properties of the replacer *)

(** C9 (the code at the boundary).  A replacer of 7 frames admits frame id
    7, which is its [replacer_size_]: the guard of [RecordAccess] is a strict
    [>].  A node is created at the front of the default list, entered in the
    default map, and the clock advances. *)
Theorem RecordAccess_admits_frame_id_equal_to_replacer_size kdist :
  RecordAccess kdist (init 7 2) 7 =
  Ok {| store := {[ 0%nat := {| history_ := [0]; k_ := 2; fid_ := 7;
                                k_distance_ := 0; is_evictable_ := false |} ]};
        default_list_ := [0%nat];
        default_map_ := {[ 7 := 0%nat ]};
        k_list_ := []; k_map_ := ∅;
        current_timestamp_ := 1; curr_size_ := 0;
        replacer_size_ := 7; rk_ := 2 |}.
Proof. vm_compute. reflexivity. Qed.

(** C3.  On every well-formed replacer state (the invariant [wf], which
    holds of a new replacer and which [RecordAccess], [SetEvictable],
    [Remove] and [Evict] keep: [reachable_wf]), [Evict] returns none exactly when
    [curr_size_] is 0, and leaves the state as it is.  Otherwise it returns
    the frame of the evictable node of the default list nearest to the back
    and removes it from that list and its map; only when no node of the
    default list is evictable does it take the evictable node of the k-list
    nearest to the back, whose stored k-distance is the smallest among the
    evictable nodes of the k-list.  Either way [curr_size_] drops by one and
    the state stays well formed.  Ties: [InsertKNode] puts a node in front of
    every node of the k-list with an equal (or smaller) stored distance, so
    that of two nodes with equal distances the one inserted first is met
    first by the scan. *)
Theorem Evict_default_list_first_then_least_k_distance r :
  wf r →
  (∃ r' out, Evict r = Ok (r', out) ∧
    (out = None ↔ curr_size_ r = 0) ∧
    (out = None → r' = r) ∧
    (∀ f, out = Some f →
       curr_size_ r' = curr_size_ r - 1 ∧ wf r' ∧
       store r' = store r ∧ current_timestamp_ r' = current_timestamp_ r ∧
       replacer_size_ r' = replacer_size_ r ∧ rk_ r' = rk_ r ∧
       ((victim (store r) (default_list_ r) (default_map_ r) f
                (default_list_ r') (default_map_ r') ∧
         k_list_ r' = k_list_ r ∧ k_map_ r' = k_map_ r)
        ∨
        (Forall (not_evictable (store r)) (default_list_ r) ∧
         default_list_ r' = default_list_ r ∧ default_map_ r' = default_map_ r ∧
         victim (store r) (k_list_ r) (k_map_ r) f (k_list_ r') (k_map_ r') ∧
         least_k_distance (store r) (k_list_ r) f))))
  ∧
  (∀ node n, store r !! node = Some n →
     ∃ before after,
       InsertKNode (store r) (k_list_ r) node = Ok (before ++ node :: after) ∧
       k_list_ r = before ++ after ∧
       (∀ q m, q ∈ before → store r !! q = Some m → GetKDistance n < GetKDistance m) ∧
       (∀ q m, q ∈ after → store r !! q = Some m → GetKDistance m ≤ GetKDistance n) ∧
       k_sorted (store r) (before ++ node :: after)).
Proof.
  intros Hwf. split.
  - destruct (Evict_cases r Hwf)
      as [[Hz He] | (Hnz & f & r' & He & Hst & Hts & Hrs & Hrk & Hcs & Hcase)].
    + exists r, None. split; [done|]. split; [done|]. split; [done|]. intros f [=].
    + exists r', (Some f). split; [done|].
      split; [split; [done | by intros ?]|]. split; [done|].
      intros f' [= <-].
      destruct (Evict_Some r r' f Hwf He) as (Hwf' & _).
      assert (Hpos : 0 < curr_size_ r < 2 ^ 64).
      { pose proof (wf_size _ Hwf) as Hsz. unfold wrap_size_t in Hsz.
        pose proof (Z.mod_pos_bound
                      (Z.of_nat (evictable_count (store r) (tracked r))) (2 ^ 64)).
        lia. }
      rewrite wrap_size_t_pred in Hcs by done.
      do 6 (split; [done|]).
      destruct Hcase as [H | (Hall & Hdl & Hdm & Hv)]; [by left|].
      right. do 4 (split; [done|]).
      eapply victim_least; [|exact Hv]. by apply wf_sorted.
  - intros node n Hn.
    apply InsertKNode_spec; [|done|by apply wf_sorted].
    intros p Hp. apply (wf_live _ Hwf), elem_of_app. by right.
Qed.

Lemma Evict_default_list_first_witness :
  wf example_replacer ∧
  ∃ r' out, Evict example_replacer = Ok (r', out) ∧
            (out = None ↔ curr_size_ example_replacer = 0).
Proof.
  assert (H : wf example_replacer) by (apply wfb_sound; vm_compute; reflexivity).
  split; [exact H|].
  destruct (Evict_default_list_first_then_least_k_distance example_replacer H)
    as [(r' & out & He & Hiff & _) _].
  exists r', out. split; [exact He | exact Hiff].
Defined.

Example Evict_example_replacer :
  snd <$> (match Evict example_replacer with Ok x => Some x | Fail _ => None end)
  = Some (Some 4).
Proof. vm_compute. reflexivity. Qed.

End LRUKReplacerFacts.
Module BufferPoolManagerFacts.
Import BufferPoolManager.
Import LRUKReplacerFacts.

Lemma frame_Ok b f pg :
  frame b f = Ok pg ↔ 0 ≤ f ∧ pages_ b !! Z.to_nat f = Some pg.
Proof.
  unfold frame. destruct (f <? 0) eqn:Hf.
  - split; [done|]. intros [H _]. lia.
  - apply Z.ltb_ge in Hf. destruct (pages_ b !! Z.to_nat f); simpl; split.
    + by intros [= ->].
    + by intros [_ [= ->]].
    + done.
    + by intros [_ [=]].
Qed.

Lemma frame_range b f pg :
  frame b f = Ok pg → 0 ≤ f < Z.of_nat (length (pages_ b)).
Proof.
  intros H. apply frame_Ok in H as [H0 H]. apply lookup_lt_Some in H. lia.
Qed.

Lemma frame_pages_eq b b' f : pages_ b' = pages_ b → frame b' f = frame b f.
Proof. intros H. unfold frame. by rewrite H. Qed.

Lemma frame_insert_eq b b' f pg :
  pages_ b' = <[Z.to_nat f := pg]> (pages_ b) →
  0 ≤ f < Z.of_nat (length (pages_ b)) → frame b' f = Ok pg.
Proof.
  intros H Hf. apply frame_Ok. split; [lia|]. rewrite H.
  apply list_lookup_insert_eq. lia.
Qed.

Lemma frame_insert_ne b b' f g pg :
  pages_ b' = <[Z.to_nat f := pg]> (pages_ b) → 0 ≤ f → g ≠ f →
  frame b' g = frame b g.
Proof.
  intros H Hf Hne. unfold frame. rewrite H. destruct (g <? 0) eqn:Hg; [done|].
  apply Z.ltb_ge in Hg. rewrite list_lookup_insert_ne; [done|]. lia.
Qed.

Lemma unpinned_frameb_sound b f : unpinned_frameb b f = true → unpinned_frame b f.
Proof.
  unfold unpinned_frameb, unpinned_frame. destruct (frame b f) as [pg|]; [|done].
  intros H. exists pg. split; [done|]. by apply Z.eqb_eq.
Qed.

Lemma evictable_frameb_spec r f : evictable_frameb r f = true ↔ evictable_frame r f.
Proof.
  unfold evictable_frameb, evictable_frame.
  destruct (LRUKReplacer.node_of r f) as [n|]; split.
  - intros H. by exists n.
  - by intros (n' & [= <-] & H).
  - done.
  - by intros (n' & [=] & _).
Qed.

Lemma tracked_frames_spec r f :
  is_Some (LRUKReplacer.node_of r f) → f ∈ tracked_frames r.
Proof.
  intros [n Hn]. apply node_of_Some in Hn as (p & Hp & _).
  unfold LRUKReplacer.ptr_of in Hp. unfold tracked_frames. apply elem_of_app.
  destruct (LRUKReplacer.default_map_ r !! f) as [p0|] eqn:Hd.
  - left. apply list_elem_of_fmap. exists (f, p0). split; [done|].
    by apply elem_of_map_to_list.
  - right. apply list_elem_of_fmap. exists (f, p). split; [done|].
    by apply elem_of_map_to_list.
Qed.

Lemma Invb_sound b : Invb b = true → Inv b.
Proof.
  unfold Invb. intros H.
  apply andb_prop in H as [H H10]. apply andb_prop in H as [H H9].
  apply andb_prop in H as [H H8]. apply andb_prop in H as [H H7].
  apply andb_prop in H as [H H6]. apply andb_prop in H as [H H5].
  apply andb_prop in H as [H H4]. apply andb_prop in H as [H H3].
  apply andb_prop in H as [H H2]. apply andb_prop in H as [H0 H1].
  split.
  - by apply wfb_sound.
  - by apply Z.eqb_eq.
  - by apply Z.eqb_eq.
  - by apply Z.ltb_lt.
  - intros f Hf. apply tracked_frames_spec, list_elem_of_In in Hf.
    pose proof (proj1 (forallb_forall _ _) H4 f Hf) as Hb. simpl in Hb.
    apply andb_prop in Hb as [Hlo Hhi].
    apply Z.leb_le in Hlo. apply Z.ltb_lt in Hhi. done.
  - intros pg Hpg. apply list_elem_of_In in Hpg.
    pose proof (proj1 (forallb_forall _ _) H5 pg Hpg) as Hb. simpl in Hb.
    by apply Z.leb_le.
  - by apply bool_decide_eq_true in H6.
  - intros f Hf. apply list_elem_of_In in Hf.
    pose proof (proj1 (forallb_forall _ _) H7 f Hf) as Hb. simpl in Hb.
    apply andb_prop in Hb as [Hun Hpt]. split; [by apply unpinned_frameb_sound|].
    intros page_id Hx. apply elem_of_map_to_list, list_elem_of_In in Hx.
    pose proof (proj1 (forallb_forall _ _) Hpt _ Hx) as Hb. simpl in Hb.
    rewrite Z.eqb_refl in Hb. done.
  - intros page_id f Hx. apply elem_of_map_to_list, list_elem_of_In in Hx.
    pose proof (proj1 (forallb_forall _ _) H8 _ Hx) as Hb. simpl in Hb.
    destruct (frame b f) as [pg|]; [|done].
    apply andb_prop in Hb as [Hid Htr].
    exists pg. split; [done|]. split; [by apply Z.eqb_eq|].
    by apply bool_decide_eq_true in Htr.
  - intros f Hf. pose proof Hf as (n & Hn & _).
    assert (Hin : f ∈ tracked_frames (replacer_ b)) by (apply tracked_frames_spec; eauto).
    apply list_elem_of_In in Hin.
    pose proof (proj1 (forallb_forall _ _) H9 f Hin) as Hb. simpl in Hb.
    apply evictable_frameb_spec in Hf. rewrite Hf in Hb.
    by apply unpinned_frameb_sound.
  - intros i pg Hi Hpin.
    assert (Hin : In i (seq 0 (length (pages_ b)))).
    { apply in_seq. pose proof (lookup_lt_Some _ _ _ Hi). lia. }
    pose proof (proj1 (forallb_forall _ _) H10 i Hin) as Hb. simpl in Hb.
    rewrite Hi in Hb.
    apply orb_prop in Hb as [Hb | Hb]; [apply orb_prop in Hb as [Hb | Hb]|].
    + apply Z.ltb_lt in Hb. lia.
    + left. by apply bool_decide_eq_true in Hb.
    + right. by apply evictable_frameb_spec.
Qed.

Lemma to_int32_small z : - 2 ^ 31 ≤ z < 2 ^ 31 → to_int32 z = z.
Proof. intros H. unfold to_int32. rewrite Z.mod_small; lia. Qed.

(** Every frame of a consistent pool passes the guard of [RecordAccess]. *)
Lemma frame_admitted b f :
  Inv b → 0 ≤ f < pool_size_ b →
  f ≤ to_int32 (LRUKReplacer.replacer_size_ (replacer_ b)).
Proof.
  intros HInv Hf. rewrite (inv_replacer_size _ HInv).
  pose proof (inv_pool_range _ HInv). rewrite to_int32_small; lia.
Qed.

(** No free frame and nothing to evict: exactly the pools in which every
    frame is pinned. *)
Lemma exhausted_iff_all_pinned b :
  Inv b →
  (free_list_ b = [] ∧ LRUKReplacer.Size (replacer_ b) = 0) ↔ all_pinned b.
Proof.
  intros HInv. pose proof HInv as [Hwf _ _ Hpr Htr _ _ Hfree _ Hev Hun].
  unfold all_pinned.
  rewrite (Size_zero (replacer_ b) (pool_size_ b) Hwf Htr) by lia.
  split.
  - intros [Hnil Hz]. apply Forall_forall. intros pg Hpg.
    apply list_elem_of_lookup in Hpg as [i Hi].
    destruct (Z_lt_le_dec 0 (pin_count_ pg)) as [|Hle]; [done|].
    destruct (Hun i pg Hi Hle) as [Hin | (n & Hn & He)].
    + rewrite Hnil in Hin. by apply elem_of_nil in Hin.
    + apply Hz in Hn. congruence.
  - intros Hall.
    assert (Hno : ∀ f, ¬ unpinned_frame b f).
    { intros f (pg & Hpg & Hpin). apply frame_Ok in Hpg as [_ Hpg].
      apply list_elem_of_lookup_2 in Hpg.
      pose proof (proj1 (Forall_forall _ _) Hall pg Hpg) as Hpos.
      simpl in Hpos. lia. }
    split.
    + destruct (free_list_ b) as [|f l]; [done|].
      destruct (Hno f). apply Hfree. left.
    + intros f n Hn. destruct (LRUKReplacer.GetEvictable n) eqn:He; [|done].
      destruct (Hno f). apply Hev. by exists n.
Qed.

(** *** The invariant holds of a new pool and is kept *)

Lemma Inv_init page_size pool_size replacer_k :
  0 ≤ pool_size < 2 ^ 31 → Inv (init page_size pool_size replacer_k).
Proof.
  intros Hps.
  assert (Hfree : ∀ f, f ∈ Z.of_nat <$> seq 0 (Z.to_nat pool_size) ↔ 0 ≤ f < pool_size).
  { intros f. rewrite list_elem_of_fmap. split.
    - intros (i & -> & Hi). apply elem_of_seq in Hi. lia.
    - intros Hf. exists (Z.to_nat f). split; [lia|]. apply elem_of_seq. lia. }
  split; cbn [init replacer_ pool_size_ pages_ page_table_ free_list_].
  - apply wf_init.
  - done.
  - rewrite length_replicate. lia.
  - lia.
  - by intros f [n Hn].
  - intros pg Hpg. apply elem_of_replicate in Hpg as [-> _]. done.
  - apply NoDup_fmap_2; [apply Nat2Z.inj' | apply NoDup_seq].
  - intros f Hf. apply Hfree in Hf. split.
    + exists {| data_ := replicate page_size Byte.x00; page_id_ := INVALID_PAGE_ID;
                pin_count_ := 0; is_dirty_ := false |}.
      split; [|done]. apply frame_Ok. split; [lia|].
      cbn [pages_]. apply lookup_replicate_2. lia.
    + intros page_id. by rewrite lookup_empty.
  - intros page_id f. by rewrite lookup_empty.
  - by intros f (n & Hn & _).
  - intros i pg Hi _. left. apply Hfree.
    apply lookup_lt_Some in Hi. rewrite length_replicate in Hi. lia.
Qed.

(** A frame gets new contents and a node with the matching evictable flag;
    its page id is (re-)entered in the page table. *)
Lemma Inv_update b b' f pg' pt0 n :
  Inv b → 0 ≤ f < pool_size_ b →
  pool_size_ b' = pool_size_ b →
  pages_ b' = <[Z.to_nat f := pg']> (pages_ b) →
  0 ≤ pin_count_ pg' →
  page_table_ b' = <[page_id_ pg' := f]> pt0 →
  (∀ q g, pt0 !! q = Some g → page_table_ b !! q = Some g ∧ g ≠ f) →
  NoDup (free_list_ b') →
  (∀ g, g ∈ free_list_ b' ↔ g ∈ free_list_ b ∧ g ≠ f) →
  LRUKReplacer.wf (replacer_ b') →
  LRUKReplacer.replacer_size_ (replacer_ b') = pool_size_ b →
  (∀ g, LRUKReplacer.node_of (replacer_ b') g =
        if decide (g = f) then Some n else LRUKReplacer.node_of (replacer_ b) g) →
  (LRUKReplacer.GetEvictable n = true ↔ pin_count_ pg' = 0) →
  Inv b'.
Proof.
  intros HInv Hf Hps Hpages Hpin Hpt Hpt0 Hnd Hfl Hwf Hrs Hview Hflag.
  pose proof HInv as [_ _ Hlen Hpr Htr Hpins _ Hfree Htable Hev Hun].
  assert (Hfl' : 0 ≤ f < Z.of_nat (length (pages_ b))) by lia.
  split.
  - done.
  - congruence.
  - rewrite Hps, Hpages, length_insert. done.
  - by rewrite Hps.
  - intros g. rewrite Hview, Hps. case_decide; [by subst | apply Htr].
  - intros pg Hpg. rewrite Hpages in Hpg.
    apply list_elem_of_lookup in Hpg as [i Hi].
    apply list_lookup_insert_Some in Hi as [(_ & -> & _) | [_ Hi]]; [done|].
    apply Hpins. by eapply list_elem_of_lookup_2.
  - done.
  - intros g Hg. apply Hfl in Hg as [Hg Hne].
    destruct (Hfree g Hg) as [(pg & Hpg & Hz) Hno]. split.
    + exists pg. split; [|done].
      rewrite (frame_insert_ne b b' f g pg') by (done || lia). done.
    + intros q. rewrite Hpt, lookup_insert. case_decide; [congruence|].
      intros Hq. apply Hpt0 in Hq as [Hq _]. by apply (Hno q).
  - intros q g. rewrite Hpt, lookup_insert. case_decide as Hq.
    + intros [= <-]. exists pg'. split; [by eapply frame_insert_eq|].
      split; [done|]. rewrite Hview, decide_True by done. eauto.
    + intros Hg. apply Hpt0 in Hg as [Hg Hne].
      destruct (Htable q g Hg) as (pg & Hpg & Hid & Htracked).
      exists pg. split; [|split; [done|]].
      * rewrite (frame_insert_ne b b' f g pg') by (done || lia). done.
      * by rewrite Hview, decide_False.
  - intros g (n' & Hn' & He). rewrite Hview in Hn'. case_decide as Hg.
    + injection Hn' as <-. subst g. exists pg'.
      split; [by eapply frame_insert_eq | by apply Hflag].
    + destruct (Hev g) as (pg & Hpg & Hz); [by exists n'|].
      exists pg. split; [|done].
      rewrite (frame_insert_ne b b' f g pg') by (done || lia). done.
  - intros i pg Hi Hle. rewrite Hpages in Hi.
    apply list_lookup_insert_Some in Hi as [(<- & -> & _) | [Hne Hi]].
    + right. rewrite Z2Nat.id by lia. exists n.
      split; [by rewrite Hview, decide_True|]. apply Hflag. lia.
    + assert (Hne' : Z.of_nat i ≠ f) by lia.
      destruct (Hun i pg Hi Hle) as [Hin | (n' & Hn' & He)].
      * left. by apply Hfl.
      * right. exists n'. split; [|done]. by rewrite Hview, decide_False.
Qed.

(** In a consistent pool the node of a resident page is evictable exactly
    when the page is unpinned. *)
Lemma resident_evictable_iff b page_id f pg n :
  Inv b → page_table_ b !! page_id = Some f → frame b f = Ok pg →
  LRUKReplacer.node_of (replacer_ b) f = Some n →
  LRUKReplacer.GetEvictable n = true ↔ pin_count_ pg = 0.
Proof.
  intros HInv Hpt Hpg Hn. split.
  - intros He. destruct (inv_evictable _ HInv f) as (pg' & Hpg' & Hz); [by exists n|].
    congruence.
  - intros Hz. pose proof (proj1 (frame_Ok _ _ _) Hpg) as [Hf Hlk].
    destruct (inv_unpinned _ HInv _ _ Hlk) as [Hin | (n' & Hn' & He)]; [lia| |].
    + rewrite Z2Nat.id in Hin by done.
      destruct (inv_free _ HInv f Hin) as [_ Hno]. by destruct (Hno page_id).
    + rewrite Z2Nat.id in Hn' by done. congruence.
Qed.

Lemma resident_frame b page_id f :
  Inv b → page_table_ b !! page_id = Some f →
  ∃ pg n, frame b f = Ok pg ∧ page_id_ pg = page_id ∧ 0 ≤ pin_count_ pg ∧
          LRUKReplacer.node_of (replacer_ b) f = Some n ∧
          0 ≤ f < pool_size_ b ∧ (f ∉ free_list_ b) ∧
          ∀ q g, delete page_id (page_table_ b) !! q = Some g →
                 page_table_ b !! q = Some g ∧ g ≠ f.
Proof.
  intros HInv Hpt.
  destruct (inv_page_table _ HInv _ _ Hpt) as (pg & Hpg & Hid & [n Hn]).
  exists pg, n. split; [done|]. split; [done|].
  pose proof (proj1 (frame_Ok _ _ _) Hpg) as [Hf Hlk].
  split; [apply (inv_pins _ HInv); by eapply list_elem_of_lookup_2|].
  split; [done|].
  split; [apply (inv_tracked _ HInv); eauto|].
  split.
  - intros Hin. destruct (inv_free _ HInv f Hin) as [_ Hno]. by destruct (Hno page_id).
  - intros q g Hq. apply lookup_delete_Some in Hq as [Hne Hq]. split; [done|].
    intros ->. destruct (inv_page_table _ HInv _ _ Hq) as (pg' & Hpg' & Hid' & _).
    congruence.
Qed.

Section WithKDistance.
Variable kdist : list Z → Z.

(** *** The frame selection *)

Lemma select_frame_free b f rest :
  free_list_ b = f :: rest → select_frame b = Ok (set_free_list b rest, f).
Proof. intros H. unfold select_frame. by rewrite H. Qed.

Lemma select_frame_evict b :
  Inv b → free_list_ b = [] → 0 < LRUKReplacer.Size (replacer_ b) →
  ∃ r0 f pg,
    LRUKReplacer.Evict (replacer_ b) = Ok (r0, Some f) ∧
    frame b f = Ok pg ∧ pin_count_ pg = 0 ∧
    LRUKReplacer.wf r0 ∧
    (∀ g, LRUKReplacer.node_of r0 g =
          if decide (g = f) then None else LRUKReplacer.node_of (replacer_ b) g) ∧
    LRUKReplacer.replacer_size_ r0 = LRUKReplacer.replacer_size_ (replacer_ b) ∧
    select_frame b =
      Ok ({| pool_size_ := pool_size_ b;
             pages_ := <[Z.to_nat f := ResetMemory pg]> (pages_ b);
             page_table_ := delete (page_id_ pg) (page_table_ b);
             free_list_ := [];
             replacer_ := r0;
             next_page_id_ := next_page_id_ b;
             disk_ := if is_dirty_ pg
                      then <[page_id_ pg := data_ pg]> (disk_ b) else disk_ b;
             disk_log_ :=
               disk_log_ b
               ++ (if is_dirty_ pg then [WritePage (page_id_ pg) (data_ pg)] else [])
               ++ [DiskDeallocatePage (page_id_ pg)] |}, f).
Proof.
  intros HInv Hfl Hsz. pose proof (inv_replacer _ HInv) as Hwf.
  unfold LRUKReplacer.Size in Hsz.
  destruct (Evict_cases (replacer_ b) Hwf) as [[Hz _] | (_ & f & r0 & Hev & _)]; [lia|].
  destruct (Evict_Some _ _ _ Hwf Hev) as (Hwf0 & (n & Hn & He) & Hview & Hrs & _).
  destruct (inv_evictable _ HInv f) as (pg & Hpg & Hpin); [by exists n|].
  exists r0, f, pg. do 6 (split; [done|]).
  unfold select_frame. rewrite Hfl, Hev.
  cbn [mbind res_bind default from_option id].
  change (frame (set_replacer b r0) f) with (frame b f). rewrite Hpg.
  cbn [mbind res_bind]. unfold IsDirty.
  destruct (is_dirty_ pg);
    unfold DeallocatePage, set_frame, set_pages, set_page_table, disk_write,
           set_replacer, GetPageId; cbn; rewrite ?Hfl, <- ?app_assoc; reflexivity.
Qed.

(** [NewPage] and the miss path of [FetchPage] once the frame is chosen. *)
Lemma NewPage_after_select b b1 f pg1 r1 r2 :
  bool_decide (free_list_ b ≠ []) || (LRUKReplacer.Size (replacer_ b) >? 0) = true →
  select_frame b = Ok (b1, f) → frame b1 f = Ok pg1 →
  LRUKReplacer.RecordAccess kdist (replacer_ b1) f = Ok r1 →
  LRUKReplacer.SetEvictable r1 f false = Ok r2 →
  NewPage kdist b =
    Ok ({| pool_size_ := pool_size_ b1;
           pages_ := <[Z.to_nat f :=
                        {| data_ := data_ pg1; page_id_ := next_page_id_ b1;
                           pin_count_ := 1; is_dirty_ := false |}]> (pages_ b1);
           page_table_ := <[next_page_id_ b1 := f]> (page_table_ b1);
           free_list_ := free_list_ b1;
           replacer_ := r2;
           next_page_id_ := to_int32 (next_page_id_ b1 + 1);
           disk_ := disk_ b1;
           disk_log_ := disk_log_ b1 |},
        Some (next_page_id_ b1, f)).
Proof.
  intros Hg Hs Hpg Hr1 Hr2. unfold NewPage. rewrite Hg, Hs.
  cbn [mbind res_bind AllocatePage].
  change (frame _ f) with (frame b1 f). rewrite Hpg.
  cbn [mbind res_bind replacer_ set_page_table set_frame set_pages].
  rewrite Hr1. cbn [mbind res_bind]. rewrite Hr2. reflexivity.
Qed.

Lemma FetchPage_after_select b page_id b1 f pg1 r1 r2 :
  page_table_ b !! page_id = None →
  bool_decide (free_list_ b ≠ []) || (LRUKReplacer.Size (replacer_ b) >? 0) = true →
  select_frame b = Ok (b1, f) → frame b1 f = Ok pg1 →
  LRUKReplacer.RecordAccess kdist (replacer_ b1) f = Ok r1 →
  LRUKReplacer.SetEvictable r1 f false = Ok r2 →
  FetchPage kdist b page_id =
    Ok ({| pool_size_ := pool_size_ b1;
           pages_ := <[Z.to_nat f :=
                        {| data_ := default (replicate (length (data_ pg1)) Byte.x00)
                                      (disk_ b1 !! page_id);
                           page_id_ := page_id;
                           pin_count_ := 1; is_dirty_ := false |}]> (pages_ b1);
           page_table_ := <[page_id := f]> (page_table_ b1);
           free_list_ := free_list_ b1;
           replacer_ := r2;
           next_page_id_ := next_page_id_ b1;
           disk_ := disk_ b1;
           disk_log_ := disk_log_ b1 ++ [ReadPage page_id] |},
        Some f).
Proof.
  intros Hpt Hg Hs Hpg Hr1 Hr2. unfold FetchPage. rewrite Hpt, Hg, Hs.
  cbn [mbind res_bind]. rewrite Hpg.
  cbn [mbind res_bind disk_read replacer_ set_page_table set_frame set_pages].
  rewrite Hr1. cbn [mbind res_bind]. rewrite Hr2. reflexivity.
Qed.

Lemma guard_free b f rest :
  free_list_ b = f :: rest →
  bool_decide (free_list_ b ≠ []) || (LRUKReplacer.Size (replacer_ b) >? 0) = true.
Proof. intros ->. by rewrite bool_decide_true. Qed.

Lemma guard_evictable b :
  0 < LRUKReplacer.Size (replacer_ b) →
  bool_decide (free_list_ b ≠ []) || (LRUKReplacer.Size (replacer_ b) >? 0) = true.
Proof. intros H. rewrite (proj2 (Z.gtb_lt _ _)) by lia. apply orb_true_r. Qed.

Lemma NewPage_free b f rest :
  Inv b → free_list_ b = f :: rest →
  ∃ pg r1 r2 n,
    frame b f = Ok pg ∧
    LRUKReplacer.RecordAccess kdist (replacer_ b) f = Ok r1 ∧
    LRUKReplacer.SetEvictable r1 f false = Ok r2 ∧
    LRUKReplacer.node_of r2 f = Some n ∧ LRUKReplacer.GetEvictable n = false ∧
    NewPage kdist b =
      Ok ({| pool_size_ := pool_size_ b;
             pages_ := <[Z.to_nat f :=
                          {| data_ := data_ pg; page_id_ := next_page_id_ b;
                             pin_count_ := 1; is_dirty_ := false |}]> (pages_ b);
             page_table_ := <[next_page_id_ b := f]> (page_table_ b);
             free_list_ := rest;
             replacer_ := r2;
             next_page_id_ := to_int32 (next_page_id_ b + 1);
             disk_ := disk_ b;
             disk_log_ := disk_log_ b |},
          Some (next_page_id_ b, f)).
Proof.
  intros HInv Hfl.
  destruct (inv_free _ HInv f) as [(pg & Hpg & Hpin) _]; [rewrite Hfl; left|].
  pose proof (frame_range _ _ _ Hpg) as Hf. rewrite <- (inv_pool_size _ HInv) in Hf.
  destruct (RecordAccess_then_pin kdist (replacer_ b) f)
    as (r1 & r2 & n & Hr1 & Hr2 & _ & Hview & He & _);
    [by apply inv_replacer | by apply frame_admitted|].
  exists pg, r1, r2, n. do 3 (split; [done|]).
  split; [by rewrite Hview, decide_True|]. split; [done|].
  by rewrite (NewPage_after_select b (set_free_list b rest) f pg r1 r2
                (guard_free _ _ _ Hfl) (select_frame_free _ _ _ Hfl) Hpg Hr1 Hr2).
Qed.

Lemma NewPage_evict b :
  Inv b → free_list_ b = [] → 0 < LRUKReplacer.Size (replacer_ b) →
  ∃ r0 f pg r1 r2 n,
    LRUKReplacer.Evict (replacer_ b) = Ok (r0, Some f) ∧
    frame b f = Ok pg ∧ pin_count_ pg = 0 ∧
    LRUKReplacer.RecordAccess kdist r0 f = Ok r1 ∧
    LRUKReplacer.SetEvictable r1 f false = Ok r2 ∧
    LRUKReplacer.node_of r2 f = Some n ∧ LRUKReplacer.GetEvictable n = false ∧
    NewPage kdist b =
      Ok ({| pool_size_ := pool_size_ b;
             pages_ := <[Z.to_nat f :=
                          {| data_ := replicate (length (data_ pg)) Byte.x00;
                             page_id_ := next_page_id_ b;
                             pin_count_ := 1; is_dirty_ := false |}]> (pages_ b);
             page_table_ :=
               <[next_page_id_ b := f]> (delete (page_id_ pg) (page_table_ b));
             free_list_ := [];
             replacer_ := r2;
             next_page_id_ := to_int32 (next_page_id_ b + 1);
             disk_ := if is_dirty_ pg
                      then <[page_id_ pg := data_ pg]> (disk_ b) else disk_ b;
             disk_log_ :=
               disk_log_ b
               ++ (if is_dirty_ pg then [WritePage (page_id_ pg) (data_ pg)] else [])
               ++ [DiskDeallocatePage (page_id_ pg)] |},
          Some (next_page_id_ b, f)).
Proof.
  intros HInv Hfl Hsz.
  destruct (select_frame_evict b HInv Hfl Hsz)
    as (r0 & f & pg & Hev & Hpg & Hpin & Hwf0 & _ & Hrs0 & Hsel).
  pose proof (frame_range _ _ _ Hpg) as Hf.
  destruct (RecordAccess_then_pin kdist r0 f)
    as (r1 & r2 & n & Hr1 & Hr2 & _ & Hview & He & _); [done| |].
  { rewrite Hrs0. apply frame_admitted; [done|]. by rewrite (inv_pool_size _ HInv). }
  exists r0, f, pg, r1, r2, n. do 5 (split; [done|]).
  split; [by rewrite Hview, decide_True|]. split; [done|].
  erewrite (NewPage_after_select b _ f (ResetMemory pg) r1 r2
              (guard_evictable _ Hsz) Hsel); [|by eapply frame_insert_eq|done|done].
  cbn. by rewrite list_insert_insert_eq.
Qed.

Lemma NewPage_exhausted b :
  free_list_ b = [] → LRUKReplacer.Size (replacer_ b) ≤ 0 →
  NewPage kdist b = Ok (b, None).
Proof.
  intros Hfl Hsz. unfold NewPage. rewrite Hfl.
  replace (LRUKReplacer.Size (replacer_ b) >? 0) with false; [done|].
  symmetry. rewrite Z.gtb_ltb. apply Z.ltb_ge. lia.
Qed.

(** *** The operations keep the invariant *)

Lemma select_frame_spec b :
  Inv b → free_list_ b ≠ [] ∨ 0 < LRUKReplacer.Size (replacer_ b) →
  ∃ b1 f pg1,
    select_frame b = Ok (b1, f) ∧ frame b1 f = Ok pg1 ∧
    0 ≤ f < pool_size_ b ∧
    pool_size_ b1 = pool_size_ b ∧
    pages_ b1 = <[Z.to_nat f := pg1]> (pages_ b) ∧
    (∀ q g, page_table_ b1 !! q = Some g → page_table_ b !! q = Some g ∧ g ≠ f) ∧
    NoDup (free_list_ b1) ∧
    (∀ g, g ∈ free_list_ b1 ↔ g ∈ free_list_ b ∧ g ≠ f) ∧
    LRUKReplacer.wf (replacer_ b1) ∧
    LRUKReplacer.replacer_size_ (replacer_ b1) = pool_size_ b ∧
    (∀ g, g ≠ f → LRUKReplacer.node_of (replacer_ b1) g
                  = LRUKReplacer.node_of (replacer_ b) g).
Proof.
  intros HInv Hguard. destruct (free_list_ b) as [|f rest] eqn:Hfl.
  - destruct Hguard as [|Hsz]; [done|].
    destruct (select_frame_evict b HInv Hfl Hsz)
      as (r0 & f & pg & Hev & Hpg & Hpin & Hwf0 & Hview & Hrs0 & Hsel).
    pose proof (frame_range _ _ _ Hpg) as Hf.
    rewrite <- (inv_pool_size _ HInv) in Hf.
    eexists _, f, (ResetMemory pg). split; [exact Hsel|].
    split; [eapply frame_insert_eq; [reflexivity|]; by rewrite <- (inv_pool_size _ HInv)|].
    split; [done|]. split; [done|]. split; [done|].
    cbn [page_table_ free_list_ replacer_].
    split; [|split; [constructor|split; [|split; [done|split]]]].
    + intros q g Hq. apply lookup_delete_Some in Hq as [Hne Hq]. split; [done|].
      intros ->. destruct (inv_page_table _ HInv _ _ Hq) as (pg' & Hpg' & Hid' & _).
      congruence.
    + intros g. split; [by intros ?%elem_of_nil | by intros [?%elem_of_nil _]].
    + by rewrite Hrs0, (inv_replacer_size _ HInv).
    + intros g Hg. by rewrite Hview, decide_False.
  - destruct (inv_free _ HInv f) as [(pg & Hpg & Hpin) Hno]; [rewrite Hfl; left|].
    pose proof (frame_range _ _ _ Hpg) as Hf.
    rewrite <- (inv_pool_size _ HInv) in Hf.
    pose proof (inv_free_nodup _ HInv) as Hnd. rewrite Hfl in Hnd.
    apply NoDup_cons in Hnd as [Hnotin Hnd].
    exists (set_free_list b rest), f, pg.
    split; [unfold select_frame; by rewrite Hfl|].
    split; [done|]. split; [done|]. split; [done|].
    cbn [set_free_list pages_ page_table_ free_list_ replacer_].
    split; [|split; [|split; [done|split; [|split; [by apply inv_replacer|split]]]]].
    + symmetry. apply list_insert_id. by apply frame_Ok in Hpg as [_ ?].
    + intros q g Hq. split; [done|]. intros ->. by apply (Hno q).
    + intros g. rewrite elem_of_cons. split.
      * intros Hg. split; [by right|]. by intros ->.
      * by intros [[->|Hg] Hne].
    + by apply inv_replacer_size.
    + done.
Qed.

Lemma select_guard b :
  bool_decide (free_list_ b ≠ []) || (LRUKReplacer.Size (replacer_ b) >? 0) = true
  ↔ free_list_ b ≠ [] ∨ 0 < LRUKReplacer.Size (replacer_ b).
Proof.
  rewrite orb_true_iff, bool_decide_eq_true, Z.gtb_ltb, Z.ltb_lt. done.
Qed.

(** [NewPage] returns in every consistent pool, and the pool it leaves is
    consistent. *)
Lemma NewPage_Inv b :
  Inv b → ∃ b' out, NewPage kdist b = Ok (b', out) ∧ Inv b'.
Proof.
  intros HInv.
  destruct (bool_decide (free_list_ b ≠ []) || (LRUKReplacer.Size (replacer_ b) >? 0))
    eqn:Hg.
  - destruct (select_frame_spec b HInv (proj1 (select_guard b) Hg))
      as (b1 & f & pg1 & Hsel & Hpg1 & Hf & Hps & Hpages & Hpt & Hnd & Hfl & Hwf1 & Hrs1 & Hview1).
    destruct (RecordAccess_then_pin kdist (replacer_ b1) f Hwf1)
      as (r1 & r2 & n & Hr1 & Hr2 & Hwf2 & Hview2 & He & Hrs2 & _).
    { rewrite Hrs1. pose proof (inv_pool_range _ HInv). rewrite to_int32_small; lia. }
    rewrite (NewPage_after_select b b1 f pg1 r1 r2 Hg Hsel Hpg1 Hr1 Hr2).
    eexists _, _. split; [reflexivity|].
    refine (Inv_update b _ f
              {| data_ := data_ pg1; page_id_ := next_page_id_ b1;
                 pin_count_ := 1; is_dirty_ := false |}
              (page_table_ b1) n HInv Hf _ _ _ _ _ _ _ _ _ _ _); cbn.
    + done.
    + by rewrite Hpages, list_insert_insert_eq.
    + lia.
    + done.
    + done.
    + done.
    + done.
    + done.
    + congruence.
    + intros g. rewrite Hview2. case_decide; [done | by apply Hview1].
    + by rewrite He.
  - exists b, None. split; [|done]. unfold NewPage. by rewrite Hg.
Qed.

(** [FetchPage] leaves a consistent pool; it returns unless the pin count
    of a resident page is at [INT_MAX]. *)
Lemma FetchPage_Inv b page_id :
  Inv b →
  (∀ f pg, page_table_ b !! page_id = Some f → frame b f = Ok pg →
           pin_count_ pg ≠ 2 ^ 31 - 1) →
  ∃ b' out, FetchPage kdist b page_id = Ok (b', out) ∧ Inv b'.
Proof.
  intros HInv Hpins. destruct (page_table_ b !! page_id) as [f|] eqn:Hpt.
  - destruct (resident_frame b page_id f HInv Hpt)
      as (pg & n0 & Hpg & Hid & Hpin & Hn0 & Hf & Hnotin & Hpt0).
    specialize (Hpins f pg eq_refl Hpg).
    destruct (RecordAccess_then_pin kdist (replacer_ b) f (inv_replacer _ HInv))
      as (r1 & r2 & n & Hr1 & Hr2 & Hwf2 & Hview2 & He & Hrs2 & _).
    { by apply frame_admitted. }
    unfold FetchPage. rewrite Hpt, Hpg. cbn [mbind res_bind].
    rewrite (proj2 (Z.eqb_neq _ _)) by lia.
    cbn [replacer_ set_frame set_pages]. rewrite Hr1. cbn [mbind res_bind]. rewrite Hr2.
    eexists _, _. split; [reflexivity|].
    refine (Inv_update b _ f
              {| data_ := data_ pg; page_id_ := page_id_ pg;
                 pin_count_ := pin_count_ pg + 1; is_dirty_ := is_dirty_ pg |}
              (delete page_id (page_table_ b)) n HInv Hf _ _ _ _ _ _ _ _ _ _ _); cbn.
    + done.
    + done.
    + lia.
    + rewrite Hid, insert_delete_eq. symmetry. by apply insert_id.
    + done.
    + by apply inv_free_nodup.
    + intros g. split; [|by intros [? _]]. intros Hg. split; [done|]. by intros ->.
    + done.
    + by rewrite Hrs2, (inv_replacer_size _ HInv).
    + done.
    + rewrite He. split; [done | lia].
  - destruct (bool_decide (free_list_ b ≠ []) || (LRUKReplacer.Size (replacer_ b) >? 0))
      eqn:Hg.
    + destruct (select_frame_spec b HInv (proj1 (select_guard b) Hg))
        as (b1 & f & pg1 & Hsel & Hpg1 & Hf & Hps & Hpages & Hpt1 & Hnd & Hfl & Hwf1 & Hrs1 & Hview1).
      destruct (RecordAccess_then_pin kdist (replacer_ b1) f Hwf1)
        as (r1 & r2 & n & Hr1 & Hr2 & Hwf2 & Hview2 & He & Hrs2 & _).
      { rewrite Hrs1. pose proof (inv_pool_range _ HInv). rewrite to_int32_small; lia. }
      rewrite (FetchPage_after_select b page_id b1 f pg1 r1 r2 Hpt Hg Hsel Hpg1 Hr1 Hr2).
      eexists _, _. split; [reflexivity|].
      refine (Inv_update b _ f
                {| data_ := default (replicate (length (data_ pg1)) Byte.x00)
                              (disk_ b1 !! page_id);
                   page_id_ := page_id; pin_count_ := 1; is_dirty_ := false |}
                (page_table_ b1) n HInv Hf _ _ _ _ _ _ _ _ _ _ _); cbn.
      * done.
      * by rewrite Hpages, list_insert_insert_eq.
      * lia.
      * done.
      * done.
      * done.
      * done.
      * done.
      * congruence.
      * intros g. rewrite Hview2. case_decide; [done | by apply Hview1].
      * by rewrite He.
    + exists b, None. split; [|done]. unfold FetchPage. by rewrite Hpt, Hg.
Qed.

Lemma free_list_without b f :
  f ∉ free_list_ b → ∀ g, g ∈ free_list_ b ↔ g ∈ free_list_ b ∧ g ≠ f.
Proof.
  intros Hnotin g. split; [|by intros [? _]]. intros Hg. split; [done|]. by intros ->.
Qed.

(** [UnpinPage] returns in every consistent pool and leaves it consistent. *)
Lemma UnpinPage_Inv b page_id is_dirty :
  Inv b → ∃ b' ok, UnpinPage b page_id is_dirty = Ok (b', ok) ∧ Inv b'.
Proof.
  intros HInv. unfold UnpinPage.
  destruct (page_table_ b !! page_id) as [f|] eqn:Hpt; [|by exists b, false].
  destruct (resident_frame b page_id f HInv Hpt)
    as (pg & n & Hpg & Hid & Hpin & Hn & Hf & Hnotin & Hpt0).
  rewrite Hpg. cbn [mbind res_bind].
  destruct (pin_count_ pg <=? 0) eqn:Hle; [by exists b, false|].
  apply Z.leb_gt in Hle. cbn [pin_count_].
  pose proof (resident_evictable_iff b page_id f pg n HInv Hpt Hpg Hn) as Hiff.
  destruct (pin_count_ pg - 1 =? 0) eqn:Hz.
  - apply Z.eqb_eq in Hz.
    destruct (SetEvictable_tracked (replacer_ b) f true n (inv_replacer _ HInv) Hn)
      as (r' & Hr' & Hwf' & Hview & _ & _ & _ & _ & _ & _ & Hrs).
    change (replacer_ (set_frame b f _)) with (replacer_ b). rewrite Hr'.
    cbn [mbind res_bind]. eexists _, _. split; [reflexivity|].
    refine (Inv_update b _ f
              {| data_ := data_ pg; page_id_ := page_id_ pg;
                 pin_count_ := pin_count_ pg - 1;
                 is_dirty_ := is_dirty || is_dirty_ pg |}
              (delete page_id (page_table_ b)) (LRUKReplacer.NodeSetEvictable true n)
              HInv Hf _ _ _ _ _ _ _ _ _ _ _); cbn.
    + done.
    + done.
    + lia.
    + rewrite Hid, insert_delete_eq. symmetry. by apply insert_id.
    + done.
    + by apply inv_free_nodup.
    + by apply free_list_without.
    + done.
    + by rewrite Hrs, (inv_replacer_size _ HInv).
    + done.
    + done.
  - apply Z.eqb_neq in Hz. eexists _, _. split; [reflexivity|].
    refine (Inv_update b _ f
              {| data_ := data_ pg; page_id_ := page_id_ pg;
                 pin_count_ := pin_count_ pg - 1;
                 is_dirty_ := is_dirty || is_dirty_ pg |}
              (delete page_id (page_table_ b)) n
              HInv Hf _ _ _ _ _ _ _ _ _ _ _); cbn.
    + done.
    + done.
    + lia.
    + rewrite Hid, insert_delete_eq. symmetry. by apply insert_id.
    + done.
    + by apply inv_free_nodup.
    + by apply free_list_without.
    + by apply inv_replacer.
    + by apply inv_replacer_size.
    + intros g. case_decide; [by subst | done].
    + split; [intros He; apply Hiff in He; lia | lia].
Qed.

(** So does [FlushPage]. *)
Lemma FlushPage_Inv b page_id :
  Inv b → ∃ b' ok, FlushPage b page_id = Ok (b', ok) ∧ Inv b'.
Proof.
  intros HInv. unfold FlushPage.
  destruct (page_table_ b !! page_id) as [f|] eqn:Hpt; [|by exists b, false].
  destruct (resident_frame b page_id f HInv Hpt)
    as (pg & n & Hpg & Hid & Hpin & Hn & Hf & Hnotin & Hpt0).
  rewrite Hpg. cbn [mbind res_bind]. eexists _, _. split; [reflexivity|].
  refine (Inv_update b _ f
            {| data_ := data_ pg; page_id_ := page_id_ pg;
               pin_count_ := pin_count_ pg; is_dirty_ := false |}
            (delete page_id (page_table_ b)) n
            HInv Hf _ _ _ _ _ _ _ _ _ _ _); cbn.
  - done.
  - done.
  - done.
  - rewrite Hid, insert_delete_eq. symmetry. by apply insert_id.
  - done.
  - by apply inv_free_nodup.
  - by apply free_list_without.
  - by apply inv_replacer.
  - by apply inv_replacer_size.
  - intros g. case_decide; [by subst | done].
  - by eapply resident_evictable_iff.
Qed.

(** So does [DeletePage]: the node of an unpinned resident page is
    evictable, and [Remove] does not throw. *)
Lemma DeletePage_Inv b page_id :
  Inv b → ∃ b' ok, DeletePage b page_id = Ok (b', ok) ∧ Inv b'.
Proof.
  intros HInv. unfold DeletePage.
  destruct (page_table_ b !! page_id) as [f|] eqn:Hpt; [|by exists b, true].
  destruct (resident_frame b page_id f HInv Hpt)
    as (pg & n & Hpg & Hid & Hpin & Hn & Hf & Hnotin & Hpt0).
  rewrite Hpg. cbn [mbind res_bind].
  destruct (pin_count_ pg >? 0) eqn:Hgt; [by exists b, false|].
  rewrite Z.gtb_ltb in Hgt. apply Z.ltb_ge in Hgt.
  assert (He : LRUKReplacer.GetEvictable n = true).
  { apply (resident_evictable_iff b page_id f pg n HInv Hpt Hpg Hn). lia. }
  destruct (Remove_wf (replacer_ b) f n (inv_replacer _ HInv) Hn He)
    as (r' & Hr' & Hwf' & Hview & _ & Hrs).
  rewrite Hr'. cbn [mbind res_bind]. eexists _, _. split; [reflexivity|].
  pose proof HInv as [_ Hrs0 Hlen Hpr Htr Hpins Hnd Hfree Htable Hev Hun].
  set (pg0 := {| data_ := data_ (ResetMemory pg); page_id_ := INVALID_PAGE_ID;
                 pin_count_ := 0; is_dirty_ := false |}).
  assert (Hframe_ne : ∀ g b1, pages_ b1 = <[Z.to_nat f := pg0]> (pages_ b) →
                              g ≠ f → frame b1 g = frame b g).
  { intros g b1 Hb1 Hne. apply (frame_insert_ne b b1 f g pg0); [done | lia | done]. }
  assert (Hframe_eq : ∀ b1, pages_ b1 = <[Z.to_nat f := pg0]> (pages_ b) →
                            frame b1 f = Ok pg0).
  { intros b1 Hb1. apply (frame_insert_eq b b1 f pg0); [done | lia]. }
  split; cbn.
  - done.
  - congruence.
  - rewrite length_insert. done.
  - done.
  - intros g. rewrite Hview. case_decide; [by intros [? [=]] | apply Htr].
  - intros pg1 Hpg1. apply list_elem_of_lookup in Hpg1 as [i Hi].
    apply list_lookup_insert_Some in Hi as [(_ & <- & _) | [_ Hi]]; [done|].
    apply Hpins. by eapply list_elem_of_lookup_2.
  - apply NoDup_app. split; [done|]. split; [|apply NoDup_singleton].
    intros g Hg Hg'. apply list_elem_of_singleton in Hg'. by subst.
  - intros g Hg. apply elem_of_app in Hg as [Hg | Hg].
    + assert (g ≠ f) by (by intros ->).
      destruct (Hfree g Hg) as [(pg1 & Hpg1 & Hz) Hno]. split.
      * exists pg1. split; [|done]. by rewrite Hframe_ne.
      * intros q Hq. apply lookup_delete_Some in Hq as [_ Hq]. by apply (Hno q).
    + apply list_elem_of_singleton in Hg. subst g. split.
      * exists pg0. split; [by apply Hframe_eq | done].
      * intros q Hq. by apply Hpt0 in Hq as [_ ?].
  - intros q g Hq. apply Hpt0 in Hq as [Hq Hne].
    destruct (Htable q g Hq) as (pg1 & Hpg1 & Hid1 & Htracked).
    exists pg1. split; [by rewrite Hframe_ne|]. split; [done|].
    by rewrite Hview, decide_False.
  - intros g (n' & Hn' & He'). rewrite Hview in Hn'. case_decide as Hg; [done|].
    destruct (Hev g) as (pg1 & Hpg1 & Hz); [by exists n'|].
    exists pg1. split; [by rewrite Hframe_ne | done].
  - intros i pg1 Hi Hle.
    apply list_lookup_insert_Some in Hi as [(<- & _ & _) | [Hne Hi]].
    + left. rewrite Z2Nat.id by lia. apply elem_of_app. right. left.
    + assert (Hne' : Z.of_nat i ≠ f) by lia.
      destruct (Hun i pg1 Hi Hle) as [Hin | (n' & Hn' & He')].
      * left. apply elem_of_app. by left.
      * right. exists n'. split; [|done]. by rewrite Hview, decide_False.
Qed.

Lemma FetchPage_keeps_Inv b page_id b' out :
  Inv b → FetchPage kdist b page_id = Ok (b', out) → Inv b'.
Proof.
  intros HInv Hop.
  destruct (FetchPage_Inv b page_id HInv) as (b1 & out1 & Hb1 & HInv1); [|congruence].
  intros f pg Hpt Hpg Hmax. unfold FetchPage in Hop. rewrite Hpt, Hpg in Hop.
  cbn [mbind res_bind] in Hop. rewrite (proj2 (Z.eqb_eq _ _) Hmax) in Hop.
  discriminate.
Qed.

(** Every state a pool goes through is consistent. *)
Lemma reachable_Inv b : reachable kdist b → Inv b.
Proof.
  induction 1 as [ps n k Hn | b b' out _ IH Hop | b page_id b' out _ IH Hop
                  | b page_id d b' ok _ IH Hop | b page_id b' ok _ IH Hop
                  | b page_id b' ok _ IH Hop].
  - by apply Inv_init.
  - destruct (NewPage_Inv b IH) as (b1 & out1 & Hb1 & HInv1). congruence.
  - by eapply FetchPage_keeps_Inv.
  - destruct (UnpinPage_Inv b page_id d IH) as (b1 & ok1 & Hb1 & HInv1). congruence.
  - destruct (FlushPage_Inv b page_id IH) as (b1 & ok1 & Hb1 & HInv1). congruence.
  - destruct (DeletePage_Inv b page_id IH) as (b1 & ok1 & Hb1 & HInv1). congruence.
Qed.

(** *** The specification's properties of the buffer pool *)

(** C6.  In a consistent pool (the invariant [Inv], which holds of a new
    pool and which every operation keeps: [reachable_Inv]), [NewPage] takes the front of the
    free list when there is one; otherwise it takes the frame the replacer
    evicts, writes its bytes to disk at its page id when it is dirty, erases
    that page id from the page table, zeroes the frame and calls
    [DeallocatePage] on the old id.  The new page id is the value of the
    counter, which advances by one; the frame holds it with pin count 1 and a
    clean flag, the access is recorded and the frame is not evictable.
    [NewPage] returns none exactly when every frame is pinned, and then
    changes nothing; the pool it leaves is consistent. *)
Theorem NewPage_free_list_first_else_evict b :
  Inv b →
  (∀ f rest, free_list_ b = f :: rest →
    ∃ pg r1 r2 n,
      frame b f = Ok pg ∧
      LRUKReplacer.RecordAccess kdist (replacer_ b) f = Ok r1 ∧
      LRUKReplacer.SetEvictable r1 f false = Ok r2 ∧
      LRUKReplacer.node_of r2 f = Some n ∧ LRUKReplacer.GetEvictable n = false ∧
      NewPage kdist b =
        Ok ({| pool_size_ := pool_size_ b;
               pages_ := <[Z.to_nat f :=
                            {| data_ := data_ pg; page_id_ := next_page_id_ b;
                               pin_count_ := 1; is_dirty_ := false |}]> (pages_ b);
               page_table_ := <[next_page_id_ b := f]> (page_table_ b);
               free_list_ := rest;
               replacer_ := r2;
               next_page_id_ := to_int32 (next_page_id_ b + 1);
               disk_ := disk_ b;
               disk_log_ := disk_log_ b |},
            Some (next_page_id_ b, f)))
  ∧
  (free_list_ b = [] → 0 < LRUKReplacer.Size (replacer_ b) →
    ∃ r0 f pg r1 r2 n,
      LRUKReplacer.Evict (replacer_ b) = Ok (r0, Some f) ∧
      frame b f = Ok pg ∧ pin_count_ pg = 0 ∧
      LRUKReplacer.RecordAccess kdist r0 f = Ok r1 ∧
      LRUKReplacer.SetEvictable r1 f false = Ok r2 ∧
      LRUKReplacer.node_of r2 f = Some n ∧ LRUKReplacer.GetEvictable n = false ∧
      NewPage kdist b =
        Ok ({| pool_size_ := pool_size_ b;
               pages_ := <[Z.to_nat f :=
                            {| data_ := replicate (length (data_ pg)) Byte.x00;
                               page_id_ := next_page_id_ b;
                               pin_count_ := 1; is_dirty_ := false |}]> (pages_ b);
               page_table_ :=
                 <[next_page_id_ b := f]> (delete (page_id_ pg) (page_table_ b));
               free_list_ := [];
               replacer_ := r2;
               next_page_id_ := to_int32 (next_page_id_ b + 1);
               disk_ := if is_dirty_ pg
                        then <[page_id_ pg := data_ pg]> (disk_ b) else disk_ b;
               disk_log_ :=
                 disk_log_ b
                 ++ (if is_dirty_ pg then [WritePage (page_id_ pg) (data_ pg)] else [])
                 ++ [DiskDeallocatePage (page_id_ pg)] |},
            Some (next_page_id_ b, f)))
  ∧
  (∃ b' out, NewPage kdist b = Ok (b', out) ∧
             (out = None ↔ all_pinned b) ∧ (out = None → b' = b) ∧ Inv b')
  ∧
  (- 2 ^ 31 ≤ next_page_id_ b + 1 < 2 ^ 31 →
   to_int32 (next_page_id_ b + 1) = next_page_id_ b + 1).
Proof.
  intros HInv. split; [|split; [|split]].
  - intros f rest Hfl. by apply NewPage_free.
  - by apply NewPage_evict.
  - pose proof (exhausted_iff_all_pinned b HInv) as Hex.
    destruct (NewPage_Inv b HInv) as (b' & out & Hnp & HInv').
    exists b', out. split; [done|]. split; [|split; [|done]].
    + destruct (free_list_ b) as [|f rest] eqn:Hfl.
      * destruct (Z_lt_le_dec 0 (LRUKReplacer.Size (replacer_ b))) as [Hsz | Hsz].
        -- destruct (NewPage_evict b HInv Hfl Hsz)
             as (r0 & f & pg & r1 & r2 & n & _ & _ & _ & _ & _ & _ & _ & Heq).
           rewrite Hnp in Heq. injection Heq as _ ->.
           split; [done|]. intros Hall. apply Hex in Hall as [_ Hz]. lia.
        -- rewrite (NewPage_exhausted b Hfl Hsz) in Hnp. injection Hnp as _ <-.
           split; [|done]. intros _. apply Hex. split; [done|].
           pose proof (inv_replacer _ HInv) as Hwf.
           pose proof (LRUKReplacer.wf_size _ Hwf) as Hcs.
           unfold LRUKReplacer.Size, wrap_size_t in *.
           pose proof (Z.mod_pos_bound
                         (Z.of_nat (LRUKReplacer.evictable_count
                                      (LRUKReplacer.store (replacer_ b))
                                      (LRUKReplacer.tracked (replacer_ b))))
                         (2 ^ 64)).
           lia.
      * destruct (NewPage_free b f rest HInv Hfl)
          as (pg & r1 & r2 & n & _ & _ & _ & _ & _ & Heq).
        rewrite Hnp in Heq. injection Heq as _ ->.
        split; [done|]. intros Hall. by apply Hex in Hall as [? _].
    + intros ->.
      destruct (bool_decide (free_list_ b ≠ []) || (LRUKReplacer.Size (replacer_ b) >? 0))
        eqn:Hg; [|unfold NewPage in Hnp; rewrite Hg in Hnp; by injection Hnp].
      destruct (select_frame_spec b HInv (proj1 (select_guard b) Hg))
        as (b1 & f & pg1 & Hsel & Hpg1 & Hf & _ & _ & _ & _ & _ & Hwf1 & Hrs1 & _).
      destruct (RecordAccess_then_pin kdist (replacer_ b1) f Hwf1)
        as (r1 & r2 & n & Hr1 & Hr2 & _).
      { rewrite Hrs1. pose proof (inv_pool_range _ HInv). rewrite to_int32_small; lia. }
      rewrite (NewPage_after_select b b1 f pg1 r1 r2 Hg Hsel Hpg1 Hr1 Hr2) in Hnp.
      discriminate Hnp.
  - apply to_int32_small.
Qed.

(** C7.  [UnpinPage] returns false and changes nothing for a page that is
    not resident or whose pin count is not positive.  Otherwise it returns
    true, the pin count drops by one and the dirty flag becomes the
    disjunction of its old value and [is_dirty]; the replacer is touched only
    when the pin count reaches zero, and then the frame's node is made
    evictable.  In a consistent pool the call always returns (the frame of a
    resident page is known to the replacer) and leaves the pool consistent. *)
Theorem UnpinPage_decrements_and_ors_dirty b page_id is_dirty :
  (page_table_ b !! page_id = None → UnpinPage b page_id is_dirty = Ok (b, false))
  ∧
  (∀ f pg, page_table_ b !! page_id = Some f → frame b f = Ok pg →
     let pg' := {| data_ := data_ pg; page_id_ := page_id_ pg;
                   pin_count_ := pin_count_ pg - 1;
                   is_dirty_ := is_dirty || is_dirty_ pg |} in
     (pin_count_ pg ≤ 0 → UnpinPage b page_id is_dirty = Ok (b, false))
     ∧ (1 < pin_count_ pg →
        UnpinPage b page_id is_dirty = Ok (set_frame b f pg', true))
     ∧ (pin_count_ pg = 1 →
        ∀ n, LRUKReplacer.node_of (replacer_ b) f = Some n →
        ∃ r', LRUKReplacer.SetEvictable (replacer_ b) f true = Ok r' ∧
              LRUKReplacer.node_of r' f = Some (LRUKReplacer.NodeSetEvictable true n) ∧
              UnpinPage b page_id is_dirty
              = Ok (set_replacer (set_frame b f pg') r', true)))
  ∧
  (Inv b → ∃ b' ok, UnpinPage b page_id is_dirty = Ok (b', ok) ∧ Inv b').
Proof.
  split; [|split; [|by apply UnpinPage_Inv]].
  - intros Hpt. unfold UnpinPage. by rewrite Hpt.
  - intros f pg Hpt Hpg pg'. unfold UnpinPage. rewrite Hpt, Hpg.
    cbn [mbind res_bind]. split; [|split].
    + intros Hle. by rewrite (proj2 (Z.leb_le _ _) Hle).
    + intros Hgt. rewrite (proj2 (Z.leb_gt _ _)) by lia.
      cbn [pin_count_]. by rewrite (proj2 (Z.eqb_neq _ _)) by lia.
    + intros Hone n Hn. rewrite (proj2 (Z.leb_gt _ _)) by lia.
      cbn [pin_count_]. rewrite (proj2 (Z.eqb_eq _ _)) by lia.
      destruct (SetEvictable_node (replacer_ b) f true n Hn) as (r' & Hr' & Hn').
      exists r'. split; [done|]. split; [done|].
      change (replacer_ (set_frame b f _)) with (replacer_ b). by rewrite Hr'.
Qed.

(** C10.  With an empty free list and no evictable frame, [FetchPage] of a
    page that is not resident and [NewPage] return none and leave the whole
    pool as it was: frames, page table, free list, replacer, page-id
    counter, disk contents and the list of disk calls. *)
Theorem exhausted_pool_fails_atomically b page_id :
  free_list_ b = [] → LRUKReplacer.Size (replacer_ b) = 0 →
  page_table_ b !! page_id = None →
  FetchPage kdist b page_id = Ok (b, None) ∧ NewPage kdist b = Ok (b, None).
Proof.
  intros Hfl Hsz Hpt. split.
  - unfold FetchPage. rewrite Hpt, Hfl, Hsz. reflexivity.
  - apply NewPage_exhausted; [done | lia].
Qed.

End WithKDistance.

Lemma NewPage_free_list_first_witness :
  Inv example_pool ∧
  ∃ b' out, NewPage LRUKReplacer.kdist_spec example_pool = Ok (b', out) ∧
            (out = None ↔ all_pinned example_pool).
Proof.
  assert (H : Inv example_pool) by (apply Invb_sound; vm_compute; reflexivity).
  split; [exact H|].
  destruct (NewPage_free_list_first_else_evict LRUKReplacer.kdist_spec example_pool H)
    as (_ & _ & (b' & out & Hn & Hiff & _) & _).
  exists b', out. split; [exact Hn | exact Hiff].
Defined.

Lemma UnpinPage_witness :
  ∃ r', LRUKReplacer.SetEvictable (replacer_ example_pinned_pool) 0 true = Ok r' ∧
        UnpinPage example_pinned_pool 0 true
        = Ok (set_replacer
                (set_frame example_pinned_pool 0
                   {| data_ := replicate 8 Byte.x00; page_id_ := 0;
                      pin_count_ := 0; is_dirty_ := true |}) r', true).
Proof.
  destruct (UnpinPage_decrements_and_ors_dirty example_pinned_pool 0 true) as (_ & H & _).
  destruct (H 0 {| data_ := replicate 8 Byte.x00; page_id_ := 0;
                   pin_count_ := 1; is_dirty_ := false |}) as (_ & _ & H1).
  - vm_compute. reflexivity.
  - vm_compute. reflexivity.
  - destruct (H1 eq_refl
                {| LRUKReplacer.history_ := [0]; LRUKReplacer.k_ := 2;
                   LRUKReplacer.fid_ := 0; LRUKReplacer.k_distance_ := 0;
                   LRUKReplacer.is_evictable_ := false |})
      as (r' & Hr' & _ & Hu).
    + vm_compute. reflexivity.
    + exists r'. split; [exact Hr' | exact Hu].
Defined.

(** Scenario S1 of the specification: three pages created and unpinned in a
    pool of three frames; the next [NewPage] reuses frame 0, which holds the
    page accessed first, writes its dirty bytes back and returns page id 3. *)
Example NewPage_reuses_the_oldest_frame :
  (λ x : t * option (Z * Z), (x.2, disk_log_ x.1))
    <$> (match NewPage LRUKReplacer.kdist_spec example_pool with
         | Ok x => Some x
         | Fail _ => None
         end)
  = Some (Some (3, 0),
          [WritePage 0 (replicate 8 Byte.x00); DiskDeallocatePage 0]).
Proof. vm_compute. reflexivity. Qed.

Lemma exhausted_pool_witness :
  FetchPage LRUKReplacer.kdist_spec example_pinned_pool 7
    = Ok (example_pinned_pool, None)
  ∧ NewPage LRUKReplacer.kdist_spec example_pinned_pool
    = Ok (example_pinned_pool, None).
Proof.
  apply exhausted_pool_fails_atomically; vm_compute; reflexivity.
Defined.

End BufferPoolManagerFacts.


Module BPlusTreePageFacts.
Import BPlusTreePage.

(** The halving loop finds the partition point of a range that [comp]
    splits into a true part followed by a false part. *)
Lemma lower_bound_loop_spec comp (array : list MappingType) fuel :
  ∀ first len,
  (len ≤ fuel)%nat → (first + len ≤ length array)%nat →
  (∀ i j x y, (first ≤ i)%nat → (i ≤ j)%nat → (j < first + len)%nat →
              array !! i = Some x → array !! j = Some y →
              comp y = true → comp x = true) →
  let r := lower_bound_loop fuel comp array first len in
  (first ≤ r ≤ first + len)%nat ∧
  (∀ i x, (first ≤ i < r)%nat → array !! i = Some x → comp x = true) ∧
  (∀ i x, (r ≤ i < first + len)%nat → array !! i = Some x → comp x = false).
Proof.
  induction fuel as [|fuel IH]; intros first len Hfuel Hlen Hpart.
  { assert (len = 0%nat) as -> by lia. simpl. repeat split; intros; lia. }
  cbn [lower_bound_loop]. destruct (0 <? len)%nat eqn:Hpos.
  2: { apply Nat.ltb_ge in Hpos. repeat split; intros; lia. }
  apply Nat.ltb_lt in Hpos.
  assert (Hhalf : (len / 2 < len)%nat) by (apply Nat.div_lt; lia).
  destruct (lookup_lt_is_Some_2 array (first + len / 2)) as [x Hx]; [lia|].
  rewrite Hx. destruct (comp x) eqn:Hc.
  - destruct (IH (S (first + len / 2)) (len - len / 2 - 1)%nat) as (Hr & Ht & Hf);
      [lia | lia | |].
    { intros i j a b Hi Hij Hj. apply Hpart; lia. }
    split; [lia|]. split.
    + intros i a Hi Ha.
      destruct (le_lt_dec i (first + len / 2)) as [Hle | Hgt].
      * apply (Hpart i (first + len / 2)%nat a x); auto; lia.
      * apply (Ht i a); [lia | done].
    + intros i a Hi Ha. apply (Hf i a); [lia | done].
  - destruct (IH first (len / 2)%nat) as (Hr & Ht & Hf); [lia | lia | |].
    { intros i j a b Hi Hij Hj. apply Hpart; lia. }
    split; [lia|]. split.
    + intros i a Hi Ha. apply (Ht i a); [lia | done].
    + intros i a Hi Ha.
      destruct (le_lt_dec (first + len / 2) i) as [Hge | Hlt].
      * destruct (comp a) eqn:Hca; [|done].
        rewrite <- Hc. symmetry.
        apply (Hpart (first + len / 2)%nat i x a); auto; lia.
      * apply (Hf i a); [lia | done].
Qed.

Lemma lower_bound_spec comp (array : list MappingType) first last :
  0 ≤ first → first ≤ last → last ≤ Z.of_nat (length array) →
  (∀ i j x y, (Z.to_nat first ≤ i)%nat → (i ≤ j)%nat → (j < Z.to_nat last)%nat →
              array !! i = Some x → array !! j = Some y →
              comp y = true → comp x = true) →
  ∃ r, lower_bound comp array first last = Ok r ∧ first ≤ r ≤ last ∧
       (∀ i x, first ≤ i < r → array !! Z.to_nat i = Some x → comp x = true) ∧
       (∀ i x, r ≤ i < last → array !! Z.to_nat i = Some x → comp x = false).
Proof.
  intros Hf Hfl Hl Hpart. unfold lower_bound.
  destruct (last <=? first) eqn:Hle.
  { apply Z.leb_le in Hle. exists first. repeat split; intros; lia. }
  apply Z.leb_gt in Hle.
  rewrite (proj2 (Z.ltb_ge _ _)) by lia.
  rewrite (proj2 (Z.ltb_ge _ _)) by lia. simpl.
  destruct (lower_bound_loop_spec comp array (Z.to_nat (last - first))
              (Z.to_nat first) (Z.to_nat (last - first))) as (Hr & Ht & Hfa);
    [lia | lia | |].
  { intros i j x y Hi Hij Hj. apply Hpart; lia. }
  eexists. split; [reflexivity|]. split; [lia|]. split.
  - intros i x Hi Hx. apply (Ht (Z.to_nat i) x); [lia | done].
  - intros i x Hi Hx. apply (Hfa (Z.to_nat i) x); [lia | done].
Qed.

Lemma at_Ok (array : list MappingType) index e :
  at_ array index = Ok e ↔ 0 ≤ index ∧ array !! Z.to_nat index = Some e.
Proof.
  unfold at_. destruct (index <? 0) eqn:Hi.
  - split; [done|]. intros [H _]. lia.
  - apply Z.ltb_ge in Hi. destruct (array !! Z.to_nat index); simpl; split.
    + by intros [= ->].
    + by intros [_ [= ->]].
    + done.
    + by intros [_ [=]].
Qed.

Lemma comparator_lt a b : (comparator a b <? 0) = (a <? b).
Proof.
  unfold comparator. destruct (Z.compare_spec a b); symmetry;
    [apply Z.ltb_ge | apply Z.ltb_lt | apply Z.ltb_ge]; lia.
Qed.

Lemma comparator_le a b : (comparator a b <=? 0) = (a <=? b).
Proof.
  unfold comparator. destruct (Z.compare_spec a b); symmetry;
    [apply Z.leb_le | apply Z.leb_le | apply Z.leb_gt]; lia.
Qed.

Lemma comparator_eq a b : (comparator a b =? 0) = (a =? b).
Proof.
  unfold comparator. destruct (Z.compare_spec a b); symmetry;
    [apply Z.eqb_eq | apply Z.eqb_neq | apply Z.eqb_neq]; lia.
Qed.

End BPlusTreePageFacts.

Module InternalPageFacts.
Import BPlusTreePage BPlusTreePageFacts InternalPage.

(** When the key at slot 0 is not above the search key, [FindValue] returns
    the child at the last slot whose key is not above the search key. *)
Lemma FindValue_above_placeholder pg key (e0 : MappingType) :
  1 ≤ size_ pg ≤ Z.of_nat (length (array_ pg)) →
  routing_sorted pg →
  array_ pg !! 0%nat = Some e0 → e0.1 ≤ key →
  ∃ i e, FindValue pg key = Ok (e.2, i) ∧ 0 ≤ i < size_ pg ∧
         array_ pg !! Z.to_nat i = Some e ∧ e.1 ≤ key ∧
         (∀ j x, i < j < size_ pg → array_ pg !! Z.to_nat j = Some x → key < x.1).
Proof.
  intros Hsize Hsorted H0 Hle.
  destruct (lower_bound_spec (λ lhs, comparator lhs.1 key <=? 0) (array_ pg) 0 (size_ pg))
    as (r & Hr & Hrange & Htrue & Hfalse); [lia | lia | lia | |].
  { intros i j x y _ Hij Hj Hx Hy Hcy.
    rewrite comparator_le in *. apply Z.leb_le. apply Z.leb_le in Hcy.
    destruct i as [|i].
    - rewrite H0 in Hx. injection Hx as <-. lia.
    - destruct (decide (S i = j)) as [<-|Hne]; [congruence|].
      pose proof (Hsorted (Z.of_nat (S i)) (Z.of_nat j) x y) as Hs.
      rewrite !Nat2Z.id in Hs. specialize (Hs ltac:(lia) ltac:(lia) ltac:(lia) Hx Hy).
      lia. }
  assert (Hr1 : 1 ≤ r).
  { destruct (Z_le_gt_dec 1 r) as [|Hgt]; [done|].
    specialize (Hfalse 0 e0 ltac:(lia) H0). simpl in Hfalse.
    rewrite comparator_le in Hfalse. apply Z.leb_gt in Hfalse. lia. }
  destruct (lookup_lt_is_Some_2 (array_ pg) (Z.to_nat (r - 1))) as [e He]; [lia|].
  exists (r - 1), e. split; [|split; [lia|split; [done|split]]].
  - unfold FindValue, FindValue_index, GetSize. rewrite Hr. cbn [mbind res_bind].
    rewrite (proj2 (at_Ok (array_ pg) (r - 1) e)); [done | split; [lia | done]].
  - specialize (Htrue (r - 1) e ltac:(lia) He). simpl in Htrue.
    rewrite comparator_le in Htrue. by apply Z.leb_le.
  - intros j x Hj Hx. specialize (Hfalse j x ltac:(lia) Hx). simpl in Hfalse.
    rewrite comparator_le in Hfalse. by apply Z.leb_gt.
Qed.

(** A search key below the key of slot 0 and below the first routing key:
    no slot satisfies the predicate of the search, the lower bound is slot 0
    and [std::prev] gives slot -1. *)
Lemma FindValue_below_first_keys pg key (e0 e1 : MappingType) :
  2 ≤ size_ pg ≤ Z.of_nat (length (array_ pg)) →
  routing_sorted pg →
  array_ pg !! 0%nat = Some e0 → array_ pg !! 1%nat = Some e1 →
  key < e0.1 → key < e1.1 →
  FindValue_index pg key = Ok (-1) ∧ FindValue pg key = Fail Undefined.
Proof.
  intros Hsize Hsorted H0 H1 Hlt0 Hlt1.
  assert (Hall : ∀ i (x : MappingType),
            (i < Z.to_nat (size_ pg))%nat → array_ pg !! i = Some x →
            (comparator x.1 key <=? 0) = false).
  { intros i x Hi Hx. rewrite comparator_le. apply Z.leb_gt.
    destruct i as [|[|i]].
    - rewrite H0 in Hx. injection Hx as <-. lia.
    - rewrite H1 in Hx. injection Hx as <-. lia.
    - pose proof (Hsorted 1 (Z.of_nat (S (S i))) e1 x) as Hs.
      rewrite !Nat2Z.id in Hs.
      specialize (Hs ltac:(lia) ltac:(lia) ltac:(lia) H1 Hx). lia. }
  destruct (lower_bound_spec (λ lhs, comparator lhs.1 key <=? 0) (array_ pg) 0 (size_ pg))
    as (r & Hr & Hrange & Htrue & _); [lia | lia | lia | |].
  { intros i j x y _ Hij Hj Hx Hy Hcy.
    rewrite (Hall j y) in Hcy by (simpl; lia || done). done. }
  assert (r = 0) as ->.
  { destruct (Z_le_gt_dec r 0) as [|Hgt]; [lia|].
    specialize (Htrue 0 e0 ltac:(lia) H0). simpl in Htrue.
    rewrite (Hall 0%nat e0) in Htrue by (lia || done). done. }
  unfold FindValue, FindValue_index, GetSize. rewrite Hr. done.
Qed.

(** C4 (the code below the placeholder).  [FindValue] runs its binary search
    over the slots from 0 on, the key of slot 0 included.  On a page of at
    least two entries with increasing routing keys, a search key below the
    key of slot 0 and below the first routing key sends the lower bound to
    slot 0; [std::prev] then steps to slot -1, which is what
    [child_page_index] receives, and the child is read in front of the
    array. *)
Theorem FindValue_below_placeholder pg key (e0 e1 : MappingType) :
  2 ≤ size_ pg ≤ Z.of_nat (length (array_ pg)) →
  routing_sorted pg →
  array_ pg !! 0%nat = Some e0 → array_ pg !! 1%nat = Some e1 →
  key < e0.1 → key < e1.1 →
  FindValue_index pg key = Ok (-1) ∧ FindValue pg key = Fail Undefined.
Proof. apply FindValue_below_first_keys. Qed.

Lemma FindValue_below_placeholder_witness :
  let pg := {| size_ := 2; max_size_ := 5; parent_page_id_ := INVALID_PAGE_ID;
               array_ := [(0, 1); (3, 2); (0, 0); (0, 0)] |} in
  FindValue_index pg (-1) = Ok (-1) ∧ FindValue pg (-1) = Fail Undefined.
Proof.
  intros pg.
  apply (FindValue_below_placeholder pg (-1) (0, 1) (3, 2)).
  - simpl. lia.
  - intros i j x y Hi Hij Hj. simpl in Hj. lia.
  - reflexivity.
  - reflexivity.
  - simpl. lia.
  - simpl. lia.
Defined.

End InternalPageFacts.

Module LeafPageFacts.
Import BPlusTreePage BPlusTreePageFacts LeafPage.

Lemma entries_lookup pg i (x : MappingType) :
  entries pg !! i = Some x ↔ array_ pg !! i = Some x ∧ (i < Z.to_nat (size_ pg))%nat.
Proof. unfold entries. apply lookup_take_Some. Qed.

Lemma sorted_le pg i j (x y : MappingType) :
  sorted pg → (i ≤ j)%nat → (j < Z.to_nat (size_ pg))%nat →
  array_ pg !! i = Some x → array_ pg !! j = Some y → x.1 ≤ y.1.
Proof.
  intros [_ Hs] Hij Hj Hx Hy.
  destruct (decide (i = j)) as [->|Hne].
  - assert (Some x = Some y) as [= ->] by (rewrite <- Hx; exact Hy). lia.
  - pose proof (Hs i j x y ltac:(lia)) as H.
    rewrite !entries_lookup in H. specialize (H ltac:(split; [done | lia]) (conj Hy Hj)).
    lia.
Qed.

Lemma lower_bound_sorted pg key last :
  sorted pg → 0 ≤ last ≤ size_ pg →
  ∃ r, lower_bound (λ lhs, comparator lhs.1 key <? 0) (array_ pg) 0 last = Ok r ∧
       0 ≤ r ≤ last ∧
       (∀ i (x : MappingType), 0 ≤ i < r → array_ pg !! Z.to_nat i = Some x → x.1 < key) ∧
       (∀ i (x : MappingType), r ≤ i < last → array_ pg !! Z.to_nat i = Some x → key ≤ x.1).
Proof.
  intros Hsorted Hlast. pose proof Hsorted as [Hsize _].
  destruct (lower_bound_spec (λ lhs, comparator lhs.1 key <? 0) (array_ pg) 0 last)
    as (r & Hr & Hrange & Htrue & Hfalse); [lia | lia | lia | |].
  { intros i j x y _ Hij Hj Hx Hy Hcy.
    rewrite comparator_lt in *. apply Z.ltb_lt. apply Z.ltb_lt in Hcy.
    pose proof (sorted_le pg i j x y Hsorted Hij ltac:(lia) Hx Hy). lia. }
  exists r. split; [done|]. split; [done|]. split.
  - intros i x Hi Hx. specialize (Htrue i x Hi Hx). simpl in Htrue.
    rewrite comparator_lt in Htrue. by apply Z.ltb_lt.
  - intros i x Hi Hx. specialize (Hfalse i x Hi Hx). simpl in Hfalse.
    rewrite comparator_lt in Hfalse. by apply Z.ltb_ge.
Qed.

Lemma entry_slot pg key v :
  (key, v) ∈ entries pg →
  ∃ j, (j < Z.to_nat (size_ pg))%nat ∧ array_ pg !! j = Some (key, v).
Proof.
  intros Hin. apply list_elem_of_lookup in Hin as [j Hj].
  apply entries_lookup in Hj as [Hj Hlt]. by exists j.
Qed.

(** A key among the entries of a sorted leaf is met by the search of
    [Insert], which returns false and leaves the page as it is. *)
Lemma Insert_duplicate pg key value v :
  sorted pg → (key, v) ∈ entries pg → Insert pg key value = Ok (pg, false).
Proof.
  intros Hsorted Hin. pose proof Hsorted as [Hsize _].
  destruct (entry_slot pg key v Hin) as (j & Hj & Hjv).
  destruct (lower_bound_sorted pg key (size_ pg) Hsorted) as (r & Hr & Hrange & Hlt & Hge);
    [lia|].
  assert (Hrj : r ≤ Z.of_nat j).
  { destruct (Z_le_gt_dec r (Z.of_nat j)) as [|Hgt]; [done|].
    pose proof (Hlt (Z.of_nat j) (key, v)) as H. rewrite Nat2Z.id in H.
    specialize (H ltac:(lia) Hjv). simpl in H. lia. }
  destruct (lookup_lt_is_Some_2 (array_ pg) (Z.to_nat r)) as [e He]; [lia|].
  assert (Hek : e.1 = key).
  { pose proof (Hge r e ltac:(lia) He).
    pose proof (sorted_le pg (Z.to_nat r) j e (key, v) Hsorted ltac:(lia) Hj He Hjv) as H'.
    simpl in H'. lia. }
  unfold Insert, GetSize. rewrite Hr. cbn [mbind res_bind].
  rewrite (proj2 (Z.ltb_lt r (size_ pg))) by lia.
  rewrite (proj2 (at_Ok (array_ pg) r e)) by (split; [lia | done]).
  cbn [mbind res_bind]. rewrite comparator_eq, Hek, Z.eqb_refl. done.
Qed.

(** The search of [FindValue] meets it as well. *)
Lemma FindValue_found pg key v :
  sorted pg → (key, v) ∈ entries pg →
  ∃ i, FindValue pg key = Ok (Some (v, i)) ∧ 0 ≤ i < size_ pg ∧
       array_ pg !! Z.to_nat i = Some (key, v).
Proof.
  intros Hsorted Hin. pose proof Hsorted as [Hsize _].
  destruct (entry_slot pg key v Hin) as (j & Hj & Hjv).
  destruct (lower_bound_sorted pg key (size_ pg - 1) Hsorted)
    as (r & Hr & Hrange & Hlt & Hge); [lia|].
  assert (Hrj : r = Z.of_nat j).
  { destruct (Z_lt_le_dec (Z.of_nat j) r) as [Hgt|Hle].
    - pose proof (Hlt (Z.of_nat j) (key, v)) as H. rewrite Nat2Z.id in H.
      specialize (H ltac:(lia) Hjv). simpl in H. lia.
    - destruct (Z_lt_le_dec r (Z.of_nat j)) as [Hlt'|]; [|lia].
      destruct (lookup_lt_is_Some_2 (array_ pg) (Z.to_nat r)) as [e He]; [lia|].
      pose proof (Hge r e ltac:(lia) He).
      destruct Hsorted as [_ Hs].
      pose proof (Hs (Z.to_nat r) j e (key, v) ltac:(lia)) as H'.
      rewrite !entries_lookup in H'.
      specialize (H' ltac:(split; [done | lia]) (conj Hjv Hj)). simpl in H'. lia. }
  exists (Z.of_nat j). rewrite Nat2Z.id. split; [|split; [lia | done]].
  unfold FindValue, GetSize. rewrite Hr, Hrj. cbn [mbind res_bind].
  rewrite (proj2 (at_Ok (array_ pg) (Z.of_nat j) (key, v)))
    by (rewrite Nat2Z.id; split; [lia | done]).
  cbn [mbind res_bind]. simpl. by rewrite comparator_eq, Z.eqb_refl.
Qed.

Lemma increasing_sound (l : list MappingType) :
  increasing (fst <$> l) = true →
  ∀ i j x y, (i < j)%nat → l !! i = Some x → l !! j = Some y → x.1 < y.1.
Proof.
  induction l as [|a l IH]; simpl; intros H i j x y Hij Hi Hj.
  - by rewrite lookup_nil in Hi.
  - apply andb_prop in H as [Hall Hrest].
    destruct j as [|j]; [lia|]. simpl in Hj.
    destruct i as [|i]; simpl in Hi.
    + injection Hi as <-.
      assert (Hy : In y.1 (fst <$> l)).
      { apply list_elem_of_In, list_elem_of_fmap. exists y. split; [done|].
        by eapply list_elem_of_lookup_2. }
      pose proof (proj1 (forallb_forall _ _) Hall _ Hy) as Hlt.
      by apply Z.ltb_lt in Hlt.
    + apply (IH Hrest i j); auto. lia.
Qed.

Lemma sortedb_sound pg : sortedb pg = true → sorted pg.
Proof.
  unfold sortedb. intros H.
  apply andb_prop in H as [H Hinc]. apply andb_prop in H as [H0 Hlen].
  apply Z.leb_le in H0. apply Z.leb_le in Hlen.
  split; [lia|]. by apply increasing_sound.
Qed.

End LeafPageFacts.

Module BPlusTreeFacts.
Import BPlusTreePage BPlusTree.

Lemma find_leaf_descend fuel tr key :
  ∀ page_id write_set index leaf_id leaf,
  find_leaf fuel tr page_id key = Ok (leaf_id, leaf) →
  ∃ write_set' index',
    descend fuel tr page_id key write_set index = Ok (write_set', index', leaf_id, leaf).
Proof.
  induction fuel as [|fuel IH]; intros page_id ws ix leaf_id leaf; simpl; [done|].
  destruct (fetch tr page_id) as [[| |i|l]|]; simpl; try done.
  - destruct (InternalPage.FindValue i key) as [[child slot]|]; simpl; [|done].
    apply IH.
  - intros [= <- <-]. by eexists _, _.
Qed.

Lemma find_leaf_page fuel tr key :
  ∀ page_id leaf_id leaf,
  find_leaf fuel tr page_id key = Ok (leaf_id, leaf) →
  pages tr !! leaf_id = Some (Leaf leaf).
Proof.
  induction fuel as [|fuel IH]; intros page_id leaf_id leaf; simpl; [done|].
  unfold fetch. destruct (pages tr !! page_id) as [[| |i|l]|] eqn:Hp; simpl; try done.
  - destruct (InternalPage.FindValue i key) as [[child slot]|]; simpl; [|done].
    apply IH.
  - by intros [= <- <-].
Qed.

Lemma set_page_same tr page_id pg :
  pages tr !! page_id = Some pg → set_page tr page_id pg = tr.
Proof.
  intros H. unfold set_page. rewrite insert_id by done. by destruct tr.
Qed.

(** A key that the descent reaches: take a tree whose root is set, and a
    key that the descent for it finds among the entries of the leaf it
    arrives at, the leaf being sorted.  [GetValue] finds the key, and
    [Insert] of that key, with any value, returns false and gives back the
    tree it was given: header, internal pages, leaves and their links are all
    unchanged.  The outcome is the same whether the leaf has room
    ([size < max_size - 1], the fast path) or not (the path that would
    split). *)
Lemma Insert_duplicate_returns_false_unchanged fuel tr key value v root leaf_id leaf :
  fetch_header tr = Ok root → root ≠ INVALID_PAGE_ID →
  find_leaf fuel tr root key = Ok (leaf_id, leaf) →
  LeafPage.sorted leaf → (key, v) ∈ LeafPage.entries leaf →
  GetValue fuel tr key = Ok (Some v) ∧
  Insert fuel tr key value = Ok (tr, false).
Proof.
  intros Hroot Hne Hfind Hsorted Hin.
  assert (Hget : GetValue fuel tr key = Ok (Some v)).
  { unfold GetValue. rewrite Hroot. cbn [mbind res_bind].
    rewrite (proj2 (Z.eqb_neq _ _) Hne), Hfind. cbn [mbind res_bind].
    destruct (LeafPageFacts.FindValue_found leaf key v Hsorted Hin) as (i & -> & _).
    done. }
  assert (Hins : Insert fuel tr key value = Ok (tr, false)).
  { unfold Insert. rewrite Hroot. cbn [mbind res_bind].
    rewrite (proj2 (Z.eqb_neq _ _) Hne).
    destruct (find_leaf_descend fuel tr key root [] ∅ leaf_id leaf Hfind)
      as (ws & ix & ->).
    cbn [mbind res_bind].
    rewrite (LeafPageFacts.Insert_duplicate leaf key value v Hsorted Hin).
    cbn [mbind res_bind].
    rewrite (set_page_same tr leaf_id (Leaf leaf)) by (by eapply find_leaf_page).
    by destruct (LeafPage.GetSize leaf <? LeafPage.GetMaxSize leaf - 1). }
  auto.
Qed.

(** The key pushed up by the split of a leaf is [KeyAt(min_size)] of the
    leaf before it is truncated; the leaf keeps [min_size] entries and is
    linked to the new page, which takes over its former successor. *)
Lemma split_leaf_pushed_key tr leaf new_page_id leaf' new_page pushed_key :
  split_leaf tr leaf new_page_id = Ok (leaf', new_page, pushed_key) →
  LeafPage.KeyAt leaf (LeafPage.GetMinSize leaf) = Ok pushed_key ∧
  LeafPage.size_ leaf' = LeafPage.GetMinSize leaf ∧
  LeafPage.size_ new_page = LeafPage.GetSize leaf - LeafPage.GetMinSize leaf ∧
  LeafPage.next_page_id_ leaf' = new_page_id ∧
  LeafPage.next_page_id_ new_page = LeafPage.next_page_id_ leaf.
Proof.
  unfold split_leaf.
  destruct (LeafPage.CopyHalfFrom _ _ _ _) as [np|]; cbn [mbind res_bind]; [|done].
  destruct (LeafPage.KeyAt leaf (LeafPage.GetMinSize leaf)) as [k|];
    cbn [mbind res_bind]; [|done].
  intros [= <- <- <-]. done.
Qed.

(** The scenario S3 when the default of [Init] is 4.  The leaves then have
    [max_size_ = 4]: the keys 1, 2, 3 fill one leaf, and the key 4 is the one
    that splits it, since [Insert] splits as soon as the size reaches
    [max_size] (the test of line 158): the leaf keeps [{1,2}] and gives
    [{3,4}] to a new leaf linked after it, under a new internal root with
    separator 3.  The key 5 goes into the right leaf in place, which gives
    S3.  With a default of 5 the split comes with the key 5, from a leaf that
    holds [{1,2,3,4}], and ends in the same leaves and root.  At a leaf split
    the key pushed up is [KeyAt(min_size)] of the leaf before truncation. *)
Lemma Insert_1_to_5_with_a_default_of_4_or_5 :
  insert_all 8 fresh_tree [1; 2; 3] = Ok tree_123 ∧
  Insert 8 tree_123 4 4 = Ok (tree_1234, true) ∧
  Insert 8 tree_1234 5 5 = Ok (S3_tree, true) ∧
  insert_all 8 fresh_tree [1; 2; 3; 4; 5] = Ok S3_tree ∧
  (∃ tr l1 tr5 root l2 l3,
     insert_all 8 (init 0 4 5 5 8 8) [1; 2; 3; 4] = Ok tr ∧
     fetch_header tr = Ok 1 ∧
     pages tr !! 1 = Some (Leaf l1) ∧ LeafPage.keys l1 = [1; 2; 3; 4] ∧
     Insert 8 tr 5 5 = Ok (tr5, true) ∧
     fetch_header tr5 = Ok 3 ∧
     pages tr5 !! 3 = Some (Internal root) ∧
     InternalPage.entries root = [(0, 1); (3, 2)] ∧
     pages tr5 !! 1 = Some (Leaf l2) ∧ LeafPage.keys l2 = [1; 2] ∧
     LeafPage.next_page_id_ l2 = 2 ∧
     pages tr5 !! 2 = Some (Leaf l3) ∧ LeafPage.keys l3 = [3; 4; 5] ∧
     LeafPage.next_page_id_ l3 = INVALID_PAGE_ID) ∧
  (∀ tr leaf new_page_id leaf' new_page pushed_key,
     split_leaf tr leaf new_page_id = Ok (leaf', new_page, pushed_key) →
     LeafPage.KeyAt leaf (LeafPage.GetMinSize leaf) = Ok pushed_key).
Proof.
  split; [vm_compute; reflexivity|].
  split; [vm_compute; reflexivity|].
  split; [vm_compute; reflexivity|].
  split; [vm_compute; reflexivity|].
  split.
  - eexists _, _, _, _, _, _.
    split; [vm_compute; reflexivity|]. split; [vm_compute; reflexivity|].
    split; [vm_compute; reflexivity|]. split; [vm_compute; reflexivity|].
    split; [vm_compute; reflexivity|]. split; [vm_compute; reflexivity|].
    split; [vm_compute; reflexivity|]. split; [vm_compute; reflexivity|].
    split; [vm_compute; reflexivity|]. split; [vm_compute; reflexivity|].
    split; [vm_compute; reflexivity|]. split; [vm_compute; reflexivity|].
    split; vm_compute; reflexivity.
  - intros tr leaf new_page_id leaf' new_page pushed_key H.
    by apply split_leaf_pushed_key in H as [? _].
Qed.


(** Lines 468-539, had they been reached: after the removal of 5 the
    guard [size >= max_size] does not hold and, the two leaves holding four
    entries together, the last entry of the left leaf moves to the right one;
    after the removal of 4 the right leaf is merged into the left one, which
    takes its [next_page_id], and [DeleteInternalEntry] is called on the
    separator.  [DeleteInternalEntry] is not in the sources. *)
Lemma lines_468_539_on_S3 (D : t → Z → list Z → Z → Z → gmap Z Z → res t) :
  (tr ← Remove 8 S3_tree 5; DeleteEntry_lines_468_539 D tr 3 [3] 2 {[ 2 := 1 ]})
  = Ok S3_redistributed ∧
  (tr ← Remove 8 S3_redistributed 4; DeleteEntry_lines_468_539 D tr 3 [3] 2 {[ 2 := 1 ]})
  = D S3_merged 3 [3] 2 2 {[ 2 := 1 ]}.
Proof. split; vm_compute; reflexivity. Qed.

End BPlusTreeFacts.

Module IndexIteratorFacts.
Import BPlusTreePage BPlusTreePageFacts IndexIterator.

Section WithPool.
Variable fetch_leaf : Z → res LeafPage.t.

Lemma leaf_entry_at leaf index (e : MappingType) :
  index < LeafPage.size_ leaf → 0 ≤ index →
  LeafPage.array_ leaf !! Z.to_nat index = Some e →
  LeafPage.KeyAt leaf index = Ok e.1 ∧ LeafPage.ValueAt leaf index = Ok e.2.
Proof.
  intros Hlt H0 He.
  unfold LeafPage.KeyAt, LeafPage.ValueAt, LeafPage.assert_index, LeafPage.GetSize.
  rewrite (proj2 (Z.ltb_lt _ _) Hlt). cbn [mbind res_bind].
  rewrite (proj2 (at_Ok (LeafPage.array_ leaf) index e)) by done. done.
Qed.

(** An iterator at slot [i] of a leaf, [0 <= i < size].  [IsEnd] holds
    exactly when the leaf has no successor and [i] is its last slot.
    [operator++] moves to slot [i + 1] of the same leaf when [i] is not the
    last slot; from the last slot it moves to slot 0 of the leaf named by
    [next_page_id] when that leaf holds an entry; and from the last slot of a
    leaf without successor it becomes the end sentinel, page
    [INVALID_PAGE_ID] and index -1. *)
Lemma incr_walks_the_leaf_chain it leaf :
  cur_page_id_ it ≠ INVALID_PAGE_ID →
  fetch_leaf (cur_page_id_ it) = Ok leaf →
  0 ≤ index_ it < LeafPage.size_ leaf →
  LeafPage.size_ leaf ≤ Z.of_nat (length (LeafPage.array_ leaf)) →
  (∃ b, IsEnd fetch_leaf it = Ok b ∧
        (b = true ↔ LeafPage.next_page_id_ leaf = INVALID_PAGE_ID ∧
                    index_ it = LeafPage.size_ leaf - 1))
  ∧
  (index_ it < LeafPage.size_ leaf - 1 →
   ∃ e, LeafPage.array_ leaf !! Z.to_nat (index_ it + 1) = Some e ∧
        incr fetch_leaf it =
        Ok {| cur_page_id_ := cur_page_id_ it; index_ := index_ it + 1; entry_ := e |})
  ∧
  (index_ it = LeafPage.size_ leaf - 1 →
   LeafPage.next_page_id_ leaf ≠ INVALID_PAGE_ID →
   ∀ next_leaf e,
     fetch_leaf (LeafPage.next_page_id_ leaf) = Ok next_leaf →
     0 < LeafPage.size_ next_leaf →
     LeafPage.array_ next_leaf !! 0%nat = Some e →
     incr fetch_leaf it =
     Ok {| cur_page_id_ := LeafPage.next_page_id_ leaf; index_ := 0; entry_ := e |})
  ∧
  (index_ it = LeafPage.size_ leaf - 1 →
   LeafPage.next_page_id_ leaf = INVALID_PAGE_ID →
   incr fetch_leaf it =
   Ok {| cur_page_id_ := INVALID_PAGE_ID; index_ := -1; entry_ := entry_ it |}).
Proof.
  intros Hcur Hleaf Hidx Hcap.
  assert (HisEnd : IsEnd fetch_leaf it =
            Ok ((LeafPage.next_page_id_ leaf =? INVALID_PAGE_ID)
                && (index_ it =? LeafPage.size_ leaf - 1))).
  { unfold IsEnd. by rewrite Hleaf. }
  assert (Hstart : ∀ k, (if cur_page_id_ it =? INVALID_PAGE_ID then Ok it else k) = k).
  { intros k. by rewrite (proj2 (Z.eqb_neq _ _) Hcur). }
  split; [|split; [|split]].
  - eexists. split; [exact HisEnd|].
    rewrite andb_true_iff, !Z.eqb_eq. done.
  - intros Hlt.
    destruct (lookup_lt_is_Some_2 (LeafPage.array_ leaf) (Z.to_nat (index_ it + 1)))
      as [e He]; [lia|].
    exists e. split; [done|].
    destruct (leaf_entry_at leaf (index_ it + 1) e) as [Hk Hv]; [lia | lia | done|].
    unfold incr. rewrite Hstart, Hleaf, HisEnd. cbn [mbind res_bind].
    rewrite (proj2 (Z.eqb_neq (index_ it) _)) by lia. rewrite andb_false_r.
    unfold LeafPage.GetSize. rewrite (proj2 (Z.ltb_lt _ _) Hlt).
    rewrite Hk, Hv. cbn [mbind res_bind]. by destruct e.
  - intros Hlast Hnext next_leaf e Hnl Hsz He.
    destruct (leaf_entry_at next_leaf 0 e) as [Hk Hv]; [lia | lia | done|].
    unfold incr. rewrite Hstart, Hleaf, HisEnd. cbn [mbind res_bind].
    rewrite (proj2 (Z.eqb_neq (LeafPage.next_page_id_ leaf) _)) by done.
    cbn [andb]. unfold LeafPage.GetSize, LeafPage.GetNextPageId.
    rewrite (proj2 (Z.ltb_ge _ _)) by lia.
    rewrite Hnl. cbn [mbind res_bind]. rewrite Hk, Hv. cbn [mbind res_bind].
    by destruct e.
  - intros Hlast Hnext.
    unfold incr. rewrite Hstart, Hleaf, HisEnd. cbn [mbind res_bind].
    rewrite Hnext, Hlast, !Z.eqb_refl. done.
Qed.

(** C8 (the code on an empty next leaf).  Take an iterator on the last
    entry of a leaf whose [next_page_id] names a leaf without entries.
    [IsEnd] does not hold, and [operator++] fetches the next leaf and calls
    [KeyAt(0)] on it, whose assertion [index < GetSize()] fails: the iterator
    does not move to slot 0 of the next leaf. *)
Theorem incr_fails_on_an_empty_next_leaf it leaf next_leaf :
  cur_page_id_ it ≠ INVALID_PAGE_ID →
  fetch_leaf (cur_page_id_ it) = Ok leaf →
  index_ it = LeafPage.size_ leaf - 1 →
  LeafPage.next_page_id_ leaf ≠ INVALID_PAGE_ID →
  fetch_leaf (LeafPage.next_page_id_ leaf) = Ok next_leaf →
  LeafPage.size_ next_leaf ≤ 0 →
  IsEnd fetch_leaf it = Ok false ∧
  incr fetch_leaf it = Fail (RuntimeError "assert").
Proof.
  intros Hcur Hleaf Hlast Hnext Hnl Hempty.
  assert (HisEnd : IsEnd fetch_leaf it = Ok false).
  { unfold IsEnd. rewrite Hleaf. cbn [mbind res_bind].
    unfold LeafPage.GetNextPageId. by rewrite (proj2 (Z.eqb_neq _ _) Hnext). }
  split; [done|].
  unfold incr. rewrite (proj2 (Z.eqb_neq _ _) Hcur), Hleaf, HisEnd.
  cbn [mbind res_bind]. unfold LeafPage.GetSize, LeafPage.GetNextPageId.
  rewrite (proj2 (Z.ltb_ge _ _)) by lia.
  rewrite Hnl. cbn [mbind res_bind].
  unfold LeafPage.KeyAt, LeafPage.assert_index, LeafPage.GetSize.
  by rewrite (proj2 (Z.ltb_ge _ _)) by lia.
Qed.

End WithPool.

Lemma incr_walks_the_leaf_chain_witness :
  incr (BPlusTree.fetch_leaf BPlusTree.S3_tree)
       {| cur_page_id_ := 1; index_ := 1; entry_ := (2, 2) |}
  = Ok {| cur_page_id_ := 2; index_ := 0; entry_ := (3, 3) |}.
Proof.
  destruct (incr_walks_the_leaf_chain (BPlusTree.fetch_leaf BPlusTree.S3_tree)
              {| cur_page_id_ := 1; index_ := 1; entry_ := (2, 2) |}
              {| LeafPage.size_ := 2; LeafPage.max_size_ := 4;
                 LeafPage.parent_page_id_ := 3; LeafPage.next_page_id_ := 2;
                 LeafPage.array_ := [(1, 1); (2, 2); (3, 3); (4, 4);
                                     (0, 0); (0, 0); (0, 0); (0, 0)] |})
    as (_ & _ & H & _).
  - discriminate.
  - vm_compute. reflexivity.
  - simpl. lia.
  - simpl. lia.
  - apply (H eq_refl ltac:(discriminate)
             {| LeafPage.size_ := 3; LeafPage.max_size_ := 4;
                LeafPage.parent_page_id_ := 3; LeafPage.next_page_id_ := -1;
                LeafPage.array_ := [(3, 3); (4, 4); (5, 5); (0, 0);
                                    (0, 0); (0, 0); (0, 0); (0, 0)] |} (3, 3)).
    + vm_compute. reflexivity.
    + simpl. lia.
    + reflexivity.
Defined.

Lemma incr_fails_on_an_empty_next_leaf_witness :
  IsEnd (BPlusTree.fetch_leaf BPlusTree.S3_without_5_4_3)
        {| cur_page_id_ := 1; index_ := 1; entry_ := (2, 2) |} = Ok false ∧
  incr (BPlusTree.fetch_leaf BPlusTree.S3_without_5_4_3)
       {| cur_page_id_ := 1; index_ := 1; entry_ := (2, 2) |}
  = Fail (RuntimeError "assert").
Proof.
  apply (incr_fails_on_an_empty_next_leaf
           (BPlusTree.fetch_leaf BPlusTree.S3_without_5_4_3)
           {| cur_page_id_ := 1; index_ := 1; entry_ := (2, 2) |}
           {| LeafPage.size_ := 2; LeafPage.max_size_ := 4;
              LeafPage.parent_page_id_ := 3; LeafPage.next_page_id_ := 2;
              LeafPage.array_ := [(1, 1); (2, 2); (3, 3); (4, 4);
                                  (0, 0); (0, 0); (0, 0); (0, 0)] |}
           {| LeafPage.size_ := 0; LeafPage.max_size_ := 4;
              LeafPage.parent_page_id_ := 3; LeafPage.next_page_id_ := -1;
              LeafPage.array_ := [(3, 3); (4, 4); (5, 5); (0, 0);
                                  (0, 0); (0, 0); (0, 0); (0, 0)] |}).
  - discriminate.
  - vm_compute. reflexivity.
  - reflexivity.
  - discriminate.
  - vm_compute. reflexivity.
  - simpl. lia.
Defined.

(** The tree of the witness is one the code builds: [Remove] of 5, 4 and 3
    from S3 deletes the three entries of the right leaf, which stays linked
    after the left one, and [Begin] followed by one [operator++] gives the
    iterator of the witness. *)
Lemma S3_without_5_4_3_is_built :
  BPlusTree.remove_all 8 BPlusTree.S3_tree [5; 4; 3] = Ok BPlusTree.S3_without_5_4_3 ∧
  (it ← BPlusTree.Begin 8 BPlusTree.S3_without_5_4_3;
   incr (BPlusTree.fetch_leaf BPlusTree.S3_without_5_4_3) it)
  = Ok {| cur_page_id_ := 1; index_ := 1; entry_ := (2, 2) |}.
Proof. split; vm_compute; reflexivity. Qed.

End IndexIteratorFacts.

(** * Further properties of the code *)

Module LRUKReplacerProperties.
Import LRUKReplacer LRUKReplacerFacts.

(** X1.  Every state a replacer reaches from its constructor through calls
    of [RecordAccess], [SetEvictable], [Remove] and [Evict] that return is
    well formed: the two lists hold distinct live nodes, each map holds
    exactly the nodes of its list under their frame ids, no frame is in both
    maps, [curr_size_] is the number of evictable nodes (as a [size_t]) and
    the k-list is ordered by stored k-distance, largest first. *)
Theorem replacer_states_are_well_formed kdist r : reachable kdist r → wf r.
Proof. apply reachable_wf. Qed.

Lemma replacer_states_are_well_formed_witness :
  wf (match run_accesses kdist_spec (init 7 2) [3] with
      | Ok r => r
      | Fail _ => init 7 2
      end).
Proof.
  apply (replacer_states_are_well_formed kdist_spec).
  apply (reachable_SetEvictable kdist_spec
           (match RecordAccess kdist_spec (init 7 2) 3 with
            | Ok r => r
            | Fail _ => init 7 2
            end) 3 true).
  - apply (reachable_RecordAccess kdist_spec (init 7 2) 3).
    + apply reachable_init.
    + vm_compute. reflexivity.
  - vm_compute. reflexivity.
Defined.

(** X2.  [SetEvictable] throws "Frame_id does not exist" for a frame the
    replacer does not track.  For a tracked frame it returns; only that
    frame's flag changes (lists, maps, clock and the other frames' nodes
    stay), and [Size()] goes up by one when a non-evictable frame is made
    evictable, down by one in the opposite case, and stays when the flag
    already had the value. *)
Theorem SetEvictable_changes_one_flag_and_the_size r f b :
  wf r →
  (node_of r f = None →
   SetEvictable r f b = Fail (RuntimeError "Frame_id does not exist"))
  ∧
  (∀ n, node_of r f = Some n →
     ∃ r', SetEvictable r f b = Ok r' ∧ wf r' ∧
           node_of r' f = Some (NodeSetEvictable b n) ∧
           (∀ g, g ≠ f → node_of r' g = node_of r g) ∧
           Size r' = (match GetEvictable n, b with
                      | true, false => wrap_size_t (Size r - 1)
                      | false, true => wrap_size_t (Size r + 1)
                      | _, _ => Size r
                      end) ∧
           default_list_ r' = default_list_ r ∧ k_list_ r' = k_list_ r ∧
           default_map_ r' = default_map_ r ∧ k_map_ r' = k_map_ r ∧
           current_timestamp_ r' = current_timestamp_ r).
Proof.
  intros Hwf. split.
  - intros Hn. apply SetEvictable_untracked. by apply node_of_None.
  - intros n Hn.
    destruct (SetEvictable_tracked r f b n Hwf Hn)
      as (r' & Hr' & Hwf' & Hview & Hcs & Hdl & Hkl & Hdm & Hkm & Hts & _).
    exists r'. split; [done|]. split; [done|].
    split; [by rewrite Hview, decide_True|].
    split; [intros g Hg; by rewrite Hview, decide_False|].
    split; [|done]. unfold Size. rewrite Hcs.
    by destruct (GetEvictable n), b.
Qed.

Lemma SetEvictable_changes_one_flag_and_the_size_witness :
  ∃ r', SetEvictable example_replacer 2 false = Ok r' ∧
        Size r' = 3 ∧ Size example_replacer = 4.
Proof.
  assert (H : wf example_replacer) by (apply wfb_sound; vm_compute; reflexivity).
  destruct (SetEvictable_changes_one_flag_and_the_size example_replacer 2 false H)
    as [_ Hs].
  destruct (Hs {| history_ := [5; 8]; k_ := 2; fid_ := 2; k_distance_ := 3;
                  is_evictable_ := true |}) as (r' & Hr' & _ & _ & _ & Hsz & _).
  { vm_compute. reflexivity. }
  exists r'. split; [exact Hr'|]. split; [|vm_compute; reflexivity].
  rewrite Hsz. vm_compute. reflexivity.
Defined.

(** X3.  [Remove] does nothing for a frame the replacer does not track and
    throws "Cannot remove" for a tracked frame that is not evictable.  For an
    evictable frame it returns: the frame is no longer tracked, the other
    frames keep their nodes, and [Size()] drops by one. *)
Theorem Remove_drops_an_evictable_frame r f :
  wf r →
  (node_of r f = None → Remove r f = Ok r)
  ∧
  (∀ n, node_of r f = Some n → GetEvictable n = false →
        Remove r f = Fail (RuntimeError "Cannot remove"))
  ∧
  (∀ n, node_of r f = Some n → GetEvictable n = true →
     ∃ r', Remove r f = Ok r' ∧ wf r' ∧ node_of r' f = None ∧
           (∀ g, g ≠ f → node_of r' g = node_of r g) ∧
           Size r' = wrap_size_t (Size r - 1)).
Proof.
  intros Hwf. split; [|split].
  - intros Hn. apply Remove_untracked. by apply node_of_None.
  - intros n Hn He. by eapply Remove_not_evictable.
  - intros n Hn He.
    destruct (Remove_wf r f n Hwf Hn He) as (r' & Hr' & Hwf' & Hview & Hcs & _).
    exists r'. split; [done|]. split; [done|].
    split; [by rewrite Hview, decide_True|].
    split; [intros g Hg; by rewrite Hview, decide_False | done].
Qed.

Lemma Remove_drops_an_evictable_frame_witness :
  ∃ r', Remove example_replacer 2 = Ok r' ∧ node_of r' 2 = None ∧ Size r' = 3.
Proof.
  assert (H : wf example_replacer) by (apply wfb_sound; vm_compute; reflexivity).
  destruct (Remove_drops_an_evictable_frame example_replacer 2 H) as (_ & _ & Hs).
  destruct (Hs {| history_ := [5; 8]; k_ := 2; fid_ := 2; k_distance_ := 3;
                  is_evictable_ := true |}) as (r' & Hr' & _ & Hn & _ & Hsz).
  { vm_compute. reflexivity. }
  { reflexivity. }
  exists r'. split; [exact Hr'|]. split; [exact Hn|].
  rewrite Hsz. vm_compute. reflexivity.
Defined.

(** X4.  [RecordAccess] leaves the replacer as it is, the clock included,
    for a frame id above [replacer_size_].  For any other frame id it
    returns with the frame tracked: a frame seen for the first time is not
    evictable, a known frame keeps its flag; the other frames keep their
    nodes, [Size()] does not change and the clock advances by one. *)
Theorem RecordAccess_tracks_the_frame_and_keeps_the_size kdist r f :
  wf r →
  (f > to_int32 (replacer_size_ r) → RecordAccess kdist r f = Ok r)
  ∧
  (f ≤ to_int32 (replacer_size_ r) →
     ∃ r' n', RecordAccess kdist r f = Ok r' ∧ wf r' ∧
              node_of r' f = Some n' ∧
              GetEvictable n' = (match node_of r f with
                                 | Some n => GetEvictable n
                                 | None => false
                                 end) ∧
              (∀ g, g ≠ f → node_of r' g = node_of r g) ∧
              Size r' = Size r ∧
              current_timestamp_ r' = wrap_size_t (current_timestamp_ r + 1)).
Proof.
  intros Hwf. split.
  - apply RecordAccess_rejects_above.
  - intros Hle.
    destruct (RecordAccess_wf kdist r f Hwf Hle)
      as (r' & n' & Hr' & Hwf' & Hview & He & Hcs & _ & Hts).
    exists r', n'. split; [done|]. split; [done|].
    split; [by rewrite Hview, decide_True|]. split; [done|].
    split; [intros g Hg; by rewrite Hview, decide_False | done].
Qed.

Lemma RecordAccess_tracks_the_frame_and_keeps_the_size_witness :
  RecordAccess kdist_spec example_replacer 8 = Ok example_replacer
  ∧ ∃ r', RecordAccess kdist_spec example_replacer 5 = Ok r' ∧
          Size r' = Size example_replacer.
Proof.
  assert (H : wf example_replacer) by (apply wfb_sound; vm_compute; reflexivity).
  destruct (RecordAccess_tracks_the_frame_and_keeps_the_size
              kdist_spec example_replacer 8 H) as [Hrej _].
  destruct (RecordAccess_tracks_the_frame_and_keeps_the_size
              kdist_spec example_replacer 5 H) as [_ Hadm].
  split.
  - apply Hrej. vm_compute. reflexivity.
  - destruct Hadm as (r' & n' & Hr' & _ & _ & _ & _ & Hsz & _).
    { vm_compute. discriminate. }
    exists r'. split; [exact Hr' | exact Hsz].
Defined.

(** X5.  The frame [Evict] returns was tracked and evictable; afterwards it
    is no longer tracked, the other frames keep their nodes, and a second
    [Evict] cannot return it again. *)
Theorem Evict_takes_an_evictable_frame_out r r' f :
  wf r → Evict r = Ok (r', Some f) →
  (∃ n, node_of r f = Some n ∧ GetEvictable n = true) ∧
  wf r' ∧ node_of r' f = None ∧
  (∀ g, g ≠ f → node_of r' g = node_of r g) ∧
  (∀ r'' g, Evict r' = Ok (r'', Some g) → g ≠ f).
Proof.
  intros Hwf He.
  destruct (Evict_Some r r' f Hwf He) as (Hwf' & Hn & Hview & _).
  split; [done|]. split; [done|].
  assert (Hnone : node_of r' f = None) by (by rewrite Hview, decide_True).
  split; [done|].
  split; [intros g Hg; by rewrite Hview, decide_False|].
  intros r'' g He' ->.
  destruct (Evict_Some r' r'' f Hwf' He') as (_ & (n & Hn' & _) & _). congruence.
Qed.

Lemma Evict_takes_an_evictable_frame_out_witness :
  node_of (match Evict example_replacer with
           | Ok (r', _) => r'
           | Fail _ => example_replacer
           end) 4 = None.
Proof.
  assert (H : wf example_replacer) by (apply wfb_sound; vm_compute; reflexivity).
  apply (Evict_takes_an_evictable_frame_out example_replacer
           (match Evict example_replacer with
            | Ok (r', _) => r'
            | Fail _ => example_replacer
            end) 4 H).
  vm_compute. reflexivity.
Defined.

(** X6.  In a well-formed replacer whose tracked frames lie in [0, N), with
    N below 2^64, there are at most N nodes, [Size()] is between 0 and N,
    and [Size()] is 0 exactly when no tracked frame is evictable. *)
Theorem Size_counts_the_evictable_frames r N :
  wf r → (∀ f, is_Some (node_of r f) → 0 ≤ f < N) → N < 2 ^ 64 →
  Z.of_nat (length (tracked r)) ≤ Z.max 0 N ∧
  0 ≤ Size r ≤ Z.max 0 N ∧
  (Size r = 0 ↔ ∀ f n, node_of r f = Some n → GetEvictable n = false).
Proof.
  intros Hwf Hrange HN.
  pose proof (tracked_bound r N Hwf Hrange) as Hlen.
  pose proof (evictable_count_le (store r) (tracked r)) as Hle.
  split; [done|]. split; [|by apply (Size_zero r N)].
  unfold Size. rewrite (wf_size _ Hwf), wrap_size_t_small by lia. lia.
Qed.

Lemma Size_counts_the_evictable_frames_witness :
  0 ≤ Size example_replacer ≤ Z.max 0 7.
Proof.
  assert (H : wf example_replacer) by (apply wfb_sound; vm_compute; reflexivity).
  apply (Size_counts_the_evictable_frames example_replacer 7 H).
  - intros f Hf. apply BufferPoolManagerFacts.tracked_frames_spec in Hf.
    vm_compute in Hf.
    repeat (apply elem_of_cons in Hf as [-> | Hf]; [lia|]).
    by apply elem_of_nil in Hf.
  - lia.
Defined.

End LRUKReplacerProperties.

Module BufferPoolManagerProperties.
Import BufferPoolManager LRUKReplacerFacts BufferPoolManagerFacts.

(** The frame with its dirty flag set to [d]. *)
Lemma Page_eta pg :
  {| data_ := data_ pg; page_id_ := page_id_ pg; pin_count_ := pin_count_ pg;
     is_dirty_ := is_dirty_ pg |} = pg.
Proof. by destruct pg. Qed.

Lemma FlushPage_resident b page_id f pg :
  page_table_ b !! page_id = Some f → frame b f = Ok pg →
  FlushPage b page_id =
  Ok ({| pool_size_ := pool_size_ b;
         pages_ := <[Z.to_nat f := {| data_ := data_ pg; page_id_ := page_id_ pg;
                                      pin_count_ := pin_count_ pg;
                                      is_dirty_ := false |}]> (pages_ b);
         page_table_ := page_table_ b; free_list_ := free_list_ b;
         replacer_ := replacer_ b; next_page_id_ := next_page_id_ b;
         disk_ := <[page_id := data_ pg]> (disk_ b);
         disk_log_ := disk_log_ b ++ [WritePage page_id (data_ pg)] |}, true).
Proof. intros Hpt Hpg. unfold FlushPage. rewrite Hpt, Hpg. reflexivity. Qed.

(** X7.  Every state a pool of fewer than 2^31 frames reaches from its
    constructor through calls of [NewPage], [FetchPage], [UnpinPage],
    [FlushPage] and [DeletePage] that return is consistent: the replacer is
    well formed and tracks frames of the pool only; pin counts are not
    negative; the free list has no duplicates, its frames are unpinned and no
    page id of the page table maps to them; a page id of the page table maps
    to a frame that holds this id and that the replacer tracks; an evictable
    frame is unpinned; and an unpinned frame is free or evictable. *)
Theorem pool_states_are_consistent kdist b : reachable kdist b → Inv b.
Proof. apply reachable_Inv. Qed.

Lemma pool_states_are_consistent_witness :
  Inv (match NewPage LRUKReplacer.kdist_spec (init 8 3 2) with
       | Ok (b, _) => b
       | Fail _ => init 8 3 2
       end).
Proof.
  apply (pool_states_are_consistent LRUKReplacer.kdist_spec).
  apply (reachable_NewPage LRUKReplacer.kdist_spec (init 8 3 2) _ (Some (0, 0))).
  - apply reachable_init. lia.
  - vm_compute. reflexivity.
Defined.

Section WithKDistance.
Variable kdist : list Z → Z.

Lemma select_frame_takes_unpinned b b1 f :
  Inv b → free_list_ b ≠ [] ∨ 0 < LRUKReplacer.Size (replacer_ b) →
  select_frame b = Ok (b1, f) → unpinned_frame b f.
Proof.
  intros HInv Hguard Hsel. destruct (free_list_ b) as [|f0 rest] eqn:Hfl.
  - destruct Hguard as [|Hsz]; [done|].
    destruct (select_frame_evict b HInv Hfl Hsz)
      as (r0 & f' & pg & _ & Hpg & Hpin & _ & _ & _ & Hsel').
    rewrite Hsel in Hsel'. injection Hsel' as _ ->. by exists pg.
  - rewrite (select_frame_free b f0 rest Hfl) in Hsel. injection Hsel as _ <-.
    apply (inv_free _ HInv). rewrite Hfl. left.
Qed.

(** What [NewPage] and the miss path of [FetchPage] leave behind when they
    hand out a frame. *)
Lemma install_result b b' f page_id (pg' : Page) b1 pg1 r2 n :
  Inv b → free_list_ b ≠ [] ∨ 0 < LRUKReplacer.Size (replacer_ b) →
  select_frame b = Ok (b1, f) → frame b1 f = Ok pg1 →
  pages_ b' = <[Z.to_nat f := pg']> (pages_ b1) →
  page_table_ b' = <[page_id := f]> (page_table_ b1) →
  replacer_ b' = r2 →
  (∀ g, LRUKReplacer.node_of r2 g =
        if decide (g = f) then Some n else LRUKReplacer.node_of (replacer_ b1) g) →
  LRUKReplacer.GetEvictable n = false →
  unpinned_frame b f ∧ frame b' f = Ok pg' ∧
  page_table_ b' !! page_id = Some f ∧
  ¬ evictable_frame (replacer_ b') f ∧
  (∀ g, g ≠ f → frame b' g = frame b g).
Proof.
  intros HInv Hguard Hsel Hpg1 Hpages Hpt Hrep Hview He.
  pose proof (select_frame_takes_unpinned b b1 f HInv Hguard Hsel) as Hun.
  destruct (select_frame_spec b HInv Hguard)
    as (b1' & f' & pg1' & Hsel' & _ & Hf & _ & Hpages1 & _).
  rewrite Hsel in Hsel'. injection Hsel' as <- <-.
  assert (Hlen : 0 ≤ f < Z.of_nat (length (pages_ b)))
    by (by rewrite <- (inv_pool_size _ HInv)).
  rewrite Hpages1, list_insert_insert_eq in Hpages.
  split; [done|]. split; [by eapply frame_insert_eq|].
  split; [by rewrite Hpt, lookup_insert_eq|]. split.
  - intros (n' & Hn' & He'). rewrite Hrep, Hview, decide_True in Hn' by done.
    congruence.
  - intros g Hg. eapply frame_insert_ne; [exact Hpages | lia | done].
Qed.

Lemma NewPage_result b b' page_id f :
  Inv b → NewPage kdist b = Ok (b', Some (page_id, f)) →
  page_id = next_page_id_ b ∧ Inv b' ∧ unpinned_frame b f ∧
  (∃ pg', frame b' f = Ok pg' ∧ page_id_ pg' = page_id ∧ pin_count_ pg' = 1 ∧
          is_dirty_ pg' = false) ∧
  page_table_ b' !! page_id = Some f ∧
  ¬ evictable_frame (replacer_ b') f ∧
  (∀ g, g ≠ f → frame b' g = frame b g).
Proof.
  intros HInv Hnp.
  assert (HInv' : Inv b').
  { destruct (NewPage_Inv kdist b HInv) as (b2 & out2 & Hb2 & HInv2). congruence. }
  destruct (bool_decide (free_list_ b ≠ []) || (LRUKReplacer.Size (replacer_ b) >? 0))
    eqn:Hg; [|unfold NewPage in Hnp; rewrite Hg in Hnp; discriminate].
  pose proof (proj1 (select_guard b) Hg) as Hguard.
  destruct (select_frame_spec b HInv Hguard)
    as (b1 & f1 & pg1 & Hsel & Hpg1 & Hf & Hps & Hpages & _ & _ & _ & Hwf1 & Hrs1 & _).
  destruct (RecordAccess_then_pin kdist (replacer_ b1) f1 Hwf1)
    as (r1 & r2 & n & Hr1 & Hr2 & _ & Hview2 & He & _).
  { rewrite Hrs1. pose proof (inv_pool_range _ HInv). rewrite to_int32_small; lia. }
  rewrite (NewPage_after_select kdist b b1 f1 pg1 r1 r2 Hg Hsel Hpg1 Hr1 Hr2) in Hnp.
  injection Hnp as Hb Hid Hfeq. subst f.
  assert (Hnext : next_page_id_ b1 = next_page_id_ b).
  { destruct (free_list_ b) as [|f0 rest] eqn:Hfl.
    - destruct Hguard as [|Hsz]; [done|].
      destruct (select_frame_evict b HInv Hfl Hsz) as (? & ? & ? & _ & _ & _ & _ & _ & _ & Hs).
      rewrite Hsel in Hs. by injection Hs as -> _.
    - rewrite (select_frame_free b f0 rest Hfl) in Hsel. by injection Hsel as <- _. }
  split; [congruence|]. split; [done|].
  destruct (install_result b b' f1 (next_page_id_ b1)
              {| data_ := data_ pg1; page_id_ := next_page_id_ b1; pin_count_ := 1;
                 is_dirty_ := false |} b1 pg1 r2 n HInv Hguard Hsel Hpg1)
    as (Hun & Hfr & Hpt & Hne & Hothers);
    [by rewrite <- Hb | by rewrite <- Hb | by rewrite <- Hb | done | done |].
  split; [done|]. split; [eexists; split; [exact Hfr|]; by rewrite <- Hid|].
  rewrite <- Hid. done.
Qed.

Lemma FetchPage_miss_result b b' page_id f :
  Inv b → page_table_ b !! page_id = None → FetchPage kdist b page_id = Ok (b', Some f) →
  Inv b' ∧ unpinned_frame b f ∧
  (∃ pg pg', frame b f = Ok pg ∧ frame b' f = Ok pg' ∧
             page_id_ pg' = page_id ∧ pin_count_ pg' = 1 ∧ is_dirty_ pg' = false ∧
             data_ pg' = default (replicate (length (data_ pg)) Byte.x00)
                           (disk_ b' !! page_id)) ∧
  page_table_ b' !! page_id = Some f ∧
  ¬ evictable_frame (replacer_ b') f ∧
  (∀ g, g ≠ f → frame b' g = frame b g) ∧
  last (disk_log_ b') = Some (ReadPage page_id).
Proof.
  intros HInv Hmiss Hfp.
  assert (HInv' : Inv b') by (by eapply FetchPage_keeps_Inv).
  destruct (bool_decide (free_list_ b ≠ []) || (LRUKReplacer.Size (replacer_ b) >? 0))
    eqn:Hg; [|unfold FetchPage in Hfp; rewrite Hmiss, Hg in Hfp; discriminate].
  pose proof (proj1 (select_guard b) Hg) as Hguard.
  destruct (select_frame_spec b HInv Hguard)
    as (b1 & f1 & pg1 & Hsel & Hpg1 & Hf & Hps & Hpages & _ & _ & _ & Hwf1 & Hrs1 & _).
  destruct (RecordAccess_then_pin kdist (replacer_ b1) f1 Hwf1)
    as (r1 & r2 & n & Hr1 & Hr2 & _ & Hview2 & He & _).
  { rewrite Hrs1. pose proof (inv_pool_range _ HInv). rewrite to_int32_small; lia. }
  rewrite (FetchPage_after_select kdist b page_id b1 f1 pg1 r1 r2 Hmiss Hg Hsel Hpg1 Hr1 Hr2)
    in Hfp.
  injection Hfp as Hb Hfeq. subst f.
  destruct (install_result b b' f1 page_id
              {| data_ := default (replicate (length (data_ pg1)) Byte.x00)
                            (disk_ b1 !! page_id);
                 page_id_ := page_id; pin_count_ := 1; is_dirty_ := false |}
              b1 pg1 r2 n HInv Hguard Hsel Hpg1)
    as (Hun & Hfr & Hpt & Hne & Hothers);
    [by rewrite <- Hb | by rewrite <- Hb | by rewrite <- Hb | done | done |].
  assert (Hdisk : disk_ b' = disk_ b1) by (by rewrite <- Hb).
  assert (Hlog : disk_log_ b' = disk_log_ b1 ++ [ReadPage page_id]) by (by rewrite <- Hb).
  split; [done|]. split; [done|].
  split; [|split; [done|split; [done|split; [done|]]]].
  - destruct Hun as (pg & Hpg & Hpin). exists pg. eexists.
    split; [done|]. split; [exact Hfr|]. cbn. do 3 (split; [done|]).
    rewrite Hdisk. f_equal. f_equal.
    assert (Hlen : 0 ≤ f1 < Z.of_nat (length (pages_ b)))
      by (by rewrite <- (inv_pool_size _ HInv)).
    pose proof (frame_insert_eq b b1 f1 pg1 Hpages Hlen) as Hb1.
    destruct (free_list_ b) as [|f0 rest] eqn:Hfl.
    + destruct Hguard as [|Hsz]; [done|].
      destruct (select_frame_evict b HInv Hfl Hsz)
        as (r0 & f2 & pg2 & _ & Hpg2 & _ & _ & _ & _ & Hs).
      rewrite Hsel in Hs. injection Hs as -> ->.
      cbn in Hpg1.
      assert (pg1 = ResetMemory pg2) as ->.
      { pose proof (frame_range _ _ _ Hpg2) as Hr.
        assert (frame {| pool_size_ := pool_size_ b;
                         pages_ := <[Z.to_nat f2:=ResetMemory pg2]> (pages_ b);
                         page_table_ := delete (page_id_ pg2) (page_table_ b);
                         free_list_ := []; replacer_ := r0;
                         next_page_id_ := next_page_id_ b;
                         disk_ := if is_dirty_ pg2
                                  then <[page_id_ pg2:=data_ pg2]> (disk_ b)
                                  else disk_ b;
                         disk_log_ := disk_log_ b
                           ++ (if is_dirty_ pg2
                               then [WritePage (page_id_ pg2) (data_ pg2)] else [])
                           ++ [DiskDeallocatePage (page_id_ pg2)] |} f2
                = Ok (ResetMemory pg2)) as Hx
          by (eapply frame_insert_eq; [reflexivity | done]).
        congruence. }
      cbn. rewrite length_replicate. congruence.
    + rewrite (select_frame_free b f0 rest Hfl) in Hsel. injection Hsel as <- <-.
      change (frame (set_free_list b rest) f0) with (frame b f0) in Hpg1. congruence.
  - rewrite Hlog. by rewrite last_snoc.
Qed.

(** X8.  A pinned page is never evicted: in a consistent pool the frame
    that [NewPage], or [FetchPage] of a page that is not resident, hands out
    was unpinned, and every frame with a positive pin count keeps its page
    id, bytes, pin count and dirty flag through the call. *)
Theorem pinned_frames_are_never_reused b :
  Inv b →
  (∀ b' page_id f,
     NewPage kdist b = Ok (b', Some (page_id, f)) →
     unpinned_frame b f ∧
     ∀ g pg, frame b g = Ok pg → 0 < pin_count_ pg → frame b' g = Ok pg)
  ∧
  (∀ page_id b' f,
     page_table_ b !! page_id = None →
     FetchPage kdist b page_id = Ok (b', Some f) →
     unpinned_frame b f ∧
     ∀ g pg, frame b g = Ok pg → 0 < pin_count_ pg → frame b' g = Ok pg).
Proof.
  intros HInv. split.
  - intros b' page_id f Hnp.
    destruct (NewPage_result b b' page_id f HInv Hnp)
      as (_ & _ & Hun & _ & _ & _ & Hothers).
    split; [done|]. intros g pg Hg Hpin. rewrite Hothers; [done|].
    intros ->. destruct Hun as (pg0 & Hpg0 & Hz). rewrite Hg in Hpg0.
    injection Hpg0 as <-. lia.
  - intros page_id b' f Hmiss Hfp.
    destruct (FetchPage_miss_result b b' page_id f HInv Hmiss Hfp)
      as (_ & Hun & _ & _ & _ & Hothers & _).
    split; [done|]. intros g pg Hg Hpin. rewrite Hothers; [done|].
    intros ->. destruct Hun as (pg0 & Hpg0 & Hz). rewrite Hg in Hpg0.
    injection Hpg0 as <-. lia.
Qed.

(** A hit in [FetchPage]: the state it returns, spelled out. *)
Lemma FetchPage_hit b page_id f pg :
  Inv b → page_table_ b !! page_id = Some f → frame b f = Ok pg →
  pin_count_ pg ≠ 2 ^ 31 - 1 →
  ∃ b', FetchPage kdist b page_id = Ok (b', Some f) ∧ Inv b' ∧
        pages_ b' = <[Z.to_nat f := {| data_ := data_ pg; page_id_ := page_id_ pg;
                                       pin_count_ := pin_count_ pg + 1;
                                       is_dirty_ := is_dirty_ pg |}]> (pages_ b) ∧
        page_table_ b' = page_table_ b ∧ free_list_ b' = free_list_ b ∧
        next_page_id_ b' = next_page_id_ b ∧
        disk_ b' = disk_ b ∧ disk_log_ b' = disk_log_ b ∧
        ¬ evictable_frame (replacer_ b') f ∧
        (∀ g, g ≠ f → LRUKReplacer.node_of (replacer_ b') g
                      = LRUKReplacer.node_of (replacer_ b) g).
Proof.
  intros HInv Hpt Hpg Hmax.
  destruct (resident_frame b page_id f HInv Hpt) as (_ & _ & _ & _ & _ & _ & Hf & _).
  destruct (RecordAccess_then_pin kdist (replacer_ b) f (inv_replacer _ HInv))
    as (r1 & r2 & n & Hr1 & Hr2 & Hwf2 & Hview2 & He & _).
  { by apply frame_admitted. }
  assert (Heq : FetchPage kdist b page_id =
    Ok ({| pool_size_ := pool_size_ b;
           pages_ := <[Z.to_nat f := {| data_ := data_ pg; page_id_ := page_id_ pg;
                                        pin_count_ := pin_count_ pg + 1;
                                        is_dirty_ := is_dirty_ pg |}]> (pages_ b);
           page_table_ := page_table_ b; free_list_ := free_list_ b;
           replacer_ := r2; next_page_id_ := next_page_id_ b;
           disk_ := disk_ b; disk_log_ := disk_log_ b |}, Some f)).
  { unfold FetchPage. rewrite Hpt, Hpg. cbn [mbind res_bind].
    rewrite (proj2 (Z.eqb_neq _ _) Hmax).
    cbn [replacer_ set_frame set_pages]. rewrite Hr1. cbn [mbind res_bind].
    rewrite Hr2. reflexivity. }
  eexists. split; [exact Heq|].
  split; [by eapply FetchPage_keeps_Inv|]. cbn.
  do 6 (split; [done|]). split.
  - intros (n' & Hn' & He'). rewrite Hview2, decide_True in Hn' by done. congruence.
  - intros g Hg. by rewrite Hview2, decide_False.
Qed.

(** X9.  [FetchPage] of a resident page (its pin count below [INT_MAX])
    returns its frame with the pin count raised by one and everything else
    about the frames, the page table, the free list, the page-id counter and
    the disk as before: no disk call is made.  The access is recorded and the
    frame is not evictable afterwards; the other frames keep their replacer
    nodes. *)
Theorem FetchPage_resident_pins_the_frame b page_id f pg :
  Inv b → page_table_ b !! page_id = Some f → frame b f = Ok pg →
  pin_count_ pg ≠ 2 ^ 31 - 1 →
  ∃ b', FetchPage kdist b page_id = Ok (b', Some f) ∧ Inv b' ∧
        pages_ b' = <[Z.to_nat f := {| data_ := data_ pg; page_id_ := page_id_ pg;
                                       pin_count_ := pin_count_ pg + 1;
                                       is_dirty_ := is_dirty_ pg |}]> (pages_ b) ∧
        page_table_ b' = page_table_ b ∧ free_list_ b' = free_list_ b ∧
        next_page_id_ b' = next_page_id_ b ∧
        disk_ b' = disk_ b ∧ disk_log_ b' = disk_log_ b ∧
        ¬ evictable_frame (replacer_ b') f ∧
        (∀ g, g ≠ f → LRUKReplacer.node_of (replacer_ b') g
                      = LRUKReplacer.node_of (replacer_ b) g).
Proof. apply FetchPage_hit. Qed.

(** X10.  In a consistent pool [FetchPage] of a page that is not resident
    returns none exactly when every frame is pinned, and then changes
    nothing.  Otherwise the frame it returns was unpinned; afterwards the
    frame holds the page with pin count 1 and a clean flag, its bytes are
    those the disk holds for the page (zeroes when the disk has none), the
    page table maps the page to the frame, the frame is not evictable, the
    other frames are as before, and the last disk call is the read of the
    page. *)
Theorem FetchPage_miss_loads_the_page b page_id :
  Inv b → page_table_ b !! page_id = None →
  ∃ b' out, FetchPage kdist b page_id = Ok (b', out) ∧ Inv b' ∧
    (out = None ↔ all_pinned b) ∧ (out = None → b' = b) ∧
    (∀ f, out = Some f →
       unpinned_frame b f ∧
       (∃ pg pg', frame b f = Ok pg ∧ frame b' f = Ok pg' ∧
                  page_id_ pg' = page_id ∧ pin_count_ pg' = 1 ∧
                  is_dirty_ pg' = false ∧
                  data_ pg' = default (replicate (length (data_ pg)) Byte.x00)
                                (disk_ b' !! page_id)) ∧
       page_table_ b' !! page_id = Some f ∧
       ¬ evictable_frame (replacer_ b') f ∧
       (∀ g, g ≠ f → frame b' g = frame b g) ∧
       last (disk_log_ b') = Some (ReadPage page_id)).
Proof.
  intros HInv Hmiss.
  destruct (FetchPage_Inv kdist b page_id HInv) as (b' & out & Hfp & HInv').
  { intros f pg Hpt. congruence. }
  exists b', out. split; [done|]. split; [done|].
  pose proof (exhausted_iff_all_pinned b HInv) as Hex.
  destruct (bool_decide (free_list_ b ≠ []) || (LRUKReplacer.Size (replacer_ b) >? 0))
    eqn:Hg.
  - pose proof (proj1 (select_guard b) Hg) as Hguard.
    destruct (select_frame_spec b HInv Hguard)
      as (b1 & f1 & pg1 & Hsel & Hpg1 & Hf & _ & _ & _ & _ & _ & Hwf1 & Hrs1 & _).
    destruct (RecordAccess_then_pin kdist (replacer_ b1) f1 Hwf1)
      as (r1 & r2 & n & Hr1 & Hr2 & _).
    { rewrite Hrs1. pose proof (inv_pool_range _ HInv). rewrite to_int32_small; lia. }
    pose proof Hfp as Hfp'.
    rewrite (FetchPage_after_select kdist b page_id b1 f1 pg1 r1 r2 Hmiss Hg Hsel Hpg1 Hr1 Hr2)
      in Hfp'.
    injection Hfp' as _ Hout. subst out.
    split; [|split; [done|]].
    + split; [done|]. intros Hall. apply Hex in Hall as [Hnil Hz].
      destruct Hguard as [Hne | Hsz]; [done | lia].
    + intros f [= <-]. by apply FetchPage_miss_result.
  - assert (Heq : FetchPage kdist b page_id = Ok (b, None)).
    { unfold FetchPage. by rewrite Hmiss, Hg. }
    rewrite Heq in Hfp. injection Hfp as <- <-.
    split; [|split; [done | by intros f [=]]].
    split; [|done]. intros _. apply Hex.
    apply orb_false_elim in Hg as [Hfl Hsz].
    apply bool_decide_eq_false in Hfl.
    split; [by destruct (free_list_ b); [|exfalso; apply Hfl]|].
    rewrite Z.gtb_ltb in Hsz. apply Z.ltb_ge in Hsz.
    pose proof (inv_replacer _ HInv) as Hwf.
    pose proof (LRUKReplacer.wf_size _ Hwf) as Hcs.
    unfold LRUKReplacer.Size, wrap_size_t in *.
    pose proof (Z.mod_pos_bound
                  (Z.of_nat (LRUKReplacer.evictable_count
                               (LRUKReplacer.store (replacer_ b))
                               (LRUKReplacer.tracked (replacer_ b))))
                  (2 ^ 64)).
    lia.
Qed.

(** X11.  Pinning and unpinning cancel: in a consistent pool, [FetchPage]
    of a resident page followed by [UnpinPage] of it with [is_dirty = false]
    both return and leave every frame (page id, bytes, pin count, dirty
    flag), the page table, the free list, the page-id counter and the disk as
    they were; the frame is evictable afterwards exactly when its pin count
    is zero, and the other frames keep their replacer nodes. *)
Theorem FetchPage_then_UnpinPage_restores_the_pool b page_id f pg :
  Inv b → page_table_ b !! page_id = Some f → frame b f = Ok pg →
  pin_count_ pg ≠ 2 ^ 31 - 1 →
  ∃ b1 b2, FetchPage kdist b page_id = Ok (b1, Some f) ∧
           UnpinPage b1 page_id false = Ok (b2, true) ∧ Inv b2 ∧
           pages_ b2 = pages_ b ∧ page_table_ b2 = page_table_ b ∧
           free_list_ b2 = free_list_ b ∧ next_page_id_ b2 = next_page_id_ b ∧
           disk_ b2 = disk_ b ∧ disk_log_ b2 = disk_log_ b ∧
           (evictable_frame (replacer_ b2) f ↔ pin_count_ pg = 0) ∧
           (∀ g, g ≠ f → LRUKReplacer.node_of (replacer_ b2) g
                         = LRUKReplacer.node_of (replacer_ b) g).
Proof.
  intros HInv Hpt Hpg Hmax.
  destruct (FetchPage_hit b page_id f pg HInv Hpt Hpg Hmax)
    as (b1 & Hfp & HInv1 & Hpages1 & Hpt1 & Hfl1 & Hnext1 & Hdisk1 & Hlog1 & Hne1 & Hoth1).
  destruct (resident_frame b page_id f HInv Hpt)
    as (pg0 & _ & Hpg0 & _ & Hpin & _ & Hf & _).
  assert (pg0 = pg) as -> by congruence.
  assert (Hlen : 0 ≤ f < Z.of_nat (length (pages_ b)))
    by (by rewrite <- (inv_pool_size _ HInv)).
  pose proof (frame_insert_eq b b1 f _ Hpages1 Hlen) as Hfr1.
  destruct (inv_page_table _ HInv1 page_id f) as (_ & _ & _ & [n1 Hn1]);
    [by rewrite Hpt1|].
  assert (He1 : LRUKReplacer.GetEvictable n1 = false).
  { destruct (LRUKReplacer.GetEvictable n1) eqn:He; [|done].
    destruct Hne1. by exists n1. }
  assert (Hrestore :
    <[Z.to_nat f := {| data_ := data_ pg; page_id_ := page_id_ pg;
                       pin_count_ := pin_count_ pg + 1 - 1;
                       is_dirty_ := is_dirty_ pg |}]> (pages_ b1) = pages_ b).
  { rewrite Hpages1, list_insert_insert_eq.
    replace (pin_count_ pg + 1 - 1) with (pin_count_ pg) by lia.
    rewrite Page_eta. apply list_insert_id. by apply frame_Ok in Hpg as [_ ?]. }
  destruct (UnpinPage_Inv b1 page_id false HInv1) as (b2 & ok & Hup & HInv2).
  exists b1, b2. split; [done|].
  pose proof Hup as Hup0.
  unfold UnpinPage in Hup. rewrite Hpt1, Hpt, Hfr1 in Hup. cbn [mbind res_bind] in Hup.
  cbn [pin_count_ data_ page_id_ is_dirty_ orb] in Hup.
  rewrite (proj2 (Z.leb_gt _ _)) in Hup by lia.
  destruct (pin_count_ pg + 1 - 1 =? 0) eqn:Hz.
  - apply Z.eqb_eq in Hz.
    destruct (SetEvictable_tracked (replacer_ b1) f true n1 (inv_replacer _ HInv1) Hn1)
      as (r3 & Hr3 & _ & Hview3 & _).
    change (replacer_ (set_frame b1 f _)) with (replacer_ b1) in Hup.
    rewrite Hr3 in Hup. cbn [mbind res_bind] in Hup. injection Hup as <- <-.
    split; [done|]. split; [done|].
    unfold set_replacer, set_frame, set_pages. cbn.
    split; [done|]. do 5 (split; [done|]). split.
    + split; [lia|]. intros _. exists (LRUKReplacer.NodeSetEvictable true n1).
      split; [by rewrite Hview3, decide_True | done].
    + intros g Hg. rewrite Hview3, decide_False by done. by apply Hoth1.
  - apply Z.eqb_neq in Hz. injection Hup as <- <-.
    split; [done|]. split; [done|].
    unfold set_frame, set_pages. cbn.
    split; [done|]. do 5 (split; [done|]). split; [|done].
    split; [by intros ? | lia].
Qed.

(** X12.  [FlushPage] returns false and changes nothing for a page that is
    not resident.  For a resident page it returns true whatever the pin count
    and the dirty flag: the bytes of the frame are written to disk under the
    page id (one [WritePage] call), the frame becomes clean and keeps its
    bytes, page id and pin count; the other frames, the page table, the free
    list, the replacer and the page-id counter are untouched. *)
Theorem FlushPage_writes_the_frame_to_disk b page_id :
  (page_table_ b !! page_id = None → FlushPage b page_id = Ok (b, false))
  ∧
  (∀ f pg, page_table_ b !! page_id = Some f → frame b f = Ok pg →
     ∃ b', FlushPage b page_id = Ok (b', true) ∧
           disk_ b' = <[page_id := data_ pg]> (disk_ b) ∧
           disk_log_ b' = disk_log_ b ++ [WritePage page_id (data_ pg)] ∧
           frame b' f = Ok {| data_ := data_ pg; page_id_ := page_id_ pg;
                              pin_count_ := pin_count_ pg; is_dirty_ := false |} ∧
           (∀ g, g ≠ f → frame b' g = frame b g) ∧
           page_table_ b' = page_table_ b ∧ free_list_ b' = free_list_ b ∧
           replacer_ b' = replacer_ b ∧ next_page_id_ b' = next_page_id_ b).
Proof.
  split.
  - intros Hpt. unfold FlushPage. by rewrite Hpt.
  - intros f pg Hpt Hpg. eexists. split; [by apply FlushPage_resident|]. cbn.
    split; [done|]. split; [done|].
    pose proof (frame_range _ _ _ Hpg) as Hr.
    split; [by eapply frame_insert_eq|].
    split; [|done]. intros g Hg. eapply frame_insert_ne; [reflexivity | lia | done].
Qed.

Lemma DeletePage_unpinned b page_id f pg :
  Inv b → page_table_ b !! page_id = Some f → frame b f = Ok pg → pin_count_ pg = 0 →
  ∃ r', LRUKReplacer.Remove (replacer_ b) f = Ok r' ∧
        LRUKReplacer.node_of r' f = None ∧
        (∀ g, g ≠ f → LRUKReplacer.node_of r' g = LRUKReplacer.node_of (replacer_ b) g) ∧
        DeletePage b page_id =
        Ok ({| pool_size_ := pool_size_ b;
               pages_ := <[Z.to_nat f :=
                            {| data_ := replicate (length (data_ pg)) Byte.x00;
                               page_id_ := INVALID_PAGE_ID; pin_count_ := 0;
                               is_dirty_ := false |}]> (pages_ b);
               page_table_ := delete page_id (page_table_ b);
               free_list_ := free_list_ b ++ [f];
               replacer_ := r';
               next_page_id_ := next_page_id_ b;
               disk_ := disk_ b;
               disk_log_ := disk_log_ b ++ [DiskDeallocatePage page_id] |}, true).
Proof.
  intros HInv Hpt Hpg Hpin.
  destruct (resident_frame b page_id f HInv Hpt) as (pg0 & n & Hpg0 & _ & _ & Hn & _).
  assert (pg0 = pg) as -> by congruence.
  assert (He : LRUKReplacer.GetEvictable n = true).
  { by apply (resident_evictable_iff b page_id f pg n HInv Hpt Hpg Hn). }
  destruct (Remove_wf (replacer_ b) f n (inv_replacer _ HInv) Hn He)
    as (r' & Hr' & _ & Hview & _).
  exists r'. split; [done|]. split; [by rewrite Hview, decide_True|].
  split; [intros g Hg; by rewrite Hview, decide_False|].
  unfold DeletePage. rewrite Hpt, Hpg. cbn [mbind res_bind].
  rewrite Hpin. cbn [Z.gtb Z.compare]. rewrite Hr'. reflexivity.
Qed.

(** X13.  [DeletePage] returns true and changes nothing for a page that is
    not resident, and returns false and changes nothing for a pinned page.
    For an unpinned resident page of a consistent pool it returns true: the
    page id leaves the page table, the frame leaves the replacer, is zeroed,
    marked clean with page id [INVALID_PAGE_ID] and appended to the back of
    the free list; the bytes on disk are not touched (a dirty page is not
    written back) and the one disk call is [DeallocatePage]. *)
Theorem DeletePage_frees_an_unpinned_page b page_id :
  (page_table_ b !! page_id = None → DeletePage b page_id = Ok (b, true))
  ∧
  (∀ f pg, page_table_ b !! page_id = Some f → frame b f = Ok pg →
     (0 < pin_count_ pg → DeletePage b page_id = Ok (b, false))
     ∧
     (Inv b → pin_count_ pg = 0 →
        ∃ b', DeletePage b page_id = Ok (b', true) ∧ Inv b' ∧
              page_table_ b' = delete page_id (page_table_ b) ∧
              free_list_ b' = free_list_ b ++ [f] ∧
              frame b' f = Ok {| data_ := replicate (length (data_ pg)) Byte.x00;
                                 page_id_ := INVALID_PAGE_ID; pin_count_ := 0;
                                 is_dirty_ := false |} ∧
              (∀ g, g ≠ f → frame b' g = frame b g) ∧
              LRUKReplacer.node_of (replacer_ b') f = None ∧
              (∀ g, g ≠ f → LRUKReplacer.node_of (replacer_ b') g
                            = LRUKReplacer.node_of (replacer_ b) g) ∧
              next_page_id_ b' = next_page_id_ b ∧ disk_ b' = disk_ b ∧
              disk_log_ b' = disk_log_ b ++ [DiskDeallocatePage page_id])).
Proof.
  split.
  - intros Hpt. unfold DeletePage. by rewrite Hpt.
  - intros f pg Hpt Hpg. split.
    + intros Hpin. unfold DeletePage. rewrite Hpt, Hpg. cbn [mbind res_bind].
      by rewrite (proj2 (Z.gtb_lt _ _)) by lia.
    + intros HInv Hpin.
      destruct (DeletePage_unpinned b page_id f pg HInv Hpt Hpg Hpin)
        as (r' & _ & Hnone & Hoth & Heq).
      destruct (DeletePage_Inv b page_id HInv) as (b' & ok & Hdp & HInv').
      rewrite Heq in Hdp. injection Hdp as Hb Hok.
      exists b'. split; [by rewrite Heq, Hb|]. split; [done|].
      rewrite <- Hb. cbn.
      pose proof (frame_range _ _ _ Hpg) as Hr.
      split; [done|]. split; [done|].
      split; [by eapply frame_insert_eq|].
      split; [intros g Hg; eapply frame_insert_ne; [reflexivity | lia | done]|].
      done.
Qed.

Lemma FlushAllPages_cons page_id rest b b1 ok :
  FlushPage b page_id = Ok (b1, ok) →
  FlushAllPages (page_id :: rest) b = FlushAllPages rest b1.
Proof. intros H. unfold FlushAllPages. cbn. by rewrite H. Qed.

Lemma FlushAllPages_all order :
  ∀ b, Inv b → (∀ p, p ∈ order → is_Some (page_table_ b !! p)) →
  ∃ b', FlushAllPages order b = Ok b' ∧ Inv b' ∧
    page_table_ b' = page_table_ b ∧ free_list_ b' = free_list_ b ∧
    replacer_ b' = replacer_ b ∧ next_page_id_ b' = next_page_id_ b ∧
    (∀ g pg, frame b g = Ok pg →
       ∃ d, frame b' g = Ok {| data_ := data_ pg; page_id_ := page_id_ pg;
                               pin_count_ := pin_count_ pg; is_dirty_ := d |} ∧
            (∀ p, p ∈ order → page_table_ b !! p = Some g → d = false) ∧
            ((∀ p, p ∈ order → page_table_ b !! p ≠ Some g) → d = is_dirty_ pg)) ∧
    (∀ p f pg, p ∈ order → page_table_ b !! p = Some f → frame b f = Ok pg →
               disk_ b' !! p = Some (data_ pg)) ∧
    (∀ p, p ∉ order → disk_ b' !! p = disk_ b !! p).
Proof.
  induction order as [|p rest IH]; intros b HInv Hres.
  - exists b. split; [done|]. split; [done|]. do 4 (split; [done|]).
    split; [|split; [|done]].
    + intros g pg Hg. exists (is_dirty_ pg). rewrite Page_eta.
      split; [done|]. split; [|done]. intros q Hq. by apply elem_of_nil in Hq.
    + intros q f pg Hq. by apply elem_of_nil in Hq.
  - destruct (Hres p) as [f Hpt]; [left|].
    destruct (resident_frame b p f HInv Hpt) as (pg & _ & Hpg & Hid & _ & _ & Hf & _).
    pose proof (FlushPage_resident b p f pg Hpt Hpg) as Hflush.
    set (b1 := {| pool_size_ := pool_size_ b;
                  pages_ := <[Z.to_nat f := {| data_ := data_ pg; page_id_ := page_id_ pg;
                                               pin_count_ := pin_count_ pg;
                                               is_dirty_ := false |}]> (pages_ b);
                  page_table_ := page_table_ b; free_list_ := free_list_ b;
                  replacer_ := replacer_ b; next_page_id_ := next_page_id_ b;
                  disk_ := <[p := data_ pg]> (disk_ b);
                  disk_log_ := disk_log_ b ++ [WritePage p (data_ pg)] |}) in *.
    assert (HInv1 : Inv b1).
    { destruct (FlushPage_Inv b p HInv) as (b2 & ok & Hb2 & HInv2). congruence. }
    assert (Hlen : 0 ≤ f < Z.of_nat (length (pages_ b)))
      by (by rewrite <- (inv_pool_size _ HInv)).
    assert (Hfr1 : frame b1 f = Ok {| data_ := data_ pg; page_id_ := page_id_ pg;
                                      pin_count_ := pin_count_ pg; is_dirty_ := false |})
      by (by eapply frame_insert_eq).
    assert (Hfr1' : ∀ g, g ≠ f → frame b1 g = frame b g).
    { intros g Hg. eapply frame_insert_ne; [reflexivity | lia | done]. }
    destruct (IH b1 HInv1) as (b' & Hall & HInv' & Hpt' & Hfl' & Hrep' & Hnext' &
                               Hframes & Hdisk & Hdisk').
    { intros q Hq. apply Hres. by right. }
    exists b'. split; [by rewrite (FlushAllPages_cons p rest b b1 true Hflush)|].
    split; [done|]. do 4 (split; [done|]).
    split; [|split].
    + intros g pg0 Hg. destruct (decide (g = f)) as [->|Hne].
      * assert (pg0 = pg) as -> by congruence.
        destruct (Hframes f _ Hfr1) as (d & Hd & Hfalse & Hsame). cbn in Hd.
        assert (d = false) as ->.
        { destruct (decide (Exists (λ q, page_table_ b !! q = Some f) rest))
            as [Hex | Hno].
          - apply Exists_exists in Hex as (q & Hq & Hqf). by apply (Hfalse q).
          - apply Hsame. intros q Hq Hqf. apply Hno, Exists_exists. by exists q. }
        exists false. split; [done|]. split; [done|].
        intros Hno. destruct (Hno p); [left | done].
      * rewrite <- (Hfr1' g Hne) in Hg.
        destruct (Hframes g pg0 Hg) as (d & Hd & Hfalse & Hsame).
        exists d. split; [done|]. split.
        -- intros q Hq Hqg. apply elem_of_cons in Hq as [-> | Hq]; [congruence|].
           by apply (Hfalse q).
        -- intros Hno. apply Hsame. intros q Hq. apply Hno. by right.
    + intros q g pg0 Hq Hqg Hg. destruct (decide (q ∈ rest)) as [Hin | Hnotin].
      * destruct (decide (g = f)) as [->|Hne].
        -- assert (pg0 = pg) as -> by congruence.
           by apply (Hdisk q f _ Hin Hqg Hfr1).
        -- apply (Hdisk q g pg0 Hin Hqg). by rewrite Hfr1'.
      * apply elem_of_cons in Hq as [-> | Hq]; [|done].
        assert (g = f) as -> by congruence. assert (pg0 = pg) as -> by congruence.
        rewrite (Hdisk' p Hnotin). cbn. by rewrite lookup_insert_eq.
    + intros q Hq. apply not_elem_of_cons in Hq as [Hne Hq].
      rewrite (Hdisk' q Hq). cbn. by rewrite lookup_insert_ne.
Qed.

(** X14.  [FlushAllPages], in whatever order the page table is walked,
    returns on a consistent pool and leaves it consistent: every resident
    page is clean afterwards and the disk holds its bytes under its page id;
    the frames keep their bytes, page ids and pin counts, a frame that holds
    no resident page keeps its dirty flag too, and the page table, the free
    list, the replacer and the page-id counter are untouched. *)
Theorem FlushAllPages_cleans_every_resident_page order b :
  Inv b → order ≡ₚ (map_to_list (page_table_ b)).*1 →
  ∃ b', FlushAllPages order b = Ok b' ∧ Inv b' ∧
    page_table_ b' = page_table_ b ∧ free_list_ b' = free_list_ b ∧
    replacer_ b' = replacer_ b ∧ next_page_id_ b' = next_page_id_ b ∧
    (∀ p f, page_table_ b !! p = Some f →
       ∃ pg, frame b f = Ok pg ∧
             frame b' f = Ok {| data_ := data_ pg; page_id_ := page_id_ pg;
                                pin_count_ := pin_count_ pg; is_dirty_ := false |} ∧
             disk_ b' !! p = Some (data_ pg)) ∧
    (∀ g pg, frame b g = Ok pg → (∀ p, page_table_ b !! p ≠ Some g) →
             frame b' g = Ok pg) ∧
    (∀ p, page_table_ b !! p = None → disk_ b' !! p = disk_ b !! p).
Proof.
  intros HInv Horder.
  assert (Hin : ∀ p, p ∈ order ↔ is_Some (page_table_ b !! p)).
  { intros p. rewrite Horder, list_elem_of_fmap. split.
    - intros ([q f] & -> & Hqf). apply elem_of_map_to_list in Hqf. by exists f.
    - intros [f Hf]. exists (p, f). split; [done|]. by apply elem_of_map_to_list. }
  destruct (FlushAllPages_all order b HInv) as (b' & Hall & HInv' & Hpt' & Hfl' & Hrep' &
                                               Hnext' & Hframes & Hdisk & Hdisk').
  { intros p Hp. by apply Hin. }
  exists b'. split; [done|]. split; [done|]. do 4 (split; [done|]).
  split; [|split].
  - intros p f Hpf.
    destruct (resident_frame b p f HInv Hpf) as (pg & _ & Hpg & _).
    assert (Hp : p ∈ order) by (apply Hin; eauto).
    exists pg. split; [done|].
    destruct (Hframes f pg Hpg) as (d & Hd & Hfalse & _).
    rewrite (Hfalse p Hp Hpf) in Hd. split; [done|]. by apply (Hdisk p f).
  - intros g pg Hg Hno. destruct (Hframes g pg Hg) as (d & Hd & _ & Hsame).
    rewrite Hsame in Hd by (intros p _; apply Hno). by rewrite Page_eta in Hd.
  - intros p Hp. apply Hdisk'. intros Hx. apply Hin in Hx as [f Hf]. congruence.
Qed.

(** X15.  The life of a page: a page id that [NewPage] has just returned is
    resident and pinned, so [DeletePage] of it returns false and changes
    nothing.  One [UnpinPage] (with any dirty flag) returns true and brings
    the pin count to zero; [DeletePage] then returns true, the page id is no
    longer in the page table and its frame is at the back of the free list,
    in a pool that is still consistent. *)
Theorem a_new_page_is_deleted_only_after_unpin b b1 page_id f is_dirty :
  Inv b → NewPage kdist b = Ok (b1, Some (page_id, f)) →
  DeletePage b1 page_id = Ok (b1, false) ∧
  ∃ b2 b3, UnpinPage b1 page_id is_dirty = Ok (b2, true) ∧
           DeletePage b2 page_id = Ok (b3, true) ∧ Inv b3 ∧
           page_table_ b3 !! page_id = None ∧
           free_list_ b3 = free_list_ b1 ++ [f].
Proof.
  intros HInv Hnp.
  destruct (NewPage_result b b1 page_id f HInv Hnp)
    as (_ & HInv1 & _ & (pg' & Hfr & Hid & Hpin & Hclean) & Hpt & _ & _).
  split.
  { unfold DeletePage. rewrite Hpt, Hfr. cbn [mbind res_bind]. by rewrite Hpin. }
  destruct (UnpinPage_Inv b1 page_id is_dirty HInv1) as (b2 & ok & Hup & HInv2).
  pose proof (frame_range _ _ _ Hfr) as Hr.
  destruct (inv_page_table _ HInv1 page_id f Hpt) as (_ & _ & _ & [n Hn]).
  destruct (SetEvictable_tracked (replacer_ b1) f true n (inv_replacer _ HInv1) Hn)
    as (r2 & Hr2 & _).
  pose proof Hup as Hup0.
  unfold UnpinPage in Hup. rewrite Hpt, Hfr in Hup. cbn [mbind res_bind] in Hup.
  rewrite Hpin in Hup. cbn [Z.leb Z.compare pin_count_ Z.sub Z.add Z.opp Z.pos_sub
                            Z.eqb] in Hup.
  change (replacer_ (set_frame b1 f _)) with (replacer_ b1) in Hup.
  rewrite Hr2 in Hup. cbn [mbind res_bind] in Hup. injection Hup as Hb2 Hok. subst ok.
  assert (Hpt2 : page_table_ b2 !! page_id = Some f) by (by rewrite <- Hb2).
  assert (Hfl2 : free_list_ b2 = free_list_ b1) by (by rewrite <- Hb2).
  assert (Hfr2 : frame b2 f = Ok {| data_ := data_ pg'; page_id_ := page_id_ pg';
                                    pin_count_ := 0;
                                    is_dirty_ := is_dirty || is_dirty_ pg' |}).
  { eapply (frame_insert_eq b1 b2); [by rewrite <- Hb2 | done]. }
  destruct (DeletePage_unpinned b2 page_id f _ HInv2 Hpt2 Hfr2 eq_refl)
    as (r3 & _ & _ & _ & Hdp).
  destruct (DeletePage_Inv b2 page_id HInv2) as (b3 & ok3 & Hdp3 & HInv3).
  rewrite Hdp in Hdp3. injection Hdp3 as Hb3 Hok3.
  exists b2, b3. split; [done|]. split; [rewrite Hdp, <- Hb3; reflexivity|]. split; [done|].
  rewrite <- Hb3. cbn. split; [by rewrite lookup_delete_eq | by rewrite Hfl2].
Qed.

(** X27.  [FetchPage] of a page that is not resident, in a consistent
    pool: with a frame in the free list it takes the front one and the only
    disk call is the read of the page.  With an empty free list and an
    evictable frame it takes the frame the replacer evicts; when that frame
    is dirty its bytes are written to disk under its old page id before the
    requested page is read, and when it is clean nothing is written; the old
    page id is erased from the page table and [DeallocatePage] is called on
    it. *)
Theorem FetchPage_miss_writes_back_a_dirty_victim b page_id :
  Inv b → page_table_ b !! page_id = None →
  (∀ f rest, free_list_ b = f :: rest →
     ∃ b', FetchPage kdist b page_id = Ok (b', Some f) ∧
           free_list_ b' = rest ∧
           page_table_ b' = <[page_id := f]> (page_table_ b) ∧
           disk_ b' = disk_ b ∧
           disk_log_ b' = disk_log_ b ++ [ReadPage page_id])
  ∧
  (free_list_ b = [] → 0 < LRUKReplacer.Size (replacer_ b) →
     ∃ b' r0 f pg,
       LRUKReplacer.Evict (replacer_ b) = Ok (r0, Some f) ∧
       frame b f = Ok pg ∧ pin_count_ pg = 0 ∧
       FetchPage kdist b page_id = Ok (b', Some f) ∧
       free_list_ b' = [] ∧
       page_table_ b' = <[page_id := f]> (delete (page_id_ pg) (page_table_ b)) ∧
       disk_ b' = (if is_dirty_ pg
                   then <[page_id_ pg := data_ pg]> (disk_ b) else disk_ b) ∧
       disk_log_ b' =
         disk_log_ b
         ++ (if is_dirty_ pg then [WritePage (page_id_ pg) (data_ pg)] else [])
         ++ [DiskDeallocatePage (page_id_ pg); ReadPage page_id]).
Proof.
  intros HInv Hmiss. split.
  - intros f rest Hfl.
    assert (Hguard : free_list_ b ≠ [] ∨ 0 < LRUKReplacer.Size (replacer_ b))
      by (left; by rewrite Hfl).
    destruct (select_frame_spec b HInv Hguard)
      as (b1 & f1 & pg1 & Hsel & Hpg1 & Hf & _ & _ & _ & _ & _ & Hwf1 & Hrs1 & _).
    rewrite (select_frame_free b f rest Hfl) in Hsel. injection Hsel as <- <-.
    destruct (RecordAccess_then_pin kdist (replacer_ (set_free_list b rest)) f Hwf1)
      as (r1 & r2 & n & Hr1 & Hr2 & _).
    { rewrite Hrs1. pose proof (inv_pool_range _ HInv). rewrite to_int32_small; lia. }
    eexists. split.
    { apply (FetchPage_after_select kdist b page_id (set_free_list b rest) f pg1 r1 r2);
        [done | by apply select_guard | by apply select_frame_free | done | done | done]. }
    cbn. done.
  - intros Hfl Hsz.
    assert (Hguard : free_list_ b ≠ [] ∨ 0 < LRUKReplacer.Size (replacer_ b)) by (by right).
    destruct (select_frame_evict b HInv Hfl Hsz)
      as (r0 & f & pg & Hev & Hpg & Hpin & _ & _ & _ & Hsel).
    destruct (select_frame_spec b HInv Hguard)
      as (b1 & f1 & pg1 & Hsel1 & Hpg1 & Hf & _ & _ & _ & _ & _ & Hwf1 & Hrs1 & _).
    pose proof Hsel1 as Hsel2. rewrite Hsel in Hsel2. injection Hsel2 as Hb1 <-.
    destruct (RecordAccess_then_pin kdist (replacer_ b1) f Hwf1)
      as (r1 & r2 & n & Hr1 & Hr2 & _).
    { rewrite Hrs1. pose proof (inv_pool_range _ HInv). rewrite to_int32_small; lia. }
    eexists _, r0, f, pg. split; [done|]. split; [done|]. split; [done|]. split.
    { apply (FetchPage_after_select kdist b page_id b1 f pg1 r1 r2);
        [done | by apply select_guard | done | done | done | done]. }
    rewrite <- Hb1. cbn. do 3 (split; [done|]).
    by rewrite <- !app_assoc.
Qed.

End WithKDistance.

Lemma pinned_frames_are_never_reused_witness :
  frame (match NewPage LRUKReplacer.kdist_spec example_mixed_pool with
         | Ok (b', _) => b'
         | Fail _ => example_mixed_pool
         end) 0
  = Ok {| data_ := replicate 8 Byte.x00; page_id_ := 0; pin_count_ := 1;
          is_dirty_ := false |}.
Proof.
  assert (H : Inv example_mixed_pool) by (apply Invb_sound; vm_compute; reflexivity).
  destruct (pinned_frames_are_never_reused LRUKReplacer.kdist_spec example_mixed_pool H)
    as [Hnew _].
  destruct (Hnew (match NewPage LRUKReplacer.kdist_spec example_mixed_pool with
                  | Ok (b', _) => b'
                  | Fail _ => example_mixed_pool
                  end) 3 1) as [_ Hkeep].
  { vm_compute. reflexivity. }
  apply Hkeep.
  - vm_compute. reflexivity.
  - simpl. lia.
Defined.

Lemma FetchPage_resident_pins_the_frame_witness :
  ∃ b', FetchPage LRUKReplacer.kdist_spec example_mixed_pool 0 = Ok (b', Some 0) ∧
        disk_log_ b' = disk_log_ example_mixed_pool.
Proof.
  assert (H : Inv example_mixed_pool) by (apply Invb_sound; vm_compute; reflexivity).
  destruct (FetchPage_resident_pins_the_frame LRUKReplacer.kdist_spec
              example_mixed_pool 0 0
              {| data_ := replicate 8 Byte.x00; page_id_ := 0; pin_count_ := 1;
                 is_dirty_ := false |} H)
    as (b' & Hfp & _ & _ & _ & _ & _ & _ & Hlog & _).
  - vm_compute. reflexivity.
  - vm_compute. reflexivity.
  - simpl. lia.
  - exists b'. split; [exact Hfp | exact Hlog].
Defined.

Lemma FetchPage_miss_loads_the_page_witness :
  ∃ b' out, FetchPage LRUKReplacer.kdist_spec example_mixed_pool 7 = Ok (b', out) ∧
            (out = None ↔ all_pinned example_mixed_pool).
Proof.
  assert (H : Inv example_mixed_pool) by (apply Invb_sound; vm_compute; reflexivity).
  destruct (FetchPage_miss_loads_the_page LRUKReplacer.kdist_spec example_mixed_pool 7 H)
    as (b' & out & Hfp & _ & Hiff & _).
  - vm_compute. reflexivity.
  - exists b', out. split; [exact Hfp | exact Hiff].
Defined.

Lemma FetchPage_then_UnpinPage_restores_the_pool_witness :
  ∃ b1 b2, FetchPage LRUKReplacer.kdist_spec example_mixed_pool 1 = Ok (b1, Some 1) ∧
           UnpinPage b1 1 false = Ok (b2, true) ∧
           pages_ b2 = pages_ example_mixed_pool.
Proof.
  assert (H : Inv example_mixed_pool) by (apply Invb_sound; vm_compute; reflexivity).
  destruct (FetchPage_then_UnpinPage_restores_the_pool LRUKReplacer.kdist_spec
              example_mixed_pool 1 1
              {| data_ := replicate 8 Byte.x00; page_id_ := 1; pin_count_ := 0;
                 is_dirty_ := true |} H)
    as (b1 & b2 & Hfp & Hup & _ & Hpages & _).
  - vm_compute. reflexivity.
  - vm_compute. reflexivity.
  - simpl. lia.
  - exists b1, b2. split; [exact Hfp|]. split; [exact Hup | exact Hpages].
Defined.

Lemma FlushPage_writes_the_frame_to_disk_witness :
  ∃ b', FlushPage example_mixed_pool 1 = Ok (b', true) ∧
        disk_ b' = <[1 := replicate 8 Byte.x00]> (disk_ example_mixed_pool).
Proof.
  destruct (FlushPage_writes_the_frame_to_disk example_mixed_pool 1) as [_ Hres].
  destruct (Hres 1 {| data_ := replicate 8 Byte.x00; page_id_ := 1; pin_count_ := 0;
                      is_dirty_ := true |})
    as (b' & Hfl & Hdisk & _).
  - vm_compute. reflexivity.
  - vm_compute. reflexivity.
  - exists b'. split; [exact Hfl | exact Hdisk].
Defined.

Lemma DeletePage_frees_an_unpinned_page_witness :
  DeletePage example_mixed_pool 0 = Ok (example_mixed_pool, false)
  ∧ ∃ b', DeletePage example_mixed_pool 1 = Ok (b', true) ∧
          free_list_ b' = free_list_ example_mixed_pool ++ [1].
Proof.
  assert (H : Inv example_mixed_pool) by (apply Invb_sound; vm_compute; reflexivity).
  split.
  - destruct (DeletePage_frees_an_unpinned_page example_mixed_pool 0) as [_ Hres].
    destruct (Hres 0 {| data_ := replicate 8 Byte.x00; page_id_ := 0; pin_count_ := 1;
                        is_dirty_ := false |}) as [Hpinned _].
    + vm_compute. reflexivity.
    + vm_compute. reflexivity.
    + apply Hpinned. simpl. lia.
  - destruct (DeletePage_frees_an_unpinned_page example_mixed_pool 1) as [_ Hres].
    destruct (Hres 1 {| data_ := replicate 8 Byte.x00; page_id_ := 1; pin_count_ := 0;
                        is_dirty_ := true |}) as [_ Hunpinned].
    + vm_compute. reflexivity.
    + vm_compute. reflexivity.
    + destruct (Hunpinned H eq_refl) as (b' & Hdp & _ & _ & Hfl & _).
      exists b'. split; [exact Hdp | exact Hfl].
Defined.

Lemma FlushAllPages_cleans_every_resident_page_witness :
  ∃ b', FlushAllPages [0; 1; 2] example_mixed_pool = Ok b' ∧
        page_table_ b' = page_table_ example_mixed_pool.
Proof.
  assert (H : Inv example_mixed_pool) by (apply Invb_sound; vm_compute; reflexivity).
  destruct (FlushAllPages_cleans_every_resident_page [0; 1; 2] example_mixed_pool H)
    as (b' & Hall & _ & Hpt & _).
  - vm_compute. apply (Permutation_rev [0; 1; 2]).
  - exists b'. split; [exact Hall | exact Hpt].
Defined.

Lemma a_new_page_is_deleted_only_after_unpin_witness :
  DeletePage (match NewPage LRUKReplacer.kdist_spec example_mixed_pool with
              | Ok (b', _) => b'
              | Fail _ => example_mixed_pool
              end) 3
  = Ok (match NewPage LRUKReplacer.kdist_spec example_mixed_pool with
        | Ok (b', _) => b'
        | Fail _ => example_mixed_pool
        end, false).
Proof.
  assert (H : Inv example_mixed_pool) by (apply Invb_sound; vm_compute; reflexivity).
  apply (a_new_page_is_deleted_only_after_unpin LRUKReplacer.kdist_spec
           example_mixed_pool _ 3 1 false H).
  vm_compute. reflexivity.
Defined.

Lemma FetchPage_miss_writes_back_a_dirty_victim_witness :
  ∃ b' f pg,
    frame example_mixed_pool f = Ok pg ∧ pin_count_ pg = 0 ∧
    FetchPage LRUKReplacer.kdist_spec example_mixed_pool 7 = Ok (b', Some f) ∧
    disk_ b' = (if is_dirty_ pg
                then <[page_id_ pg := data_ pg]> (disk_ example_mixed_pool)
                else disk_ example_mixed_pool).
Proof.
  assert (H : Inv example_mixed_pool) by (apply Invb_sound; vm_compute; reflexivity).
  destruct (FetchPage_miss_writes_back_a_dirty_victim LRUKReplacer.kdist_spec
              example_mixed_pool 7 H) as [_ Hevict].
  - vm_compute. reflexivity.
  - destruct Hevict as (b' & r0 & f & pg & _ & Hpg & Hpin & Hfp & _ & _ & Hdisk & _).
    + vm_compute. reflexivity.
    + vm_compute. reflexivity.
    + exists b', f, pg. split; [exact Hpg|]. split; [exact Hpin|].
      split; [exact Hfp | exact Hdisk].
Defined.

End BufferPoolManagerProperties.
Module PageArrayFacts.
Import BPlusTreePage.

Lemma range_Ok (array : list MappingType) first last :
  0 ≤ first → first ≤ last → last ≤ Z.of_nat (length array) →
  range array first last
  = Ok (take (Z.to_nat (last - first)) (drop (Z.to_nat first) array)).
Proof.
  intros Hf Hfl Hl. unfold range. destruct (last <=? first) eqn:Hle.
  - apply Z.leb_le in Hle. by replace (last - first) with 0 by lia.
  - apply Z.leb_gt in Hle.
    rewrite (proj2 (Z.ltb_ge first 0)) by lia.
    by rewrite (proj2 (Z.ltb_ge (Z.of_nat (length array)) last)) by lia.
Qed.

Lemma store_at_Ok (array : list MappingType) dest src :
  0 ≤ dest → dest + Z.of_nat (length src) ≤ Z.of_nat (length array) →
  store_at array dest src
  = Ok (take (Z.to_nat dest) array ++ src ++ drop (Z.to_nat dest + length src) array).
Proof.
  intros Hd Hl. unfold store_at. destruct src as [|x src].
  - simpl. by rewrite Nat.add_0_r, take_drop.
  - rewrite (proj2 (Z.ltb_ge dest 0)) by lia.
    by rewrite (proj2 (Z.ltb_ge (Z.of_nat (length array)) _)) by lia.
Qed.

Lemma copy_Ok (from : list MappingType) first last (array : list MappingType) dest :
  0 ≤ first → first ≤ last → last ≤ Z.of_nat (length from) →
  0 ≤ dest → dest + (last - first) ≤ Z.of_nat (length array) →
  copy from first last array dest
  = Ok (take (Z.to_nat dest) array
        ++ take (Z.to_nat (last - first)) (drop (Z.to_nat first) from)
        ++ drop (Z.to_nat dest + Z.to_nat (last - first)) array).
Proof.
  intros Hf Hfl Hl Hd Hdl. unfold copy. rewrite range_Ok by done.
  cbn [mbind res_bind].
  assert (Hlen : length (take (Z.to_nat (last - first)) (drop (Z.to_nat first) from))
                 = Z.to_nat (last - first)).
  { rewrite length_take, length_drop. lia. }
  rewrite store_at_Ok by (rewrite ?Hlen; lia). by rewrite Hlen.
Qed.

(** The lookups of a list whose keys increase, and [StronglySorted]. *)
Lemma increasing_lookup (l : list MappingType) :
  StronglySorted (λ a b : MappingType, a.1 < b.1) l ↔
  ∀ i j x y, (i < j)%nat → l !! i = Some x → l !! j = Some y → x.1 < y.1.
Proof.
  induction l as [|a l IH].
  - split; [|constructor]. intros _ i j x y _ Hi. by rewrite lookup_nil in Hi.
  - rewrite StronglySorted_cons, IH, Forall_forall. split.
    + intros [Ha Hl] i j x y Hij Hi Hj.
      destruct j as [|j]; [lia|]. simpl in Hj.
      destruct i as [|i]; simpl in Hi.
      * injection Hi as <-. apply Ha. by eapply list_elem_of_lookup_2.
      * apply (Hl i j); [lia | done | done].
    + intros H. split.
      * intros y Hy. apply list_elem_of_lookup in Hy as [j Hj].
        by apply (H 0%nat (S j) a y); [lia | |].
      * intros i j x y Hij Hi Hj. by apply (H (S i) (S j)); [lia | |].
Qed.

(** Opening a slot at [n] among the first [s] slots, as [Insert] does, and
    closing the slot [n], as [Delete] does. *)
Lemma insert_shift {T} (A : list T) (n s : nat) (x : T) :
  (n ≤ s)%nat → (s < length A)%nat →
  let a1 := take (n + 1) A ++ take (s - n) (drop n A) ++ drop (n + 1 + (s - n)) A in
  let a := take n a1 ++ [x] ++ drop (n + length [x]) a1 in
  length a = length A ∧
  take (s + 1) a = take n (take s A) ++ x :: drop n (take s A).
Proof.
  intros Hns Hs a1 a.
  assert (Hl1 : length (take (n + 1) A) = (n + 1)%nat) by (rewrite length_take; lia).
  assert (Ht : take n a1 = take n A).
  { unfold a1. rewrite take_app_le by lia. rewrite take_take. f_equal. lia. }
  assert (Hd : drop (n + length [x]) a1
               = take (s - n) (drop n A) ++ drop (n + 1 + (s - n)) A).
  { unfold a1. simpl length. by rewrite drop_app_length'. }
  unfold a. rewrite Ht, Hd. split.
  - rewrite !length_app, !length_take, !length_drop. simpl. lia.
  - rewrite take_take, (take_drop_commute A (s - n) n).
    replace (n `min` s)%nat with n by lia.
    replace (n + (s - n))%nat with s by lia.
    change (x :: drop n (take s A)) with ([x] ++ drop n (take s A)).
    rewrite !(assoc_L (++)).
    apply take_app_length'.
    rewrite !length_app, length_take, length_drop, length_take. simpl. lia.
Qed.

Lemma delete_shift {T} (A : list T) (n s : nat) :
  (n < s)%nat → (s ≤ length A)%nat →
  let a := take n A ++ take (s - (n + 1)) (drop (n + 1) A)
           ++ drop (n + (s - (n + 1))) A in
  length a = length A ∧
  take (s - 1) a = take n (take s A) ++ drop (n + 1) (take s A).
Proof.
  intros Hns Hs a. unfold a. split.
  - rewrite !length_app, !length_take, !length_drop. lia.
  - rewrite take_take, (take_drop_commute A (s - (n + 1)) (n + 1)).
    replace (n `min` s)%nat with n by lia.
    replace (n + 1 + (s - (n + 1)))%nat with s by lia.
    rewrite !(assoc_L (++)).
    apply take_app_length'.
    rewrite !length_app, length_take, length_drop, length_take. lia.
Qed.

Lemma lookup_insert_mid {T} (E : list T) (n : nat) (x : T) (i : nat) :
  (n ≤ length E)%nat →
  (take n E ++ x :: drop n E) !! i
  = if decide (i < n)%nat then E !! i
    else if decide (i = n) then Some x else E !! (i - 1)%nat.
Proof.
  intros Hn.
  assert (Hl : length (take n E) = n) by (rewrite length_take; lia).
  destruct (decide (i < n)%nat) as [Hi | Hi].
  - rewrite lookup_app_l by lia. by apply lookup_take_lt.
  - rewrite lookup_app_r by lia. rewrite Hl.
    destruct (decide (i = n)) as [-> | Hne].
    + by rewrite Nat.sub_diag.
    + destruct (i - n)%nat as [|m] eqn:Hm; [lia|]. simpl.
      rewrite lookup_drop. f_equal. lia.
Qed.

End PageArrayFacts.

Module LeafPageProperties.
Import BPlusTreePage BPlusTreePageFacts PageArrayFacts LeafPage LeafPageFacts.

Lemma sorted_entries pg :
  sorted pg ↔
  0 ≤ size_ pg ≤ Z.of_nat (length (array_ pg)) ∧
  StronglySorted (λ a b : MappingType, a.1 < b.1) (entries pg).
Proof. unfold sorted. by rewrite increasing_lookup. Qed.

Lemma length_entries pg :
  0 ≤ size_ pg ≤ Z.of_nat (length (array_ pg)) →
  length (entries pg) = Z.to_nat (size_ pg).
Proof. intros H. unfold entries. rewrite length_take. lia. Qed.

Lemma elem_of_keys pg key : key ∈ keys pg ↔ ∃ v, (key, v) ∈ entries pg.
Proof.
  unfold keys. rewrite list_elem_of_fmap. split.
  - intros ([k v] & -> & H). by exists v.
  - intros [v H]. by exists (key, v).
Qed.

(** In a sorted leaf a key has one slot. *)
Lemma sorted_slot_unique pg i j (x y : MappingType) :
  sorted pg → (i < Z.to_nat (size_ pg))%nat → (j < Z.to_nat (size_ pg))%nat →
  array_ pg !! i = Some x → array_ pg !! j = Some y → x.1 = y.1 → i = j.
Proof.
  intros [_ Hs] Hi Hj Hx Hy Heq.
  destruct (Nat.lt_trichotomy i j) as [Hlt | [-> | Hlt]]; [|done|].
  - pose proof (Hs i j x y Hlt) as H. rewrite !entries_lookup in H.
    specialize (H (conj Hx Hi) (conj Hy Hj)). lia.
  - pose proof (Hs j i y x Hlt) as H. rewrite !entries_lookup in H.
    specialize (H (conj Hy Hj) (conj Hx Hi)). lia.
Qed.

(** The search of [FindValue] and [Delete] over the slots [[0, size - 1)]
    of a sorted leaf that is not empty: it stops on the slot of the key when
    the key is among the entries. *)
Lemma search_cases pg key :
  sorted pg → 1 ≤ size_ pg →
  ∃ r k v,
    lower_bound (λ lhs, comparator lhs.1 key <? 0) (array_ pg) 0 (size_ pg - 1) = Ok r ∧
    0 ≤ r < size_ pg ∧ at_ (array_ pg) r = Ok (k, v) ∧
    array_ pg !! Z.to_nat r = Some (k, v) ∧
    (k ≠ key → key ∉ keys pg).
Proof.
  intros Hsorted Hsize. pose proof Hsorted as [Hlen _].
  destruct (lower_bound_sorted pg key (size_ pg - 1) Hsorted)
    as (r & Hr & Hrange & Hlt & Hge); [lia|].
  destruct (lookup_lt_is_Some_2 (array_ pg) (Z.to_nat r)) as [[k v] He]; [lia|].
  assert (Hat : at_ (array_ pg) r = Ok (k, v)) by (apply at_Ok; split; [lia | done]).
  exists r, k, v. do 2 (split; [done || lia|]). do 2 (split; [done|]).
  intros Hne. rewrite elem_of_keys. intros [v' Hin].
  destruct (entry_slot pg key v' Hin) as (j & Hj & Hjv).
  destruct (Z_lt_le_dec (Z.of_nat j) r) as [Hjr | Hjr].
  - pose proof (Hlt (Z.of_nat j) (key, v')) as H. rewrite Nat2Z.id in H.
    specialize (H ltac:(lia) Hjv). simpl in H. lia.
  - pose proof (sorted_le pg (Z.to_nat r) j (k, v) (key, v') Hsorted
                  ltac:(lia) Hj He Hjv) as Hle. simpl in Hle.
    destruct (decide (r = size_ pg - 1)) as [Hlast | Hinner].
    + assert (j = Z.to_nat r) as -> by lia.
      pose proof (eq_trans (eq_sym He) Hjv) as [= Hk _]. by subst.
    + pose proof (Hge r (k, v) ltac:(lia) He) as Hge'. simpl in Hge'. lia.
Qed.

(** The outcome of [FindValue] on a sorted leaf that is not empty. *)
Lemma FindValue_cases pg key :
  sorted pg → 1 ≤ size_ pg →
  (∃ i v, FindValue pg key = Ok (Some (v, i)) ∧ 0 ≤ i < size_ pg ∧
          array_ pg !! Z.to_nat i = Some (key, v)) ∨
  (FindValue pg key = Ok None ∧ key ∉ keys pg).
Proof.
  intros Hsorted Hsize.
  destruct (search_cases pg key Hsorted Hsize) as (r & k & v & Hr & Hrange & Hat & He & Hno).
  destruct (decide (k = key)) as [->|Hne].
  - left. exists r, v. split; [|split; [lia | done]].
    unfold FindValue, GetSize. rewrite Hr. cbn [mbind res_bind]. rewrite Hat.
    cbn [mbind res_bind]. simpl. by rewrite comparator_eq, Z.eqb_refl.
  - right. split; [|by apply Hno].
    unfold FindValue, GetSize. rewrite Hr. cbn [mbind res_bind]. rewrite Hat.
    cbn [mbind res_bind]. simpl. rewrite comparator_eq.
    by rewrite (proj2 (Z.eqb_neq key k)).
Qed.

Lemma entries_elem_of pg i (x : MappingType) :
  0 ≤ i < size_ pg → array_ pg !! Z.to_nat i = Some x → x ∈ entries pg.
Proof.
  intros Hi Hx. apply list_elem_of_lookup. exists (Z.to_nat i).
  apply entries_lookup. split; [done | lia].
Qed.

(** [Insert] of a key that the leaf does not hold: the slot [r] found by
    the search is opened and receives the entry. *)
Lemma Insert_new pg key value :
  sorted pg → size_ pg < Z.of_nat (length (array_ pg)) → key ∉ keys pg →
  ∃ r a,
    Insert pg key value = Ok (IncreaseSize (set_array pg a) 1, true) ∧
    0 ≤ r ≤ size_ pg ∧ length a = length (array_ pg) ∧
    entries (IncreaseSize (set_array pg a) 1)
      = take (Z.to_nat r) (entries pg) ++ (key, value) :: drop (Z.to_nat r) (entries pg) ∧
    (∀ x, x ∈ take (Z.to_nat r) (entries pg) → x.1 < key) ∧
    (∀ x, x ∈ drop (Z.to_nat r) (entries pg) → key < x.1).
Proof.
  intros Hsorted Hroom Hnew. pose proof Hsorted as [Hlen _].
  destruct (lower_bound_sorted pg key (size_ pg) Hsorted) as (r & Hr & Hrange & Hlt & Hge);
    [lia|].
  assert (Hdup : (if r <? size_ pg
                  then e ← at_ (array_ pg) r; Ok (comparator key e.1 =? 0)
                  else Ok false) = Ok false).
  { destruct (r <? size_ pg) eqn:Hrs; [|done]. apply Z.ltb_lt in Hrs.
    destruct (lookup_lt_is_Some_2 (array_ pg) (Z.to_nat r)) as [[k v] He]; [lia|].
    rewrite (proj2 (at_Ok (array_ pg) r (k, v))) by (split; [lia | done]).
    cbn [mbind res_bind]. simpl. rewrite comparator_eq.
    destruct (key =? k) eqn:Hk; [|done]. apply Z.eqb_eq in Hk as <-.
    destruct Hnew. apply elem_of_keys. exists v.
    by apply (entries_elem_of pg r); [lia|]. }
  destruct (insert_shift (array_ pg) (Z.to_nat r) (Z.to_nat (size_ pg)) (key, value))
    as [Hla Htake]; [lia | lia |].
  eexists r, _. split; [|split; [done|split; [exact Hla|split; [|split]]]].
  - unfold Insert, GetSize. rewrite Hr. cbn [mbind res_bind]. rewrite Hdup.
    cbn [mbind res_bind].
    replace (size_ pg + 1 - (size_ pg - r)) with (r + 1) by lia.
    rewrite copy_Ok by lia. cbn [mbind res_bind].
    rewrite store_at_Ok.
    + cbn [mbind res_bind].
      replace (Z.to_nat (r + 1)) with (Z.to_nat r + 1)%nat by lia.
      replace (Z.to_nat (size_ pg - r)) with (Z.to_nat (size_ pg) - Z.to_nat r)%nat by lia.
      reflexivity.
    + lia.
    + rewrite !length_app, !length_take, !length_drop. simpl. lia.
  - unfold entries at 1. cbn [size_ array_ IncreaseSize SetSize set_array].
    replace (Z.to_nat (size_ pg + 1)) with (Z.to_nat (size_ pg) + 1)%nat by lia.
    exact Htake.
  - intros x Hx. apply list_elem_of_lookup in Hx as [i Hi].
    apply lookup_take_Some in Hi as [Hi Hir].
    apply entries_lookup in Hi as [Hi _].
    apply (Hlt (Z.of_nat i) x); [lia | by rewrite Nat2Z.id].
  - intros x Hx. apply list_elem_of_lookup in Hx as [i Hi].
    rewrite lookup_drop in Hi. apply entries_lookup in Hi as [Hi His].
    pose proof (Hge (Z.of_nat (Z.to_nat r + i)) x) as Hle.
    rewrite Nat2Z.id in Hle. specialize (Hle ltac:(lia) Hi).
    destruct (decide (key = x.1)) as [Heq|]; [|lia].
    destruct Hnew. apply elem_of_keys. exists x.2.
    apply (entries_elem_of pg (Z.of_nat (Z.to_nat r + i))); [lia|].
    rewrite Nat2Z.id, Hi. by destruct x; simpl in *; subst.
Qed.

Lemma Insert_new_sorted pg key value r a :
  sorted pg → size_ pg < Z.of_nat (length (array_ pg)) →
  length a = length (array_ pg) →
  entries (IncreaseSize (set_array pg a) 1)
    = take (Z.to_nat r) (entries pg) ++ (key, value) :: drop (Z.to_nat r) (entries pg) →
  (∀ x, x ∈ take (Z.to_nat r) (entries pg) → x.1 < key) →
  (∀ x, x ∈ drop (Z.to_nat r) (entries pg) → key < x.1) →
  sorted (IncreaseSize (set_array pg a) 1).
Proof.
  intros Hsorted Hroom Hla He Hlt Hgt.
  apply sorted_entries in Hsorted as [Hlen Hss].
  apply sorted_entries. split; [simpl; lia|]. rewrite He.
  rewrite <- (take_drop (Z.to_nat r) (entries pg)) in Hss.
  apply StronglySorted_app in Hss as (Hcross & Hs1 & Hs2).
  apply StronglySorted_app. split; [|split; [done|]].
  - intros x1 x2 Hx1 Hx2. apply elem_of_cons in Hx2 as [->|Hx2].
    + simpl. by apply Hlt.
    + by apply Hcross.
  - apply StronglySorted_cons. split; [|done].
    apply Forall_forall. intros x Hx. simpl. by apply Hgt.
Qed.

(** [Delete] of an entry of the leaf: the slot of the key is closed. *)
Lemma Delete_present pg key value :
  sorted pg → (key, value) ∈ entries pg →
  ∃ r a,
    Delete pg key value = Ok (IncreaseSize (set_array pg a) (-1), true) ∧
    0 ≤ r < size_ pg ∧ length a = length (array_ pg) ∧
    entries pg !! Z.to_nat r = Some (key, value) ∧
    entries (IncreaseSize (set_array pg a) (-1))
      = take (Z.to_nat r) (entries pg) ++ drop (Z.to_nat r + 1) (entries pg).
Proof.
  intros Hsorted Hin. pose proof Hsorted as [Hlen _].
  destruct (entry_slot pg key value Hin) as (j & Hj & Hjv).
  destruct (search_cases pg key Hsorted) as (r & k & v & Hr & Hrange & Hat & He & Hno);
    [lia|].
  assert (k = key) as ->.
  { destruct (decide (k = key)) as [|Hne]; [done|].
    destruct (Hno Hne). apply elem_of_keys. by exists value. }
  assert (Z.to_nat r = j) as Hrj.
  { by apply (sorted_slot_unique pg _ _ (key, v) (key, value)); [| lia | | | |]. }
  assert (v = value) as ->.
  { rewrite Hrj in He. pose proof (eq_trans (eq_sym He) Hjv) as [= ->]. done. }
  destruct (delete_shift (array_ pg) (Z.to_nat r) (Z.to_nat (size_ pg)))
    as [Hla Htake]; [lia | lia |].
  eexists r, _. split; [|split; [done|split; [exact Hla|split]]].
  - unfold Delete, GetSize. rewrite (proj2 (Z.eqb_neq (size_ pg) 0)) by lia.
    rewrite Hr. cbn [mbind res_bind]. rewrite Hat. cbn [mbind res_bind]. simpl fst.
    simpl snd. rewrite comparator_eq, !Z.eqb_refl. cbn [andb].
    rewrite copy_Ok by lia. cbn [mbind res_bind].
    replace (Z.to_nat (r + 1)) with (Z.to_nat r + 1)%nat by lia.
    replace (Z.to_nat (size_ pg - (r + 1)))
      with (Z.to_nat (size_ pg) - (Z.to_nat r + 1))%nat by lia.
    reflexivity.
  - apply entries_lookup. split; [done | lia].
  - unfold entries at 1. cbn [size_ array_ IncreaseSize SetSize set_array].
    replace (Z.to_nat (size_ pg + -1)) with (Z.to_nat (size_ pg) - 1)%nat by lia.
    exact Htake.
Qed.

(** [Delete] of what the leaf does not hold (another key, or the key with
    another value) changes nothing. *)
Lemma Delete_absent pg key value :
  sorted pg → (key, value) ∉ entries pg → Delete pg key value = Ok (pg, false).
Proof.
  intros Hsorted Hnot. unfold Delete, GetSize.
  destruct (size_ pg =? 0) eqn:Hz; [done|]. apply Z.eqb_neq in Hz.
  pose proof Hsorted as [Hlen _].
  destruct (search_cases pg key Hsorted) as (r & k & v & Hr & Hrange & Hat & He & Hno);
    [lia|].
  rewrite Hr. cbn [mbind res_bind]. rewrite Hat. cbn [mbind res_bind]. simpl fst.
  simpl snd. rewrite comparator_eq.
  destruct (key =? k) eqn:Hk; [|done]. apply Z.eqb_eq in Hk as <-.
  destruct (value =? v) eqn:Hv; [|done]. apply Z.eqb_eq in Hv as <-.
  destruct Hnot. by apply (entries_elem_of pg r).
Qed.

Lemma Delete_present_sorted pg key value r a :
  sorted pg → 0 ≤ r < size_ pg → length a = length (array_ pg) →
  entries pg !! Z.to_nat r = Some (key, value) →
  entries (IncreaseSize (set_array pg a) (-1))
    = take (Z.to_nat r) (entries pg) ++ drop (Z.to_nat r + 1) (entries pg) →
  sorted (IncreaseSize (set_array pg a) (-1)) ∧
  ∀ e, e ∈ entries (IncreaseSize (set_array pg a) (-1)) ↔ e ∈ entries pg ∧ e.1 ≠ key.
Proof.
  intros Hsorted Hr Hla Hat He.
  apply sorted_entries in Hsorted as [Hlen Hss].
  rewrite sorted_entries, He.
  pose proof (take_drop_middle _ _ _ Hat) as Hmid.
  replace (S (Z.to_nat r)) with (Z.to_nat r + 1)%nat in Hmid by lia.
  rewrite <- Hmid in Hss.
  apply StronglySorted_app in Hss as (Hcross & Hs1 & Hs2).
  apply StronglySorted_cons in Hs2 as [Hall Hs2].
  rewrite Forall_forall in Hall.
  split; [split; [simpl; lia|]|].
  - apply StronglySorted_app. split; [|done].
    intros x1 x2 Hx1 Hx2. apply Hcross; [done | by right].
  - intros e.
    assert (HE : e ∈ entries pg ↔
                 e ∈ take (Z.to_nat r) (entries pg) ∨ e = (key, value)
                 ∨ e ∈ drop (Z.to_nat r + 1) (entries pg)).
    { rewrite <- Hmid at 1. by rewrite elem_of_app, elem_of_cons. }
    rewrite HE, elem_of_app. split.
    + intros [H1 | H2].
      * split; [by left|]. specialize (Hcross e (key, value) H1 ltac:(left)).
        simpl in Hcross. lia.
      * split; [by right; right|]. specialize (Hall e H2). simpl in Hall. lia.
    + intros [[H1 | [-> | H2]] Hne]; [by left | done | by right].
Qed.

(** X16.  On a sorted leaf that holds at least one entry, [FindValue]
    returns the value and the slot of the key when the key is among the
    entries in use, and reports the key missing exactly when it is not among
    them; the slots beyond [size] are never reported. *)
Theorem FindValue_finds_exactly_the_entries pg key :
  sorted pg → 1 ≤ size_ pg →
  ∃ out, FindValue pg key = Ok out ∧
         (out = None ↔ key ∉ keys pg) ∧
         (∀ v i, out = Some (v, i) ↔
                 0 ≤ i < size_ pg ∧ array_ pg !! Z.to_nat i = Some (key, v)).
Proof.
  intros Hsorted Hsize.
  destruct (FindValue_cases pg key Hsorted Hsize)
    as [(i & v & Hfv & Hi & Hiv) | [Hfv Hnot]].
  - exists (Some (v, i)). split; [done|]. split.
    + split; [done|]. intros Hnot. exfalso. apply Hnot, elem_of_keys.
      exists v. apply list_elem_of_lookup. exists (Z.to_nat i).
      apply entries_lookup. split; [done | lia].
    + intros v' i'. split.
      * by intros [= <- <-].
      * intros [Hi' Hiv'].
        assert (Z.to_nat i' = Z.to_nat i) as Heq.
        { by apply (sorted_slot_unique pg _ _ (key, v') (key, v));
            [| lia | lia | | |]. }
        assert (i' = i) as -> by lia.
        pose proof (eq_trans (eq_sym Hiv) Hiv') as [= ->]. done.
  - exists None. split; [done|]. split; [done|].
    intros v i. split; [done|]. intros [Hi Hiv]. exfalso. apply Hnot, elem_of_keys.
    exists v. apply list_elem_of_lookup. exists (Z.to_nat i).
    apply entries_lookup. split; [done | lia].
Qed.

Lemma FindValue_finds_exactly_the_entries_witness :
  let pg := {| size_ := 3; max_size_ := 4; parent_page_id_ := 3; next_page_id_ := -1;
               array_ := [(3, 30); (4, 40); (5, 50); (7, 70)] |} in
  ∃ out, FindValue pg 7 = Ok out ∧
         (out = None ↔ 7 ∉ keys pg) ∧
         (∀ v i, out = Some (v, i) ↔
                 0 ≤ i < size_ pg ∧ array_ pg !! Z.to_nat i = Some (7, v)).
Proof.
  intros pg. apply (FindValue_finds_exactly_the_entries pg 7).
  - apply sortedb_sound. vm_compute. reflexivity.
  - simpl. lia.
Defined.

(** X17.  [Insert] on a sorted leaf whose array has a free slot returns
    false exactly when the key is already among the entries, and then leaves
    the page as it is.  Otherwise it returns true: the size grows by one, the
    entries are the old ones and the new one, still in increasing key order,
    the header fields are unchanged, and [FindValue] finds the new key with
    its value. *)
Theorem Insert_keeps_the_leaf_sorted pg key value :
  sorted pg → size_ pg < Z.of_nat (length (array_ pg)) →
  ∃ pg' ok, Insert pg key value = Ok (pg', ok) ∧
    (ok = false ↔ key ∈ keys pg) ∧
    (ok = false → pg' = pg) ∧
    (ok = true →
       sorted pg' ∧ size_ pg' = size_ pg + 1 ∧
       (∀ e, e ∈ entries pg' ↔ e = (key, value) ∨ e ∈ entries pg) ∧
       max_size_ pg' = max_size_ pg ∧ parent_page_id_ pg' = parent_page_id_ pg ∧
       next_page_id_ pg' = next_page_id_ pg ∧
       length (array_ pg') = length (array_ pg) ∧
       ∃ i, FindValue pg' key = Ok (Some (value, i))).
Proof.
  intros Hsorted Hroom.
  destruct (decide (key ∈ keys pg)) as [Hin | Hnew].
  - pose proof Hin as Hin'. apply elem_of_keys in Hin' as [v Hv].
    exists pg, false. split; [by eapply Insert_duplicate|].
    split; [done|]. split; [done | by intros [=]].
  - destruct (Insert_new pg key value Hsorted Hroom Hnew)
      as (r & a & Hins & Hr & Hla & He & Hlt & Hgt).
    pose proof (Insert_new_sorted pg key value r a Hsorted Hroom Hla He Hlt Hgt) as Hs'.
    eexists _, true. split; [exact Hins|].
    split; [split; [by intros [=] | done]|]. split; [by intros [=]|]. intros _.
    assert (Hmem : ∀ e, e ∈ entries (IncreaseSize (set_array pg a) 1)
                        ↔ e = (key, value) ∨ e ∈ entries pg).
    { intros e. rewrite He, elem_of_app, elem_of_cons.
      rewrite <- (take_drop (Z.to_nat r) (entries pg)) at 3.
      rewrite elem_of_app. tauto. }
    split; [done|]. split; [done|]. split; [done|]. do 4 (split; [done|]).
    destruct (FindValue_found _ key value Hs') as (i & Hfv & _).
    { apply Hmem. by left. }
    by exists i.
Qed.

Lemma Insert_keeps_the_leaf_sorted_witness :
  let pg := {| size_ := 2; max_size_ := 4; parent_page_id_ := 3; next_page_id_ := -1;
               array_ := [(3, 30); (5, 50); (9, 90); (0, 0)] |} in
  ∃ pg' ok, Insert pg 4 40 = Ok (pg', ok) ∧
    (ok = false ↔ 4 ∈ keys pg) ∧
    (ok = false → pg' = pg) ∧
    (ok = true →
       sorted pg' ∧ size_ pg' = size_ pg + 1 ∧
       (∀ e, e ∈ entries pg' ↔ e = (4, 40) ∨ e ∈ entries pg) ∧
       max_size_ pg' = max_size_ pg ∧ parent_page_id_ pg' = parent_page_id_ pg ∧
       next_page_id_ pg' = next_page_id_ pg ∧
       length (array_ pg') = length (array_ pg) ∧
       ∃ i, FindValue pg' 4 = Ok (Some (40, i))).
Proof.
  intros pg. apply (Insert_keeps_the_leaf_sorted pg 4 40).
  - apply sortedb_sound. vm_compute. reflexivity.
  - simpl. lia.
Defined.

(** X18.  [Delete] on a sorted leaf returns true exactly when the pair of
    the key and the value is among the entries; otherwise (another key, the
    key with another value, an empty leaf) it returns false and leaves the
    page as it is.  When it returns true the size drops by one, the entries
    are the old ones without that of the key, still in increasing key order,
    the header fields are unchanged, and, when an entry is left, [FindValue]
    no longer finds the key. *)
Theorem Delete_removes_exactly_the_entry pg key value :
  sorted pg →
  ∃ pg' ok, Delete pg key value = Ok (pg', ok) ∧
    (ok = true ↔ (key, value) ∈ entries pg) ∧
    (ok = false → pg' = pg) ∧
    (ok = true →
       sorted pg' ∧ size_ pg' = size_ pg - 1 ∧
       (∀ e, e ∈ entries pg' ↔ e ∈ entries pg ∧ e.1 ≠ key) ∧
       max_size_ pg' = max_size_ pg ∧ parent_page_id_ pg' = parent_page_id_ pg ∧
       next_page_id_ pg' = next_page_id_ pg ∧
       length (array_ pg') = length (array_ pg) ∧
       (2 ≤ size_ pg → FindValue pg' key = Ok None)).
Proof.
  intros Hsorted.
  destruct (decide ((key, value) ∈ entries pg)) as [Hin | Hnot].
  - destruct (Delete_present pg key value Hsorted Hin)
      as (r & a & Hdel & Hr & Hla & Hat & He).
    destruct (Delete_present_sorted pg key value r a Hsorted Hr Hla Hat He)
      as [Hs' Hmem].
    eexists _, true. split; [exact Hdel|]. split; [done|]. split; [by intros [=]|].
    intros _. split; [done|]. split; [simpl; lia|]. split; [done|].
    do 4 (split; [done|]). intros Hsize.
    destruct (FindValue_cases _ key Hs') as [(i & v & _ & Hi & Hiv) | [Hfv _]];
      [simpl; lia | | done].
    apply entries_elem_of in Hiv; [|done]. apply Hmem in Hiv as [_ Hne]. done.
  - exists pg, false. split; [by apply Delete_absent|].
    split; [split; [by intros [=] | done]|]. split; [done | by intros [=]].
Qed.

Lemma Delete_removes_exactly_the_entry_witness :
  let pg := {| size_ := 3; max_size_ := 4; parent_page_id_ := 3; next_page_id_ := -1;
               array_ := [(3, 30); (4, 40); (5, 50); (0, 0)] |} in
  ∃ pg' ok, Delete pg 4 40 = Ok (pg', ok) ∧
    (ok = true ↔ (4, 40) ∈ entries pg) ∧
    (ok = false → pg' = pg) ∧
    (ok = true →
       sorted pg' ∧ size_ pg' = size_ pg - 1 ∧
       (∀ e, e ∈ entries pg' ↔ e ∈ entries pg ∧ e.1 ≠ 4) ∧
       max_size_ pg' = max_size_ pg ∧ parent_page_id_ pg' = parent_page_id_ pg ∧
       next_page_id_ pg' = next_page_id_ pg ∧
       length (array_ pg') = length (array_ pg) ∧
       (2 ≤ size_ pg → FindValue pg' 4 = Ok None)).
Proof.
  intros pg. apply (Delete_removes_exactly_the_entry pg 4 40).
  apply sortedb_sound. vm_compute. reflexivity.
Defined.

End LeafPageProperties.
Module InternalPageProperties.
Import BPlusTreePage BPlusTreePageFacts PageArrayFacts InternalPage InternalPageFacts.

Lemma internal_entries_lookup pg i (x : MappingType) :
  entries pg !! i = Some x ↔ array_ pg !! i = Some x ∧ (i < Z.to_nat (size_ pg))%nat.
Proof. unfold entries. apply lookup_take_Some. Qed.

Lemma routing_sorted_entries pg :
  routing_sorted pg ↔
  StronglySorted (λ a b : MappingType, a.1 < b.1) (drop 1 (entries pg)).
Proof.
  rewrite increasing_lookup. split.
  - intros H i j x y Hij Hi Hj. rewrite lookup_drop, internal_entries_lookup in Hi, Hj.
    destruct Hi as [Hi Hil], Hj as [Hj Hjl].
    apply (H (Z.of_nat (1 + i)) (Z.of_nat (1 + j)) x y); rewrite ?Nat2Z.id; (done || lia).
  - intros H i j x y Hi Hij Hj Hx Hy.
    apply (H (Z.to_nat i - 1)%nat (Z.to_nat j - 1)%nat x y); [lia | |].
    + rewrite lookup_drop, internal_entries_lookup.
      replace (1 + (Z.to_nat i - 1))%nat with (Z.to_nat i) by lia. split; [done | lia].
    + rewrite lookup_drop, internal_entries_lookup.
      replace (1 + (Z.to_nat j - 1))%nat with (Z.to_nat j) by lia. split; [done | lia].
Qed.

(** X19.  [FindValue] on an internal page whose routing keys increase, for
    a search key that is not below the key held in slot 0: it returns the
    child of the last slot whose key is not above the search key, together
    with that slot, so every later slot has a greater key. *)
Theorem FindValue_routes_to_the_last_slot_not_above pg key (e0 : MappingType) :
  1 ≤ size_ pg ≤ Z.of_nat (length (array_ pg)) →
  routing_sorted pg →
  array_ pg !! 0%nat = Some e0 → e0.1 ≤ key →
  ∃ i e, FindValue pg key = Ok (e.2, i) ∧ 0 ≤ i < size_ pg ∧
         array_ pg !! Z.to_nat i = Some e ∧ e.1 ≤ key ∧
         (∀ j x, i < j < size_ pg → array_ pg !! Z.to_nat j = Some x → key < x.1).
Proof. apply FindValue_above_placeholder. Qed.

Lemma FindValue_routes_to_the_last_slot_not_above_witness :
  let pg := {| size_ := 3; max_size_ := 5; parent_page_id_ := INVALID_PAGE_ID;
               array_ := [(0, 1); (3, 2); (7, 4); (0, 0)] |} in
  ∃ i e, FindValue pg 5 = Ok (e.2, i) ∧ 0 ≤ i < size_ pg ∧
         array_ pg !! Z.to_nat i = Some e ∧ e.1 ≤ 5 ∧
         (∀ j x, i < j < size_ pg → array_ pg !! Z.to_nat j = Some x → 5 < x.1).
Proof.
  intros pg. apply (FindValue_routes_to_the_last_slot_not_above pg 5 (0, 1)).
  - simpl. lia.
  - apply routing_sorted_entries. vm_compute.
    repeat (constructor; [|repeat constructor; lia]). constructor.
  - reflexivity.
  - simpl. lia.
Defined.

(** [Insert] of a separator that is not below the key of slot 0 and differs
    from the routing keys: the slot [r >= 1] found by the search over the
    slots from 1 on is opened and receives the entry. *)
Lemma Insert_separator pg key value (e0 : MappingType) :
  1 ≤ size_ pg → size_ pg < Z.of_nat (length (array_ pg)) →
  routing_sorted pg →
  array_ pg !! 0%nat = Some e0 → e0.1 ≤ key →
  (∀ i x, 1 ≤ i < size_ pg → array_ pg !! Z.to_nat i = Some x → x.1 ≠ key) →
  ∃ r a,
    Insert pg key value
    = Ok {| size_ := size_ pg + 1; max_size_ := max_size_ pg;
            parent_page_id_ := parent_page_id_ pg; array_ := a |} ∧
    1 ≤ r ≤ size_ pg ∧ length a = length (array_ pg) ∧
    take (Z.to_nat (size_ pg + 1)) a
      = take (Z.to_nat r) (entries pg) ++ (key, value) :: drop (Z.to_nat r) (entries pg) ∧
    (∀ i x, 1 ≤ i < r → array_ pg !! Z.to_nat i = Some x → x.1 < key) ∧
    (∀ i x, r ≤ i < size_ pg → array_ pg !! Z.to_nat i = Some x → key < x.1).
Proof.
  intros Hsize Hroom Hsorted H0 Hle Hnew.
  destruct (lower_bound_spec (λ lhs, comparator lhs.1 key <? 0) (array_ pg) 1 (size_ pg))
    as (r & Hr & Hrange & Htrue & Hfalse); [lia | lia | lia | |].
  { intros i j x y Hi Hij Hj Hx Hy Hcy.
    rewrite comparator_lt in *. apply Z.ltb_lt. apply Z.ltb_lt in Hcy.
    destruct (decide (i = j)) as [->|Hne]; [congruence|].
    pose proof (Hsorted (Z.of_nat i) (Z.of_nat j) x y) as Hs.
    rewrite !Nat2Z.id in Hs. specialize (Hs ltac:(lia) ltac:(lia) ltac:(lia) Hx Hy).
    lia. }
  destruct (insert_shift (array_ pg) (Z.to_nat r) (Z.to_nat (size_ pg)) (key, value))
    as [Hla Htake]; [lia | lia |].
  eexists r, _. split; [|split; [done|split; [exact Hla|split; [|split]]]].
  - unfold Insert, GetSize.
    rewrite (proj2 (at_Ok (array_ pg) 0 e0)) by (split; [lia | done]).
    cbn [mbind res_bind]. rewrite comparator_lt.
    rewrite (proj2 (Z.ltb_ge key e0.1)) by lia.
    rewrite Hr. cbn [mbind res_bind].
    rewrite copy_Ok by lia. cbn [mbind res_bind].
    cbn [array_ IncreaseSize SetSize set_array size_ max_size_ parent_page_id_].
    rewrite store_at_Ok.
    + cbn [mbind res_bind].
      replace (Z.to_nat (r + 1)) with (Z.to_nat r + 1)%nat by lia.
      replace (Z.to_nat (size_ pg - r)) with (Z.to_nat (size_ pg) - Z.to_nat r)%nat by lia.
      reflexivity.
    + lia.
    + rewrite !length_app, !length_take, !length_drop. simpl. lia.
  - replace (Z.to_nat (size_ pg + 1)) with (Z.to_nat (size_ pg) + 1)%nat by lia.
    exact Htake.
  - intros i x Hi Hx. specialize (Htrue i x Hi Hx). simpl in Htrue.
    rewrite comparator_lt in Htrue. by apply Z.ltb_lt.
  - intros i x Hi Hx. specialize (Hfalse i x Hi Hx). simpl in Hfalse.
    rewrite comparator_lt in Hfalse. apply Z.ltb_ge in Hfalse.
    specialize (Hnew i x ltac:(lia) Hx). lia.
Qed.

(** The page [Insert] returns for such a separator, slot by slot. *)
Lemma Insert_separator_spec pg key value (e0 : MappingType) :
  1 ≤ size_ pg → size_ pg < Z.of_nat (length (array_ pg)) →
  routing_sorted pg →
  array_ pg !! 0%nat = Some e0 → e0.1 ≤ key →
  (∀ i x, 1 ≤ i < size_ pg → array_ pg !! Z.to_nat i = Some x → x.1 ≠ key) →
  ∃ r pg', Insert pg key value = Ok pg' ∧ 1 ≤ r ≤ size_ pg ∧
    size_ pg' = size_ pg + 1 ∧
    max_size_ pg' = max_size_ pg ∧ parent_page_id_ pg' = parent_page_id_ pg ∧
    length (array_ pg') = length (array_ pg) ∧
    (∀ i, entries pg' !! i
          = if decide (i < Z.to_nat r)%nat then entries pg !! i
            else if decide (i = Z.to_nat r) then Some (key, value)
            else entries pg !! (i - 1)%nat) ∧
    (∀ e, e ∈ entries pg' ↔ e = (key, value) ∨ e ∈ entries pg) ∧
    routing_sorted pg' ∧
    array_ pg' !! 0%nat = Some e0 ∧
    array_ pg' !! Z.to_nat r = Some (key, value) ∧
    (∀ i x, 1 ≤ i < r → array_ pg !! Z.to_nat i = Some x → x.1 < key) ∧
    (∀ i x, r ≤ i < size_ pg → array_ pg !! Z.to_nat i = Some x → key < x.1).
Proof.
  intros Hsize Hroom Hsorted H0 Hle Hnew.
  destruct (Insert_separator pg key value e0 Hsize Hroom Hsorted H0 Hle Hnew)
    as (r & a & Hins & Hr & Hla & He & Hlt & Hgt).
  set (pg' := {| size_ := size_ pg + 1; max_size_ := max_size_ pg;
                 parent_page_id_ := parent_page_id_ pg; array_ := a |}) in *.
  assert (He' : entries pg' = take (Z.to_nat r) (entries pg)
                              ++ (key, value) :: drop (Z.to_nat r) (entries pg)) by exact He.
  assert (Hlen : length (entries pg) = Z.to_nat (size_ pg)).
  { unfold entries. rewrite length_take. lia. }
  assert (Hslot : ∀ i, entries pg' !! i
                       = if decide (i < Z.to_nat r)%nat then entries pg !! i
                         else if decide (i = Z.to_nat r) then Some (key, value)
                         else entries pg !! (i - 1)%nat).
  { intros i. rewrite He'. apply lookup_insert_mid.
    unfold entries. rewrite length_take. unfold MappingType in *. lia. }
  assert (H0' : array_ pg' !! 0%nat = Some e0).
  { assert (entries pg' !! 0%nat = Some e0) as H.
    { rewrite Hslot. rewrite decide_True by lia.
      apply internal_entries_lookup. split; [done | lia]. }
    by apply internal_entries_lookup in H as [H _]. }
  assert (Hs' : routing_sorted pg').
  { intros i j x y Hi Hij Hj Hx Hy. cbn [size_ pg'] in Hj.
    assert (Hxi : entries pg' !! Z.to_nat i = Some x)
      by (apply internal_entries_lookup; split; [done | cbn [size_ pg']; lia]).
    assert (Hyj : entries pg' !! Z.to_nat j = Some y)
      by (apply internal_entries_lookup; split; [done | cbn [size_ pg']; lia]).
    rewrite Hslot in Hxi, Hyj.
    destruct (decide (Z.to_nat i < Z.to_nat r)%nat) as [Hi1 | Hi1];
      [|destruct (decide (Z.to_nat i = Z.to_nat r)) as [Hi2 | Hi2]];
      (destruct (decide (Z.to_nat j < Z.to_nat r)%nat) as [Hj1 | Hj1];
       [|destruct (decide (Z.to_nat j = Z.to_nat r)) as [Hj2 | Hj2]]);
      try lia.
    - apply internal_entries_lookup in Hxi as [Hxi _]. apply internal_entries_lookup in Hyj as [Hyj _].
      apply (Hsorted i j x y); (done || lia).
    - apply internal_entries_lookup in Hxi as [Hxi _]. injection Hyj as <-. simpl.
      apply (Hlt i x); [lia | done].
    - apply internal_entries_lookup in Hxi as [Hxi _]. apply internal_entries_lookup in Hyj as [Hyj _].
      apply (Hsorted i (j - 1) x y); try lia; [done|].
      by replace (Z.to_nat (j - 1)) with (Z.to_nat j - 1)%nat by lia.
    - injection Hxi as <-. apply internal_entries_lookup in Hyj as [Hyj _]. simpl.
      apply (Hgt (j - 1) y); [lia|].
      by replace (Z.to_nat (j - 1)) with (Z.to_nat j - 1)%nat by lia.
    - apply internal_entries_lookup in Hxi as [Hxi _]. apply internal_entries_lookup in Hyj as [Hyj _].
      apply (Hsorted (i - 1) (j - 1) x y); try lia.
      + by replace (Z.to_nat (i - 1)) with (Z.to_nat i - 1)%nat by lia.
      + by replace (Z.to_nat (j - 1)) with (Z.to_nat j - 1)%nat by lia. }
  assert (Hmem : ∀ e, e ∈ entries pg' ↔ e = (key, value) ∨ e ∈ entries pg).
  { intros e. rewrite He', elem_of_app, elem_of_cons.
    rewrite <- (take_drop (Z.to_nat r) (entries pg)) at 3.
    rewrite elem_of_app. tauto. }
  assert (Hat : array_ pg' !! Z.to_nat r = Some (key, value)).
  { assert (entries pg' !! Z.to_nat r = Some (key, value)) as H.
    { rewrite Hslot, decide_False, decide_True by lia. done. }
    by apply internal_entries_lookup in H as [H _]. }
  exists r, pg'. split; [exact Hins|]. by repeat (split; [done|]).
Qed.

(** X20.  [Insert] of a separator into an internal page that has a free
    slot and increasing routing keys, the key being not below the key of
    slot 0 and different from the routing keys: the size grows by one, slot 0
    is untouched, the routing keys still increase, the entries are the old
    ones and the new one, the header fields are unchanged, and [FindValue]
    of the key now returns the new child. *)
Theorem Insert_adds_a_separator pg key value (e0 : MappingType) :
  1 ≤ size_ pg → size_ pg < Z.of_nat (length (array_ pg)) →
  routing_sorted pg →
  array_ pg !! 0%nat = Some e0 → e0.1 ≤ key →
  (∀ i x, 1 ≤ i < size_ pg → array_ pg !! Z.to_nat i = Some x → x.1 ≠ key) →
  ∃ pg', Insert pg key value = Ok pg' ∧
    size_ pg' = size_ pg + 1 ∧ routing_sorted pg' ∧
    array_ pg' !! 0%nat = Some e0 ∧
    (∀ e, e ∈ entries pg' ↔ e = (key, value) ∨ e ∈ entries pg) ∧
    max_size_ pg' = max_size_ pg ∧ parent_page_id_ pg' = parent_page_id_ pg ∧
    length (array_ pg') = length (array_ pg) ∧
    ∃ i, FindValue pg' key = Ok (value, i) ∧ 1 ≤ i < size_ pg'.
Proof.
  intros Hsize Hroom Hsorted H0 Hle Hnew.
  destruct (Insert_separator_spec pg key value e0 Hsize Hroom Hsorted H0 Hle Hnew)
    as (r & pg' & Hins & Hr & Hsz & Hmax & Hpar & Hlen & _ & Hmem & Hs' & H0' & Hat & _).
  exists pg'. split; [exact Hins|]. split; [done|]. split; [done|]. split; [done|].
  split; [done|]. split; [done|]. split; [done|]. split; [done|].
  destruct (FindValue_above_placeholder pg' key e0) as (i & e & Hfv & Hi & Hie & Hek & Hafter);
    [lia | done | done | done |].
  assert (i = r) as ->.
  { destruct (Z.lt_trichotomy i r) as [Hir | [-> | Hri]]; [|done|].
    - specialize (Hafter r (key, value) ltac:(lia) Hat). simpl in Hafter. lia.
    - pose proof (Hs' r i (key, value) e ltac:(lia) Hri ltac:(lia) Hat Hie) as H.
      simpl in H. lia. }
  pose proof (eq_trans (eq_sym Hat) Hie) as [= <-].
  exists r. split; [exact Hfv | lia].
Qed.

Lemma Insert_adds_a_separator_witness :
  let pg := {| size_ := 3; max_size_ := 5; parent_page_id_ := INVALID_PAGE_ID;
               array_ := [(0, 1); (3, 2); (7, 4); (0, 0)] |} in
  ∃ pg', Insert pg 5 6 = Ok pg' ∧
    size_ pg' = size_ pg + 1 ∧ routing_sorted pg' ∧
    array_ pg' !! 0%nat = Some (0, 1) ∧
    (∀ e, e ∈ entries pg' ↔ e = (5, 6) ∨ e ∈ entries pg) ∧
    max_size_ pg' = max_size_ pg ∧ parent_page_id_ pg' = parent_page_id_ pg ∧
    length (array_ pg') = length (array_ pg) ∧
    ∃ i, FindValue pg' 5 = Ok (6, i) ∧ 1 ≤ i < size_ pg'.
Proof.
  intros pg. apply (Insert_adds_a_separator pg 5 6 (0, 1)).
  - simpl. lia.
  - simpl. lia.
  - apply routing_sorted_entries. vm_compute.
    repeat (constructor; [|repeat constructor; lia]). constructor.
  - reflexivity.
  - simpl. lia.
  - intros i x Hi Hx. simpl in Hi.
    assert (i = 1 ∨ i = 2) as [-> | ->] by lia; simpl in Hx; injection Hx as <-;
      simpl; lia.
Defined.

End InternalPageProperties.
Module BPlusTreeProperties.
Import BPlusTreePage BPlusTreePageFacts PageArrayFacts BPlusTree BPlusTreeFacts.

(** The value [GetValue] keeps of what [FindValue] returns. *)
Lemma FindValue_value_agree pg pg' key :
  LeafPage.sorted pg → LeafPage.sorted pg' →
  1 ≤ LeafPage.size_ pg → 1 ≤ LeafPage.size_ pg' →
  (∀ v, (key, v) ∈ LeafPage.entries pg' ↔ (key, v) ∈ LeafPage.entries pg) →
  (r ← LeafPage.FindValue pg' key;
   Ok (match r with Some (value, _) => Some value | None => None end))
  = (r ← LeafPage.FindValue pg key;
     Ok (match r with Some (value, _) => Some value | None => None end)).
Proof.
  intros Hs Hs' Hsz Hsz' Hmem.
  destruct (LeafPageProperties.FindValue_cases pg key Hs Hsz)
    as [(i & v & -> & Hi & Hiv) | [-> Hno]];
    destruct (LeafPageProperties.FindValue_cases pg' key Hs' Hsz')
      as [(i' & v' & -> & Hi' & Hiv') | [-> Hno']]; cbn [mbind res_bind].
  - apply (LeafPageProperties.entries_elem_of pg i) in Hiv; [|done].
    apply (LeafPageProperties.entries_elem_of pg' i') in Hiv'; [|done].
    apply Hmem in Hiv'.
    destruct (LeafPageFacts.FindValue_found pg key v Hs Hiv) as (j & Hj & _).
    destruct (LeafPageFacts.FindValue_found pg key v' Hs Hiv') as (j' & Hj' & _).
    rewrite Hj in Hj'. by injection Hj' as -> _.
  - destruct Hno'. apply LeafPageProperties.elem_of_keys. exists v. apply Hmem.
    by apply (LeafPageProperties.entries_elem_of pg i).
  - destruct Hno. apply LeafPageProperties.elem_of_keys. exists v'. apply Hmem.
    by apply (LeafPageProperties.entries_elem_of pg' i').
  - done.
Qed.

(** Replacing the content of a leaf does not change the descent. *)
Lemma find_leaf_set_page fuel tr id old new key :
  pages tr !! id = Some (Leaf old) →
  ∀ page_id,
  find_leaf fuel (set_page tr id (Leaf new)) page_id key
  = match find_leaf fuel tr page_id key with
    | Ok (id', l) => Ok (id', if decide (id' = id) then new else l)
    | Fail e => Fail e
    end.
Proof.
  intros Hold. induction fuel as [|fuel IH]; intros page_id; simpl; [done|].
  unfold fetch. cbn [pages set_page].
  destruct (decide (page_id = id)) as [->|Hne].
  - rewrite lookup_insert_eq, Hold. simpl. by rewrite decide_True.
  - rewrite lookup_insert_ne by done.
    destruct (pages tr !! page_id) as [[| |i|l]|]; simpl; try done.
    + destruct (InternalPage.FindValue i key) as [[child slot]|]; simpl; [|done].
      apply IH.
    + by rewrite decide_False.
Qed.

Lemma fetch_header_page tr root :
  fetch_header tr = Ok root → pages tr !! header_page_id_ tr = Some (Header root).
Proof.
  unfold fetch_header, fetch.
  destruct (pages tr !! header_page_id_ tr) as [[| | |]|]; simpl; try done.
  by intros [= ->].
Qed.

Lemma fetch_header_set_page tr id pg :
  id ≠ header_page_id_ tr →
  fetch_header (set_page tr id pg) = fetch_header tr.
Proof.
  intros Hne. unfold fetch_header, fetch. cbn [pages set_page header_page_id_].
  by rewrite lookup_insert_ne.
Qed.

Lemma leaf_is_not_the_header tr root id l :
  fetch_header tr = Ok root → pages tr !! id = Some (Leaf l) → id ≠ header_page_id_ tr.
Proof.
  intros Hh Hl ->. apply fetch_header_page in Hh. congruence.
Qed.

(** [GetValue] on a tree one of whose leaves has been rewritten. *)
Lemma GetValue_set_page fuel tr root id old new key :
  fetch_header tr = Ok root → root ≠ INVALID_PAGE_ID →
  pages tr !! id = Some (Leaf old) →
  GetValue fuel (set_page tr id (Leaf new)) key
  = match find_leaf fuel tr root key with
    | Ok (id', l) =>
        r ← LeafPage.FindValue (if decide (id' = id) then new else l) key;
        Ok (match r with Some (value, _) => Some value | None => None end)
    | Fail e => Fail e
    end.
Proof.
  intros Hroot Hne Hold. unfold GetValue.
  rewrite fetch_header_set_page by (by eapply leaf_is_not_the_header).
  rewrite Hroot. cbn [mbind res_bind]. rewrite (proj2 (Z.eqb_neq _ _) Hne).
  rewrite (find_leaf_set_page fuel tr id old new key Hold).
  by destruct (find_leaf fuel tr root key) as [[id' l]|].
Qed.

Lemma GetValue_unfold fuel tr root key :
  fetch_header tr = Ok root → root ≠ INVALID_PAGE_ID →
  GetValue fuel tr key
  = match find_leaf fuel tr root key with
    | Ok (_, l) =>
        r ← LeafPage.FindValue l key;
        Ok (match r with Some (value, _) => Some value | None => None end)
    | Fail e => Fail e
    end.
Proof.
  intros Hroot Hne. unfold GetValue. rewrite Hroot. cbn [mbind res_bind].
  rewrite (proj2 (Z.eqb_neq _ _) Hne).
  by destruct (find_leaf fuel tr root key) as [[id' l]|].
Qed.

(** What [split_leaf] returns. *)
Lemma split_leaf_spec tr leaf new_page_id :
  LeafPage.sorted leaf →
  0 ≤ LeafPage.GetMinSize leaf < LeafPage.size_ leaf →
  LeafPage.size_ leaf - LeafPage.GetMinSize leaf ≤ Z.of_nat (leaf_slots tr) →
  ∃ leaf' new_page pushed_key,
    split_leaf tr leaf new_page_id = Ok (leaf', new_page, pushed_key) ∧
    LeafPage.entries leaf' ++ LeafPage.entries new_page = LeafPage.entries leaf ∧
    LeafPage.size_ leaf' = LeafPage.GetMinSize leaf ∧
    LeafPage.size_ new_page = LeafPage.size_ leaf - LeafPage.GetMinSize leaf ∧
    LeafPage.sorted leaf' ∧ LeafPage.sorted new_page ∧
    (∃ v rest, LeafPage.entries new_page = (pushed_key, v) :: rest) ∧
    (∀ e, e ∈ LeafPage.entries leaf' → e.1 < pushed_key) ∧
    (∀ e, e ∈ LeafPage.entries new_page → pushed_key ≤ e.1) ∧
    LeafPage.next_page_id_ leaf' = new_page_id ∧
    LeafPage.next_page_id_ new_page = LeafPage.next_page_id_ leaf.
Proof.
  intros Hsorted Hmin Hslots.
  pose proof Hsorted as Hss. apply LeafPageProperties.sorted_entries in Hss as [Hlen Hss].
  remember (LeafPage.GetMinSize leaf) as m eqn:Hm.
  destruct (lookup_lt_is_Some_2 (LeafPage.array_ leaf) (Z.to_nat m)) as [[k v] Hk]; [lia|].
  assert (Hcopy : LeafPage.CopyHalfFrom (new_leaf tr) (LeafPage.GetData leaf) m
                    (LeafPage.GetSize leaf)
                  = Ok (LeafPage.set_array (new_leaf tr)
                          (take (Z.to_nat (LeafPage.size_ leaf - m))
                                (drop (Z.to_nat m) (LeafPage.array_ leaf))
                           ++ drop (Z.to_nat (LeafPage.size_ leaf - m))
                                   (zeroes (leaf_slots tr))))).
  { unfold LeafPage.CopyHalfFrom, LeafPage.GetData, LeafPage.GetSize.
    rewrite copy_Ok; [done | lia | lia | lia | lia |].
    cbn [new_leaf LeafPage.Init LeafPage.array_]. unfold zeroes.
    rewrite length_replicate. lia. }
  assert (Hkey : LeafPage.KeyAt leaf m = Ok k).
  { unfold LeafPage.KeyAt, LeafPage.assert_index, LeafPage.GetSize.
    rewrite (proj2 (Z.ltb_lt _ _)) by lia. cbn [mbind res_bind].
    by rewrite (proj2 (at_Ok (LeafPage.array_ leaf) m (k, v))) by (split; [lia | done]). }
  assert (Hleft : LeafPage.entries
                    (LeafPage.SetNextPage (LeafPage.SetSize leaf m) new_page_id)
                  = take (Z.to_nat m) (LeafPage.entries leaf)).
  { unfold LeafPage.entries.
    cbn [LeafPage.SetNextPage LeafPage.SetSize LeafPage.size_ LeafPage.array_].
    rewrite take_take. f_equal. lia. }
  assert (Hright : ∀ a0 nxt,
            LeafPage.entries
              (LeafPage.SetNextPage
                 (LeafPage.SetSize
                    (LeafPage.set_array (new_leaf tr)
                       (take (Z.to_nat (LeafPage.size_ leaf - m))
                             (drop (Z.to_nat m) (LeafPage.array_ leaf)) ++ a0))
                    (LeafPage.size_ leaf - m)) nxt)
            = drop (Z.to_nat m) (LeafPage.entries leaf)).
  { intros a0 nxt. unfold LeafPage.entries.
    cbn [LeafPage.SetNextPage LeafPage.SetSize LeafPage.set_array LeafPage.size_
         LeafPage.array_].
    rewrite take_app_length' by (rewrite length_take, length_drop; lia).
    rewrite take_drop_commute. do 2 f_equal. lia. }
  eexists _, _, k. split.
  { unfold split_leaf. rewrite <- Hm, Hcopy. cbn [mbind res_bind].
    rewrite Hkey. cbn [mbind res_bind]. reflexivity. }
  rewrite Hleft, Hright.
  rewrite <- (take_drop (Z.to_nat m) (LeafPage.entries leaf)) in Hss.
  apply StronglySorted_app in Hss as (Hcross & Hs1 & Hs2).
  assert (Hhd : drop (Z.to_nat m) (LeafPage.entries leaf)
                = (k, v) :: drop (S (Z.to_nat m)) (LeafPage.entries leaf)).
  { apply drop_S. apply LeafPageFacts.entries_lookup. split; [done | lia]. }
  split; [apply take_drop|]. split; [done|]. split; [done|].
  split; [|split; [|split; [|split; [|split; [|done]]]]].
  - apply LeafPageProperties.sorted_entries. rewrite Hleft. split; [|done].
    cbn [LeafPage.SetNextPage LeafPage.SetSize LeafPage.size_ LeafPage.array_]. lia.
  - apply LeafPageProperties.sorted_entries. rewrite Hright. split; [|done].
    cbn [LeafPage.SetNextPage LeafPage.SetSize LeafPage.set_array LeafPage.size_
         LeafPage.array_].
    rewrite length_app, length_take, length_drop, length_drop. unfold zeroes.
    rewrite length_replicate. unfold LeafPage.GetSize. lia.
  - by exists v, (drop (S (Z.to_nat m)) (LeafPage.entries leaf)).
  - intros e He. apply (Hcross e (k, v) He). rewrite Hhd. by left.
  - intros e He. rewrite Hhd in He, Hs2. apply elem_of_cons in He as [->|He]; [done|].
    apply StronglySorted_cons in Hs2 as [Hall _]. rewrite Forall_forall in Hall.
    specialize (Hall e He). simpl in Hall. lia.
Qed.

(** X21.  The split of a leaf (lines 165-186 of [Insert]) divides its
    entries: the leaf keeps the first [min_size] of them, the new page
    receives the others in the same order, so the two lists put together are
    the entries before the split and both pages are sorted.  The key pushed
    to the parent is the first key of the new page and is above every key
    left in the old one.  The old leaf is linked to the new page, which takes
    over its former successor. *)
Theorem split_leaf_divides_the_entries tr leaf new_page_id :
  LeafPage.sorted leaf →
  0 ≤ LeafPage.GetMinSize leaf < LeafPage.size_ leaf →
  LeafPage.size_ leaf - LeafPage.GetMinSize leaf ≤ Z.of_nat (leaf_slots tr) →
  ∃ leaf' new_page pushed_key,
    split_leaf tr leaf new_page_id = Ok (leaf', new_page, pushed_key) ∧
    LeafPage.entries leaf' ++ LeafPage.entries new_page = LeafPage.entries leaf ∧
    LeafPage.size_ leaf' = LeafPage.GetMinSize leaf ∧
    LeafPage.size_ new_page = LeafPage.size_ leaf - LeafPage.GetMinSize leaf ∧
    LeafPage.sorted leaf' ∧ LeafPage.sorted new_page ∧
    (∃ v rest, LeafPage.entries new_page = (pushed_key, v) :: rest) ∧
    (∀ e, e ∈ LeafPage.entries leaf' → e.1 < pushed_key) ∧
    (∀ e, e ∈ LeafPage.entries new_page → pushed_key ≤ e.1) ∧
    LeafPage.next_page_id_ leaf' = new_page_id ∧
    LeafPage.next_page_id_ new_page = LeafPage.next_page_id_ leaf.
Proof. apply split_leaf_spec. Qed.

Lemma split_leaf_divides_the_entries_witness :
  let leaf := {| LeafPage.size_ := 4; LeafPage.max_size_ := 4;
                 LeafPage.parent_page_id_ := INVALID_PAGE_ID;
                 LeafPage.next_page_id_ := INVALID_PAGE_ID;
                 LeafPage.array_ := [(1, 1); (2, 2); (3, 3); (4, 4);
                                     (0, 0); (0, 0); (0, 0); (0, 0)] |} in
  ∃ leaf' new_page pushed_key,
    split_leaf tree_123 leaf 2 = Ok (leaf', new_page, pushed_key) ∧
    LeafPage.entries leaf' ++ LeafPage.entries new_page = LeafPage.entries leaf ∧
    LeafPage.size_ leaf' = LeafPage.GetMinSize leaf ∧
    LeafPage.size_ new_page = LeafPage.size_ leaf - LeafPage.GetMinSize leaf ∧
    LeafPage.sorted leaf' ∧ LeafPage.sorted new_page ∧
    (∃ v rest, LeafPage.entries new_page = (pushed_key, v) :: rest) ∧
    (∀ e, e ∈ LeafPage.entries leaf' → e.1 < pushed_key) ∧
    (∀ e, e ∈ LeafPage.entries new_page → pushed_key ≤ e.1) ∧
    LeafPage.next_page_id_ leaf' = 2 ∧
    LeafPage.next_page_id_ new_page = LeafPage.next_page_id_ leaf.
Proof.
  intros leaf. apply (split_leaf_divides_the_entries tree_123 leaf 2).
  - apply LeafPageFacts.sortedb_sound. vm_compute. reflexivity.
  - vm_compute. split; [discriminate | reflexivity].
  - vm_compute. discriminate.
Defined.

(** The empty tree and the first insertion. *)
Lemma empty_tree_spec fuel tr key value :
  fetch_header tr = Ok INVALID_PAGE_ID →
  GetValue fuel tr key = Ok None ∧
  Remove fuel tr key = Ok tr ∧
  Begin fuel tr = Fail (RuntimeError "B+ tree is empty") ∧
  ((1 ≤ leaf_slots tr)%nat →
   next_page_id tr ≠ INVALID_PAGE_ID → next_page_id tr ≠ header_page_id_ tr →
   ∃ tr' leaf,
     Insert fuel tr key value = Ok (tr', true) ∧
     fetch_header tr' = Ok (next_page_id tr) ∧
     pages tr' !! next_page_id tr = Some (Leaf leaf) ∧
     LeafPage.sorted leaf ∧
     LeafPage.entries leaf = [(key, value)] ∧
     LeafPage.next_page_id_ leaf = INVALID_PAGE_ID ∧
     next_page_id tr' = to_int32 (next_page_id tr + 1) ∧
     header_page_id_ tr' = header_page_id_ tr ∧
     (∀ p, p ≠ next_page_id tr → p ≠ header_page_id_ tr →
           pages tr' !! p = pages tr !! p) ∧
     (∀ k, GetValue (S fuel) tr' k = Ok (if decide (k = key) then Some value else None))).
Proof.
  intros Hroot.
  split; [by unfold GetValue; rewrite Hroot|].
  split; [by unfold Remove; rewrite Hroot|].
  split; [by unfold Begin; rewrite Hroot|].
  intros Hslots Hvalid Hhdr.
  set (tr1 := set_root (NewPageGuarded tr).1 (next_page_id tr)).
  assert (Hsorted0 : LeafPage.sorted (new_leaf tr1)).
  { split; [simpl; lia|]. intros i j x y _ Hi.
    apply LeafPageFacts.entries_lookup in Hi as [_ Hi]. simpl in Hi. lia. }
  assert (Hroom : LeafPage.size_ (new_leaf tr1)
                  < Z.of_nat (length (LeafPage.array_ (new_leaf tr1)))).
  { cbn. unfold zeroes. rewrite length_replicate. lia. }
  assert (Hnew : key ∉ LeafPage.keys (new_leaf tr1)) by (cbn; apply not_elem_of_nil).
  destruct (LeafPageProperties.Insert_new _ key value Hsorted0 Hroom Hnew)
    as (r & a & Hins & Hr & Hla & He & Hlt & Hgt).
  pose proof (LeafPageProperties.Insert_new_sorted _ key value r a
                Hsorted0 Hroom Hla He Hlt Hgt) as Hs'.
  assert (He1 : LeafPage.entries
                  (LeafPage.IncreaseSize (LeafPage.set_array (new_leaf tr1) a) 1)
                = [(key, value)]).
  { assert (r = 0) as -> by (cbn in Hr; lia). rewrite He. reflexivity. }
  set (leaf := LeafPage.IncreaseSize (LeafPage.set_array (new_leaf tr1) a) 1) in *.
  set (tr' := set_page tr1 (next_page_id tr) (Leaf leaf)).
  assert (Hinsert : Insert fuel tr key value = Ok (tr', true)).
  { unfold Insert. rewrite Hroot. cbn [mbind res_bind]. rewrite Z.eqb_refl.
    change (LeafPage.Insert (new_leaf tr1) key value
            ≫= (λ '(page, _), Ok (set_page tr1 (next_page_id tr) (Leaf page), true))
            = Ok (tr', true)).
    by rewrite Hins. }
  assert (Hhead : fetch_header tr' = Ok (next_page_id tr)).
  { unfold fetch_header, fetch, tr', tr1, set_root.
    cbn [set_page pages header_page_id_ NewPageGuarded fst].
    rewrite lookup_insert_ne by done. by rewrite lookup_insert_eq. }
  assert (Hleaf : pages tr' !! next_page_id tr = Some (Leaf leaf)).
  { unfold tr'. cbn [set_page pages]. by rewrite lookup_insert_eq. }
  exists tr', leaf. split; [done|]. split; [done|]. split; [done|]. split; [done|].
  split; [done|]. split; [done|]. split; [done|]. split; [done|]. split.
  - intros p Hp1 Hp2. unfold tr', tr1, set_root.
    cbn [set_page pages header_page_id_ NewPageGuarded fst].
    by rewrite !lookup_insert_ne.
  - intros k. rewrite (GetValue_unfold (S fuel) tr' (next_page_id tr) k Hhead Hvalid).
    cbn [find_leaf]. unfold fetch. rewrite Hleaf. cbn [of_option mbind res_bind].
    destruct (LeafPageProperties.FindValue_cases leaf k Hs')
      as [(i & v & -> & Hi & Hiv) | [-> Hno]]; [cbn; lia | |].
    + apply LeafPageProperties.entries_elem_of in Hiv; [|done].
      rewrite He1 in Hiv. apply list_elem_of_singleton in Hiv as [= -> ->].
      cbn [mbind res_bind]. by rewrite decide_True.
    + cbn [mbind res_bind]. rewrite decide_False; [done|]. intros ->.
      apply Hno, LeafPageProperties.elem_of_keys. exists value. rewrite He1. by left.
Qed.

(** X22.  A tree whose header holds no root: [GetValue] finds nothing,
    [Remove] returns the tree as it is and [Begin] throws.  [Insert] makes
    the pool's next page the root, a leaf holding the one entry; the pages
    that existed are untouched apart from the header, and afterwards
    [GetValue] finds the key with its value and no other key. *)
Theorem empty_tree_and_its_first_insert fuel tr key value :
  fetch_header tr = Ok INVALID_PAGE_ID →
  GetValue fuel tr key = Ok None ∧
  Remove fuel tr key = Ok tr ∧
  Begin fuel tr = Fail (RuntimeError "B+ tree is empty") ∧
  ((1 ≤ leaf_slots tr)%nat →
   next_page_id tr ≠ INVALID_PAGE_ID → next_page_id tr ≠ header_page_id_ tr →
   ∃ tr' leaf,
     Insert fuel tr key value = Ok (tr', true) ∧
     fetch_header tr' = Ok (next_page_id tr) ∧
     pages tr' !! next_page_id tr = Some (Leaf leaf) ∧
     LeafPage.sorted leaf ∧
     LeafPage.entries leaf = [(key, value)] ∧
     LeafPage.next_page_id_ leaf = INVALID_PAGE_ID ∧
     next_page_id tr' = to_int32 (next_page_id tr + 1) ∧
     header_page_id_ tr' = header_page_id_ tr ∧
     (∀ p, p ≠ next_page_id tr → p ≠ header_page_id_ tr →
           pages tr' !! p = pages tr !! p) ∧
     (∀ k, GetValue (S fuel) tr' k = Ok (if decide (k = key) then Some value else None))).
Proof. apply empty_tree_spec. Qed.

Lemma empty_tree_and_its_first_insert_witness :
  GetValue 8 fresh_tree 5 = Ok None ∧
  Remove 8 fresh_tree 5 = Ok fresh_tree ∧
  Begin 8 fresh_tree = Fail (RuntimeError "B+ tree is empty") ∧
  ((1 ≤ leaf_slots fresh_tree)%nat →
   next_page_id fresh_tree ≠ INVALID_PAGE_ID →
   next_page_id fresh_tree ≠ header_page_id_ fresh_tree →
   ∃ tr' leaf,
     Insert 8 fresh_tree 5 50 = Ok (tr', true) ∧
     fetch_header tr' = Ok (next_page_id fresh_tree) ∧
     pages tr' !! next_page_id fresh_tree = Some (Leaf leaf) ∧
     LeafPage.sorted leaf ∧
     LeafPage.entries leaf = [(5, 50)] ∧
     LeafPage.next_page_id_ leaf = INVALID_PAGE_ID ∧
     next_page_id tr' = to_int32 (next_page_id fresh_tree + 1) ∧
     header_page_id_ tr' = header_page_id_ fresh_tree ∧
     (∀ p, p ≠ next_page_id fresh_tree → p ≠ header_page_id_ fresh_tree →
           pages tr' !! p = pages fresh_tree !! p) ∧
     (∀ k, GetValue 9 tr' k = Ok (if decide (k = 5) then Some 50 else None))).
Proof.
  apply (empty_tree_and_its_first_insert 8 fresh_tree 5 50).
  vm_compute. reflexivity.
Defined.

(** X23.  [Insert] of a new key whose leaf holds an entry and has room
    ([size < max_size - 1], the path without a split), the leaf being
    sorted: the call returns true
    and rewrites that one leaf, every other page, the header and the pool's
    counter staying as they were.  The leaf holds its old entries and the new
    one, in key order, and keeps its links.  [GetValue] then finds the key
    with its value, and returns for every other key what it returned
    before. *)
Theorem Insert_into_a_leaf_with_room fuel tr key value root leaf_id leaf :
  fetch_header tr = Ok root → root ≠ INVALID_PAGE_ID →
  find_leaf fuel tr root key = Ok (leaf_id, leaf) →
  LeafPage.sorted leaf → key ∉ LeafPage.keys leaf →
  1 ≤ LeafPage.size_ leaf < LeafPage.max_size_ leaf - 1 →
  LeafPage.size_ leaf < Z.of_nat (length (LeafPage.array_ leaf)) →
  ∃ leaf',
    Insert fuel tr key value = Ok (set_page tr leaf_id (Leaf leaf'), true) ∧
    LeafPage.sorted leaf' ∧
    (∀ e, e ∈ LeafPage.entries leaf' ↔ e = (key, value) ∨ e ∈ LeafPage.entries leaf) ∧
    LeafPage.next_page_id_ leaf' = LeafPage.next_page_id_ leaf ∧
    LeafPage.parent_page_id_ leaf' = LeafPage.parent_page_id_ leaf ∧
    GetValue fuel (set_page tr leaf_id (Leaf leaf')) key = Ok (Some value) ∧
    (∀ k, k ≠ key →
          GetValue fuel (set_page tr leaf_id (Leaf leaf')) k = GetValue fuel tr k).
Proof.
  intros Hroot Hne Hfind Hsorted Hnew Hsize Hroom.
  destruct (LeafPageProperties.Insert_new leaf key value Hsorted Hroom Hnew)
    as (r & a & Hins & Hr & Hla & He & Hlt & Hgt).
  pose proof (LeafPageProperties.Insert_new_sorted leaf key value r a
                Hsorted Hroom Hla He Hlt Hgt) as Hs'.
  set (leaf' := LeafPage.IncreaseSize (LeafPage.set_array leaf a) 1) in *.
  assert (Hmem : ∀ e, e ∈ LeafPage.entries leaf'
                      ↔ e = (key, value) ∨ e ∈ LeafPage.entries leaf).
  { intros e. rewrite He, elem_of_app, elem_of_cons.
    rewrite <- (take_drop (Z.to_nat r) (LeafPage.entries leaf)) at 3.
    rewrite elem_of_app. tauto. }
  pose proof (find_leaf_page fuel tr key root leaf_id leaf Hfind) as Hpage.
  exists leaf'. split; [|split; [done|split; [done|split; [done|split; [done|split]]]]].
  - unfold Insert. rewrite Hroot. cbn [mbind res_bind].
    rewrite (proj2 (Z.eqb_neq _ _) Hne).
    destruct (find_leaf_descend fuel tr key root [] ∅ leaf_id leaf Hfind)
      as (ws & ix & ->).
    cbn [mbind res_bind]. unfold LeafPage.GetSize, LeafPage.GetMaxSize.
    rewrite (proj2 (Z.ltb_lt _ _)) by lia. rewrite Hins. done.
  - rewrite (GetValue_set_page fuel tr root leaf_id leaf leaf' key Hroot Hne Hpage).
    rewrite Hfind, decide_True by done.
    destruct (LeafPageFacts.FindValue_found leaf' key value Hs') as (i & -> & _); [|done].
    apply Hmem. by left.
  - intros k Hk.
    rewrite (GetValue_set_page fuel tr root leaf_id leaf leaf' k Hroot Hne Hpage).
    rewrite (GetValue_unfold fuel tr root k Hroot Hne).
    destruct (find_leaf fuel tr root k) as [[id' l]|] eqn:Hfk; [|done].
    destruct (decide (id' = leaf_id)) as [->|]; [|done].
    pose proof (find_leaf_page fuel tr k root leaf_id l Hfk) as Hl.
    assert (l = leaf) as -> by congruence.
    apply FindValue_value_agree; [done | done | lia | cbn; lia |].
    intros v. rewrite Hmem. split; [|by right]. intros [[=] | H]; done.
Qed.

Lemma Insert_into_a_leaf_with_room_witness :
  ∃ leaf',
    Insert 8 tree_1234 0 100 = Ok (set_page tree_1234 1 (Leaf leaf'), true) ∧
    LeafPage.sorted leaf' ∧
    (∀ e, e ∈ LeafPage.entries leaf' ↔
          e = (0, 100) ∨ e ∈ LeafPage.entries
                               {| LeafPage.size_ := 2; LeafPage.max_size_ := 4;
                                  LeafPage.parent_page_id_ := 3;
                                  LeafPage.next_page_id_ := 2;
                                  LeafPage.array_ := [(1, 1); (2, 2); (3, 3); (4, 4);
                                                      (0, 0); (0, 0); (0, 0); (0, 0)] |}) ∧
    LeafPage.next_page_id_ leaf' = 2 ∧
    LeafPage.parent_page_id_ leaf' = 3 ∧
    GetValue 8 (set_page tree_1234 1 (Leaf leaf')) 0 = Ok (Some 100) ∧
    (∀ k, k ≠ 0 →
          GetValue 8 (set_page tree_1234 1 (Leaf leaf')) k = GetValue 8 tree_1234 k).
Proof.
  apply (Insert_into_a_leaf_with_room 8 tree_1234 0 100 3 1
           {| LeafPage.size_ := 2; LeafPage.max_size_ := 4;
              LeafPage.parent_page_id_ := 3; LeafPage.next_page_id_ := 2;
              LeafPage.array_ := [(1, 1); (2, 2); (3, 3); (4, 4);
                                  (0, 0); (0, 0); (0, 0); (0, 0)] |}).
  - vm_compute. reflexivity.
  - discriminate.
  - vm_compute. reflexivity.
  - apply LeafPageFacts.sortedb_sound. vm_compute. reflexivity.
  - vm_compute. intros H. apply list_elem_of_In in H. simpl in H.
    destruct H as [H | [H | H]]; [discriminate | discriminate | done].
  - simpl. lia.
  - simpl. lia.
Defined.

(** What [Remove] does to the leaf a key is routed to. *)
Lemma Remove_spec fuel tr key root leaf_id leaf :
  fetch_header tr = Ok root → root ≠ INVALID_PAGE_ID →
  find_leaf fuel tr root key = Ok (leaf_id, leaf) →
  LeafPage.sorted leaf → 1 ≤ LeafPage.size_ leaf →
  (key ∉ LeafPage.keys leaf → Remove fuel tr key = Ok tr) ∧
  (∀ v, (key, v) ∈ LeafPage.entries leaf →
     ∃ leaf' tr',
       Remove fuel tr key = Ok tr' ∧
       tr' = (if (leaf_id =? root) && (LeafPage.size_ leaf =? 1)
              then set_root (set_page tr leaf_id (Leaf leaf')) INVALID_PAGE_ID
              else set_page tr leaf_id (Leaf leaf')) ∧
       LeafPage.sorted leaf' ∧ LeafPage.size_ leaf' = LeafPage.size_ leaf - 1 ∧
       (∀ e, e ∈ LeafPage.entries leaf' ↔ e ∈ LeafPage.entries leaf ∧ e.1 ≠ key) ∧
       LeafPage.next_page_id_ leaf' = LeafPage.next_page_id_ leaf ∧
       LeafPage.parent_page_id_ leaf' = LeafPage.parent_page_id_ leaf ∧
       (2 ≤ LeafPage.size_ leaf ∨ leaf_id = root → GetValue fuel tr' key = Ok None) ∧
       (2 ≤ LeafPage.size_ leaf →
        ∀ k, k ≠ key → GetValue fuel tr' k = GetValue fuel tr k)).
Proof.
  intros Hroot Hne Hfind Hsorted Hsize.
  pose proof (find_leaf_page fuel tr key root leaf_id leaf Hfind) as Hpage.
  destruct (find_leaf_descend fuel tr key root [] ∅ leaf_id leaf Hfind)
    as (ws & ix & Hdesc).
  assert (Hrem : Remove fuel tr key
                 = (found ← LeafPage.FindValue leaf key;
                    match found with
                    | None => Ok tr
                    | Some (res, _) =>
                        DeleteEntry tr root (leaf_id :: ws) key res ix
                    end)).
  { unfold Remove. rewrite Hroot. cbn [mbind res_bind].
    rewrite (proj2 (Z.eqb_neq _ _) Hne), Hdesc. done. }
  split.
  - intros Hno. rewrite Hrem.
    destruct (LeafPageProperties.FindValue_cases leaf key Hsorted Hsize)
      as [(i & v & _ & Hi & Hiv) | [-> _]]; [|done].
    destruct Hno. apply LeafPageProperties.elem_of_keys. exists v.
    by apply (LeafPageProperties.entries_elem_of leaf i).
  - intros v Hin.
    destruct (LeafPageFacts.FindValue_found leaf key v Hsorted Hin) as (i & Hfv & _).
    destruct (LeafPageProperties.Delete_present leaf key v Hsorted Hin)
      as (r & a & Hdel & Hr & Hla & Hat & He).
    destruct (LeafPageProperties.Delete_present_sorted leaf key v r a
                Hsorted Hr Hla Hat He) as [Hs' Hmem].
    set (leaf' := LeafPage.IncreaseSize (LeafPage.set_array leaf a) (-1)) in *.
    eexists leaf', _. split; [|split; [reflexivity|]].
    { rewrite Hrem, Hfv. cbn [mbind res_bind]. unfold DeleteEntry, fetch_leaf, fetch.
      rewrite Hpage. cbn [of_option mbind res_bind]. rewrite Hdel.
      cbn [mbind res_bind negb].
      replace (LeafPage.GetSize leaf' =? 0) with (LeafPage.size_ leaf =? 1).
      - by destruct ((leaf_id =? root) && (LeafPage.size_ leaf =? 1)).
      - cbn. destruct (Z.eqb_spec (LeafPage.size_ leaf) 1);
          destruct (Z.eqb_spec (LeafPage.size_ leaf + -1) 0); (done || lia). }
    split; [done|]. split; [cbn; lia|]. split; [done|]. split; [done|]. split; [done|].
    split.
    + intros Hcase.
      destruct ((leaf_id =? root) && (LeafPage.size_ leaf =? 1)) eqn:Hc.
      * unfold GetValue, fetch_header, fetch, set_root.
        cbn [set_page pages header_page_id_]. by rewrite lookup_insert_eq.
      * rewrite (GetValue_set_page fuel tr root leaf_id leaf leaf' key Hroot Hne Hpage).
        rewrite Hfind, decide_True by done.
        assert (Hsz : 1 ≤ LeafPage.size_ leaf').
        { cbn. apply andb_false_iff in Hc as [Hc | Hc].
          - apply Z.eqb_neq in Hc. destruct Hcase; [lia | done].
          - apply Z.eqb_neq in Hc. lia. }
        destruct (LeafPageProperties.FindValue_cases leaf' key Hs' Hsz)
          as [(j & w & _ & Hj & Hjw) | [-> _]]; [|done].
        apply LeafPageProperties.entries_elem_of in Hjw; [|done].
        by apply Hmem in Hjw as [_ ?].
    + intros Hsz k Hk.
      rewrite (proj2 (Z.eqb_neq (LeafPage.size_ leaf) 1)) by lia. rewrite andb_false_r.
      rewrite (GetValue_set_page fuel tr root leaf_id leaf leaf' k Hroot Hne Hpage).
      rewrite (GetValue_unfold fuel tr root k Hroot Hne).
      destruct (find_leaf fuel tr root k) as [[id' l]|] eqn:Hfk; [|done].
      destruct (decide (id' = leaf_id)) as [->|]; [|done].
      pose proof (find_leaf_page fuel tr k root leaf_id l Hfk) as Hl.
      assert (l = leaf) as -> by congruence.
      apply FindValue_value_agree; [done | done | lia | cbn; lia |].
      intros w. rewrite Hmem. simpl. split; [by intros [? _] | by split].
Qed.

(** X24.  [Remove] of a key, the leaf it is routed to being sorted and
    holding an entry: without the key in that leaf the tree is returned as it
    is.  With the key in the leaf, the entry is deleted from that leaf and
    nothing else is touched, however few entries are left: no sibling is
    read, no entry is moved, no page is merged and the routing pages are as
    before; only when the leaf is the root and has become empty is the header
    reset to no root.  [GetValue] no longer finds the key when an entry is
    left in the leaf or the leaf was the root, and the other keys are found
    as before when an entry is left. *)
Theorem Remove_deletes_from_the_leaf_only fuel tr key root leaf_id leaf :
  fetch_header tr = Ok root → root ≠ INVALID_PAGE_ID →
  find_leaf fuel tr root key = Ok (leaf_id, leaf) →
  LeafPage.sorted leaf → 1 ≤ LeafPage.size_ leaf →
  (key ∉ LeafPage.keys leaf → Remove fuel tr key = Ok tr) ∧
  (∀ v, (key, v) ∈ LeafPage.entries leaf →
     ∃ leaf' tr',
       Remove fuel tr key = Ok tr' ∧
       tr' = (if (leaf_id =? root) && (LeafPage.size_ leaf =? 1)
              then set_root (set_page tr leaf_id (Leaf leaf')) INVALID_PAGE_ID
              else set_page tr leaf_id (Leaf leaf')) ∧
       LeafPage.sorted leaf' ∧ LeafPage.size_ leaf' = LeafPage.size_ leaf - 1 ∧
       (∀ e, e ∈ LeafPage.entries leaf' ↔ e ∈ LeafPage.entries leaf ∧ e.1 ≠ key) ∧
       LeafPage.next_page_id_ leaf' = LeafPage.next_page_id_ leaf ∧
       LeafPage.parent_page_id_ leaf' = LeafPage.parent_page_id_ leaf ∧
       (2 ≤ LeafPage.size_ leaf ∨ leaf_id = root → GetValue fuel tr' key = Ok None) ∧
       (2 ≤ LeafPage.size_ leaf →
        ∀ k, k ≠ key → GetValue fuel tr' k = GetValue fuel tr k)).
Proof. apply Remove_spec. Qed.

Lemma Remove_deletes_from_the_leaf_only_witness :
  let leaf := {| LeafPage.size_ := 3; LeafPage.max_size_ := 4;
                 LeafPage.parent_page_id_ := 3; LeafPage.next_page_id_ := -1;
                 LeafPage.array_ := [(3, 3); (4, 4); (5, 5); (0, 0);
                                     (0, 0); (0, 0); (0, 0); (0, 0)] |} in
  ∃ leaf' tr',
    Remove 8 S3_tree 5 = Ok tr' ∧
    tr' = (if (2 =? 3) && (LeafPage.size_ leaf =? 1)
           then set_root (set_page S3_tree 2 (Leaf leaf')) INVALID_PAGE_ID
           else set_page S3_tree 2 (Leaf leaf')) ∧
    LeafPage.sorted leaf' ∧ LeafPage.size_ leaf' = LeafPage.size_ leaf - 1 ∧
    (∀ e, e ∈ LeafPage.entries leaf' ↔ e ∈ LeafPage.entries leaf ∧ e.1 ≠ 5) ∧
    LeafPage.next_page_id_ leaf' = LeafPage.next_page_id_ leaf ∧
    LeafPage.parent_page_id_ leaf' = LeafPage.parent_page_id_ leaf ∧
    (2 ≤ LeafPage.size_ leaf ∨ 2 = 3 → GetValue 8 tr' 5 = Ok None) ∧
    (2 ≤ LeafPage.size_ leaf →
     ∀ k, k ≠ 5 → GetValue 8 tr' k = GetValue 8 S3_tree k).
Proof.
  intros leaf.
  destruct (Remove_deletes_from_the_leaf_only 8 S3_tree 5 3 2 leaf) as [_ H].
  - vm_compute. reflexivity.
  - discriminate.
  - vm_compute. reflexivity.
  - apply LeafPageFacts.sortedb_sound. vm_compute. reflexivity.
  - simpl. lia.
  - apply (H 5). right. right. left.
Defined.

(** X29.  Insertion and removal undo each other on an empty tree: [Insert]
    of a key followed by [Remove] of it both return, and the header holds no
    root again, so [GetValue] finds nothing and [Begin] throws.  The page
    that was the root is not given back to the pool: it is still there, a
    leaf of size 0, and the pool's counter has advanced. *)
Theorem Insert_then_Remove_empties_the_tree fuel tr key value :
  fetch_header tr = Ok INVALID_PAGE_ID →
  (1 ≤ leaf_slots tr)%nat →
  next_page_id tr ≠ INVALID_PAGE_ID → next_page_id tr ≠ header_page_id_ tr →
  ∃ tr1 tr2 leaf',
    Insert fuel tr key value = Ok (tr1, true) ∧
    Remove (S fuel) tr1 key = Ok tr2 ∧
    fetch_header tr2 = Ok INVALID_PAGE_ID ∧
    (∀ k, GetValue fuel tr2 k = Ok None) ∧
    Begin fuel tr2 = Fail (RuntimeError "B+ tree is empty") ∧
    pages tr2 !! next_page_id tr = Some (Leaf leaf') ∧ LeafPage.size_ leaf' = 0 ∧
    next_page_id tr2 = to_int32 (next_page_id tr + 1) ∧
    (∀ p, p ≠ next_page_id tr → p ≠ header_page_id_ tr →
          pages tr2 !! p = pages tr !! p).
Proof.
  intros Hroot Hslots Hvalid Hhdr.
  destruct (empty_tree_spec fuel tr key value Hroot) as (_ & _ & _ & Hins).
  destruct (Hins Hslots Hvalid Hhdr)
    as (tr1 & leaf & Hinsert & Hhead1 & Hpage1 & Hsorted & Hent & _ & Hnext1 & Hhid1
        & Hother1 & _).
  assert (Hsize : LeafPage.size_ leaf = 1).
  { pose proof (LeafPageProperties.length_entries leaf (proj1 Hsorted)) as Hlen.
    rewrite Hent in Hlen. simpl in Hlen. destruct Hsorted as [? _]. lia. }
  assert (Hfind : find_leaf (S fuel) tr1 (next_page_id tr) key
                  = Ok (next_page_id tr, leaf)).
  { cbn [find_leaf]. unfold fetch. by rewrite Hpage1. }
  destruct (Remove_spec (S fuel) tr1 key (next_page_id tr) (next_page_id tr) leaf
              Hhead1 Hvalid Hfind Hsorted ltac:(lia)) as [_ Hrem].
  destruct (Hrem value) as (leaf' & tr2 & Hremove & Htr2 & _ & Hsize' & _);
    [rewrite Hent; by left|].
  rewrite Z.eqb_refl, Hsize in Htr2. cbn [andb Z.eqb Pos.eqb] in Htr2.
  assert (Hhead2 : fetch_header tr2 = Ok INVALID_PAGE_ID).
  { rewrite Htr2. unfold fetch_header, fetch, set_root.
    cbn [set_page pages header_page_id_]. by rewrite lookup_insert_eq. }
  exists tr1, tr2, leaf'. split; [done|]. split; [done|]. split; [done|].
  split; [by intros k; unfold GetValue; rewrite Hhead2|].
  split; [by unfold Begin; rewrite Hhead2|].
  split; [|split; [lia|split]].
  - rewrite Htr2. unfold set_root. cbn [set_page pages header_page_id_].
    rewrite lookup_insert_ne by (by rewrite Hhid1). by rewrite lookup_insert_eq.
  - by rewrite Htr2.
  - intros p Hp1 Hp2. rewrite Htr2. unfold set_root.
    cbn [set_page pages header_page_id_].
    rewrite lookup_insert_ne by (by rewrite Hhid1).
    rewrite lookup_insert_ne by done. by apply Hother1.
Qed.

Lemma Insert_then_Remove_empties_the_tree_witness :
  ∃ tr1 tr2 leaf',
    Insert 8 fresh_tree 5 50 = Ok (tr1, true) ∧
    Remove 9 tr1 5 = Ok tr2 ∧
    fetch_header tr2 = Ok INVALID_PAGE_ID ∧
    (∀ k, GetValue 8 tr2 k = Ok None) ∧
    Begin 8 tr2 = Fail (RuntimeError "B+ tree is empty") ∧
    pages tr2 !! next_page_id fresh_tree = Some (Leaf leaf') ∧
    LeafPage.size_ leaf' = 0 ∧
    next_page_id tr2 = to_int32 (next_page_id fresh_tree + 1) ∧
    (∀ p, p ≠ next_page_id fresh_tree → p ≠ header_page_id_ fresh_tree →
          pages tr2 !! p = pages fresh_tree !! p).
Proof.
  apply (Insert_then_Remove_empties_the_tree 8 fresh_tree 5 50).
  - vm_compute. reflexivity.
  - simpl. lia.
  - discriminate.
  - discriminate.
Defined.

(** X30.  The split of a leaf that has reached its maximum size
    ([size = max_size >= 2]): [GetMinSize] being [max_size / 2], the old
    leaf keeps [max_size / 2] entries and the new one receives the
    [max_size - max_size / 2] others, so both hold at least the minimum, none
    is empty, and the new leaf holds as many entries as the old one or one
    more. *)
Theorem split_leaf_balances_a_full_leaf tr leaf new_page_id :
  LeafPage.sorted leaf →
  2 ≤ LeafPage.max_size_ leaf → LeafPage.size_ leaf = LeafPage.max_size_ leaf →
  LeafPage.max_size_ leaf - LeafPage.max_size_ leaf `div` 2 ≤ Z.of_nat (leaf_slots tr) →
  ∃ leaf' new_page pushed_key,
    split_leaf tr leaf new_page_id = Ok (leaf', new_page, pushed_key) ∧
    LeafPage.GetMinSize leaf = LeafPage.max_size_ leaf `div` 2 ∧
    LeafPage.size_ leaf' = LeafPage.max_size_ leaf `div` 2 ∧
    LeafPage.size_ new_page = LeafPage.max_size_ leaf - LeafPage.max_size_ leaf `div` 2 ∧
    1 ≤ LeafPage.size_ leaf' ∧
    LeafPage.size_ leaf' ≤ LeafPage.size_ new_page ≤ LeafPage.size_ leaf' + 1 ∧
    LeafPage.GetMinSize leaf ≤ LeafPage.size_ leaf' ∧
    LeafPage.GetMinSize leaf ≤ LeafPage.size_ new_page.
Proof.
  intros Hsorted Hmax Hsize Hslots.
  assert (Hmin : LeafPage.GetMinSize leaf = LeafPage.max_size_ leaf `div` 2).
  { unfold LeafPage.GetMinSize, GetMinSize. apply Z.quot_div_nonneg; lia. }
  pose proof (Z.div_mod (LeafPage.max_size_ leaf) 2 ltac:(lia)) as Hdm.
  pose proof (Z.mod_pos_bound (LeafPage.max_size_ leaf) 2 ltac:(lia)) as Hmod.
  destruct (split_leaf_spec tr leaf new_page_id Hsorted)
    as (leaf' & new_page & pushed & Hsplit & _ & Hsl & Hsr & _);
    [rewrite Hmin; lia | rewrite Hmin; lia |].
  exists leaf', new_page, pushed. split; [done|]. split; [done|].
  rewrite Hmin in Hsl, Hsr. rewrite Hsize in Hsr. rewrite Hmin, Hsl, Hsr. lia.
Qed.

Lemma split_leaf_balances_a_full_leaf_witness :
  let leaf := {| LeafPage.size_ := 4; LeafPage.max_size_ := 4;
                 LeafPage.parent_page_id_ := INVALID_PAGE_ID;
                 LeafPage.next_page_id_ := INVALID_PAGE_ID;
                 LeafPage.array_ := [(1, 1); (2, 2); (3, 3); (4, 4);
                                     (0, 0); (0, 0); (0, 0); (0, 0)] |} in
  ∃ leaf' new_page pushed_key,
    split_leaf tree_123 leaf 2 = Ok (leaf', new_page, pushed_key) ∧
    LeafPage.GetMinSize leaf = 4 `div` 2 ∧
    LeafPage.size_ leaf' = 4 `div` 2 ∧
    LeafPage.size_ new_page = 4 - 4 `div` 2 ∧
    1 ≤ LeafPage.size_ leaf' ∧
    LeafPage.size_ leaf' ≤ LeafPage.size_ new_page ≤ LeafPage.size_ leaf' + 1 ∧
    LeafPage.GetMinSize leaf ≤ LeafPage.size_ leaf' ∧
    LeafPage.GetMinSize leaf ≤ LeafPage.size_ new_page.
Proof.
  intros leaf. apply (split_leaf_balances_a_full_leaf tree_123 leaf 2).
  - apply LeafPageFacts.sortedb_sound. vm_compute. reflexivity.
  - simpl. lia.
  - reflexivity.
  - vm_compute. discriminate.
Defined.

End BPlusTreeProperties.
Module BPlusTreeSplitProperties.
Import BPlusTreePage BPlusTreePageFacts PageArrayFacts BPlusTree BPlusTreeFacts.
Import BPlusTreeProperties.

(** [InsertInParent] when the page that was split is the root, a leaf: a
    new root is made over the two leaves. *)
Lemma InsertInParent_new_root tr root key new_page_id first second m :
  pages tr !! root = Some (Leaf first) →
  pages tr !! new_page_id = Some (Leaf second) →
  internal_slots tr = S (S m) →
  root ≠ next_page_id tr → new_page_id ≠ next_page_id tr →
  root ≠ header_page_id_ tr → new_page_id ≠ header_page_id_ tr →
  InsertInParent [root] tr root key new_page_id
  = Ok (set_page
          (set_page
             (set_page (set_root (NewPageGuarded tr).1 (next_page_id tr))
                root (Leaf (LeafPage.SetParentPageId first (next_page_id tr))))
             new_page_id (Leaf (LeafPage.SetParentPageId second (next_page_id tr))))
          (next_page_id tr)
          (Internal {| InternalPage.size_ := 2;
                       InternalPage.max_size_ := internal_max_size_ tr;
                       InternalPage.parent_page_id_ := INVALID_PAGE_ID;
                       InternalPage.array_ :=
                         (0, root) :: (key, new_page_id) :: replicate m (0, 0) |})).
Proof.
  intros Hfirst Hsecond Hslots Hr Hn Hrh Hnh.
  cbn [InsertInParent]. rewrite Z.eqb_refl.
  change (NewPageGuarded tr) with ((NewPageGuarded tr).1, next_page_id tr).
  cbv beta iota.
  set (tr1 := set_root (NewPageGuarded tr).1 (next_page_id tr)).
  assert (H1 : fetch tr1 root = Ok (Leaf first)).
  { unfold fetch, tr1, set_root, NewPageGuarded. cbn [set_page pages header_page_id_ fst].
    by rewrite !lookup_insert_ne, Hfirst by done. }
  assert (H2 : fetch tr1 new_page_id = Ok (Leaf second)).
  { unfold fetch, tr1, set_root, NewPageGuarded. cbn [set_page pages header_page_id_ fst].
    by rewrite !lookup_insert_ne, Hsecond by done. }
  rewrite H1. cbn [mbind res_bind]. rewrite H2. cbn [mbind res_bind set_parent].
  unfold new_internal, InternalPage.Init, zeroes.
  replace (internal_slots tr1) with (S (S m)) by (by rewrite <- Hslots).
  cbn [replicate].
  unfold InternalPage.SetValueAt, InternalPage.SetKeyValueAt.
  cbn [InternalPage.array_ at_ Z.ltb Z.compare Z.to_nat lookup list_lookup of_option
       mbind res_bind].
  change (Z.to_nat 0) with 0%nat. cbn [lookup list_lookup of_option mbind res_bind fst].
  rewrite store_at_Ok by (cbn [length]; lia).
  cbn [mbind res_bind InternalPage.set_array InternalPage.array_ InternalPage.size_
       InternalPage.max_size_ InternalPage.parent_page_id_].
  change (Z.to_nat 0) with 0%nat. cbn [take drop app length Nat.add].
  rewrite store_at_Ok by (cbn [length]; lia).
  cbn [mbind res_bind InternalPage.set_array InternalPage.array_ InternalPage.size_
       InternalPage.max_size_ InternalPage.parent_page_id_ InternalPage.IncreaseSize
       InternalPage.SetSize].
  change (Z.to_nat 1) with 1%nat. cbn [take drop app length Nat.add Z.add].
  reflexivity.
Qed.

(** The value [GetValue] makes of the outcome of [FindValue], on a sorted
    leaf that is not empty. *)
Lemma FindValue_value_spec pg key :
  LeafPage.sorted pg → 1 ≤ LeafPage.size_ pg →
  ∃ o, (r ← LeafPage.FindValue pg key;
        Ok (match r with Some (value, _) => Some value | None => None end)) = Ok o ∧
       ∀ v, o = Some v ↔ (key, v) ∈ LeafPage.entries pg.
Proof.
  intros Hs Hsz.
  destruct (LeafPageProperties.FindValue_cases pg key Hs Hsz)
    as [(i & v & -> & Hi & Hiv) | [-> Hno]]; cbn [mbind res_bind].
  - exists (Some v). split; [done|]. intros v'. split.
    + intros [= <-]. by apply (LeafPageProperties.entries_elem_of pg i).
    + intros Hin. destruct (LeafPageFacts.FindValue_found pg key v' Hs Hin) as (j & Hj & _).
      destruct (LeafPageFacts.FindValue_found pg key v Hs) as (j' & Hj' & _).
      { by apply (LeafPageProperties.entries_elem_of pg i). }
      rewrite Hj in Hj'. by injection Hj' as -> _.
  - exists None. split; [done|]. intros v. split; [done|]. intros Hin.
    destruct Hno. apply LeafPageProperties.elem_of_keys. by exists v.
Qed.

Lemma find_leaf_S fuel tr page_id key :
  find_leaf (S fuel) tr page_id key
  = (pg ← fetch tr page_id;
     match pg with
     | Leaf l => Ok (page_id, l)
     | Internal i =>
         '(child, _) ← InternalPage.FindValue i key;
         find_leaf fuel tr child key
     | _ => Fail Undefined
     end).
Proof. reflexivity. Qed.

Lemma descend_S fuel tr page_id key write_set page_id_to_index :
  descend (S fuel) tr page_id key write_set page_id_to_index
  = (pg ← fetch tr page_id;
     match pg with
     | Leaf l => Ok (write_set, page_id_to_index, page_id, l)
     | Internal i =>
         '(child, index) ← InternalPage.FindValue i key;
         descend fuel tr child key (page_id :: write_set)
                 (<[child := index]> page_id_to_index)
     | _ => Fail Undefined
     end).
Proof. reflexivity. Qed.

Lemma option_eq_by_members (o1 o2 : option Z) :
  (∀ v, o1 = Some v ↔ o2 = Some v) → o1 = o2.
Proof.
  intros H. destruct o1 as [v1|], o2 as [v2|]; [| | |done].
  - symmetry. by apply H.
  - by destruct (proj1 (H v1) eq_refl).
  - by destruct (proj2 (H v2) eq_refl).
Qed.

(** [FindValue] on a page of two entries: the halving loop looks at slot 1
    first, so a key that is not below the key of slot 1 is sent to the
    second child, whatever the key of slot 0. *)
Lemma FindValue_two_slots pg key (e0 e1 : MappingType) rest :
  InternalPage.array_ pg = e0 :: e1 :: rest → InternalPage.size_ pg = 2 →
  e1.1 ≤ key →
  InternalPage.FindValue pg key = Ok (e1.2, 1).
Proof.
  intros Harr Hsize Hle.
  unfold InternalPage.FindValue, InternalPage.FindValue_index, InternalPage.GetSize,
    lower_bound.
  rewrite Harr, Hsize. cbn [Z.leb Z.compare Z.ltb orb length].
  rewrite (proj2 (Z.ltb_ge _ _)) by (cbn [length]; lia).
  change (Z.to_nat (2 - 0)) with 2%nat. change (Z.to_nat 0) with 0%nat.
  cbn [lower_bound_loop Nat.ltb Nat.leb Nat.div Nat.divmod fst Nat.add lookup
       list_lookup].
  rewrite comparator_le, (proj2 (Z.leb_le _ _) Hle).
  cbn [Nat.sub Nat.ltb Nat.leb mbind res_bind].
  change (Z.of_nat 2 - 1) with 1.
  unfold at_. cbn [Z.ltb Z.compare]. change (Z.to_nat 1) with 1%nat.
  cbn [lookup list_lookup of_option mbind res_bind]. done.
Qed.

(** The split of a root that is a leaf. *)
Lemma root_leaf_split_spec fuel tr key value root leaf :
  fetch_header tr = Ok root → root ≠ INVALID_PAGE_ID →
  pages tr !! root = Some (Leaf leaf) →
  LeafPage.sorted leaf → key ∉ LeafPage.keys leaf →
  LeafPage.max_size_ leaf - 1 ≤ LeafPage.size_ leaf →
  LeafPage.size_ leaf < Z.of_nat (length (LeafPage.array_ leaf)) →
  1 ≤ LeafPage.GetMinSize leaf ≤ LeafPage.size_ leaf →
  LeafPage.size_ leaf + 1 - LeafPage.GetMinSize leaf ≤ Z.of_nat (leaf_slots tr) →
  (2 ≤ internal_slots tr)%nat →
  root < next_page_id tr → header_page_id_ tr < next_page_id tr →
  0 ≤ next_page_id tr < 2 ^ 31 - 1 →
  ∃ tr' left right rootpg pushed,
    Insert (S fuel) tr key value = Ok (tr', true) ∧
    fetch_header tr' = Ok (next_page_id tr + 1) ∧
    pages tr' !! (next_page_id tr + 1) = Some (Internal rootpg) ∧
    InternalPage.entries rootpg = [(0, root); (pushed, next_page_id tr)] ∧
    pages tr' !! root = Some (Leaf left) ∧
    pages tr' !! next_page_id tr = Some (Leaf right) ∧
    LeafPage.sorted left ∧ LeafPage.sorted right ∧
    LeafPage.size_ left = LeafPage.GetMinSize leaf ∧
    LeafPage.size_ right = LeafPage.size_ leaf + 1 - LeafPage.GetMinSize leaf ∧
    (∀ e, e ∈ LeafPage.entries left ++ LeafPage.entries right
          ↔ e = (key, value) ∨ e ∈ LeafPage.entries leaf) ∧
    (∀ e, e ∈ LeafPage.entries left → e.1 < pushed) ∧
    (∀ e, e ∈ LeafPage.entries right → pushed ≤ e.1) ∧
    LeafPage.next_page_id_ left = next_page_id tr ∧
    LeafPage.next_page_id_ right = LeafPage.next_page_id_ leaf ∧
    LeafPage.parent_page_id_ left = next_page_id tr + 1 ∧
    LeafPage.parent_page_id_ right = next_page_id tr + 1 ∧
    (∀ p, p ≠ root → p ≠ next_page_id tr → p ≠ next_page_id tr + 1 →
          p ≠ header_page_id_ tr → pages tr' !! p = pages tr !! p) ∧
    (∀ k, 0 ≤ k ∨ pushed ≤ k →
          GetValue (S (S fuel)) tr' k
          = if decide (k = key) then Ok (Some value) else GetValue (S fuel) tr k) ∧
    (∀ k v, k < 0 → k < pushed →
            GetValue (S (S fuel)) tr' k = Fail Undefined ∧
            Insert (S (S fuel)) tr' k v = Fail Undefined).
Proof.
  intros Hroot Hne Hpage Hsorted Hnew Hfull Hroom Hmin Hlslots Hislots Hrn Hhn Hn.
  assert (Hrh : root ≠ header_page_id_ tr).
  { intros ->. apply fetch_header_page in Hroot. congruence. }
  destruct (LeafPageProperties.Insert_new leaf key value Hsorted Hroom Hnew)
    as (r & a & Hins & Hr & Hla & He & Hlt & Hgt).
  pose proof (LeafPageProperties.Insert_new_sorted leaf key value r a
                Hsorted Hroom Hla He Hlt Hgt) as Hs1.
  set (leaf1 := LeafPage.IncreaseSize (LeafPage.set_array leaf a) 1) in *.
  assert (Hmem1 : ∀ e, e ∈ LeafPage.entries leaf1
                       ↔ e = (key, value) ∨ e ∈ LeafPage.entries leaf).
  { intros e. rewrite He, elem_of_app, elem_of_cons.
    rewrite <- (take_drop (Z.to_nat r) (LeafPage.entries leaf)) at 3.
    rewrite elem_of_app. tauto. }
  destruct (split_leaf_spec (NewPageGuarded tr).1 leaf1 (next_page_id tr) Hs1)
    as (left0 & right0 & pushed & Hsplit & Happ & Hsl & Hsr & Hsortl & Hsortr
        & Hhd & Hltp & Hgep & Hnl & Hnr).
  { change (LeafPage.GetMinSize leaf1) with (LeafPage.GetMinSize leaf).
    change (LeafPage.size_ leaf1) with (LeafPage.size_ leaf + 1). lia. }
  { change (LeafPage.GetMinSize leaf1) with (LeafPage.GetMinSize leaf).
    change (LeafPage.size_ leaf1) with (LeafPage.size_ leaf + 1).
    change (leaf_slots (NewPageGuarded tr).1) with (leaf_slots tr). lia. }
  change (LeafPage.GetMinSize leaf1) with (LeafPage.GetMinSize leaf) in Hsl, Hsr.
  change (LeafPage.size_ leaf1) with (LeafPage.size_ leaf + 1) in Hsr.
  change (LeafPage.next_page_id_ leaf1) with (LeafPage.next_page_id_ leaf) in Hnr.
  destruct (internal_slots tr) as [|[|m]] eqn:Hslots; [lia | lia |].
  assert (Hn2 : to_int32 (next_page_id tr + 1) = next_page_id tr + 1)
    by (apply BufferPoolManagerFacts.to_int32_small; lia).
  set (tr_c := set_page (set_page (NewPageGuarded tr).1 root (Leaf left0))
                 (next_page_id tr) (Leaf right0)).
  assert (Hnext_c : next_page_id tr_c = next_page_id tr + 1) by exact Hn2.
  assert (Hc_root : pages tr_c !! root = Some (Leaf left0)).
  { unfold tr_c, NewPageGuarded. cbn [set_page pages fst].
    rewrite lookup_insert_ne by lia. by rewrite lookup_insert_eq. }
  assert (Hc_new : pages tr_c !! next_page_id tr = Some (Leaf right0)).
  { unfold tr_c. cbn [set_page pages]. by rewrite lookup_insert_eq. }
  pose proof (InsertInParent_new_root tr_c root pushed (next_page_id tr) left0 right0 m
                Hc_root Hc_new Hslots ltac:(rewrite Hnext_c; lia)
                ltac:(rewrite Hnext_c; lia) Hrh
                ltac:(change (header_page_id_ tr_c) with (header_page_id_ tr); lia))
    as Hparent.
  rewrite Hnext_c in Hparent.
  set (left := LeafPage.SetParentPageId left0 (next_page_id tr + 1)) in *.
  set (right := LeafPage.SetParentPageId right0 (next_page_id tr + 1)) in *.
  set (rootpg := {| InternalPage.size_ := 2;
                    InternalPage.max_size_ := internal_max_size_ tr_c;
                    InternalPage.parent_page_id_ := INVALID_PAGE_ID;
                    InternalPage.array_ :=
                      (0, root) :: (pushed, next_page_id tr) :: replicate m (0, 0) |}) in *.
  set (tr' := set_page
                (set_page
                   (set_page (set_root (NewPageGuarded tr_c).1 (next_page_id tr + 1))
                      root (Leaf left))
                   (next_page_id tr) (Leaf right))
                (next_page_id tr + 1) (Internal rootpg)) in *.
  assert (Hinsert : Insert (S fuel) tr key value = Ok (tr', true)).
  { unfold Insert. rewrite Hroot. cbn [mbind res_bind].
    rewrite (proj2 (Z.eqb_neq _ _) Hne).
    cbn [descend]. unfold fetch at 1. rewrite Hpage. cbn [of_option mbind res_bind].
    unfold LeafPage.GetSize, LeafPage.GetMaxSize.
    rewrite (proj2 (Z.ltb_ge _ _)) by lia.
    rewrite Hins. cbn [mbind res_bind].
    change (NewPageGuarded tr) with ((NewPageGuarded tr).1, next_page_id tr).
    cbv beta iota. rewrite Hsplit. cbn [mbind res_bind].
    fold tr_c. rewrite Hparent. done. }
  assert (Hp_root : pages tr' !! root = Some (Leaf left)).
  { unfold tr'. cbn [set_page pages].
    rewrite !lookup_insert_ne by lia. by rewrite lookup_insert_eq. }
  assert (Hp_n1 : pages tr' !! next_page_id tr = Some (Leaf right)).
  { unfold tr'. cbn [set_page pages].
    rewrite lookup_insert_ne by lia. by rewrite lookup_insert_eq. }
  assert (Hp_n2 : pages tr' !! (next_page_id tr + 1) = Some (Internal rootpg)).
  { unfold tr'. cbn [set_page pages]. by rewrite lookup_insert_eq. }
  assert (Hhead : fetch_header tr' = Ok (next_page_id tr + 1)).
  { unfold fetch_header, fetch, tr', set_root.
    cbn [set_page pages header_page_id_ NewPageGuarded fst tr_c].
    rewrite !lookup_insert_ne by lia. by rewrite lookup_insert_eq. }
  assert (Hmem : ∀ e, e ∈ LeafPage.entries left ++ LeafPage.entries right
                      ↔ e = (key, value) ∨ e ∈ LeafPage.entries leaf).
  { intros e. change (LeafPage.entries left) with (LeafPage.entries left0).
    change (LeafPage.entries right) with (LeafPage.entries right0).
    by rewrite Happ. }
  exists tr', left, right, rootpg, pushed.
  split; [done|]. split; [done|]. split; [done|]. split; [done|].
  split; [done|]. split; [done|]. split; [exact Hsortl|]. split; [exact Hsortr|].
  split; [exact Hsl|]. split; [exact Hsr|]. split; [exact Hmem|].
  split; [exact Hltp|]. split; [exact Hgep|]. split; [exact Hnl|]. split; [exact Hnr|].
  split; [done|]. split; [done|]. split; [|split].
  - intros p Hp1 Hp2 Hp3 Hp4. unfold tr', set_root.
    cbn [set_page pages header_page_id_ NewPageGuarded fst tr_c].
    rewrite Hnext_c. rewrite !lookup_insert_ne by done. done.
  - intros k Hk.
    assert (Hold : GetValue (S fuel) tr k
                   = (r ← LeafPage.FindValue leaf k;
                      Ok (match r with Some (value, _) => Some value | None => None end))).
    { rewrite (GetValue_unfold (S fuel) tr root k Hroot Hne).
      cbn [find_leaf]. unfold fetch. by rewrite Hpage. }
    destruct (FindValue_value_spec leaf k Hsorted ltac:(lia)) as (o & Ho & Hospec).
    rewrite Hold, Ho.
    rewrite (GetValue_unfold (S (S fuel)) tr' (next_page_id tr + 1) k Hhead ltac:(unfold INVALID_PAGE_ID; lia)).
    rewrite find_leaf_S. unfold fetch at 1. rewrite Hp_n2. cbn [of_option mbind res_bind].
    assert (Hside : ∃ child slot side,
              InternalPage.FindValue rootpg k = Ok (child, slot) ∧
              fetch tr' child = Ok (Leaf side) ∧ LeafPage.sorted side ∧
              1 ≤ LeafPage.size_ side ∧
              ∀ v, (k, v) ∈ LeafPage.entries side
                   ↔ (k, v) ∈ LeafPage.entries left ++ LeafPage.entries right).
    { destruct (Z_lt_le_dec k pushed) as [Hkp | Hkp].
      - destruct (InternalPageFacts.FindValue_above_placeholder rootpg k (0, root))
          as (i & e & Hfv & Hi & Hie & Hek & Hafter).
        { cbn [InternalPage.size_ InternalPage.array_ rootpg length]. lia. }
        { intros i j x y Hi Hij Hj. cbn [InternalPage.size_ rootpg] in Hj. lia. }
        { reflexivity. }
        { simpl. lia. }
        cbn [InternalPage.size_ rootpg] in Hi, Hafter.
        assert (i = 0 ∨ i = 1) as [-> | ->] by lia.
        + injection Hie as <-. exists root, 0, left. split; [exact Hfv|].
          unfold fetch. rewrite Hp_root.
          split; [done|]. split; [exact Hsortl|].
          split; [change (LeafPage.size_ left) with (LeafPage.size_ left0); lia|].
          intros v. rewrite elem_of_app. split; [by left|]. intros [H | H]; [done|].
          apply Hgep in H. simpl in H. lia.
        + injection Hie as <-. simpl in Hek. lia.
      - exists (next_page_id tr), 1, right. split.
        { apply (FindValue_two_slots rootpg k (0, root) (pushed, next_page_id tr)
                   (replicate m (0, 0))); [reflexivity | reflexivity | exact Hkp]. }
        unfold fetch. rewrite Hp_n1.
        split; [done|]. split; [exact Hsortr|].
        split; [change (LeafPage.size_ right) with (LeafPage.size_ right0); lia|].
        intros v. rewrite elem_of_app. split; [by right|]. intros [H | H]; [|done].
        apply Hltp in H. simpl in H. lia. }
    destruct Hside as (child & slot & side & Hfv & Hfetch & Hsside & Hszside & Hmside).
    rewrite Hfv. cbn [mbind res_bind].
    rewrite find_leaf_S, Hfetch. cbn [mbind res_bind].
    destruct (FindValue_value_spec side k Hsside Hszside) as (o' & Ho' & Ho'spec).
    rewrite Ho'.
    destruct (decide (k = key)) as [->|Hkk].
    + f_equal. apply Ho'spec, Hmside, Hmem. by left.
    + f_equal. apply option_eq_by_members. intros v.
      rewrite Ho'spec, Hospec, Hmside, Hmem. split; [|by right].
      intros [[=] | H]; done.
  - intros k v Hk0 Hkp.
    destruct (InternalPageFacts.FindValue_below_first_keys rootpg k (0, root)
                (pushed, next_page_id tr)) as [_ Hfv].
    { cbn [InternalPage.size_ InternalPage.array_ rootpg length]. lia. }
    { intros i j x y Hi Hij Hj. cbn [InternalPage.size_ rootpg] in Hj. lia. }
    { reflexivity. }
    { reflexivity. }
    { simpl. lia. }
    { simpl. lia. }
    assert (Hvalid : next_page_id tr + 1 ≠ INVALID_PAGE_ID)
      by (unfold INVALID_PAGE_ID; lia).
    split.
    + rewrite (GetValue_unfold (S (S fuel)) tr' (next_page_id tr + 1) k Hhead Hvalid).
      rewrite find_leaf_S. unfold fetch at 1. rewrite Hp_n2.
      cbn [of_option mbind res_bind]. by rewrite Hfv.
    + unfold Insert. rewrite Hhead. cbn [mbind res_bind].
      rewrite (proj2 (Z.eqb_neq _ _) Hvalid).
      rewrite descend_S. unfold fetch at 1. rewrite Hp_n2.
      cbn [of_option mbind res_bind]. by rewrite Hfv.
Qed.

(** X25.  [Insert] of a new key into a root that is a sorted leaf without
    room ([size >= max_size - 1]): the call returns true, the leaf keeps its
    first [min_size] entries and a new leaf linked after it receives the
    others, the inserted entry being in one of them, and a new root is made
    over the two leaves with the first key of the new leaf as separator; the
    header points to the new root and the other pages are untouched.  For
    the keys that are not negative or not below the separator, [GetValue]
    then finds the new key and returns for every other key what it returned
    before.  For a negative key below the separator, the new key or a key of
    the left leaf included, the descent reads in front of the array of the
    new root, whose slot 0 has the key 0: [GetValue] and [Insert] are
    undefined. *)
Theorem Insert_splits_a_full_root_leaf fuel tr key value root leaf :
  fetch_header tr = Ok root → root ≠ INVALID_PAGE_ID →
  pages tr !! root = Some (Leaf leaf) →
  LeafPage.sorted leaf → key ∉ LeafPage.keys leaf →
  LeafPage.max_size_ leaf - 1 ≤ LeafPage.size_ leaf →
  LeafPage.size_ leaf < Z.of_nat (length (LeafPage.array_ leaf)) →
  1 ≤ LeafPage.GetMinSize leaf ≤ LeafPage.size_ leaf →
  LeafPage.size_ leaf + 1 - LeafPage.GetMinSize leaf ≤ Z.of_nat (leaf_slots tr) →
  (2 ≤ internal_slots tr)%nat →
  root < next_page_id tr → header_page_id_ tr < next_page_id tr →
  0 ≤ next_page_id tr < 2 ^ 31 - 1 →
  ∃ tr' left right rootpg pushed,
    Insert (S fuel) tr key value = Ok (tr', true) ∧
    fetch_header tr' = Ok (next_page_id tr + 1) ∧
    pages tr' !! (next_page_id tr + 1) = Some (Internal rootpg) ∧
    InternalPage.entries rootpg = [(0, root); (pushed, next_page_id tr)] ∧
    pages tr' !! root = Some (Leaf left) ∧
    pages tr' !! next_page_id tr = Some (Leaf right) ∧
    LeafPage.sorted left ∧ LeafPage.sorted right ∧
    LeafPage.size_ left = LeafPage.GetMinSize leaf ∧
    LeafPage.size_ right = LeafPage.size_ leaf + 1 - LeafPage.GetMinSize leaf ∧
    (∀ e, e ∈ LeafPage.entries left ++ LeafPage.entries right
          ↔ e = (key, value) ∨ e ∈ LeafPage.entries leaf) ∧
    (∀ e, e ∈ LeafPage.entries left → e.1 < pushed) ∧
    (∀ e, e ∈ LeafPage.entries right → pushed ≤ e.1) ∧
    LeafPage.next_page_id_ left = next_page_id tr ∧
    LeafPage.next_page_id_ right = LeafPage.next_page_id_ leaf ∧
    LeafPage.parent_page_id_ left = next_page_id tr + 1 ∧
    LeafPage.parent_page_id_ right = next_page_id tr + 1 ∧
    (∀ p, p ≠ root → p ≠ next_page_id tr → p ≠ next_page_id tr + 1 →
          p ≠ header_page_id_ tr → pages tr' !! p = pages tr !! p) ∧
    (∀ k, 0 ≤ k ∨ pushed ≤ k →
          GetValue (S (S fuel)) tr' k
          = if decide (k = key) then Ok (Some value) else GetValue (S fuel) tr k) ∧
    (∀ k v, k < 0 → k < pushed →
            GetValue (S (S fuel)) tr' k = Fail Undefined ∧
            Insert (S (S fuel)) tr' k v = Fail Undefined).
Proof. apply root_leaf_split_spec. Qed.

Lemma Insert_splits_a_full_root_leaf_witness :
  ∃ tr' left right rootpg pushed,
    Insert 8 tree_123 4 4 = Ok (tr', true) ∧
    fetch_header tr' = Ok (next_page_id tree_123 + 1) ∧
    pages tr' !! (next_page_id tree_123 + 1) = Some (Internal rootpg) ∧
    InternalPage.entries rootpg = [(0, 1); (pushed, next_page_id tree_123)] ∧
    pages tr' !! 1 = Some (Leaf left) ∧
    pages tr' !! next_page_id tree_123 = Some (Leaf right) ∧
    LeafPage.sorted left ∧ LeafPage.sorted right ∧
    LeafPage.size_ left = 2 ∧
    LeafPage.size_ right = 3 + 1 - 2 ∧
    (∀ e, e ∈ LeafPage.entries left ++ LeafPage.entries right
          ↔ e = (4, 4) ∨ e ∈ [(1, 1); (2, 2); (3, 3)]) ∧
    (∀ e, e ∈ LeafPage.entries left → e.1 < pushed) ∧
    (∀ e, e ∈ LeafPage.entries right → pushed ≤ e.1) ∧
    LeafPage.next_page_id_ left = next_page_id tree_123 ∧
    LeafPage.next_page_id_ right = INVALID_PAGE_ID ∧
    LeafPage.parent_page_id_ left = next_page_id tree_123 + 1 ∧
    LeafPage.parent_page_id_ right = next_page_id tree_123 + 1 ∧
    (∀ p, p ≠ 1 → p ≠ next_page_id tree_123 → p ≠ next_page_id tree_123 + 1 →
          p ≠ header_page_id_ tree_123 → pages tr' !! p = pages tree_123 !! p) ∧
    (∀ k, 0 ≤ k ∨ pushed ≤ k →
          GetValue 9 tr' k
          = if decide (k = 4) then Ok (Some 4) else GetValue 8 tree_123 k) ∧
    (∀ k v, k < 0 → k < pushed →
            GetValue 9 tr' k = Fail Undefined ∧ Insert 9 tr' k v = Fail Undefined).
Proof.
  apply (Insert_splits_a_full_root_leaf 7 tree_123 4 4 1
           {| LeafPage.size_ := 3; LeafPage.max_size_ := 4;
              LeafPage.parent_page_id_ := 4;
              LeafPage.next_page_id_ := INVALID_PAGE_ID;
              LeafPage.array_ := [(1, 1); (2, 2); (3, 3); (0, 0);
                                  (0, 0); (0, 0); (0, 0); (0, 0)] |}).
  - vm_compute. reflexivity.
  - discriminate.
  - vm_compute. reflexivity.
  - apply LeafPageFacts.sortedb_sound. vm_compute. reflexivity.
  - vm_compute. intros H. apply list_elem_of_In in H. simpl in H.
    destruct H as [H | [H | [H | H]]]; [discriminate | discriminate | discriminate | done].
  - simpl. lia.
  - simpl. lia.
  - vm_compute. split; discriminate.
  - vm_compute. discriminate.
  - simpl. lia.
  - simpl. lia.
  - simpl. lia.
  - simpl. lia.
Defined.

(** [InsertInParent] when the page that was split is not the root and its
    parent has room: the separator goes into the parent. *)
Lemma InsertInParent_with_room tr root key new_page_id cur_page_id parent_id rest
    parent parent' :
  cur_page_id ≠ root →
  pages tr !! parent_id = Some (Internal parent) →
  InternalPage.size_ parent < InternalPage.max_size_ parent →
  InternalPage.Insert parent key new_page_id = Ok parent' →
  InsertInParent (cur_page_id :: parent_id :: rest) tr root key new_page_id
  = Ok (set_page tr parent_id (Internal parent')).
Proof.
  intros Hne Hp Hroom Hins. cbn [InsertInParent].
  rewrite (proj2 (Z.eqb_neq _ _) Hne). unfold fetch_internal, fetch. rewrite Hp.
  cbn [of_option mbind res_bind]. unfold InternalPage.GetSize, InternalPage.GetMaxSize.
  rewrite (proj2 (Z.ltb_lt _ _) Hroom). by rewrite Hins.
Qed.

(** The slot an internal page routes a set of keys to: the key of the slot
    is not above them and the keys of the later slots are. *)
Lemma routed_slot parent (e0 : MappingType) child slot (P : Z → Prop) k0 :
  1 ≤ InternalPage.size_ parent ≤ Z.of_nat (length (InternalPage.array_ parent)) →
  InternalPage.routing_sorted parent →
  InternalPage.array_ parent !! 0%nat = Some e0 →
  P k0 →
  (∀ k, P k → e0.1 ≤ k ∧ InternalPage.FindValue parent k = Ok (child, slot)) →
  ∃ e_s : MappingType,
    0 ≤ slot < InternalPage.size_ parent ∧
    InternalPage.array_ parent !! Z.to_nat slot = Some e_s ∧ e_s.2 = child ∧
    ∀ k, P k →
      e_s.1 ≤ k ∧
      ∀ j (x : MappingType),
        slot < j < InternalPage.size_ parent →
        InternalPage.array_ parent !! Z.to_nat j = Some x → k < x.1.
Proof.
  intros Hsize Hsorted H0 Hk0 Hroute.
  assert (Hone : ∀ k, P k →
            ∃ e : MappingType,
              0 ≤ slot < InternalPage.size_ parent ∧
              InternalPage.array_ parent !! Z.to_nat slot = Some e ∧ e.2 = child ∧
              e.1 ≤ k ∧
              ∀ j (x : MappingType),
                slot < j < InternalPage.size_ parent →
                InternalPage.array_ parent !! Z.to_nat j = Some x → k < x.1).
  { intros k Hk. destruct (Hroute k Hk) as [Hle Hfv].
    destruct (InternalPageFacts.FindValue_above_placeholder parent k e0 Hsize Hsorted H0 Hle)
      as (i & e & Hfv' & Hi & Hie & Hek & Hafter).
    rewrite Hfv in Hfv'. injection Hfv' as Hc Hs. subst i. by exists e. }
  destruct (Hone k0 Hk0) as (e_s & Hslot & Hes & Hchild & _).
  exists e_s. do 3 (split; [done|]). intros k Hk.
  destruct (Hone k Hk) as (e & _ & He & _ & Hle & Hafter).
  pose proof (eq_trans (eq_sym Hes) He) as [= <-]. done.
Qed.

(** X28.  [Insert] of a new key into a sorted leaf without room that hangs
    under a root with room, the root routing the key and the keys of the
    leaf to that leaf: the call returns true; the leaf keeps its first
    [min_size] entries and a new leaf linked after it receives the others,
    the inserted entry being in one of them; the first key of the new leaf
    is inserted into the root as the separator of the new leaf, the routing
    keys of the root staying in increasing order; the header and the other
    pages are untouched.  [GetValue] then finds every entry of the two
    leaves. *)
Theorem Insert_splits_a_leaf_under_a_root_with_room
    fuel tr key value root parent leaf_id slot leaf (e0 : MappingType) :
  fetch_header tr = Ok root → root ≠ INVALID_PAGE_ID →
  pages tr !! root = Some (Internal parent) →
  pages tr !! leaf_id = Some (Leaf leaf) →
  1 ≤ InternalPage.size_ parent < InternalPage.max_size_ parent →
  InternalPage.size_ parent < Z.of_nat (length (InternalPage.array_ parent)) →
  InternalPage.routing_sorted parent →
  InternalPage.array_ parent !! 0%nat = Some e0 →
  e0.1 ≤ key → InternalPage.FindValue parent key = Ok (leaf_id, slot) →
  (∀ e, e ∈ LeafPage.entries leaf →
        e0.1 ≤ e.1 ∧ InternalPage.FindValue parent e.1 = Ok (leaf_id, slot)) →
  LeafPage.sorted leaf → key ∉ LeafPage.keys leaf →
  LeafPage.max_size_ leaf - 1 ≤ LeafPage.size_ leaf →
  LeafPage.size_ leaf < Z.of_nat (length (LeafPage.array_ leaf)) →
  1 ≤ LeafPage.GetMinSize leaf ≤ LeafPage.size_ leaf →
  LeafPage.size_ leaf + 1 - LeafPage.GetMinSize leaf ≤ Z.of_nat (leaf_slots tr) →
  root < next_page_id tr → leaf_id < next_page_id tr →
  header_page_id_ tr < next_page_id tr →
  ∃ tr' left right parent' pushed,
    Insert (S (S fuel)) tr key value = Ok (tr', true) ∧
    fetch_header tr' = Ok root ∧
    pages tr' !! root = Some (Internal parent') ∧
    pages tr' !! leaf_id = Some (Leaf left) ∧
    pages tr' !! next_page_id tr = Some (Leaf right) ∧
    (∀ p, p ≠ root → p ≠ leaf_id → p ≠ next_page_id tr →
          pages tr' !! p = pages tr !! p) ∧
    LeafPage.sorted left ∧ LeafPage.sorted right ∧
    LeafPage.size_ left = LeafPage.GetMinSize leaf ∧
    LeafPage.size_ right = LeafPage.size_ leaf + 1 - LeafPage.GetMinSize leaf ∧
    (∀ e, e ∈ LeafPage.entries left ++ LeafPage.entries right
          ↔ e = (key, value) ∨ e ∈ LeafPage.entries leaf) ∧
    (∀ e, e ∈ LeafPage.entries left → e.1 < pushed) ∧
    (∀ e, e ∈ LeafPage.entries right → pushed ≤ e.1) ∧
    LeafPage.next_page_id_ left = next_page_id tr ∧
    LeafPage.next_page_id_ right = LeafPage.next_page_id_ leaf ∧
    InternalPage.size_ parent' = InternalPage.size_ parent + 1 ∧
    InternalPage.routing_sorted parent' ∧
    InternalPage.array_ parent' !! 0%nat = Some e0 ∧
    (∀ e, e ∈ InternalPage.entries parent'
          ↔ e = (pushed, next_page_id tr) ∨ e ∈ InternalPage.entries parent) ∧
    (∀ k v, (k, v) ∈ LeafPage.entries left ++ LeafPage.entries right →
            GetValue (S (S fuel)) tr' k = Ok (Some v)).
Proof.
  intros Hroot Hne Hparent Hleaf Hpsize Hproom Hpsorted Hp0 Hkey0 Hkroute Hroute
         Hsorted Hnew Hfull Hroom Hmin Hlslots Hrn Hln Hhn.
  assert (Hlr : leaf_id ≠ root) by (intros ->; congruence).
  assert (Hrh : root ≠ header_page_id_ tr).
  { intros ->. apply fetch_header_page in Hroot. congruence. }
  assert (Hlh : leaf_id ≠ header_page_id_ tr).
  { intros ->. apply fetch_header_page in Hroot. congruence. }
  (* the leaf after the insertion, and its split *)
  destruct (LeafPageProperties.Insert_new leaf key value Hsorted Hroom Hnew)
    as (r0 & a & Hins & Hr0 & Hla & He & Hlt & Hgt).
  pose proof (LeafPageProperties.Insert_new_sorted leaf key value r0 a
                Hsorted Hroom Hla He Hlt Hgt) as Hs1.
  set (leaf1 := LeafPage.IncreaseSize (LeafPage.set_array leaf a) 1) in *.
  assert (Hmem1 : ∀ e, e ∈ LeafPage.entries leaf1
                       ↔ e = (key, value) ∨ e ∈ LeafPage.entries leaf).
  { intros e. rewrite He, elem_of_app, elem_of_cons.
    rewrite <- (take_drop (Z.to_nat r0) (LeafPage.entries leaf)) at 3.
    rewrite elem_of_app. tauto. }
  destruct (split_leaf_spec (NewPageGuarded tr).1 leaf1 (next_page_id tr) Hs1)
    as (left & right & pushed & Hsplit & Happ & Hsl & Hsr & Hsortl & Hsortr
        & Hhd & Hltp & Hgep & Hnl & Hnr).
  { change (LeafPage.GetMinSize leaf1) with (LeafPage.GetMinSize leaf).
    change (LeafPage.size_ leaf1) with (LeafPage.size_ leaf + 1). lia. }
  { change (LeafPage.GetMinSize leaf1) with (LeafPage.GetMinSize leaf).
    change (LeafPage.size_ leaf1) with (LeafPage.size_ leaf + 1).
    change (leaf_slots (NewPageGuarded tr).1) with (leaf_slots tr). lia. }
  change (LeafPage.GetMinSize leaf1) with (LeafPage.GetMinSize leaf) in Hsl, Hsr.
  change (LeafPage.size_ leaf1) with (LeafPage.size_ leaf + 1) in Hsr.
  change (LeafPage.next_page_id_ leaf1) with (LeafPage.next_page_id_ leaf) in Hnr.
  assert (Hmem : ∀ e, e ∈ LeafPage.entries left ++ LeafPage.entries right
                      ↔ e = (key, value) ∨ e ∈ LeafPage.entries leaf).
  { intros e. by rewrite Happ. }
  (* where the root routes the keys of the two leaves *)
  set (P := λ k, ∃ v, (k, v) ∈ LeafPage.entries left ++ LeafPage.entries right).
  assert (HP : ∀ k, P k →
                    e0.1 ≤ k ∧ InternalPage.FindValue parent k = Ok (leaf_id, slot)).
  { intros k [v Hkv]. apply Hmem in Hkv as [[= -> ->] | Hkv]; [done|].
    apply (Hroute (k, v) Hkv). }
  assert (Hpkey : P key) by (exists value; apply Hmem; by left).
  destruct (routed_slot parent e0 leaf_id slot P key ltac:(lia) Hpsorted Hp0 Hpkey HP)
    as (e_s & Hslot & Hes & Hchild & Hbounds).
  destruct Hhd as (v_p & rest_r & Hhd).
  assert (Hppushed : P pushed).
  { exists v_p. apply elem_of_app. right. rewrite Hhd. by left. }
  assert (Hes_lt : e_s.1 < pushed).
  { destruct (LeafPage.entries left) as [|e_f rest_l] eqn:Hel.
    - apply (f_equal length) in Hel. unfold LeafPage.entries in Hel.
      rewrite length_take in Hel. simpl in Hel.
      destruct Hsortl as [Hlen _]. lia.
    - assert (Hpf : P e_f.1).
      { exists e_f.2. rewrite <- surjective_pairing. by left. }
      pose proof (proj1 (Hbounds _ Hpf)). pose proof (Hltp e_f ltac:(left)). lia. }
  destruct (Hbounds pushed Hppushed) as [_ Hafter_p].
  (* the separator goes into the root *)
  destruct (InternalPageProperties.Insert_separator_spec parent pushed (next_page_id tr) e0)
    as (r & parent' & Hpins & Hr & Hpsz & _ & _ & Hplen & Hpslot & Hpmem & Hpsorted'
        & Hp0' & Hpat & Hplt & Hpgt);
    [lia | lia | done | done | by destruct (HP pushed Hppushed) | |].
  { intros i x Hi Hx Heq.
    destruct (Z_lt_le_dec slot i) as [Hsi | Hsi].
    - specialize (Hafter_p i x ltac:(lia) Hx). lia.
    - destruct (decide (i = slot)) as [-> | Hnei].
      + pose proof (eq_trans (eq_sym Hes) Hx) as [= <-]. lia.
      + pose proof (Hpsorted i slot x e_s ltac:(lia) ltac:(lia) ltac:(lia) Hx Hes). lia. }
  assert (Hrslot : r = slot + 1).
  { destruct (Z.lt_trichotomy r (slot + 1)) as [Hlt' | [-> | Hgt']]; [|done|].
    - specialize (Hpgt slot e_s ltac:(lia) Hes). lia.
    - destruct (lookup_lt_is_Some_2 (InternalPage.array_ parent) (Z.to_nat (slot + 1)))
        as [x Hx]; [lia|].
      specialize (Hplt (slot + 1) x ltac:(lia) Hx).
      specialize (Hafter_p (slot + 1) x ltac:(lia) Hx). lia. }
  subst r.
  (* the tree [Insert] returns *)
  set (tr_c := set_page (set_page (NewPageGuarded tr).1 leaf_id (Leaf left))
                 (next_page_id tr) (Leaf right)).
  set (tr' := set_page tr_c root (Internal parent')).
  assert (Hc_root : pages tr_c !! root = Some (Internal parent)).
  { unfold tr_c, NewPageGuarded. cbn [set_page pages fst].
    rewrite !lookup_insert_ne by lia. done. }
  assert (Hdesc : descend (S (S fuel)) tr root key [] ∅
                  = Ok ([root], <[leaf_id := slot]> ∅, leaf_id, leaf)).
  { cbn [descend]. unfold fetch. rewrite Hparent. cbn [of_option mbind res_bind].
    rewrite Hkroute. cbn [mbind res_bind]. by rewrite Hleaf. }
  assert (Hinsert : Insert (S (S fuel)) tr key value = Ok (tr', true)).
  { unfold Insert. rewrite Hroot. cbn [mbind res_bind].
    rewrite (proj2 (Z.eqb_neq _ _) Hne), Hdesc. cbn [mbind res_bind].
    unfold LeafPage.GetSize, LeafPage.GetMaxSize.
    rewrite (proj2 (Z.ltb_ge _ _)) by lia.
    rewrite Hins. cbn [mbind res_bind].
    change (NewPageGuarded tr) with ((NewPageGuarded tr).1, next_page_id tr).
    cbv beta iota. rewrite Hsplit. cbn [mbind res_bind]. fold tr_c.
    rewrite (InsertInParent_with_room tr_c root pushed (next_page_id tr) leaf_id root []
               parent parent' Hlr Hc_root ltac:(lia) Hpins).
    done. }
  assert (Hp_root : pages tr' !! root = Some (Internal parent')).
  { unfold tr'. cbn [set_page pages]. by rewrite lookup_insert_eq. }
  assert (Hp_leaf : pages tr' !! leaf_id = Some (Leaf left)).
  { unfold tr', tr_c. cbn [set_page pages].
    rewrite !lookup_insert_ne by lia. by rewrite lookup_insert_eq. }
  assert (Hp_new : pages tr' !! next_page_id tr = Some (Leaf right)).
  { unfold tr', tr_c. cbn [set_page pages].
    rewrite lookup_insert_ne by lia. by rewrite lookup_insert_eq. }
  assert (Hhead : fetch_header tr' = Ok root).
  { rewrite <- Hroot. unfold fetch_header, fetch, tr', tr_c, NewPageGuarded.
    cbn [set_page pages header_page_id_ fst].
    by rewrite !lookup_insert_ne by lia. }
  exists tr', left, right, parent', pushed.
  split; [done|]. split; [done|]. split; [done|]. split; [done|]. split; [done|].
  split.
  { intros p Hp1 Hp2 Hp3. unfold tr', tr_c, NewPageGuarded. cbn [set_page pages fst].
    by rewrite !lookup_insert_ne by done. }
  split; [done|]. split; [done|]. split; [done|]. split; [done|]. split; [done|].
  split; [done|]. split; [done|]. split; [done|]. split; [done|]. split; [done|].
  split; [done|]. split; [done|]. split; [done|].
  (* the entries of the two leaves are found *)
  intros k v Hkv.
  assert (Hpk : P k) by (by exists v).
  destruct (HP k Hpk) as [Hk0 _].
  destruct (Hbounds k Hpk) as [Hlow Hhigh].
  rewrite (GetValue_unfold (S (S fuel)) tr' root k Hhead Hne).
  rewrite find_leaf_S. unfold fetch at 1. rewrite Hp_root. cbn [of_option mbind res_bind].
  destruct (InternalPageFacts.FindValue_above_placeholder parent' k e0)
    as (i & e & Hfv & Hi & Hie & Hek & Hafter); [lia | done | done | done |].
  rewrite Hfv. cbn [mbind res_bind]. rewrite find_leaf_S.
  assert (Hie' : InternalPage.entries parent' !! Z.to_nat i = Some e)
    by (apply InternalPageProperties.internal_entries_lookup; split; [done | lia]).
  rewrite Hpslot in Hie'.
  assert (Hside : (k < pushed ∧ e.2 = leaf_id) ∨ (pushed ≤ k ∧ e.2 = next_page_id tr)).
  { destruct (decide (Z.to_nat i < Z.to_nat (slot + 1))%nat) as [Hi1 | Hi1];
      [|destruct (decide (Z.to_nat i = Z.to_nat (slot + 1))) as [Hi2 | Hi2]].
    - apply InternalPageProperties.internal_entries_lookup in Hie' as [Hie' _].
      destruct (Z_lt_le_dec k pushed) as [Hkp | Hkp].
      + left. split; [done|].
        destruct (decide (i = slot)) as [-> | Hnei].
        * pose proof (eq_trans (eq_sym Hes) Hie') as [= <-]. done.
        * assert (Hes' : InternalPage.array_ parent' !! Z.to_nat slot = Some e_s).
          { assert (InternalPage.entries parent' !! Z.to_nat slot = Some e_s) as H.
            { rewrite Hpslot, decide_True by lia.
              apply InternalPageProperties.internal_entries_lookup. split; [done | lia]. }
            by apply InternalPageProperties.internal_entries_lookup in H as [H _]. }
          specialize (Hafter slot e_s ltac:(lia) Hes'). lia.
      + specialize (Hafter (slot + 1) (pushed, next_page_id tr) ltac:(lia) Hpat).
        simpl in Hafter. lia.
    - injection Hie' as <-. right. simpl in Hek. simpl. done.
    - apply InternalPageProperties.internal_entries_lookup in Hie' as [Hie' _].
      specialize (Hhigh (i - 1) e ltac:(lia)).
      replace (Z.to_nat (i - 1)) with (Z.to_nat i - 1)%nat in Hhigh by lia.
      specialize (Hhigh Hie'). lia. }
  apply elem_of_app in Hkv.
  assert (Hfind : ∃ side, fetch tr' e.2 = Ok (Leaf side) ∧ LeafPage.sorted side ∧
                          (k, v) ∈ LeafPage.entries side).
  { destruct Hside as [[Hkp ->] | [Hkp ->]].
    - exists left. unfold fetch. rewrite Hp_leaf. split; [done|]. split; [done|].
      destruct Hkv as [H | H]; [done|]. apply Hgep in H. simpl in H. lia.
    - exists right. unfold fetch. rewrite Hp_new. split; [done|]. split; [done|].
      destruct Hkv as [H | H]; [|done]. apply Hltp in H. simpl in H. lia. }
  destruct Hfind as (side & -> & Hsside & Hin).
  cbn [mbind res_bind].
  destruct (LeafPageFacts.FindValue_found side k v Hsside Hin) as (j & -> & _).
  done.
Qed.

Lemma Insert_splits_a_leaf_under_a_root_with_room_witness :
  let parent := {| InternalPage.size_ := 2; InternalPage.max_size_ := 5;
                   InternalPage.parent_page_id_ := INVALID_PAGE_ID;
                   InternalPage.array_ := [(0, 1); (3, 2); (0, 0); (0, 0);
                                           (0, 0); (0, 0); (0, 0); (0, 0)] |} in
  let leaf := {| LeafPage.size_ := 3; LeafPage.max_size_ := 4;
                 LeafPage.parent_page_id_ := 3; LeafPage.next_page_id_ := -1;
                 LeafPage.array_ := [(3, 3); (4, 4); (5, 5); (0, 0);
                                     (0, 0); (0, 0); (0, 0); (0, 0)] |} in
  ∃ tr' left right parent' pushed,
    Insert 8 S3_tree 6 6 = Ok (tr', true) ∧
    fetch_header tr' = Ok 3 ∧
    pages tr' !! 3 = Some (Internal parent') ∧
    pages tr' !! 2 = Some (Leaf left) ∧
    pages tr' !! next_page_id S3_tree = Some (Leaf right) ∧
    (∀ p, p ≠ 3 → p ≠ 2 → p ≠ next_page_id S3_tree →
          pages tr' !! p = pages S3_tree !! p) ∧
    LeafPage.sorted left ∧ LeafPage.sorted right ∧
    LeafPage.size_ left = LeafPage.GetMinSize leaf ∧
    LeafPage.size_ right = LeafPage.size_ leaf + 1 - LeafPage.GetMinSize leaf ∧
    (∀ e, e ∈ LeafPage.entries left ++ LeafPage.entries right
          ↔ e = (6, 6) ∨ e ∈ LeafPage.entries leaf) ∧
    (∀ e, e ∈ LeafPage.entries left → e.1 < pushed) ∧
    (∀ e, e ∈ LeafPage.entries right → pushed ≤ e.1) ∧
    LeafPage.next_page_id_ left = next_page_id S3_tree ∧
    LeafPage.next_page_id_ right = LeafPage.next_page_id_ leaf ∧
    InternalPage.size_ parent' = InternalPage.size_ parent + 1 ∧
    InternalPage.routing_sorted parent' ∧
    InternalPage.array_ parent' !! 0%nat = Some (0, 1) ∧
    (∀ e, e ∈ InternalPage.entries parent'
          ↔ e = (pushed, next_page_id S3_tree) ∨ e ∈ InternalPage.entries parent) ∧
    (∀ k v, (k, v) ∈ LeafPage.entries left ++ LeafPage.entries right →
            GetValue 8 tr' k = Ok (Some v)).
Proof.
  intros parent leaf.
  apply (Insert_splits_a_leaf_under_a_root_with_room 6 S3_tree 6 6 3 parent 2 1 leaf (0, 1)).
  - vm_compute. reflexivity.
  - discriminate.
  - vm_compute. reflexivity.
  - vm_compute. reflexivity.
  - simpl. lia.
  - simpl. lia.
  - apply InternalPageProperties.routing_sorted_entries. vm_compute.
    repeat (constructor; [|repeat constructor; lia]). constructor.
  - reflexivity.
  - simpl. lia.
  - vm_compute. reflexivity.
  - intros e He. apply list_elem_of_In in He. simpl in He.
    destruct He as [<- | [<- | [<- | []]]];
      (split; [simpl; lia | vm_compute; reflexivity]).
  - apply LeafPageFacts.sortedb_sound. vm_compute. reflexivity.
  - vm_compute. intros H. apply list_elem_of_In in H. simpl in H.
    destruct H as [H | [H | [H | H]]]; [discriminate | discriminate | discriminate | done].
  - simpl. lia.
  - simpl. lia.
  - vm_compute. split; discriminate.
  - vm_compute. discriminate.
  - simpl. lia.
  - simpl. lia.
  - simpl. lia.
Defined.

End BPlusTreeSplitProperties.
Module IndexIteratorProperties.
Import BPlusTreePage BPlusTreePageFacts IndexIterator IndexIteratorFacts.

Section WithPool.
Variable fetch_leaf : Z → res LeafPage.t.

(** One [operator++] from a slot in use of a leaf. *)
Lemma incr_steps it leaf :
  cur_page_id_ it ≠ INVALID_PAGE_ID →
  fetch_leaf (cur_page_id_ it) = Ok leaf →
  0 ≤ index_ it < LeafPage.size_ leaf →
  LeafPage.size_ leaf ≤ Z.of_nat (length (LeafPage.array_ leaf)) →
  (index_ it < LeafPage.size_ leaf - 1 →
   ∀ e, LeafPage.array_ leaf !! Z.to_nat (index_ it + 1) = Some e →
        incr fetch_leaf it =
        Ok {| cur_page_id_ := cur_page_id_ it; index_ := index_ it + 1; entry_ := e |})
  ∧
  (index_ it = LeafPage.size_ leaf - 1 →
   LeafPage.next_page_id_ leaf ≠ INVALID_PAGE_ID →
   ∀ next_leaf e,
     fetch_leaf (LeafPage.next_page_id_ leaf) = Ok next_leaf →
     0 < LeafPage.size_ next_leaf →
     LeafPage.array_ next_leaf !! 0%nat = Some e →
     incr fetch_leaf it =
     Ok {| cur_page_id_ := LeafPage.next_page_id_ leaf; index_ := 0; entry_ := e |})
  ∧
  (index_ it = LeafPage.size_ leaf - 1 →
   LeafPage.next_page_id_ leaf = INVALID_PAGE_ID →
   incr fetch_leaf it =
   Ok {| cur_page_id_ := INVALID_PAGE_ID; index_ := -1; entry_ := entry_ it |}).
Proof.
  intros Hcur Hleaf Hidx Hcap.
  assert (HisEnd : IsEnd fetch_leaf it =
            Ok ((LeafPage.next_page_id_ leaf =? INVALID_PAGE_ID)
                && (index_ it =? LeafPage.size_ leaf - 1))).
  { unfold IsEnd. by rewrite Hleaf. }
  assert (Hstart : ∀ k, (if cur_page_id_ it =? INVALID_PAGE_ID then Ok it else k) = k).
  { intros k. by rewrite (proj2 (Z.eqb_neq _ _) Hcur). }
  split; [|split].
  - intros Hlt e He.
    destruct (leaf_entry_at leaf (index_ it + 1) e) as [Hk Hv]; [lia | lia | done|].
    unfold incr. rewrite Hstart, Hleaf, HisEnd. cbn [mbind res_bind].
    rewrite (proj2 (Z.eqb_neq (index_ it) _)) by lia. rewrite andb_false_r.
    unfold LeafPage.GetSize. rewrite (proj2 (Z.ltb_lt _ _) Hlt).
    rewrite Hk, Hv. cbn [mbind res_bind]. by destruct e.
  - intros Hlast Hnext next_leaf e Hnl Hsz He.
    destruct (leaf_entry_at next_leaf 0 e) as [Hk Hv]; [lia | lia | done|].
    unfold incr. rewrite Hstart, Hleaf, HisEnd. cbn [mbind res_bind].
    rewrite (proj2 (Z.eqb_neq (LeafPage.next_page_id_ leaf) _)) by done.
    cbn [andb]. unfold LeafPage.GetSize, LeafPage.GetNextPageId.
    rewrite (proj2 (Z.ltb_ge _ _)) by lia.
    rewrite Hnl. cbn [mbind res_bind]. rewrite Hk, Hv. cbn [mbind res_bind].
    by destruct e.
  - intros Hlast Hnext.
    unfold incr. rewrite Hstart, Hleaf, HisEnd. cbn [mbind res_bind].
    rewrite Hnext, Hlast, !Z.eqb_refl. done.
Qed.

Lemma leaf_chain_head page_id leaf leaves :
  leaf_chain fetch_leaf page_id (leaf :: leaves) →
  page_id ≠ INVALID_PAGE_ID ∧ fetch_leaf page_id = Ok leaf ∧
  1 ≤ LeafPage.size_ leaf ≤ Z.of_nat (length (LeafPage.array_ leaf)) ∧
  ((leaves = [] ∧ LeafPage.next_page_id_ leaf = INVALID_PAGE_ID) ∨
   (LeafPage.next_page_id_ leaf ≠ INVALID_PAGE_ID ∧
    ∃ leaf2 leaves2, leaves = leaf2 :: leaves2 ∧
                     leaf_chain fetch_leaf (LeafPage.next_page_id_ leaf) leaves)).
Proof.
  inversion 1 as [p l Hp Hf Hs Hn | p l ls Hp Hf Hs Hn Hrest]; subst.
  - do 3 (split; [done|]). by left.
  - do 3 (split; [done|]). right. split; [done|].
    inversion Hrest; subst; by eexists _, _.
Qed.

(** The iterator at slot [i] of the first leaf of a chain: [k] steps lead
    to the [k]-th of the entries that follow, and as many steps as there are
    entries lead to the end sentinel. *)
Lemma advance_walk n :
  ∀ page_id leaf leaves i e,
  leaf_chain fetch_leaf page_id (leaf :: leaves) →
  0 ≤ i < LeafPage.size_ leaf →
  LeafPage.array_ leaf !! Z.to_nat i = Some e →
  length (drop (Z.to_nat i) (LeafPage.entries leaf)
          ++ concat (LeafPage.entries <$> leaves)) = n →
  (∀ k e',
     (drop (Z.to_nat i) (LeafPage.entries leaf)
      ++ concat (LeafPage.entries <$> leaves)) !! k = Some e' →
     ∃ it', advance fetch_leaf k
              {| cur_page_id_ := page_id; index_ := i; entry_ := e |} = Ok it' ∧
            entry_ it' = e' ∧ cur_page_id_ it' ≠ INVALID_PAGE_ID) ∧
  ∃ e_last,
    advance fetch_leaf n {| cur_page_id_ := page_id; index_ := i; entry_ := e |}
    = Ok {| cur_page_id_ := INVALID_PAGE_ID; index_ := -1; entry_ := e_last |}.
Proof.
  induction n as [|n IH]; intros page_id leaf leaves i e Hchain Hi He Hlen;
    destruct (leaf_chain_head _ _ _ Hchain) as (Hp & Hf & Hs & Hrest);
    assert (Hhd : drop (Z.to_nat i) (LeafPage.entries leaf)
                  = e :: drop (S (Z.to_nat i)) (LeafPage.entries leaf))
      by (apply drop_S, LeafPageFacts.entries_lookup; split; [done | lia]);
    rewrite Hhd in Hlen |- *; [done|].
  simpl in Hlen. injection Hlen as Hlen.
  set (it := {| cur_page_id_ := page_id; index_ := i; entry_ := e |}).
  destruct (incr_steps it leaf Hp Hf Hi ltac:(lia)) as (Hsame & Hnext & Hend).
  assert (Hstep : ∀ it1,
            incr fetch_leaf it = Ok it1 →
            (∀ k e', (drop (S (Z.to_nat i)) (LeafPage.entries leaf)
                      ++ concat (LeafPage.entries <$> leaves)) !! k = Some e' →
                     ∃ it', advance fetch_leaf k it1 = Ok it' ∧ entry_ it' = e' ∧
                            cur_page_id_ it' ≠ INVALID_PAGE_ID) →
            ∀ k e', ((e :: drop (S (Z.to_nat i)) (LeafPage.entries leaf))
                     ++ concat (LeafPage.entries <$> leaves)) !! k = Some e' →
                    ∃ it', advance fetch_leaf k it = Ok it' ∧ entry_ it' = e' ∧
                           cur_page_id_ it' ≠ INVALID_PAGE_ID).
  { intros it1 Hincr Hrec k e' Hk. destruct k as [|k].
    - injection Hk as <-. by exists it.
    - simpl in Hk. cbn [advance]. rewrite Hincr. cbn [mbind res_bind]. by apply Hrec. }
  destruct (decide (i < LeafPage.size_ leaf - 1)) as [Hlt | Hlast].
  - destruct (lookup_lt_is_Some_2 (LeafPage.array_ leaf) (Z.to_nat (i + 1)))
      as [e1 He1]; [lia|].
    specialize (Hsame Hlt e1 He1).
    destruct (IH page_id leaf leaves (i + 1) e1 Hchain ltac:(lia) He1) as [Hall Hfin].
    { replace (Z.to_nat (i + 1)) with (S (Z.to_nat i)) by lia. exact Hlen. }
    replace (Z.to_nat (i + 1)) with (S (Z.to_nat i)) in Hall by lia.
    split; [by apply (Hstep _ Hsame)|].
    destruct Hfin as [e_last Hfin]. exists e_last.
    cbn [advance]. fold it. rewrite Hsame. exact Hfin.
  - assert (Hnil : drop (S (Z.to_nat i)) (LeafPage.entries leaf) = []).
    { apply drop_ge. unfold LeafPage.entries. rewrite length_take. lia. }
    rewrite Hnil in Hlen, Hstep |- *.
    destruct Hrest as [[-> Hinv] | (Hninv & leaf2 & leaves2 & -> & Hchain2)].
    + specialize (Hend ltac:(simpl; lia) Hinv). simpl in Hlen. subst n. split.
      * intros k e' Hk. destruct k as [|k]; [|done].
        injection Hk as <-. by exists it.
      * exists e. cbn [advance]. fold it. by rewrite Hend.
    + destruct (leaf_chain_head _ _ _ Hchain2) as (Hp2 & Hf2 & Hs2 & _).
      destruct (lookup_lt_is_Some_2 (LeafPage.array_ leaf2) 0) as [e2 He2]; [lia|].
      specialize (Hnext ltac:(simpl; lia) Hninv leaf2 e2 Hf2 ltac:(lia) He2).
      destruct (IH (LeafPage.next_page_id_ leaf) leaf2 leaves2 0 e2 Hchain2
                  ltac:(lia) He2) as [Hall Hfin].
      { simpl in Hlen. rewrite length_app in Hlen. simpl. by rewrite length_app. }
      split.
      * apply (Hstep _ Hnext). intros k e' Hk. apply Hall. exact Hk.
      * destruct Hfin as [e_last Hfin]. exists e_last.
        cbn [advance]. fold it. rewrite Hnext. exact Hfin.
Qed.

End WithPool.

(** X26.  Iterating over the tree: when the leftmost leaf starts a chain of
    leaves linked by [next_page_id], each holding an entry, [Begin] returns
    the iterator on the first entry; [k] applications of [operator++] lead to
    the [k]-th entry of the leaves taken in chain order, an iterator that
    differs from [End]; and after as many applications as there are entries
    the iterator equals [End]. *)
Theorem iteration_visits_the_leaf_chain fuel tr root page_id leaf leaves :
  BPlusTree.fetch_header tr = Ok root → root ≠ INVALID_PAGE_ID →
  BPlusTree.leftmost fuel tr root = Ok (page_id, leaf) →
  leaf_chain (BPlusTree.fetch_leaf tr) page_id (leaf :: leaves) →
  ∃ it0,
    BPlusTree.Begin fuel tr = Ok it0 ∧
    (∀ k e,
       concat (LeafPage.entries <$> (leaf :: leaves)) !! k = Some e →
       ∃ it, advance (BPlusTree.fetch_leaf tr) k it0 = Ok it ∧
             deref it = e ∧ eqb it BPlusTree.End = false) ∧
    (∃ it, advance (BPlusTree.fetch_leaf tr)
             (length (concat (LeafPage.entries <$> (leaf :: leaves)))) it0 = Ok it ∧
           eqb it BPlusTree.End = true).
Proof.
  intros Hroot Hne Hleft Hchain.
  destruct (leaf_chain_head _ _ _ _ Hchain) as (Hp & Hf & Hs & _).
  destruct (lookup_lt_is_Some_2 (LeafPage.array_ leaf) 0) as [e0 He0]; [lia|].
  destruct (leaf_entry_at leaf 0 e0) as [Hk Hv]; [lia | lia | done|].
  exists {| cur_page_id_ := page_id; index_ := 0; entry_ := e0 |}.
  split.
  { unfold BPlusTree.Begin. rewrite Hroot. cbn [mbind res_bind].
    rewrite (proj2 (Z.eqb_neq _ _) Hne), Hleft. cbn [mbind res_bind].
    rewrite Hk, Hv. cbn [mbind res_bind]. by destruct e0. }
  assert (Hlen : length (drop (Z.to_nat 0) (LeafPage.entries leaf)
                         ++ concat (LeafPage.entries <$> leaves))
                 = length (concat (LeafPage.entries <$> (leaf :: leaves))))
    by reflexivity.
  destruct (advance_walk (BPlusTree.fetch_leaf tr) _
              page_id leaf leaves 0 e0 Hchain ltac:(lia) He0 Hlen) as [Hall Hfin].
  split.
  - intros k e Hke. destruct (Hall k e Hke) as (it & Hit & He & Hcur).
    exists it. split; [done|]. split; [done|].
    unfold eqb. cbn. by rewrite (proj2 (Z.eqb_neq _ _) Hcur).
  - destruct Hfin as [e_last Hfin]. eexists. split; [exact Hfin | done].
Qed.

Lemma iteration_visits_the_leaf_chain_witness :
  ∃ it0,
    BPlusTree.Begin 8 BPlusTree.S3_tree = Ok it0 ∧
    (∀ k e,
       [(1, 1); (2, 2); (3, 3); (4, 4); (5, 5)] !! k = Some e →
       ∃ it, advance (BPlusTree.fetch_leaf BPlusTree.S3_tree) k it0 = Ok it ∧
             deref it = e ∧ eqb it BPlusTree.End = false) ∧
    (∃ it, advance (BPlusTree.fetch_leaf BPlusTree.S3_tree) 5 it0 = Ok it ∧
           eqb it BPlusTree.End = true).
Proof.
  apply (iteration_visits_the_leaf_chain 8 BPlusTree.S3_tree 3 1
           {| LeafPage.size_ := 2; LeafPage.max_size_ := 4;
              LeafPage.parent_page_id_ := 3; LeafPage.next_page_id_ := 2;
              LeafPage.array_ := [(1, 1); (2, 2); (3, 3); (4, 4);
                                  (0, 0); (0, 0); (0, 0); (0, 0)] |}
           [{| LeafPage.size_ := 3; LeafPage.max_size_ := 4;
               LeafPage.parent_page_id_ := 3; LeafPage.next_page_id_ := -1;
               LeafPage.array_ := [(3, 3); (4, 4); (5, 5); (0, 0);
                                   (0, 0); (0, 0); (0, 0); (0, 0)] |}]).
  - vm_compute. reflexivity.
  - discriminate.
  - vm_compute. reflexivity.
  - apply leaf_chain_next.
    + discriminate.
    + vm_compute. reflexivity.
    + simpl. lia.
    + discriminate.
    + apply leaf_chain_last.
      * discriminate.
      * vm_compute. reflexivity.
      * simpl. lia.
      * reflexivity.
Defined.

End IndexIteratorProperties.
Module BPlusTreeDefects.
Import BPlusTreePage BPlusTreePageFacts PageArrayFacts BPlusTree BPlusTreeFacts.
Import BPlusTreeProperties BPlusTreeSplitProperties.

(** The first insertion, with the fields [Init(leaf_max_size_)] gives the
    new leaf. *)
Lemma Insert_into_an_empty_tree fuel tr key value :
  fetch_header tr = Ok INVALID_PAGE_ID → (1 ≤ leaf_slots tr)%nat →
  ∃ leaf,
    Insert fuel tr key value
    = Ok (set_page (set_root (NewPageGuarded tr).1 (next_page_id tr))
            (next_page_id tr) (Leaf leaf), true) ∧
    LeafPage.sorted leaf ∧ LeafPage.entries leaf = [(key, value)] ∧
    LeafPage.size_ leaf = 1 ∧
    LeafPage.max_size_ leaf = leaf_default_max_size tr ∧
    LeafPage.parent_page_id_ leaf = leaf_max_size_ tr ∧
    LeafPage.next_page_id_ leaf = INVALID_PAGE_ID ∧
    length (LeafPage.array_ leaf) = leaf_slots tr.
Proof.
  intros Hroot Hslots.
  set (tr1 := set_root (NewPageGuarded tr).1 (next_page_id tr)).
  assert (Hsorted0 : LeafPage.sorted (new_leaf tr1)).
  { split; [simpl; lia|]. intros i j x y _ Hi.
    apply LeafPageFacts.entries_lookup in Hi as [_ Hi]. simpl in Hi. lia. }
  assert (Hroom : LeafPage.size_ (new_leaf tr1)
                  < Z.of_nat (length (LeafPage.array_ (new_leaf tr1)))).
  { cbn. unfold zeroes. rewrite length_replicate. lia. }
  assert (Hnew : key ∉ LeafPage.keys (new_leaf tr1)) by (cbn; apply not_elem_of_nil).
  destruct (LeafPageProperties.Insert_new _ key value Hsorted0 Hroom Hnew)
    as (r & a & Hins & Hr & Hla & He & Hlt & Hgt).
  pose proof (LeafPageProperties.Insert_new_sorted _ key value r a
                Hsorted0 Hroom Hla He Hlt Hgt) as Hs'.
  exists (LeafPage.IncreaseSize (LeafPage.set_array (new_leaf tr1) a) 1).
  split; [|split; [done|split; [|split; [done|split; [done|split; [done|split; [done|]]]]]]].
  - unfold Insert. rewrite Hroot. cbn [mbind res_bind]. rewrite Z.eqb_refl.
    change (LeafPage.Insert (new_leaf tr1) key value
            ≫= (λ '(page, _), Ok (set_page tr1 (next_page_id tr) (Leaf page), true))
            = Ok (set_page tr1 (next_page_id tr)
                    (Leaf (LeafPage.IncreaseSize (LeafPage.set_array (new_leaf tr1) a) 1)),
                  true)).
    by rewrite Hins.
  - assert (r = 0) as -> by (cbn in Hr; lia). rewrite He. reflexivity.
  - cbn [LeafPage.IncreaseSize LeafPage.SetSize LeafPage.set_array LeafPage.array_].
    rewrite Hla. cbn [new_leaf LeafPage.Init LeafPage.array_]. unfold zeroes.
    by rewrite length_replicate.
Qed.

(** [Insert] of a key above all the keys of a root that is a leaf with
    room: the entry is appended to the leaf, whose other fields stay. *)
Lemma Insert_appends_to_a_root_leaf fuel tr key value root leaf :
  fetch_header tr = Ok root → root ≠ INVALID_PAGE_ID →
  pages tr !! root = Some (Leaf leaf) →
  LeafPage.sorted leaf → (∀ e, e ∈ LeafPage.entries leaf → e.1 < key) →
  LeafPage.size_ leaf < LeafPage.max_size_ leaf - 1 →
  LeafPage.size_ leaf < Z.of_nat (length (LeafPage.array_ leaf)) →
  ∃ leaf',
    Insert (S fuel) tr key value = Ok (set_page tr root (Leaf leaf'), true) ∧
    LeafPage.sorted leaf' ∧
    LeafPage.entries leaf' = LeafPage.entries leaf ++ [(key, value)] ∧
    LeafPage.size_ leaf' = LeafPage.size_ leaf + 1 ∧
    LeafPage.max_size_ leaf' = LeafPage.max_size_ leaf ∧
    LeafPage.parent_page_id_ leaf' = LeafPage.parent_page_id_ leaf ∧
    LeafPage.next_page_id_ leaf' = LeafPage.next_page_id_ leaf ∧
    length (LeafPage.array_ leaf') = length (LeafPage.array_ leaf).
Proof.
  intros Hroot Hne Hpage Hsorted Habove Hsize Hroom.
  assert (Hnew : key ∉ LeafPage.keys leaf).
  { intros Hin. apply LeafPageProperties.elem_of_keys in Hin as [v Hin].
    specialize (Habove _ Hin). simpl in Habove. lia. }
  destruct (LeafPageProperties.Insert_new leaf key value Hsorted Hroom Hnew)
    as (r & a & Hins & Hr & Hla & He & Hlt & Hgt).
  pose proof (LeafPageProperties.Insert_new_sorted leaf key value r a
                Hsorted Hroom Hla He Hlt Hgt) as Hs'.
  assert (Hdrop : drop (Z.to_nat r) (LeafPage.entries leaf) = []).
  { destruct (drop (Z.to_nat r) (LeafPage.entries leaf)) as [|x rest] eqn:Hd; [done|].
    assert (Hx : x ∈ LeafPage.entries leaf).
    { rewrite <- (take_drop (Z.to_nat r) (LeafPage.entries leaf)), Hd.
      apply elem_of_app. right. by left. }
    pose proof (Hgt x ltac:(by left)). pose proof (Habove x Hx). lia. }
  exists (LeafPage.IncreaseSize (LeafPage.set_array leaf a) 1).
  split; [|split; [done|split; [|done]]].
  - unfold Insert. rewrite Hroot. cbn [mbind res_bind].
    rewrite (proj2 (Z.eqb_neq _ _) Hne).
    rewrite descend_S. unfold fetch. rewrite Hpage. cbn [of_option mbind res_bind].
    unfold LeafPage.GetSize, LeafPage.GetMaxSize.
    rewrite (proj2 (Z.ltb_lt _ _) Hsize). by rewrite Hins.
  - rewrite He, Hdrop.
    rewrite <- (take_drop (Z.to_nat r) (LeafPage.entries leaf)) at 2.
    by rewrite Hdrop, app_nil_r.
Qed.

(** C2 (the code on S3).  [Init(leaf_max_size_)] gives a new leaf the
    tree's [leaf_max_size_] as its parent page id and the default of the
    declaration as its [max_size_].  With a default of 6 or more, on pages of
    at least 5 slots, the keys 1 to 5 all take the path without a split,
    whatever [leaf_max_size_] is: after them the root is still the page 1, a
    leaf that holds the five keys, with the default as [max_size_] and
    [leaf_max_size_] as parent page id; no second leaf and no internal root
    exist, and the pool has handed out one page. *)
Theorem Insert_1_to_5_leaves_one_leaf
    fuel (leaf_max_size internal_max_size default : Z) (slots islots : nat) :
  6 ≤ default → (5 ≤ slots)%nat →
  ∃ tr leaf,
    insert_all (S fuel) (init 0 leaf_max_size internal_max_size default slots islots)
               [1; 2; 3; 4; 5] = Ok tr ∧
    fetch_header tr = Ok 1 ∧
    pages tr !! 1 = Some (Leaf leaf) ∧
    LeafPage.entries leaf = [(1, 1); (2, 2); (3, 3); (4, 4); (5, 5)] ∧
    LeafPage.max_size_ leaf = default ∧
    LeafPage.parent_page_id_ leaf = leaf_max_size ∧
    LeafPage.next_page_id_ leaf = INVALID_PAGE_ID ∧
    next_page_id tr = 2 ∧
    (∀ p, p ≠ 0 → p ≠ 1 → pages tr !! p = None).
Proof.
  intros Hdefault Hslots.
  set (tr0 := init 0 leaf_max_size internal_max_size default slots islots).
  destruct (Insert_into_an_empty_tree (S fuel) tr0 1 1)
    as (l1 & H1 & Hs1 & He1 & Hz1 & Hm1 & Hp1 & Hn1 & Hl1);
    [reflexivity | simpl; lia |].
  set (tr1 := set_page (set_root (NewPageGuarded tr0).1 (next_page_id tr0))
                (next_page_id tr0) (Leaf l1)) in *.
  assert (Hstep : ∀ tr l k es,
            fetch_header tr = Ok 1 → pages tr !! 1 = Some (Leaf l) →
            LeafPage.sorted l → LeafPage.entries l = es →
            (∀ e, e ∈ es → e.1 < k) →
            LeafPage.size_ l < 5 → LeafPage.max_size_ l = default →
            length (LeafPage.array_ l) = slots →
            ∃ l', Insert (S fuel) tr k k = Ok (set_page tr 1 (Leaf l'), true) ∧
                  fetch_header (set_page tr 1 (Leaf l')) = Ok 1 ∧
                  pages (set_page tr 1 (Leaf l')) !! 1 = Some (Leaf l') ∧
                  LeafPage.sorted l' ∧ LeafPage.entries l' = es ++ [(k, k)] ∧
                  LeafPage.size_ l' = LeafPage.size_ l + 1 ∧
                  LeafPage.max_size_ l' = default ∧
                  LeafPage.parent_page_id_ l' = LeafPage.parent_page_id_ l ∧
                  LeafPage.next_page_id_ l' = LeafPage.next_page_id_ l ∧
                  length (LeafPage.array_ l') = slots).
  { intros tr l k es Hh Hpg Hs He Hab Hz Hm Hl.
    destruct (Insert_appends_to_a_root_leaf fuel tr k k 1 l Hh ltac:(done) Hpg Hs)
      as (l' & Hi & Hs' & He' & Hz' & Hm' & Hp' & Hn' & Hl'); [by rewrite He | lia | lia |].
    exists l'. split; [done|]. split.
    { rewrite fetch_header_set_page; [done|]. by eapply leaf_is_not_the_header. }
    split; [cbn [set_page pages]; by rewrite lookup_insert_eq|].
    split; [done|]. split; [by rewrite He', He|]. split; [done|].
    split; [by rewrite Hm'|]. split; [done|]. split; [done|]. by rewrite Hl'. }
  assert (Hh1 : fetch_header tr1 = Ok 1) by reflexivity.
  assert (Hpg1 : pages tr1 !! 1 = Some (Leaf l1)).
  { unfold tr1. cbn [set_page pages]. apply lookup_insert_eq. }
  destruct (Hstep tr1 l1 2 [(1, 1)] Hh1 Hpg1 Hs1 He1)
    as (l2 & H2 & Hh2 & Hpg2 & Hs2 & He2 & Hz2 & Hm2 & Hp2 & Hn2 & Hl2);
    [ intros e He; apply list_elem_of_In in He; simpl in He;
      destruct He as [<- | []]; simpl; lia | lia | done | done |].
  set (tr2 := set_page tr1 1 (Leaf l2)) in *.
  destruct (Hstep tr2 l2 3 _ Hh2 Hpg2 Hs2 He2)
    as (l3 & H3 & Hh3 & Hpg3 & Hs3 & He3 & Hz3 & Hm3 & Hp3 & Hn3 & Hl3);
    [ intros e He; apply list_elem_of_In in He; simpl in He;
      destruct He as [<- | [<- | []]]; simpl; lia | lia | done | done |].
  set (tr3 := set_page tr2 1 (Leaf l3)) in *.
  destruct (Hstep tr3 l3 4 _ Hh3 Hpg3 Hs3 He3)
    as (l4 & H4 & Hh4 & Hpg4 & Hs4 & He4 & Hz4 & Hm4 & Hp4 & Hn4 & Hl4);
    [ intros e He; apply list_elem_of_In in He; simpl in He;
      destruct He as [<- | [<- | [<- | []]]]; simpl; lia | lia | done | done |].
  set (tr4 := set_page tr3 1 (Leaf l4)) in *.
  destruct (Hstep tr4 l4 5 _ Hh4 Hpg4 Hs4 He4)
    as (l5 & H5 & Hh5 & Hpg5 & Hs5 & He5 & Hz5 & Hm5 & Hp5 & Hn5 & Hl5);
    [ intros e He; apply list_elem_of_In in He; simpl in He;
      destruct He as [<- | [<- | [<- | [<- | []]]]]; simpl; lia | lia | done | done |].
  exists (set_page tr4 1 (Leaf l5)), l5.
  split.
  { unfold insert_all. cbn [foldl mbind res_bind].
    fold tr0. rewrite H1. cbn [mbind res_bind]. fold tr1.
    rewrite H2. cbn [mbind res_bind]. fold tr2.
    rewrite H3. cbn [mbind res_bind]. fold tr3.
    rewrite H4. cbn [mbind res_bind]. fold tr4.
    rewrite H5. done. }
  split; [done|]. split; [done|]. split; [done|]. split; [done|].
  split; [by rewrite Hp5, Hp4, Hp3, Hp2|].
  split; [by rewrite Hn5, Hn4, Hn3, Hn2|].
  split; [reflexivity|].
  intros p Hp0 Hp1'. unfold tr4, tr3, tr2, tr1, tr0, set_root, init.
  cbn [set_page pages NewPageGuarded fst header_page_id_ next_page_id].
  rewrite !lookup_insert_ne by lia. apply lookup_singleton_ne. lia.
Qed.

Lemma Insert_1_to_5_leaves_one_leaf_witness :
  ∃ tr leaf,
    insert_all 8 (init 0 4 5 254 254 254) [1; 2; 3; 4; 5] = Ok tr ∧
    fetch_header tr = Ok 1 ∧
    pages tr !! 1 = Some (Leaf leaf) ∧
    LeafPage.entries leaf = [(1, 1); (2, 2); (3, 3); (4, 4); (5, 5)] ∧
    LeafPage.max_size_ leaf = 254 ∧
    LeafPage.parent_page_id_ leaf = 4 ∧
    LeafPage.next_page_id_ leaf = INVALID_PAGE_ID ∧
    next_page_id tr = 2 ∧
    (∀ p, p ≠ 0 → p ≠ 1 → pages tr !! p = None).
Proof.
  exact (Insert_1_to_5_leaves_one_leaf 7 4 5 254 254 254
           ltac:(lia) ltac:(apply Nat.leb_le; vm_compute; reflexivity)).
Defined.

(** C5 (the code on a present key below the placeholder).  Take a tree
    whose root is an internal page of at least two entries with increasing
    routing keys, and a key that a leaf of the tree holds and that is below
    the key of slot 0 and below the first routing key of the root.  The
    descent of [Insert] for that key calls [FindValue] on the root, which
    reads in front of the array: [Insert] of the key is undefined, and so
    are [GetValue] and [Remove]; the call does not return false. *)
Theorem Insert_of_a_present_key_below_the_placeholder
    fuel tr key value v root pg (e0 e1 : MappingType) leaf_id leaf :
  fetch_header tr = Ok root → root ≠ INVALID_PAGE_ID →
  pages tr !! root = Some (Internal pg) →
  2 ≤ InternalPage.size_ pg ≤ Z.of_nat (length (InternalPage.array_ pg)) →
  InternalPage.routing_sorted pg →
  InternalPage.array_ pg !! 0%nat = Some e0 →
  InternalPage.array_ pg !! 1%nat = Some e1 →
  pages tr !! leaf_id = Some (Leaf leaf) → (key, v) ∈ LeafPage.entries leaf →
  key < e0.1 → key < e1.1 →
  Insert (S fuel) tr key value = Fail Undefined ∧
  GetValue (S fuel) tr key = Fail Undefined ∧
  Remove (S fuel) tr key = Fail Undefined.
Proof.
  intros Hroot Hne Hpage Hsize Hsorted H0 H1 _ _ Hlt0 Hlt1.
  destruct (InternalPageFacts.FindValue_below_first_keys pg key e0 e1
              Hsize Hsorted H0 H1 Hlt0 Hlt1) as [_ Hfv].
  split; [|split].
  - unfold Insert. rewrite Hroot. cbn [mbind res_bind].
    rewrite (proj2 (Z.eqb_neq _ _) Hne).
    rewrite descend_S. unfold fetch. rewrite Hpage.
    cbn [of_option mbind res_bind]. by rewrite Hfv.
  - rewrite (GetValue_unfold (S fuel) tr root key Hroot Hne).
    rewrite find_leaf_S. unfold fetch. rewrite Hpage.
    cbn [of_option mbind res_bind]. by rewrite Hfv.
  - unfold Remove. rewrite Hroot. cbn [mbind res_bind].
    rewrite (proj2 (Z.eqb_neq _ _) Hne).
    rewrite descend_S. unfold fetch. rewrite Hpage.
    cbn [of_option mbind res_bind]. by rewrite Hfv.
Qed.

Lemma Insert_of_a_present_key_below_the_placeholder_witness :
  Insert 8 tree_with_minus_1 (-1) 77 = Fail Undefined ∧
  GetValue 8 tree_with_minus_1 (-1) = Fail Undefined ∧
  Remove 8 tree_with_minus_1 (-1) = Fail Undefined.
Proof.
  apply (Insert_of_a_present_key_below_the_placeholder 7 tree_with_minus_1 (-1) 77 (-1) 3
           {| InternalPage.size_ := 2; InternalPage.max_size_ := 5;
              InternalPage.parent_page_id_ := INVALID_PAGE_ID;
              InternalPage.array_ := [(0, 1); (2, 2); (0, 0); (0, 0);
                                      (0, 0); (0, 0); (0, 0); (0, 0)] |}
           (0, 1) (2, 2) 1
           {| LeafPage.size_ := 2; LeafPage.max_size_ := 4;
              LeafPage.parent_page_id_ := 3; LeafPage.next_page_id_ := 2;
              LeafPage.array_ := [(-1, -1); (1, 1); (2, 2); (3, 3);
                                  (0, 0); (0, 0); (0, 0); (0, 0)] |}).
  - vm_compute. reflexivity.
  - discriminate.
  - vm_compute. reflexivity.
  - simpl. lia.
  - intros i j x y Hi Hij Hj. simpl in Hj. lia.
  - reflexivity.
  - reflexivity.
  - vm_compute. reflexivity.
  - left.
  - simpl. lia.
  - simpl. lia.
Defined.

(** The tree of the witness is one the code builds: with a default of 4,
    the keys -1, 1, 2, 3 inserted into the fresh tree give it, the key -1
    being stored in the left leaf; before the key 3 splits the leaf, [Insert]
    of -1 returns false with the tree unchanged. *)
Lemma tree_with_minus_1_is_built :
  insert_all 8 fresh_tree [-1; 1; 2; 3] = Ok tree_with_minus_1 ∧
  (∃ leaf, pages tree_with_minus_1 !! 1 = Some (Leaf leaf) ∧
           LeafPage.entries leaf = [(-1, -1); (1, 1)]) ∧
  insert_all 8 fresh_tree [-1; 1; 2]
  = Ok (tree_of [(0, Header 1);
                 (1, leaf_of 3 4 INVALID_PAGE_ID [(-1, -1); (1, 1); (2, 2)])] 2) ∧
  Insert 8 (tree_of [(0, Header 1);
                     (1, leaf_of 3 4 INVALID_PAGE_ID [(-1, -1); (1, 1); (2, 2)])] 2)
         (-1) 77
  = Ok (tree_of [(0, Header 1);
                 (1, leaf_of 3 4 INVALID_PAGE_ID [(-1, -1); (1, 1); (2, 2)])] 2, false).
Proof.
  split; [vm_compute; reflexivity|]. split.
  - exists {| LeafPage.size_ := 2; LeafPage.max_size_ := 4;
              LeafPage.parent_page_id_ := 3; LeafPage.next_page_id_ := 2;
              LeafPage.array_ := [(-1, -1); (1, 1); (2, 2); (3, 3);
                                  (0, 0); (0, 0); (0, 0); (0, 0)] |}.
    split; vm_compute; reflexivity.
  - split; vm_compute; reflexivity.
Qed.

(** Such trees arise whatever the default of [Init] is.  Take a root that
    is a sorted leaf without room whose least key is negative: before the
    split [Insert] of that key returns false with the tree unchanged; the
    [Insert] of a greater new key splits the leaf, the negative key stays in
    the left leaf, and from then on [Insert] of it is undefined. *)
Lemma a_root_split_hides_its_negative_key fuel tr key value k0 v0 v root leaf :
  fetch_header tr = Ok root → root ≠ INVALID_PAGE_ID →
  pages tr !! root = Some (Leaf leaf) →
  LeafPage.sorted leaf → key ∉ LeafPage.keys leaf →
  LeafPage.max_size_ leaf - 1 ≤ LeafPage.size_ leaf →
  LeafPage.size_ leaf < Z.of_nat (length (LeafPage.array_ leaf)) →
  1 ≤ LeafPage.GetMinSize leaf ≤ LeafPage.size_ leaf →
  LeafPage.size_ leaf + 1 - LeafPage.GetMinSize leaf ≤ Z.of_nat (leaf_slots tr) →
  (2 ≤ internal_slots tr)%nat →
  root < next_page_id tr → header_page_id_ tr < next_page_id tr →
  0 ≤ next_page_id tr < 2 ^ 31 - 1 →
  (k0, v0) ∈ LeafPage.entries leaf → k0 < 0 → k0 < key →
  (∀ e, e ∈ LeafPage.entries leaf → k0 ≤ e.1) →
  Insert (S fuel) tr k0 v = Ok (tr, false) ∧
  ∃ tr' left,
    Insert (S fuel) tr key value = Ok (tr', true) ∧
    pages tr' !! root = Some (Leaf left) ∧ (k0, v0) ∈ LeafPage.entries left ∧
    Insert (S (S fuel)) tr' k0 v = Fail Undefined ∧
    GetValue (S (S fuel)) tr' k0 = Fail Undefined.
Proof.
  intros Hroot Hne Hpage Hsorted Hnew Hfull Hroom Hmin Hlslots Hislots Hrn Hhn Hn
         Hin Hneg Hlt Hleast.
  split.
  { apply (Insert_duplicate_returns_false_unchanged (S fuel) tr k0 v v0 root root leaf);
      [done | done | | done | done].
    rewrite find_leaf_S. unfold fetch. by rewrite Hpage. }
  destruct (root_leaf_split_spec fuel tr key value root leaf Hroot Hne Hpage Hsorted Hnew
              Hfull Hroom Hmin Hlslots Hislots Hrn Hhn Hn)
    as (tr' & left & right & rootpg & pushed & Hins & _ & _ & _ & Hleft & _ & Hsl & _
        & Hszl & _ & Hmem & Hltp & Hgep & _ & _ & _ & _ & _ & _ & Hundef).
  assert (Hk0 : k0 < pushed).
  { destruct (LeafPage.entries left) as [|e_f rest] eqn:Hel.
    - pose proof (LeafPageProperties.length_entries left (proj1 Hsl)) as Hlen.
      rewrite Hel in Hlen. simpl in Hlen. lia.
    - pose proof (Hltp e_f ltac:(by left)) as Hf.
      assert (Hm : e_f ∈ (e_f :: rest) ++ LeafPage.entries right)
        by (apply elem_of_app; left; by left).
      apply Hmem in Hm as [-> | Hm]; [simpl in Hf; lia|].
      specialize (Hleast e_f Hm). lia. }
  exists tr', left. split; [done|]. split; [done|]. split.
  - assert (Hm : (k0, v0) ∈ LeafPage.entries left ++ LeafPage.entries right)
      by (apply Hmem; by right).
    apply elem_of_app in Hm as [Hm | Hm]; [done|].
    apply Hgep in Hm. simpl in Hm. lia.
  - destruct (Hundef k0 v Hneg Hk0) as [Hget Hinsert]. done.
Qed.

(** The same two failures with a default of 254, from the fresh tree.  The
    keys -1, 1, ..., 253 fill the root leaf and split it at its 254th entry;
    [Insert] of -1, which returned false before the last of them, is then
    undefined, the key being in the left leaf.  And once the keys 128 to 254
    of the right leaf of the tree of 1, ..., 254 are removed, the iteration
    from [Begin] fails the assertion of [KeyAt] after the 127 entries of the
    left leaf. *)
Lemma the_failures_with_a_default_of_254 :
  (tr ← insert_all 8 fresh_tree_254 (-1 :: (Z.of_nat <$> seq 1 252));
   '(_, res) ← Insert 8 tr (-1) 77; Ok res) = Ok false ∧
  (tr ← insert_all 8 fresh_tree_254 (-1 :: (Z.of_nat <$> seq 1 253));
   root ← fetch_header tr; rootpg ← fetch_internal tr root; leaf ← fetch_leaf tr 1;
   Ok (InternalPage.entries rootpg, take 2 (LeafPage.entries leaf),
       LeafPage.max_size_ leaf))
  = Ok ([(0, 1); (127, 2)], [(-1, -1); (1, 1)], 254) ∧
  (tr ← insert_all 8 fresh_tree_254 (-1 :: (Z.of_nat <$> seq 1 253));
   Insert 8 tr (-1) 77) = Fail Undefined ∧
  (tr ← insert_all 8 fresh_tree_254 (Z.of_nat <$> seq 1 254);
   tr ← remove_all 8 tr (Z.of_nat <$> seq 128 127);
   it ← Begin 8 tr;
   it ← IndexIterator.advance (fetch_leaf tr) 126 it;
   next_leaf ← fetch_leaf tr 2;
   Ok (it, LeafPage.size_ next_leaf, IndexIterator.incr (fetch_leaf tr) it))
  = Ok ({| IndexIterator.cur_page_id_ := 1; IndexIterator.index_ := 126;
           IndexIterator.entry_ := (127, 127) |}, 0, Fail (RuntimeError "assert")).
Proof.
  split; [vm_compute; reflexivity|]. split; [vm_compute; reflexivity|].
  split; vm_compute; reflexivity.
Qed.

End BPlusTreeDefects.
